(** * Pathfinding visualizer: search engine and playback scheduler

    A shallow embedding of [src/algorithms/pathfinding.ts] (the six grid
    searches with their shared neighbour and path-reconstruction helpers),
    of the scratch-state helpers of [src/utils/gridHelpers.ts], and of the
    playback scheduler of the [Grid] component (timeouts, pause, resume,
    stop, visualize), followed by the theorems that settle the
    specification's claims against them.

    Modelling conventions.
    - A [Node] object is mutable and shared by reference between the grid,
      the frontier arrays and the result arrays.  A reference is modelled by
      the position [(row, col)] at which the object sits in the grid (the
      fields [row] and [col] of every node built by [createGrid] are its
      indices, and no code ever changes them); the grid itself is the store:
      a list of rows of node records.  Reading a field through a reference is
      [getNode g p]; assigning a field is [setNode g p (set_... v)], and every
      function that mutates nodes returns the mutated grid.
    - JavaScript numbers held in [distance] and [heuristic] are integers or
      [Infinity]; they are modelled by [Num].
    - A [while] loop is run with fuel; [None] means that the fuel did not
      suffice.  [Returns f r] says that [f] yields [r] with any large enough
      fuel. *)

From Stdlib Require Import List Arith Bool ZArith Lia Permutation.
From Stdlib Require QArith String Lqa.
Import ListNotations.

Set Implicit Arguments.

(* ================================================================== *)
(** * Data model ([src/types/grid.types.ts]) *)
(* ================================================================== *)

Inductive CellType : Type :=
  | Empty | Wall | Start | EndCell | Visited | Path | Frontier.

Definition CellType_eqb (a b : CellType) : bool :=
  match a, b with
  | Empty, Empty | Wall, Wall | Start, Start | EndCell, EndCell
  | Visited, Visited | Path, Path | Frontier, Frontier => true
  | _, _ => false
  end.

(** JavaScript numbers as the searches use them: an integer or [Infinity]. *)
Inductive Num : Type :=
  | Fin (z : Z)
  | Infinity.

(** [a + b]. *)
Definition num_add (a b : Num) : Num :=
  match a, b with
  | Fin x, Fin y => Fin (x + y)
  | _, _ => Infinity
  end.

(** [a < b]. *)
Definition num_ltb (a b : Num) : bool :=
  match a, b with
  | Fin x, Fin y => (x <? y)%Z
  | Fin _, Infinity => true
  | Infinity, _ => false
  end.

(** [a === Infinity]. *)
Definition num_is_infinity (a : Num) : bool :=
  match a with Infinity => true | Fin _ => false end.

(** The sign of [a - b] as [Array.prototype.sort] reads a comparator's
    result: negative is [Lt], positive is [Gt], and both [0] and [NaN]
    ([Infinity - Infinity]) count as [Eq]. *)
Definition num_sub_sign (a b : Num) : comparison :=
  match a, b with
  | Fin x, Fin y => (x ?= y)%Z
  | Fin _, Infinity => Lt
  | Infinity, Fin _ => Gt
  | Infinity, Infinity => Eq
  end.

(** A reference to a node object: its [(row, col)]. *)
Definition Pos : Type := (nat * nat)%type.

Definition pos_eqb (a b : Pos) : bool :=
  (fst a =? fst b) && (snd a =? snd b).

Record Node : Type := mkNode {
  type : CellType;
  isVisited : bool;
  distance : Num;
  heuristic : Num;
  previousNode : option Pos
}.

Definition Grid : Type := list (list Node).

(** Field assignments. *)
Definition set_type (t : CellType) (n : Node) : Node :=
  mkNode t (isVisited n) (distance n) (heuristic n) (previousNode n).
Definition set_isVisited (b : bool) (n : Node) : Node :=
  mkNode (type n) b (distance n) (heuristic n) (previousNode n).
Definition set_distance (d : Num) (n : Node) : Node :=
  mkNode (type n) (isVisited n) d (heuristic n) (previousNode n).
Definition set_heuristic (h : Num) (n : Node) : Node :=
  mkNode (type n) (isVisited n) (distance n) h (previousNode n).
Definition set_previousNode (p : option Pos) (n : Node) : Node :=
  mkNode (type n) (isVisited n) (distance n) (heuristic n) p.

(** [createNode] of [gridHelpers.ts]. *)
Definition createNode : Node := mkNode Empty false Infinity (Fin 0) None.

(** [createGrid rows cols]. *)
Definition createGrid (rows cols : nat) : Grid :=
  repeat (repeat createNode cols) rows.

(** Update of the [n]-th element of an array. *)
Fixpoint upd_nth (A : Type) (n : nat) (f : A -> A) (l : list A) : list A :=
  match l, n with
  | [], _ => []
  | x :: t, O => f x :: t
  | x :: t, S m => x :: upd_nth m f t
  end.

(** [grid[row][col]]: the node a reference denotes.  The searches only
    dereference positions inside the grid; outside it the model answers
    with a fresh node. *)
Definition getNode (g : Grid) (p : Pos) : Node :=
  nth (snd p) (nth (fst p) g []) createNode.

(** A field assignment through a reference. *)
Definition setNode (g : Grid) (p : Pos) (f : Node -> Node) : Grid :=
  upd_nth (fst p) (upd_nth (snd p) f) g.

Definition setType (g : Grid) (p : Pos) (t : CellType) : Grid :=
  setNode g p (set_type t).

(** [placeStartAndEnd]. *)
Definition placeStartAndEnd (g : Grid) (startPos endPos : Pos) : Grid :=
  setType (setType g startPos Start) endPos EndCell.

(** [clearPath]: visualization kinds back to empty, scratch fields reset. *)
Definition clearPath (g : Grid) : Grid :=
  map (map (fun node =>
    mkNode (match type node with
            | Visited | Path | Frontier => Empty
            | t => t
            end) false Infinity (Fin 0) None)) g.

(** [node.type === 'wall'] *)
Definition is_wall (n : Node) : bool := CellType_eqb (type n) Wall.

(** The number of rows and of columns, as the code reads them:
    [grid.length] and [grid[0].length]. *)
Definition nrows (g : Grid) : nat := length g.
Definition ncols (g : Grid) : nat := length (nth 0 g []).

(* ================================================================== *)
(** * Shared helpers of [pathfinding.ts] *)
(* ================================================================== *)

Record PathfindingResult : Type := mkResult {
  visitedNodesInOrder : list Pos;
  shortestPath : list Pos;
  success : bool
}.

(** [getNeighbors]: up, right, down, left, those inside the grid. *)
Definition getNeighbors (node : Pos) (g : Grid) : list Pos :=
  let '(row, col) := node in
  (if 0 <? row then [(row - 1, col)] else []) ++
  (if col <? ncols g - 1 then [(row, col + 1)] else []) ++
  (if row <? nrows g - 1 then [(row + 1, col)] else []) ++
  (if 0 <? col then [(row, col - 1)] else []).

(** [manhattanDistance]. *)
Definition manhattanDistance (nodeA nodeB : Pos) : Num :=
  Fin (Z.abs (Z.of_nat (fst nodeA) - Z.of_nat (fst nodeB)) +
       Z.abs (Z.of_nat (snd nodeA) - Z.of_nat (snd nodeB))).

(** [reconstructPath]: the loop [while (currentNode !== null)], each round
    doing [path.unshift(currentNode)] and following [previousNode]. *)
Fixpoint reconstructPath_loop (fuel : nat) (g : Grid)
    (currentNode : option Pos) (path : list Pos) : option (list Pos) :=
  match currentNode with
  | None => Some path
  | Some c =>
      match fuel with
      | O => None
      | S fuel' =>
          reconstructPath_loop fuel' g (previousNode (getNode g c)) (c :: path)
      end
  end.

Definition reconstructPath (fuel : nat) (g : Grid) (endNode : Pos)
  : option (list Pos) :=
  reconstructPath_loop fuel g (Some endNode) [].

(** ** Loops with fuel *)

(** One round of a [while] loop either goes on with a new state or leaves
    the function. *)
Inductive Step (St R : Type) : Type :=
  | Continue (s : St)
  | Return (r : R).
Arguments Continue {St R} s.
Arguments Return {St R} r.

Fixpoint loop (St R : Type) (step : St -> Step St R) (fuel : nat) (s : St)
  : option R :=
  match fuel with
  | O => None
  | S fuel' =>
      match step s with
      | Continue s' => loop step fuel' s'
      | Return r => Some r
      end
  end.

(** How a search loop ends: the grid as the loop left it, the visit order,
    and whether the target was reached. *)
Record Outcome : Type := mkOutcome {
  out_grid : Grid;
  out_visited : list Pos;
  out_found : bool
}.

(** The two [return] statements shared by the five loop-based searches:
    on success the path is rebuilt from the target, otherwise it is empty.
    The mutated grid is returned next to the result. *)
Definition finish (fuel : nat) (endNode : Pos) (o : option Outcome)
  : option (PathfindingResult * Grid) :=
  match o with
  | None => None
  | Some (mkOutcome g visitedNodes true) =>
      match reconstructPath fuel g endNode with
      | None => None
      | Some p => Some (mkResult visitedNodes p true, g)
      end
  | Some (mkOutcome g visitedNodes false) =>
      Some (mkResult visitedNodes [] false, g)
  end.

(** [f] yields [r] whenever it is given enough fuel. *)
Definition Returns (A : Type) (f : nat -> option A) (r : A) : Prop :=
  exists n0, forall fuel, n0 <= fuel -> f fuel = Some r.

(** Stable sort under a comparator, as [Array.prototype.sort]. *)
Fixpoint sort_insert (A : Type) (cmp : A -> A -> comparison) (x : A)
    (l : list A) : list A :=
  match l with
  | [] => [x]
  | y :: t =>
      match cmp x y with
      | Gt => y :: sort_insert cmp x t
      | _ => x :: y :: t
      end
  end.

Fixpoint sort (A : Type) (cmp : A -> A -> comparison) (l : list A) : list A :=
  match l with
  | [] => []
  | x :: t => sort_insert cmp x (sort cmp t)
  end.

(* ================================================================== *)
(** * The six searches *)
(* ================================================================== *)

(** The state of a search loop: the grid, the frontier array and
    [visitedNodesInOrder]. *)
Definition SearchState : Type := (Grid * list Pos * list Pos)%type.

(** ** Breadth-first search *)

(** The body of [for (const neighbor of neighbors)] in [bfs]. *)
Definition bfs_neighbor (currentNode : Pos) (st : Grid * list Pos)
    (neighbor : Pos) : Grid * list Pos :=
  let '(g, queue) := st in
  if negb (isVisited (getNode g neighbor)) && negb (is_wall (getNode g neighbor))
  then
    let g1 := setNode g neighbor (set_isVisited true) in
    let g2 := setNode g1 neighbor (set_previousNode (Some currentNode)) in
    let g3 := setNode g2 neighbor
                (set_distance (num_add (distance (getNode g2 currentNode)) (Fin 1))) in
    (g3, queue ++ [neighbor])
  else st.

(** One round of [while (queue.length > 0)] in [bfs]. *)
Definition bfs_step (endNode : Pos) (st : SearchState)
  : Step SearchState Outcome :=
  let '(g, queue, visitedNodes) := st in
  match queue with
  | [] => Return (mkOutcome g visitedNodes false)
  | currentNode :: queue' =>
      if is_wall (getNode g currentNode) then Continue (g, queue', visitedNodes)
      else
        let visitedNodes' := visitedNodes ++ [currentNode] in
        if pos_eqb currentNode endNode
        then Return (mkOutcome g visitedNodes' true)
        else
          let '(g', queue'') :=
            fold_left (bfs_neighbor currentNode)
                      (getNeighbors currentNode g) (g, queue') in
          Continue (g', queue'', visitedNodes')
  end.

Definition bfs_init (g : Grid) (startNode : Pos) : SearchState :=
  let g1 := setNode g startNode (set_isVisited true) in
  let g2 := setNode g1 startNode (set_distance (Fin 0)) in
  (g2, [startNode], []).

Definition bfs (fuel : nat) (g : Grid) (startNode endNode : Pos)
  : option (PathfindingResult * Grid) :=
  finish fuel endNode (loop (bfs_step endNode) fuel (bfs_init g startNode)).

(** ** Depth-first search *)

(** The stack is kept top first: [stack.push(x)] is [x :: stack] and
    [stack.pop()] takes the head. *)
Definition dfs_neighbor (currentNode : Pos) (st : Grid * list Pos)
    (neighbor : Pos) : Grid * list Pos :=
  let '(g, stack) := st in
  if negb (isVisited (getNode g neighbor)) && negb (is_wall (getNode g neighbor))
  then
    let g1 := setNode g neighbor (set_isVisited true) in
    let g2 := setNode g1 neighbor (set_previousNode (Some currentNode)) in
    (g2, neighbor :: stack)
  else st.

Definition dfs_step (endNode : Pos) (st : SearchState)
  : Step SearchState Outcome :=
  let '(g, stack, visitedNodes) := st in
  match stack with
  | [] => Return (mkOutcome g visitedNodes false)
  | currentNode :: stack' =>
      if is_wall (getNode g currentNode) then Continue (g, stack', visitedNodes)
      else
        let visitedNodes' := visitedNodes ++ [currentNode] in
        if pos_eqb currentNode endNode
        then Return (mkOutcome g visitedNodes' true)
        else
          let '(g', stack'') :=
            fold_left (dfs_neighbor currentNode)
                      (rev (getNeighbors currentNode g)) (g, stack') in
          Continue (g', stack'', visitedNodes')
  end.

Definition dfs_init (g : Grid) (startNode : Pos) : SearchState :=
  (setNode g startNode (set_isVisited true), [startNode], []).

Definition dfs (fuel : nat) (g : Grid) (startNode endNode : Pos)
  : option (PathfindingResult * Grid) :=
  finish fuel endNode (loop (dfs_step endNode) fuel (dfs_init g startNode)).

(** ** A-star *)

(** [openSet.includes(neighbor)] *)
Definition includes (l : list Pos) (p : Pos) : bool := existsb (pos_eqb p) l.

(** The comparator of [astar]: the sign of [fA - fB]. *)
Definition astar_cmp (g : Grid) (a b : Pos) : comparison :=
  num_sub_sign (num_add (distance (getNode g a)) (heuristic (getNode g a)))
               (num_add (distance (getNode g b)) (heuristic (getNode g b))).

Definition astar_neighbor (currentNode endNode : Pos) (st : Grid * list Pos)
    (neighbor : Pos) : Grid * list Pos :=
  let '(g, openSet) := st in
  if isVisited (getNode g neighbor) || is_wall (getNode g neighbor) then st
  else
    let tentativeDistance := num_add (distance (getNode g currentNode)) (Fin 1) in
    if num_ltb tentativeDistance (distance (getNode g neighbor)) then
      let g1 := setNode g neighbor (set_distance tentativeDistance) in
      let g2 := setNode g1 neighbor
                  (set_heuristic (manhattanDistance neighbor endNode)) in
      let g3 := setNode g2 neighbor (set_previousNode (Some currentNode)) in
      if includes openSet neighbor then (g3, openSet)
      else (g3, openSet ++ [neighbor])
    else st.

Definition astar_step (endNode : Pos) (st : SearchState)
  : Step SearchState Outcome :=
  let '(g, openSet, visitedNodes) := st in
  match sort (astar_cmp g) openSet with
  | [] => Return (mkOutcome g visitedNodes false)
  | currentNode :: openSet' =>
      if is_wall (getNode g currentNode) then Continue (g, openSet', visitedNodes)
      else if isVisited (getNode g currentNode)
      then Continue (g, openSet', visitedNodes)
      else
        let g1 := setNode g currentNode (set_isVisited true) in
        let visitedNodes' := visitedNodes ++ [currentNode] in
        if pos_eqb currentNode endNode
        then Return (mkOutcome g1 visitedNodes' true)
        else
          let '(g', openSet'') :=
            fold_left (astar_neighbor currentNode endNode)
                      (getNeighbors currentNode g1) (g1, openSet') in
          Continue (g', openSet'', visitedNodes')
  end.

Definition astar_init (g : Grid) (startNode endNode : Pos) : SearchState :=
  let g1 := setNode g startNode (set_distance (Fin 0)) in
  let g2 := setNode g1 startNode
              (set_heuristic (manhattanDistance startNode endNode)) in
  (g2, [startNode], []).

Definition astar (fuel : nat) (g : Grid) (startNode endNode : Pos)
  : option (PathfindingResult * Grid) :=
  finish fuel endNode
    (loop (astar_step endNode) fuel (astar_init g startNode endNode)).

(** ** Greedy best-first search *)

Definition greedy_cmp (g : Grid) (a b : Pos) : comparison :=
  num_sub_sign (heuristic (getNode g a)) (heuristic (getNode g b)).

Definition greedy_neighbor (currentNode endNode : Pos) (st : Grid * list Pos)
    (neighbor : Pos) : Grid * list Pos :=
  let '(g, openSet) := st in
  if isVisited (getNode g neighbor) || is_wall (getNode g neighbor) then st
  else if num_is_infinity (heuristic (getNode g neighbor)) then
    let g1 := setNode g neighbor
                (set_heuristic (manhattanDistance neighbor endNode)) in
    let g2 := setNode g1 neighbor (set_previousNode (Some currentNode)) in
    (g2, openSet ++ [neighbor])
  else st.

Definition greedy_step (endNode : Pos) (st : SearchState)
  : Step SearchState Outcome :=
  let '(g, openSet, visitedNodes) := st in
  match sort (greedy_cmp g) openSet with
  | [] => Return (mkOutcome g visitedNodes false)
  | currentNode :: openSet' =>
      if is_wall (getNode g currentNode) then Continue (g, openSet', visitedNodes)
      else if isVisited (getNode g currentNode)
      then Continue (g, openSet', visitedNodes)
      else
        let g1 := setNode g currentNode (set_isVisited true) in
        let visitedNodes' := visitedNodes ++ [currentNode] in
        if pos_eqb currentNode endNode
        then Return (mkOutcome g1 visitedNodes' true)
        else
          let '(g', openSet'') :=
            fold_left (greedy_neighbor currentNode endNode)
                      (getNeighbors currentNode g1) (g1, openSet') in
          Continue (g', openSet'', visitedNodes')
  end.

Definition greedy_init (g : Grid) (startNode endNode : Pos) : SearchState :=
  (setNode g startNode (set_heuristic (manhattanDistance startNode endNode)),
   [startNode], []).

Definition greedyBFS (fuel : nat) (g : Grid) (startNode endNode : Pos)
  : option (PathfindingResult * Grid) :=
  finish fuel endNode
    (loop (greedy_step endNode) fuel (greedy_init g startNode endNode)).

(** ** Uniform-cost search *)

Definition ucs_cmp (g : Grid) (a b : Pos) : comparison :=
  num_sub_sign (distance (getNode g a)) (distance (getNode g b)).

Definition ucs_neighbor (currentNode : Pos) (st : Grid * list Pos)
    (neighbor : Pos) : Grid * list Pos :=
  let '(g, openSet) := st in
  if isVisited (getNode g neighbor) || is_wall (getNode g neighbor) then st
  else
    let tentativeDistance := num_add (distance (getNode g currentNode)) (Fin 1) in
    if num_ltb tentativeDistance (distance (getNode g neighbor)) then
      let g1 := setNode g neighbor (set_distance tentativeDistance) in
      let g2 := setNode g1 neighbor (set_previousNode (Some currentNode)) in
      if includes openSet neighbor then (g2, openSet)
      else (g2, openSet ++ [neighbor])
    else st.

Definition ucs_step (endNode : Pos) (st : SearchState)
  : Step SearchState Outcome :=
  let '(g, openSet, visitedNodes) := st in
  match sort (ucs_cmp g) openSet with
  | [] => Return (mkOutcome g visitedNodes false)
  | currentNode :: openSet' =>
      if is_wall (getNode g currentNode) then Continue (g, openSet', visitedNodes)
      else if isVisited (getNode g currentNode)
      then Continue (g, openSet', visitedNodes)
      else
        let g1 := setNode g currentNode (set_isVisited true) in
        let visitedNodes' := visitedNodes ++ [currentNode] in
        if pos_eqb currentNode endNode
        then Return (mkOutcome g1 visitedNodes' true)
        else
          let '(g', openSet'') :=
            fold_left (ucs_neighbor currentNode)
                      (getNeighbors currentNode g1) (g1, openSet') in
          Continue (g', openSet'', visitedNodes')
  end.

Definition ucs_init (g : Grid) (startNode : Pos) : SearchState :=
  (setNode g startNode (set_distance (Fin 0)), [startNode], []).

Definition uniformCostSearch (fuel : nat) (g : Grid) (startNode endNode : Pos)
  : option (PathfindingResult * Grid) :=
  finish fuel endNode (loop (ucs_step endNode) fuel (ucs_init g startNode)).

(** ** Iterative deepening *)

(** The [for] loop of [depthLimitedSearch] over the neighbours of
    [currentNode], with its early [return]; [call] is the recursive call
    [depthLimitedSearch(grid, neighbor, endNode, maxDepth, visitedNodes,
    depth + 1)].  The result is the [success] flag with the mutated grid
    and [visitedNodes]. *)
Fixpoint depthLimitedSearch_for
    (call : Grid -> Pos -> list Pos -> option (bool * Grid * list Pos))
    (currentNode : Pos) (neighbors : list Pos) (g : Grid)
    (visitedNodes : list Pos) : option (bool * Grid * list Pos) :=
  match neighbors with
  | [] => Some (false, g, visitedNodes)
  | neighbor :: rest =>
      if negb (isVisited (getNode g neighbor))
         && negb (is_wall (getNode g neighbor))
      then
        let g' := setNode g neighbor (set_previousNode (Some currentNode)) in
        match call g' neighbor visitedNodes with
        | None => None
        | Some (true, g'', visitedNodes'') => Some (true, g'', visitedNodes'')
        | Some (false, g'', visitedNodes'') =>
            depthLimitedSearch_for call currentNode rest g'' visitedNodes''
        end
      else depthLimitedSearch_for call currentNode rest g visitedNodes
  end.

(** [depthLimitedSearch]: the recursion is on the fuel. *)
Fixpoint depthLimitedSearch (fuel : nat) (g : Grid) (currentNode endNode : Pos)
    (maxDepth : nat) (visitedNodes : list Pos) (depth : nat)
  : option (bool * Grid * list Pos) :=
  match fuel with
  | O => None
  | S fuel' =>
      if is_wall (getNode g currentNode) then Some (false, g, visitedNodes)
      else
        let g1 := setNode g currentNode (set_isVisited true) in
        let visitedNodes1 := visitedNodes ++ [currentNode] in
        if pos_eqb currentNode endNode then Some (true, g1, visitedNodes1)
        else if maxDepth <=? depth then Some (false, g1, visitedNodes1)
        else
          depthLimitedSearch_for
            (fun g' neighbor visitedNodes' =>
               depthLimitedSearch fuel' g' neighbor endNode maxDepth
                 visitedNodes' (S depth))
            currentNode (getNeighbors currentNode g1) g1 visitedNodes1
  end.

(** The reset at the head of every outer round of [iterativeDeepening]. *)
Definition resetVisited (g : Grid) : Grid :=
  map (map (fun node => set_previousNode None (set_isVisited false node))) g.

(** The outer [for (maxDepth = 0; maxDepth < rows * cols; maxDepth++)]:
    [rounds] is the number of rounds still to run. *)
Fixpoint iterativeDeepening_loop (fuel rounds maxDepth : nat) (g : Grid)
    (startNode endNode : Pos) (allVisitedNodes : list Pos)
  : option (PathfindingResult * Grid) :=
  match rounds with
  | O => Some (mkResult allVisitedNodes [] false, g)
  | S rounds' =>
      let g0 := resetVisited g in
      match depthLimitedSearch fuel g0 startNode endNode maxDepth
              allVisitedNodes 0 with
      | None => None
      | Some (true, g1, allVisitedNodes1) =>
          match reconstructPath fuel g1 endNode with
          | None => None
          | Some p => Some (mkResult allVisitedNodes1 p true, g1)
          end
      | Some (false, g1, allVisitedNodes1) =>
          iterativeDeepening_loop fuel rounds' (S maxDepth) g1
            startNode endNode allVisitedNodes1
      end
  end.

Definition iterativeDeepening (fuel : nat) (g : Grid) (startNode endNode : Pos)
  : option (PathfindingResult * Grid) :=
  iterativeDeepening_loop fuel (nrows g * ncols g) 0 g startNode endNode [].

(* ================================================================== *)
(** * Test grids *)
(* ================================================================== *)

(** A grid from a picture: [#] is a wall, anything else an empty cell. *)
Definition cellOf (wallHere : bool) : Node :=
  if wallHere then set_type Wall createNode else createNode.

Definition gridOf (walls : list (list bool)) : Grid := map (map cellOf) walls.


(* ================================================================== *)
(** * Vocabulary of the specification *)
(* ================================================================== *)

(** The position lies within the grid: [0 <= row < R], [0 <= col < C]. *)
Definition inGrid (g : Grid) (p : Pos) : bool :=
  (fst p <? nrows g) && (snd p <? ncols g).

(** Every row has the length of row [0]. *)
Definition rectangular (g : Grid) : bool :=
  forallb (fun row => length row =? ncols g) g.

(** The per-run scratch state as the application hands it to a search:
    nothing visited, every distance infinite, no predecessor.  (The
    [heuristic] field is left free: [createNode] and [clearPath] put [0]
    there, the reset of [visualizeAlgorithm] puts [Infinity].) *)
Definition fresh_node (n : Node) : bool :=
  negb (isVisited n) && num_is_infinity (distance n)
  && match previousNode n with None => true | Some _ => false end.

Definition fresh (g : Grid) : bool := forallb (forallb fresh_node) g.

(** The kinds of all cells, row by row. *)
Definition layout (g : Grid) : list (list CellType) := map (map type) g.

(** One orthogonal step between two positions. *)
Definition step4 (p q : Pos) : bool :=
  ((fst p =? fst q) && ((snd p =? S (snd q)) || (snd q =? S (snd p)))) ||
  ((snd p =? snd q) && ((fst p =? S (fst q)) || (fst q =? S (fst p)))).

(** A cell of the grid that is not a wall. *)
Definition open_cell (g : Grid) (p : Pos) : bool :=
  inGrid g p && negb (is_wall (getNode g p)).

Fixpoint contiguous (l : list Pos) : bool :=
  match l with
  | a :: (b :: _) as t => step4 a b && contiguous t
  | _ => true
  end.

(** [l] is a 4-connected path of non-wall cells from [s] to [e]. *)
Definition is_path (g : Grid) (s e : Pos) (l : list Pos) : bool :=
  match l with [] => false | a :: _ => pos_eqb a s end
  && pos_eqb (last l s) e
  && forallb (open_cell g) l
  && contiguous l.

(** The same, built from the start outwards. *)
Inductive walk (g : Grid) (s : Pos) : Pos -> list Pos -> Prop :=
  | walk_start : open_cell g s = true -> walk g s s [s]
  | walk_snoc : forall q p l,
      walk g s q l -> step4 q p = true -> open_cell g p = true ->
      walk g s p (l ++ [p]).

(** [d] is the number of cells of a shortest path from [s] to [e]. *)
Definition shortest_cells (g : Grid) (s e : Pos) (d : nat) : Prop :=
  (exists l, is_path g s e l = true /\ length l = d) /\
  (forall l, is_path g s e l = true -> d <= length l).

(** Following [previousNode] from [p] reaches a node without predecessor
    after visiting exactly the nodes of [l], last to first. *)
Inductive chain (g : Grid) : Pos -> list Pos -> Prop :=
  | chain_root : forall p,
      previousNode (getNode g p) = None -> chain g p [p]
  | chain_link : forall p q l,
      previousNode (getNode g p) = Some q -> chain g q l ->
      chain g p (l ++ [p]).

(** [a <= b] on numbers, read off the comparator's sign. *)
Definition num_le (a b : Num) : Prop := num_sub_sign a b <> Gt.

(** A reference that really denotes a node of the store. *)
Definition inStore (g : Grid) (p : Pos) : Prop :=
  fst p < length g /\ snd p < length (nth (fst p) g []).

(** All positions of the grid, row by row. *)
Definition allCells (g : Grid) : list Pos :=
  list_prod (seq 0 (nrows g)) (seq 0 (ncols g)).

(** The number of cells that satisfy a test. *)
Definition countCells (g : Grid) (P : Pos -> bool) : nat :=
  length (filter P (allCells g)).

(** ** The two loop shapes

    [bfs] and [dfs] share one loop, as do [astar], [greedyBFS] and
    [uniformCostSearch]; the shared loops are written once, over the
    neighbour body (and, for the second, the comparator), so that what
    holds of the shape is proved once. *)

(** The loop of [bfs] and [dfs]: nodes are marked when they are pushed. *)
Definition scan_step
    (nbr : Pos -> Grid * list Pos -> Pos -> Grid * list Pos)
    (order : list Pos -> list Pos)
    (endNode : Pos) (st : SearchState) : Step SearchState Outcome :=
  let '(g, queue, visitedNodes) := st in
  match queue with
  | [] => Return (mkOutcome g visitedNodes false)
  | currentNode :: queue' =>
      if is_wall (getNode g currentNode) then Continue (g, queue', visitedNodes)
      else
        let visitedNodes' := visitedNodes ++ [currentNode] in
        if pos_eqb currentNode endNode
        then Return (mkOutcome g visitedNodes' true)
        else
          let '(g', queue'') :=
            fold_left (nbr currentNode)
                      (order (getNeighbors currentNode g)) (g, queue') in
          Continue (g', queue'', visitedNodes')
  end.

(** The loop of [astar], [greedyBFS] and [uniformCostSearch]: the open set
    is sorted, and nodes are marked when they are popped. *)
Definition best_step
    (cmp : Grid -> Pos -> Pos -> comparison)
    (nbr : Pos -> Grid * list Pos -> Pos -> Grid * list Pos)
    (endNode : Pos) (st : SearchState) : Step SearchState Outcome :=
  let '(g, openSet, visitedNodes) := st in
  match sort (cmp g) openSet with
  | [] => Return (mkOutcome g visitedNodes false)
  | currentNode :: openSet' =>
      if is_wall (getNode g currentNode) then Continue (g, openSet', visitedNodes)
      else if isVisited (getNode g currentNode)
      then Continue (g, openSet', visitedNodes)
      else
        let g1 := setNode g currentNode (set_isVisited true) in
        let visitedNodes' := visitedNodes ++ [currentNode] in
        if pos_eqb currentNode endNode
        then Return (mkOutcome g1 visitedNodes' true)
        else
          let '(g', openSet'') :=
            fold_left (nbr currentNode)
                      (getNeighbors currentNode g1) (g1, openSet') in
          Continue (g', openSet'', visitedNodes')
  end.

(** What a neighbour body may do to the node it examines. [g'] differs
    from [g] at [v] only, and there in scratch fields only. *)
Definition touches_only (g g' : Grid) (v : Pos) : Prop :=
  layout g' = layout g /\
  forall q, q <> v -> getNode g' q = getNode g q.

(** The neighbour bodies of [bfs] and [dfs]: either nothing happens, or
    the unvisited non-wall neighbour [v] is marked, linked to [u] and
    added to the frontier. *)
Definition discovers (u v : Pos) (st st' : Grid * list Pos) : Prop :=
  st' = st \/
  (isVisited (getNode (fst st) v) = false /\
   is_wall (getNode (fst st) v) = false /\
   touches_only (fst st) (fst st') v /\
   isVisited (getNode (fst st') v) = true /\
   previousNode (getNode (fst st') v) = Some u /\
   Permutation (snd st') (v :: snd st)).

(** The neighbour bodies of [astar], [greedyBFS] and [uniformCostSearch]:
    either nothing happens, or the unvisited non-wall neighbour [v] is
    linked to [u] and is in the open set afterwards, which has gained
    nothing else. *)
Definition relaxes (u v : Pos) (st st' : Grid * list Pos) : Prop :=
  st' = st \/
  (isVisited (getNode (fst st) v) = false /\
   is_wall (getNode (fst st) v) = false /\
   touches_only (fst st) (fst st') v /\
   isVisited (getNode (fst st') v) = false /\
   previousNode (getNode (fst st') v) = Some u /\
   (snd st' = snd st \/ snd st' = snd st ++ [v]) /\
   In v (snd st')).

(* ================================================================== *)
(** * Loop invariants *)
(* ================================================================== *)

(** [bfs] and [dfs], whatever the scratch state at the call: the layout
    is the initial one, every node that was popped or waits in the frontier
    is marked, and none of them occurs twice. *)
Definition scan_inv (g0 : Grid) (st : SearchState) : Prop :=
  let '(g, queue, visitedNodes) := st in
  layout g = layout g0 /\
  (forall p, In p (visitedNodes ++ queue) ->
     inGrid g0 p = true /\ isVisited (getNode g p) = true) /\
  NoDup (visitedNodes ++ queue).

(** Every marked node has a predecessor chain that is a path from the
    start through marked nodes. *)
Definition linked (g0 : Grid) (startNode : Pos) (g : Grid) : Prop :=
  forall p, isVisited (getNode g p) = true ->
    exists l, chain g p l /\ walk g0 startNode p l /\
              forall x, In x l -> isVisited (getNode g x) = true.

Definition scan_paths (g0 : Grid) (startNode : Pos) (st : SearchState)
  : Prop :=
  let '(g, _, _) := st in linked g0 startNode g.

(** The measure of [bfs] and [dfs]: frontier length plus unmarked cells. *)
Definition unmarked (g : Grid) (p : Pos) : bool :=
  negb (isVisited (getNode g p)).

Definition scan_mu (g0 : Grid) (st : SearchState) : nat :=
  let '(g, queue, _) := st in length queue + countCells g0 (unmarked g).

(** [astar], [greedyBFS] and [uniformCostSearch], whatever the scratch
    state at the call. *)
Definition best_inv (g0 : Grid) (st : SearchState) : Prop :=
  let '(g, openSet, visitedNodes) := st in
  layout g = layout g0 /\
  (forall p, In p openSet -> inGrid g0 p = true) /\
  (forall p, In p visitedNodes -> isVisited (getNode g p) = true) /\
  NoDup visitedNodes.

(** An unmarked node of the open set is the start, still without
    predecessor, or is linked to a marked node one step away. *)
Definition pending_ok (g0 : Grid) (startNode : Pos) (g : Grid)
    (openSet : list Pos) : Prop :=
  forall p, In p openSet -> isVisited (getNode g p) = false ->
    (p = startNode /\ previousNode (getNode g p) = None) \/
    (exists q, previousNode (getNode g p) = Some q /\
               isVisited (getNode g q) = true /\
               step4 q p = true /\ open_cell g0 p = true).

Definition best_paths (g0 : Grid) (startNode : Pos) (st : SearchState)
  : Prop :=
  let '(g, openSet, _) := st in
  linked g0 startNode g /\ pending_ok g0 startNode g openSet.

(** What the loops promise of their outcome. *)
Definition out_ok (g0 : Grid) (o : Outcome) : Prop :=
  layout (out_grid o) = layout g0 /\ NoDup (out_visited o).

Definition out_path (g0 : Grid) (startNode endNode : Pos) (o : Outcome)
  : Prop :=
  out_found o = true ->
  exists l, chain (out_grid o) endNode l /\ walk g0 startNode endNode l.

(** The loop of a search whose start is a wall: one round drops the
    start, the next one gives up. *)
Definition blocked (st : SearchState) (startNode : Pos) : Prop :=
  let '(g, frontier, visitedNodes) := st in
  is_wall (getNode g startNode) = true /\
  (frontier = [startNode] \/ frontier = []) /\ visitedNodes = [].

(** The measures of the three sorted searches.  [astar] and
    [uniformCostSearch]: twice the unmarked non-wall cells outside the open
    set, plus the length of the open set.  [greedyBFS]: the cells whose
    heuristic is still [Infinity], plus the length of the open set. *)
Definition waiting (g : Grid) (openSet : list Pos) (p : Pos) : bool :=
  negb (isVisited (getNode g p)) && negb (is_wall (getNode g p))
  && negb (includes openSet p).

Definition relax_mu (g0 g : Grid) (openSet : list Pos) : nat :=
  2 * countCells g0 (waiting g openSet) + length openSet.

Definition unrated (g : Grid) (p : Pos) : bool :=
  num_is_infinity (heuristic (getNode g p)).

Definition greedy_mu (g0 g : Grid) (openSet : list Pos) : nat :=
  countCells g0 (unrated g) + length openSet.

(** The number of cells: [grid.length * grid[0].length]. *)
Definition cells (g : Grid) : nat := nrows g * ncols g.

(** ** The searches as loops

    The main loop of a search, from the initial state the function sets
    up, without the final [reconstructPath]. *)
Definition bfs_loop (fuel : nat) (g : Grid) (startNode endNode : Pos)
  : option Outcome :=
  loop (bfs_step endNode) fuel (bfs_init g startNode).
Definition dfs_loop (fuel : nat) (g : Grid) (startNode endNode : Pos)
  : option Outcome :=
  loop (dfs_step endNode) fuel (dfs_init g startNode).
Definition astar_loop (fuel : nat) (g : Grid) (startNode endNode : Pos)
  : option Outcome :=
  loop (astar_step endNode) fuel (astar_init g startNode endNode).
Definition greedy_loop (fuel : nat) (g : Grid) (startNode endNode : Pos)
  : option Outcome :=
  loop (greedy_step endNode) fuel (greedy_init g startNode endNode).
Definition ucs_loop (fuel : nat) (g : Grid) (startNode endNode : Pos)
  : option Outcome :=
  loop (ucs_step endNode) fuel (ucs_init g startNode).

Definition MainLoop : Type := nat -> Grid -> Pos -> Pos -> option Outcome.
Definition Search : Type :=
  nat -> Grid -> Pos -> Pos -> option (PathfindingResult * Grid).

(** A search is its main loop followed by [finish]. *)
Definition search_of (L : MainLoop) : Search :=
  fun fuel g startNode endNode => finish fuel endNode (L fuel g startNode endNode).

(** What is proved of each main loop. *)
Definition loop_monotone (L : MainLoop) : Prop :=
  forall g s e n m o, L n g s e = Some o -> n <= m -> L m g s e = Some o.

(** Whatever the scratch state: kinds are kept and no node is recorded
    twice. *)
Definition loop_safe (L : MainLoop) : Prop :=
  forall g s e fuel o,
    rectangular g = true -> inGrid g s = true ->
    L fuel g s e = Some o -> out_ok g o.

(** Whatever the scratch state: the loop stops within [bound g] rounds. *)
Definition loop_stops (L : MainLoop) (bound : Grid -> nat) : Prop :=
  forall g s e fuel,
    rectangular g = true -> inGrid g s = true ->
    bound g < fuel -> exists o, L fuel g s e = Some o.

(** From a fresh scratch state: on success the target's predecessor chain
    is a path from the start. *)
Definition loop_links (L : MainLoop) : Prop :=
  forall g s e fuel o,
    rectangular g = true -> inGrid g s = true -> fresh g = true ->
    L fuel g s e = Some o -> out_path g s e o.

(** ** Iterative deepening *)

(** Marks only grow from [g] to [g'], and the predecessor of a node marked
    in [g] is the same in [g']. *)
Definition keeps_marked (g g' : Grid) : Prop :=
  forall p, isVisited (getNode g p) = true ->
    isVisited (getNode g' p) = true /\
    previousNode (getNode g' p) = previousNode (getNode g p).

(** The node [c] at recursion depth [d] hangs on a chain of [d + 1] nodes
    that is a path from the start, all marked except possibly [c]. *)
Definition on_stack (g0 : Grid) (startNode : Pos) (g : Grid) (c : Pos)
    (d : nat) : Prop :=
  exists l, chain g c l /\ walk g0 startNode c l /\ length l = S d /\
            forall x, In x l -> x = c \/ isVisited (getNode g x) = true.

(** What a call of [depthLimitedSearch] on [c] in [g] promises. *)
Definition dls_post (g0 : Grid) (startNode endNode : Pos) (maxDepth : nat)
    (g : Grid) (res : bool * Grid * list Pos) : Prop :=
  let '(found, g', _) := res in
  layout g' = layout g0 /\
  (found = true ->
     exists l, chain g' endNode l /\ walk g0 startNode endNode l /\
               length l <= S maxDepth) /\
  (found = false -> keeps_marked g g').

(** ** Shortest paths *)

Definition marked (g : Grid) (p : Pos) : Prop :=
  isVisited (getNode g p) = true.

(** Marks only grow from [g] to [g']. *)
Definition grows (g g' : Grid) : Prop :=
  forall x, marked g x -> marked g' x.

(** The node [x] got its mark between [g] and [g']. *)
Definition newly (g g' : Grid) (x : Pos) : Prop :=
  isVisited (getNode g x) = false /\ marked g' x.

(** The marked node [x] is not the target, and no step leads from it to
    an unmarked open cell. *)
Definition closed_at (g0 : Grid) (endNode : Pos) (g' : Grid) (x : Pos)
  : Prop :=
  x <> endNode /\
  forall y, step4 x y = true -> open_cell g0 y = true -> marked g' y.

(** The number of marked cells. *)
Definition markCount (g0 g : Grid) : nat :=
  countCells g0 (fun p => isVisited (getNode g p)).

(** What a failing call of [depthLimitedSearch] on [g] leaves: more marks,
    and every new one closed. *)
Definition dls_closed (g0 : Grid) (endNode : Pos) (g : Grid)
    (res : bool * Grid * list Pos) : Prop :=
  let '(found, g', _) := res in
  found = false ->
  grows g g' /\ forall x, newly g g' x -> closed_at g0 endNode g' x.

Definition dist_is (g : Grid) (p : Pos) (d : Z) : Prop :=
  distance (getNode g p) = Fin d.

(** The [distance] of a node is [0] if it has no predecessor, and one more
    than that of its marked predecessor otherwise. *)
Definition stepped (g : Grid) (p : Pos) : Prop :=
  (previousNode (getNode g p) = None /\ dist_is g p 0) \/
  (exists q d, previousNode (getNode g p) = Some q /\ marked g q /\
               dist_is g q d /\ dist_is g p (d + 1)).

(** The frontier of [bfs] holds the nodes of level [k], then those of
    level [k + 1]. *)
Definition two_levels (g : Grid) (k : Z) (queue : list Pos) : Prop :=
  exists A B, queue = A ++ B /\
    (forall x, In x A -> dist_is g x k) /\
    (forall x, In x B -> dist_is g x (k + 1)%Z).

Definition within (g : Grid) (p : Pos) (k : Z) : Prop :=
  exists d, dist_is g p d /\ (d <= k)%Z.

(** The nodes popped so far have seen all their open neighbours marked,
    at most one level further. *)
Definition expanded (g0 g : Grid) (u : Pos) : Prop :=
  forall v, step4 u v = true -> open_cell g0 v = true ->
    marked g v /\
    exists du dv, dist_is g u du /\ dist_is g v dv /\ (dv <= du + 1)%Z.

(** The invariant of [bfs] that makes its paths shortest. *)
Definition bfs_levels (g0 : Grid) (startNode endNode : Pos)
    (st : SearchState) : Prop :=
  let '(g, queue, visitedNodes) := st in
  marked g startNode /\ dist_is g startNode 0 /\
  (forall p, marked g p -> stepped g p) /\
  (exists k, two_levels g k queue /\
             (forall p, marked g p -> within g p (k + 1)) /\
             (forall p, In p visitedNodes -> within g p k)) /\
  (forall u, In u visitedNodes -> expanded g0 g u) /\
  (forall p, marked g p -> In p visitedNodes \/ In p queue) /\
  ~ In endNode visitedNodes.

(** The same while the neighbours of [c], a node of level [k], are being
    examined; [done] are those examined so far. *)
Definition bfs_fold_levels (g0 : Grid) (startNode : Pos)
    (visitedNodes : list Pos) (c : Pos) (k : Z) (done : list Pos)
    (st : Grid * list Pos) : Prop :=
  let '(g, queue) := st in
  scan_inv g0 (g, queue, visitedNodes ++ [c]) /\
  marked g startNode /\ dist_is g startNode 0 /\
  (forall p, marked g p -> stepped g p) /\
  dist_is g c k /\
  two_levels g k queue /\
  (forall p, marked g p -> within g p (k + 1)) /\
  (forall p, In p (visitedNodes ++ [c]) -> within g p k) /\
  (forall u, In u visitedNodes -> expanded g0 g u) /\
  (forall v, In v done -> open_cell g0 v = true -> marked g v) /\
  (forall p, marked g p -> In p (visitedNodes ++ [c]) \/ In p queue).

(** What an optimal loop promises: on success the target's chain is a
    shortest path, and it fails only when there is no path. *)
Definition out_optimal (g0 : Grid) (startNode endNode : Pos) (o : Outcome)
  : Prop :=
  (out_found o = true ->
     exists le, chain (out_grid o) endNode le /\
                walk g0 startNode endNode le /\
                forall l, walk g0 startNode endNode l ->
                          length le <= length l) /\
  (out_found o = false -> forall l, ~ walk g0 startNode endNode l).

Definition loop_optimal (L : MainLoop) : Prop :=
  forall g s e fuel o,
    rectangular g = true -> inGrid g s = true -> fresh g = true ->
    L fuel g s e = Some o -> out_optimal g s e o.

(** The search is optimal on this input: it returns, and whenever paths
    exist it succeeds with one of the least number of cells. *)
Definition optimal_on (search : Search) (g : Grid) (startNode endNode : Pos)
  : Prop :=
  forall d, shortest_cells g startNode endNode d ->
    exists r g',
      Returns (fun fuel => search fuel g startNode endNode) (r, g') /\
      success r = true /\ length (shortestPath r) = d.

(** ** The relaxing searches: [uniformCostSearch] and [astar] *)

(** The neighbour body the two share; [newH neighbor n] is the heuristic
    the relaxed node [n] gets ([astar] computes it, [uniformCostSearch]
    leaves it). *)
Definition relax_neighbor (newH : Pos -> Node -> Num) (currentNode : Pos)
    (st : Grid * list Pos) (neighbor : Pos) : Grid * list Pos :=
  let '(g, openSet) := st in
  if isVisited (getNode g neighbor) || is_wall (getNode g neighbor) then st
  else if num_ltb (num_add (distance (getNode g currentNode)) (Fin 1))
                  (distance (getNode g neighbor))
  then (setNode g neighbor (fun n =>
          mkNode (type n) (isVisited n)
                 (num_add (distance (getNode g currentNode)) (Fin 1))
                 (newH neighbor n) (Some currentNode)),
        if includes openSet neighbor then openSet else openSet ++ [neighbor])
  else st.

(** The comparator of a sort by the key [K] of the nodes. *)
Definition key_cmp (K : Node -> Num) (g : Grid) (a b : Pos) : comparison :=
  num_sub_sign (K (getNode g a)) (K (getNode g b)).

(** The keys and the heuristic of the two searches. *)
Definition astar_key (n : Node) : Num := num_add (distance n) (heuristic n).
Definition ucs_key (n : Node) : Num := distance n.
Definition manhattan (e p : Pos) : Z :=
  Z.abs (Z.of_nat (fst p) - Z.of_nat (fst e)) +
  Z.abs (Z.of_nat (snd p) - Z.of_nat (snd e)).

(** The node has a finite distance [d] and the key [d + hh p]. *)
Definition keyed (K : Node -> Num) (hh : Pos -> Z) (g : Grid) (p : Pos)
  : Prop :=
  exists d, dist_is g p d /\ K (getNode g p) = Fin (d + hh p).

(** The edge from the marked node [u] to [v] has been relaxed. *)
Definition relaxed (g : Grid) (openSet : list Pos) (u v : Pos) : Prop :=
  marked g v \/
  (In v openSet /\
   exists du dv, dist_is g u du /\ dist_is g v dv /\ (dv <= du + 1)%Z).

Definition settled (g0 g : Grid) (openSet : list Pos) (u : Pos) : Prop :=
  forall v, step4 u v = true -> open_cell g0 v = true ->
    relaxed g openSet u v.

(** No path from the start to [p] has fewer steps than [distance]. *)
Definition exact (g0 : Grid) (startNode : Pos) (g : Grid) (p : Pos) : Prop :=
  forall l, walk g0 startNode p l ->
    within g p (Z.of_nat (length l) - 1).

Definition relax_core (K : Node -> Num) (hh : Pos -> Z) (g0 : Grid)
    (startNode : Pos) (g : Grid) (openSet : list Pos) : Prop :=
  (forall p, In p openSet -> ~ marked g p ->
     keyed K hh g p /\ stepped g p) /\
  (forall p, marked g p -> stepped g p /\ exact g0 startNode g p) /\
  (forall v, ~ marked g v -> is_wall (getNode g v) = false ->
     distance (getNode g v) = Infinity \/ In v openSet).

Definition relax_levels (K : Node -> Num) (hh : Pos -> Z) (g0 : Grid)
    (startNode endNode : Pos) (st : SearchState) : Prop :=
  let '(g, openSet, _) := st in
  relax_core K hh g0 startNode g openSet /\
  (forall u, marked g u -> settled g0 g openSet u) /\
  (marked g startNode \/
   (openSet = [startNode] /\ dist_is g startNode 0 /\
    forall p, ~ marked g p)) /\
  ~ marked g endNode.

(** While the neighbours of the marked node [c], at distance [dc], are
    examined; [gs] is the grid when the examination began and [done] the
    neighbours examined so far. *)
Definition relax_fold (K : Node -> Num) (hh : Pos -> Z) (g0 : Grid)
    (startNode : Pos) (gs : Grid) (c : Pos) (dc : Z) (done : list Pos)
    (st : Grid * list Pos) : Prop :=
  let '(g, openSet) := st in
  layout g = layout g0 /\
  (forall p, isVisited (getNode g p) = isVisited (getNode gs p)) /\
  relax_core K hh g0 startNode g openSet /\
  marked g c /\ dist_is g c dc /\
  (forall u, marked g u -> u <> c -> settled g0 g openSet u) /\
  (forall v, In v done -> open_cell g0 v = true -> relaxed g openSet c v).

(* ================================================================== *)
(** * Example grids *)
(* ================================================================== *)

(** The six searches. *)
Definition sixSearches : list Search :=
  [bfs; dfs; uniformCostSearch; astar; greedyBFS; iterativeDeepening].

(** A region of the grid that no step leaves: from an open cell of the
    region, every open neighbour is in the region. *)
Definition closed_region (g : Grid) (region : Pos -> bool) : bool :=
  forallb (fun p =>
    implb (region p && open_cell g p)
          (forallb (fun q => implb (open_cell g q) (region q))
                   (getNeighbors p g)))
    (allCells g).

(** Three rows of five cells; the fourth column is walled above and below
    the middle row.  Start [(1, 1)], target [(1, 4)]. *)
Definition gateGrid : Grid :=
  placeStartAndEnd
    (gridOf [[false; false; false; true; false];
             [false; false; false; false; false];
             [false; false; false; true; false]])
    (1, 1) (1, 4).

(** Two rows of three cells, the middle column walled: the target
    [(0, 2)] cannot be reached from the start [(0, 0)]. *)
Definition splitGrid : Grid :=
  placeStartAndEnd
    (gridOf [[false; true; false];
             [false; true; false]])
    (0, 0) (0, 2).

Definition leftColumn (p : Pos) : bool := snd p =? 0.

(** Two rows of three cells without walls, as [createGrid] and
    [placeStartAndEnd] build them. *)
Definition plainGrid : Grid := placeStartAndEnd (createGrid 2 3) (0, 0) (1, 2).

(** Reading off a run: whether it returned, its [success] flag, its path,
    its visit order and the grid it left. *)
Definition ran (A : Type) (x : option A) : bool :=
  match x with Some _ => true | None => false end.

Definition run_success (x : option (PathfindingResult * Grid)) : bool :=
  match x with Some (r, _) => success r | None => false end.

Definition run_path (x : option (PathfindingResult * Grid)) : list Pos :=
  match x with Some (r, _) => shortestPath r | None => [] end.

Definition run_visited (x : option (PathfindingResult * Grid)) : list Pos :=
  match x with Some (r, _) => visitedNodesInOrder r | None => [] end.

Definition run_grid (x : option (PathfindingResult * Grid)) : Grid :=
  match x with Some (_, g) => g | None => [] end.

(* ================================================================== *)
(** * The playback scheduler (the [Grid] component) *)
(* ================================================================== *)

(** The component is modelled as one record: its React state ([grid], the
    four flags, the positions), its refs ([animationTimeouts],
    [currentAnimationIndex], [animationData]) and the part of the browser
    it talks to, the table of pending timeouts with the clock.

    Conventions.
    - A state setter takes effect at once, and a handler reads the state
      of its call: re-rendering is not modelled.  The one closure that the
      code lets go stale is kept stale: the timeout of [visualizeAlgorithm]
      searches the grid of the render in which the button was pressed,
      not the grid that the reset just before has produced.
    - The props do not change during the life of the component.
    - A callback passed to [setTimeout] is data: the constructor says
      which arrow function it is, its arguments are what the function has
      captured.  [fire] runs the callback that is due first.
    - The [Node] objects of a search result live in the grid that was
      searched; the [type] that [animateAlgorithm] reads through a result
      node is the type in that grid, which no frame ever changes (frames
      write to copies).  [resumeVisualization] reads the type in the
      displayed grid instead.
    - The signals to the parent ([onVisualizationStart],
      [onVisualizationEnd], [onPauseStateChange]) and the mouse handlers
      are left out. *)

(** ** Time *)

(** Milliseconds, exact: [500 / speed] is not an integer for every
    speed. *)
Definition Time : Type := QArith_base.Q.

Definition time_add : Time -> Time -> Time := QArith_base.Qplus.
Definition time_mul : Time -> Time -> Time := QArith_base.Qmult.
Definition time_leb : Time -> Time -> bool := QArith_base.Qle_bool.
Definition ms (z : Z) : Time := QArith_base.inject_Z z.
Definition count (n : nat) : Time := ms (Z.of_nat n).

(** ** Props, refs and timers *)

Record GridProps : Type := mkProps {
  rows : nat;
  cols : nat;
  selectedAlgorithm : String.string;
  speed : positive
}.

(** [animationData.current]: the two arrays of a search result, with the
    grid their nodes are cells of. *)
Record AnimationData : Type := mkAnimationData {
  nodes : Grid;
  visitedNodes : list Pos;
  shortestPathNodes : list Pos
}.

(** The arrow functions handed to [setTimeout]. *)
Inductive Callback : Type :=
  | RunSearch (searched : Grid) (startNode endNode : Pos)
      (** [visualizeAlgorithm], the timeout of 50 ms *)
  | VisitedFrame (searched : Grid) (visited : list Pos) (node : Pos)
      (index : nat)
      (** [animateAlgorithm], one per visited node *)
  | ClearFrontiers
      (** [animateAlgorithm] and [resumeVisualization] *)
  | PathFrame (searched : Grid) (node : Pos)
      (** [animateAlgorithm], one per path node *)
  | Complete
      (** [animateAlgorithm], the last timeout *)
  | ResumedVisitedFrame (visited : list Pos) (node : Pos) (i : nat)
      (** [resumeVisualization], one per remaining visited node *)
  | ResumedPathFrame (node : Pos)
      (** [resumeVisualization], one per path node *)
  | ResumedComplete.
      (** [resumeVisualization], the last timeout *)

Record Timer : Type := mkTimer {
  timer_id : nat;
  fireAt : Time;
  callback : Callback
}.

Record GridComponent : Type := mkComponent {
  props : GridProps;
  (* state *)
  grid : Grid;
  isVisualizing : bool;
  isPaused : bool;
  canPause : bool;
  animationCompleted : bool;
  startPos : Pos;
  endPos : Pos;
  (* refs *)
  animationTimeouts : list nat;
  currentAnimationIndex : nat;
  animationData : option AnimationData;
  (* browser *)
  timers : list Timer;
  nextTimer : nat;
  now : Time
}.

Definition setGrid (g : Grid) (c : GridComponent) : GridComponent :=
  mkComponent (props c) g (isVisualizing c) (isPaused c) (canPause c)
    (animationCompleted c) (startPos c) (endPos c) (animationTimeouts c)
    (currentAnimationIndex c) (animationData c) (timers c) (nextTimer c)
    (now c).

Definition setIsVisualizing (b : bool) (c : GridComponent) : GridComponent :=
  mkComponent (props c) (grid c) b (isPaused c) (canPause c)
    (animationCompleted c) (startPos c) (endPos c) (animationTimeouts c)
    (currentAnimationIndex c) (animationData c) (timers c) (nextTimer c)
    (now c).

Definition setIsPaused (b : bool) (c : GridComponent) : GridComponent :=
  mkComponent (props c) (grid c) (isVisualizing c) b (canPause c)
    (animationCompleted c) (startPos c) (endPos c) (animationTimeouts c)
    (currentAnimationIndex c) (animationData c) (timers c) (nextTimer c)
    (now c).

Definition setCanPause (b : bool) (c : GridComponent) : GridComponent :=
  mkComponent (props c) (grid c) (isVisualizing c) (isPaused c) b
    (animationCompleted c) (startPos c) (endPos c) (animationTimeouts c)
    (currentAnimationIndex c) (animationData c) (timers c) (nextTimer c)
    (now c).

Definition setAnimationCompleted (b : bool) (c : GridComponent)
  : GridComponent :=
  mkComponent (props c) (grid c) (isVisualizing c) (isPaused c) (canPause c)
    b (startPos c) (endPos c) (animationTimeouts c)
    (currentAnimationIndex c) (animationData c) (timers c) (nextTimer c)
    (now c).

Definition setStartPos (p : Pos) (c : GridComponent) : GridComponent :=
  mkComponent (props c) (grid c) (isVisualizing c) (isPaused c) (canPause c)
    (animationCompleted c) p (endPos c) (animationTimeouts c)
    (currentAnimationIndex c) (animationData c) (timers c) (nextTimer c)
    (now c).

Definition setEndPos (p : Pos) (c : GridComponent) : GridComponent :=
  mkComponent (props c) (grid c) (isVisualizing c) (isPaused c) (canPause c)
    (animationCompleted c) (startPos c) p (animationTimeouts c)
    (currentAnimationIndex c) (animationData c) (timers c) (nextTimer c)
    (now c).

Definition set_animationTimeouts (l : list nat) (c : GridComponent)
  : GridComponent :=
  mkComponent (props c) (grid c) (isVisualizing c) (isPaused c) (canPause c)
    (animationCompleted c) (startPos c) (endPos c) l
    (currentAnimationIndex c) (animationData c) (timers c) (nextTimer c)
    (now c).

Definition set_currentAnimationIndex (i : nat) (c : GridComponent)
  : GridComponent :=
  mkComponent (props c) (grid c) (isVisualizing c) (isPaused c) (canPause c)
    (animationCompleted c) (startPos c) (endPos c) (animationTimeouts c)
    i (animationData c) (timers c) (nextTimer c) (now c).

Definition set_animationData (d : option AnimationData) (c : GridComponent)
  : GridComponent :=
  mkComponent (props c) (grid c) (isVisualizing c) (isPaused c) (canPause c)
    (animationCompleted c) (startPos c) (endPos c) (animationTimeouts c)
    (currentAnimationIndex c) d (timers c) (nextTimer c) (now c).

Definition set_timers (l : list Timer) (c : GridComponent) : GridComponent :=
  mkComponent (props c) (grid c) (isVisualizing c) (isPaused c) (canPause c)
    (animationCompleted c) (startPos c) (endPos c) (animationTimeouts c)
    (currentAnimationIndex c) (animationData c) l (nextTimer c) (now c).

Definition set_nextTimer (n : nat) (c : GridComponent) : GridComponent :=
  mkComponent (props c) (grid c) (isVisualizing c) (isPaused c) (canPause c)
    (animationCompleted c) (startPos c) (endPos c) (animationTimeouts c)
    (currentAnimationIndex c) (animationData c) (timers c) n (now c).

Definition set_now (t : Time) (c : GridComponent) : GridComponent :=
  mkComponent (props c) (grid c) (isVisualizing c) (isPaused c) (canPause c)
    (animationCompleted c) (startPos c) (endPos c) (animationTimeouts c)
    (currentAnimationIndex c) (animationData c) (timers c) (nextTimer c) t.

(** ** [window.setTimeout] and [clearTimeout] *)

(** The new timer is due [delay] after now; the result is its id. *)
Definition setTimeout (cb : Callback) (delay : Time) (c : GridComponent)
  : nat * GridComponent :=
  (nextTimer c,
   set_nextTimer (S (nextTimer c))
     (set_timers
        (timers c ++ [mkTimer (nextTimer c) (time_add (now c) delay) cb])
        c)).

Definition clearTimeout (timeout : nat) (c : GridComponent) : GridComponent :=
  set_timers (filter (fun t => negb (timer_id t =? timeout)) (timers c)) c.

(** [const timeout = window.setTimeout(cb, delay);
     animationTimeouts.current.push(timeout)] *)
Definition schedule (cb : Callback) (delay : Time) (c : GridComponent)
  : GridComponent :=
  let '(timeout, c1) := setTimeout cb delay c in
  set_animationTimeouts (animationTimeouts c1 ++ [timeout]) c1.

(** [array.forEach((x, index) => ...)] over the component. *)
Fixpoint forEach (A : Type) (f : A -> nat -> GridComponent -> GridComponent)
    (l : list A) (index : nat) (c : GridComponent) : GridComponent :=
  match l with
  | [] => c
  | x :: rest => forEach f rest (S index) (f x index c)
  end.

(** ** Grids of [gridHelpers.ts] and of the frames *)

(** [resetGrid]. *)
Definition resetGrid (rows cols : nat) : Grid :=
  placeStartAndEnd (createGrid rows cols)
    (rows / 2, cols / 4) (rows / 2, (cols * 3) / 4).

(** [clearWalls]. *)
Definition clearWalls (g : Grid) : Grid :=
  map (map (fun node =>
    if CellType_eqb (type node) Wall then set_type Empty node else node)) g.

(** The reset at the head of [visualizeAlgorithm]. *)
Definition resetForRun (g : Grid) : Grid :=
  map (map (fun node =>
    mkNode (match type node with
            | Visited | Path => Empty
            | t => t
            end) false Infinity Infinity None)) g.

(** [for (const row of newGrid) for (const n of row)
       if (n.type === 'frontier') n.type = 'empty'] *)
Definition clearFrontiers (g : Grid) : Grid :=
  map (map (fun n =>
    if CellType_eqb (type n) Frontier then set_type Empty n else n)) g.

(** [t !== 'start' && t !== 'end'] *)
Definition notStartOrEnd (t : CellType) : bool :=
  negb (CellType_eqb t Start) && negb (CellType_eqb t EndCell).

(** [Math.min(8, visitedNodes.length - index - 1)] *)
Definition frontierCount (visited : list Pos) (index : nat) : nat :=
  Nat.min 8 (length visited - index - 1).

(** The frontier preview of [animateAlgorithm]: the next nodes of the visit
    order, tested on the type of the result node. *)
Definition showFrontier (searched : Grid) (visited : list Pos) (index : nat)
    (newGrid : Grid) : Grid :=
  fold_left
    (fun g i =>
       match nth_error visited (index + i) with
       | Some nextNode =>
           if notStartOrEnd (type (getNode searched nextNode))
              && negb (CellType_eqb (type (getNode searched nextNode))
                                    Visited)
           then setType g nextNode Frontier
           else g
       | None => g
       end)
    (seq 1 (frontierCount visited index)) newGrid.

(** The grid update of a visited frame of [animateAlgorithm]. *)
Definition visitedFrame (searched : Grid) (visited : list Pos) (node : Pos)
    (index : nat) (prevGrid : Grid) : Grid :=
  showFrontier searched visited index
    (clearFrontiers (setType prevGrid node Visited)).

(** The frontier preview of [resumeVisualization], tested on the displayed
    cell. *)
Definition showFrontier_resumed (visited : list Pos) (i : nat)
    (newGrid : Grid) : Grid :=
  fold_left
    (fun g j =>
       match nth_error visited (i + j) with
       | Some nextNode =>
           if notStartOrEnd (type (getNode g nextNode))
              && negb (CellType_eqb (type (getNode g nextNode)) Visited)
           then setType g nextNode Frontier
           else g
       | None => g
       end)
    (seq 1 (frontierCount visited i)) newGrid.

(** The grid update of a visited frame of [resumeVisualization]. *)
Definition visitedFrame_resumed (visited : list Pos) (node : Pos) (i : nat)
    (prevGrid : Grid) : Grid :=
  showFrontier_resumed visited i
    (clearFrontiers
       (if notStartOrEnd (type (getNode prevGrid node))
        then setType prevGrid node Visited
        else prevGrid)).

(** ** The handlers *)

(** [getAlgorithmFunction]. *)
Section AlgorithmNames.

Import String.StringSyntax.
Local Open Scope string_scope.

Definition getAlgorithmFunction (selected : String.string) : Search :=
  if String.eqb selected "bfs" then bfs
  else if String.eqb selected "dfs" then dfs
  else if String.eqb selected "astar" then astar
  else if String.eqb selected "greedy-bfs" then greedyBFS
  else bfs.

(** The props of the examples: three rows of four cells, breadth-first
    search, speed 5. *)
Definition demoProps : GridProps := mkProps 3 4 "bfs" 5.

End AlgorithmNames.

(** The component as it is mounted. *)
Definition mount (p : GridProps) : GridComponent :=
  mkComponent p (resetGrid (rows p) (cols p)) false false false false
    (rows p / 2, cols p / 4) (rows p / 2, (cols p * 3) / 4)
    [] 0 None [] 1 (ms 0).

(** [clearAnimations]. *)
Definition clearAnimations (c : GridComponent) : GridComponent :=
  let c1 := fold_left (fun c' timeout => clearTimeout timeout c')
                      (animationTimeouts c) c in
  set_animationData None
    (set_currentAnimationIndex 0 (set_animationTimeouts [] c1)).

(** [stopVisualization]. *)
Definition stopVisualization (c : GridComponent) : GridComponent :=
  setAnimationCompleted true
    (setCanPause false
       (setIsPaused false (setIsVisualizing false (clearAnimations c)))).

(** [pauseVisualization]. *)
Definition pauseVisualization (c : GridComponent) : GridComponent :=
  if negb (canPause c) || negb (isVisualizing c) then c
  else clearAnimations (setIsPaused true c).

(** [const delay = baseDelay / speed] *)
Definition delayOf (c : GridComponent) : Time :=
  QArith_base.Qmake 500 (speed (props c)).

(** [resumeVisualization]. *)
Definition resumeVisualization (c : GridComponent) : GridComponent :=
  match animationData c with
  | Some data =>
      if negb (isPaused c) then c
      else
        let c1 := setCanPause true (setIsPaused false c) in
        let visited := visitedNodes data in
        let startIndex := currentAnimationIndex c1 in
        let delay := delayOf c1 in
        let c2 :=
          fold_left
            (fun c' i =>
               match nth_error visited i with
               | Some node =>
                   schedule (ResumedVisitedFrame visited node i)
                     (time_mul delay (count (i - startIndex))) c'
               | None => c'
               end)
            (seq startIndex (length visited - startIndex)) c1 in
        let clearFrontiersDelay :=
          time_mul delay
            (ms (Z.of_nat (length visited) - Z.of_nat startIndex)) in
        let c3 := schedule ClearFrontiers clearFrontiersDelay c2 in
        let pathDelay := time_add clearFrontiersDelay (ms 50) in
        let c4 :=
          forEach
            (fun node index =>
               schedule (ResumedPathFrame node)
                 (time_add pathDelay
                    (time_mul (time_mul delay (count index)) (ms 3))))
            (shortestPathNodes data) 0 c3 in
        schedule ResumedComplete
          (time_add
             (time_add pathDelay
                (time_mul
                   (time_mul delay (count (length (shortestPathNodes data))))
                   (ms 3)))
             (ms 100))
          c4
  | None => c
  end.

(** [animateAlgorithm]; [searched] is the grid the nodes of the two arrays
    are cells of. *)
Definition animateAlgorithm (searched : Grid)
    (visitedNodesInOrder shortestPath : list Pos) (c : GridComponent)
  : GridComponent :=
  let c1 :=
    set_animationData
      (Some (mkAnimationData searched visitedNodesInOrder shortestPath)) c in
  let delay := delayOf c1 in
  let c2 := setCanPause true c1 in
  let c3 :=
    forEach
      (fun node index =>
         schedule (VisitedFrame searched visitedNodesInOrder node index)
           (time_mul delay (count index)))
      visitedNodesInOrder 0 c2 in
  let c4 :=
    schedule ClearFrontiers
      (time_mul delay (count (length visitedNodesInOrder))) c3 in
  let pathDelay :=
    time_add (time_mul delay (count (length visitedNodesInOrder))) (ms 50) in
  let c5 :=
    forEach
      (fun node index =>
         schedule (PathFrame searched node)
           (time_add pathDelay
              (time_mul (time_mul delay (count index)) (ms 3))))
      shortestPath 0 c4 in
  schedule Complete
    (time_add
       (time_add pathDelay
          (time_mul (time_mul delay (count (length shortestPath))) (ms 3)))
       (ms 100))
    c5.

(** [visualizeAlgorithm].  Its timeout is not pushed on
    [animationTimeouts]. *)
Definition visualizeAlgorithm (c : GridComponent) : GridComponent :=
  if isVisualizing c || animationCompleted c then c
  else
    let c1 := clearAnimations c in
    let c2 := setGrid (resetForRun (grid c1)) c1 in
    let c3 := setIsVisualizing true c2 in
    snd (setTimeout (RunSearch (grid c) (startPos c) (endPos c)) (ms 50) c3).

(** [handleClearWalls]. *)
Definition handleClearWalls (c : GridComponent) : GridComponent :=
  let c1 :=
    setAnimationCompleted false
      (setCanPause false
         (setIsPaused false (setIsVisualizing false (clearAnimations c)))) in
  setGrid (clearWalls (grid c1)) c1.

(** [handleReset]. *)
Definition handleReset (c : GridComponent) : GridComponent :=
  let c1 :=
    setAnimationCompleted false
      (setCanPause false
         (setIsPaused false (setIsVisualizing false (clearAnimations c)))) in
  let r := rows (props c) in
  let k := cols (props c) in
  setEndPos (r / 2, (k * 3) / 4)
    (setStartPos (r / 2, k / 4) (setGrid (resetGrid r k) c1)).

(** The effect on [pauseTrigger]: the one button pauses and resumes. *)
Definition onPauseTrigger (c : GridComponent) : GridComponent :=
  if isPaused c then resumeVisualization c else pauseVisualization c.

(** ** Running the callbacks *)

(** The body of each arrow function. *)
Definition runCallback (fuel : nat) (cb : Callback) (c : GridComponent)
  : option GridComponent :=
  match cb with
  | RunSearch searched startNode endNode =>
      match getAlgorithmFunction (selectedAlgorithm (props c)) fuel
              searched startNode endNode with
      | Some (result, searched') =>
          Some (animateAlgorithm searched' (visitedNodesInOrder result)
                  (shortestPath result) c)
      | None => None
      end
  | VisitedFrame searched visited node index =>
      let c1 := set_currentAnimationIndex index c in
      if notStartOrEnd (type (getNode searched node))
      then Some (setGrid (visitedFrame searched visited node index (grid c1))
                   c1)
      else Some c1
  | ClearFrontiers => Some (setGrid (clearFrontiers (grid c)) c)
  | PathFrame searched node =>
      if notStartOrEnd (type (getNode searched node))
      then Some (setGrid (setType (grid c) node Path) c)
      else Some c
  | Complete =>
      Some (setAnimationCompleted true
              (set_animationData None
                 (setCanPause false
                    (setIsPaused false (setIsVisualizing false c)))))
  | ResumedVisitedFrame visited node i =>
      let c1 := set_currentAnimationIndex (i + 1) c in
      Some (setGrid (visitedFrame_resumed visited node i (grid c1)) c1)
  | ResumedPathFrame node =>
      Some (setGrid
              (if notStartOrEnd (type (getNode (grid c) node))
               then setType (grid c) node Path
               else grid c)
              c)
  | ResumedComplete =>
      Some (set_currentAnimationIndex 0
              (setAnimationCompleted true
                 (set_animationData None
                    (setCanPause false
                       (setIsPaused false (setIsVisualizing false c))))))
  end.

(** The pending timer that is due first; of two that are due together,
    the one set first. *)
Fixpoint earliest (best : Timer) (l : list Timer) : Timer :=
  match l with
  | [] => best
  | t :: rest =>
      earliest (if time_leb (fireAt best) (fireAt t) then best else t) rest
  end.

(** The component just before the callback of [t] runs: the timer is gone
    from the table and the clock is at its due time, or later. *)
Definition dequeue (t : Timer) (c : GridComponent) : GridComponent :=
  set_now (if time_leb (now c) (fireAt t) then fireAt t else now c)
    (clearTimeout (timer_id t) c).

(** The browser runs the next timeout; with none pending nothing
    happens. *)
Definition fire (fuel : nat) (c : GridComponent) : option GridComponent :=
  match timers c with
  | [] => Some c
  | t0 :: rest =>
      let t := earliest t0 rest in
      runCallback fuel (callback t) (dequeue t c)
  end.

(** [n] timeouts in a row. *)
Fixpoint fires (fuel n : nat) (c : GridComponent) : option GridComponent :=
  match n with
  | O => Some c
  | S n' =>
      match fire fuel c with
      | Some c' => fires fuel n' c'
      | None => None
      end
  end.

(** Time passes without any timeout running: possible as long as none is
    due. *)
Definition wait (d : Time) (c : GridComponent) : GridComponent :=
  if forallb (fun t => time_leb (time_add (now c) d) (fireAt t)) (timers c)
  then set_now (time_add (now c) d) c
  else c.

(** ** Vocabulary of the scheduler claims *)

(** The states of the specification's state machine, read off the flags.
    The component does not tell a completed run from a stopped one: both
    leave [isVisualizing = false] and [animationCompleted = true]. *)
Inductive Phase : Type := Idle | Running | Paused | Finished.

Definition phase (c : GridComponent) : Phase :=
  if isVisualizing c then (if isPaused c then Paused else Running)
  else if animationCompleted c then Finished else Idle.

(** Every pending timeout is on [animationTimeouts]. *)
Definition tracked (c : GridComponent) : bool :=
  forallb (fun t => existsb (Nat.eqb (timer_id t)) (animationTimeouts c))
          (timers c).

(** The cells displayed as visited. *)
Definition visitedCells (g : Grid) : list Pos :=
  filter (fun p => CellType_eqb (type (getNode g p)) Visited) (allCells g).

(** The nodes among the first [k] of the visit order whose frame marks a
    cell: all but the start and the end node. *)
Definition revealed (searched : Grid) (visited : list Pos) (k : nat)
  : list Pos :=
  filter (fun p => notStartOrEnd (type (getNode searched p)))
         (firstn k visited).

(** Reading off a run of the component. *)
Definition shown (x : option GridComponent) : list (list CellType) :=
  match x with Some c => layout (grid c) | None => [] end.

Definition phase_of (x : option GridComponent) : option Phase :=
  option_map phase x.

Definition pending (x : option GridComponent) : nat :=
  match x with Some c => length (timers c) | None => 0 end.

(** The result of a run that is known to have returned. *)
Definition got (x : option GridComponent) : GridComponent :=
  match x with Some c => c | None => mount demoProps end.

(** The component of the examples: with [visualizeAlgorithm] just called;
    with the search run and three visited frames shown; with all fourteen
    timeouts run; stopped after the three frames. *)
Definition demo : GridComponent := visualizeAlgorithm (mount demoProps).
Definition demoPlaying : GridComponent := got (fires 50 4 demo).
Definition demoCompleted : GridComponent := got (fires 50 14 demo).
Definition demoStopped : GridComponent := stopVisualization demoPlaying.

(** The search that the example runs. *)
Definition demoSearch : option (PathfindingResult * Grid) :=
  bfs 50 (grid (mount demoProps)) (1, 1) (1, 3).

(** ** Vocabulary of the playback proofs *)

(** The timers that a [forEach] of [schedule] adds to the table: ids from
    [id] on, the callback and the due time by the index. *)
Fixpoint timersOf (A : Type) (mk : A -> nat -> Callback) (due : nat -> Time)
    (id index : nat) (l : list A) : list Timer :=
  match l with
  | [] => []
  | x :: rest =>
      mkTimer id (due index) (mk x index)
        :: timersOf mk due (S id) (S index) rest
  end.

(** The lengths of the rows of a grid. *)
Definition shape (g : Grid) : list nat := map (@length Node) g.

(** A grid as the searches expect it: rectangular, with a fresh scratch
    state. *)
Definition searchable (g : Grid) : bool := rectangular g && fresh g.

(** A callback that runs a search runs it on such a grid. *)
Definition searchesFresh (cb : Callback) : Prop :=
  forall g s e, cb = RunSearch g s e -> searchable g = true.

(** The displayed grid is searchable, and so is every grid that a pending
    timeout will search. *)
Definition wellKept (c : GridComponent) : Prop :=
  searchable (grid c) = true /\
  forall t, In t (timers c) -> searchesFresh (callback t).

(** The user's operations and the browser's. *)
Inductive Event : Type :=
  | Visualize | PauseOrResume | Stop | ClearWalls | Reset | Timeout.

Definition handle (fuel : nat) (ev : Event) (c : GridComponent)
  : option GridComponent :=
  match ev with
  | Visualize => Some (visualizeAlgorithm c)
  | PauseOrResume => Some (onPauseTrigger c)
  | Stop => Some (stopVisualization c)
  | ClearWalls => Some (handleClearWalls c)
  | Reset => Some (handleReset c)
  | Timeout => fire fuel c
  end.

(** A session: the events in turn, from the left. *)
Fixpoint session (fuel : nat) (events : list Event) (c : GridComponent)
  : option GridComponent :=
  match events with
  | [] => Some c
  | ev :: rest =>
      match handle fuel ev c with
      | Some c' => session fuel rest c'
      | None => None
      end
  end.

(** No timer of [l] is due before [b]. *)
Definition dueAfter (b : Time) (l : list Timer) : Prop :=
  forall t, In t l -> time_leb b (fireAt t) = true.

(** The displayed grid after the first [k] visited frames of
    [animateAlgorithm] have run on [g]. *)
Fixpoint played (searched : Grid) (visited : list Pos) (k : nat) (g : Grid)
  : Grid :=
  match k with
  | O => g
  | S k' =>
      let g' := played searched visited k' g in
      match nth_error visited k' with
      | Some node =>
          if notStartOrEnd (type (getNode searched node))
          then visitedFrame searched visited node k' g'
          else g'
      | None => g'
      end
  end.

(* ================================================================== *)
(** * The rest of [gridHelpers.ts] *)
(* ================================================================== *)

(** [toggleWall]: a start or end cell is left alone, a wall becomes empty
    and any other cell a wall. *)
Definition toggleWall (g : Grid) (row col : nat) : Grid :=
  let node := getNode g (row, col) in
  if CellType_eqb (type node) Start || CellType_eqb (type node) EndCell
  then g
  else setType g (row, col)
         (if CellType_eqb (type node) Wall then Empty else Wall).

(** [setWall]: the same guard, then the cell is what [isWall] says. *)
Definition setWall (g : Grid) (row col : nat) (isWall : bool) : Grid :=
  let node := getNode g (row, col) in
  if CellType_eqb (type node) Start || CellType_eqb (type node) EndCell
  then g
  else setType g (row, col) (if isWall then Wall else Empty).

(** [getCellColor] and [getCellBackground]. *)
Section Colors.

Import String.StringSyntax.
Local Open Scope string_scope.

Definition getCellColor (t : CellType) : String.string :=
  match t with
  | Start => "#22c55e"
  | EndCell => "#ef4444"
  | Wall => "#1f2937"
  | Visited => "#60a5fa"
  | Path => "#facc15"
  | Frontier => "#c084fc"
  | Empty => "var(--color-surface)"
  end.

Definition getCellBackground (t : CellType) (isDark : bool) : String.string :=
  if CellType_eqb t Wall
  then (if isDark then "#d1d5db" else "#1f2937")
  else getCellColor t.

End Colors.

(** ** Vocabulary *)

(** The scratch fields of a node. *)
Definition scratch (n : Node) : bool * Num * Num * option Pos :=
  (isVisited n, distance n, heuristic n, previousNode n).

(** The cells of a kind. *)
Definition cellsOf (t : CellType) (g : Grid) : list Pos :=
  filter (fun p => CellType_eqb (type (getNode g p)) t) (allCells g).

(** The [k]-th predecessor of a node: [previousNode] followed [k] times. *)
Fixpoint ancestor (g : Grid) (k : nat) (p : Pos) : option Pos :=
  match k with
  | O => Some p
  | S k' =>
      match previousNode (getNode g p) with
      | None => None
      | Some q => ancestor g k' q
      end
  end.

(* ================================================================== *)
(** * Editing with the mouse (the [Grid] component) *)
(* ================================================================== *)

(** The drag state of the component. *)
Record Drag : Type := mkDrag {
  isMousePressed : bool;
  isDrawingWall : bool;
  isMovingStart : bool;
  isMovingEnd : bool
}.

(** The component with its drag state. *)
Definition Editor : Type := (GridComponent * Drag)%type.

Definition mountEditor (p : GridProps) : Editor :=
  (mount p, mkDrag false true false false).

(** [handleMouseDown]. *)
Definition handleMouseDown (row col : nat) (ed : Editor) : Editor :=
  let '(c, d) := ed in
  let node := getNode (grid c) (row, col) in
  if CellType_eqb (type node) Start
  then (c, mkDrag false (isDrawingWall d) true (isMovingEnd d))
  else if CellType_eqb (type node) EndCell
  then (c, mkDrag false (isDrawingWall d) (isMovingStart d) true)
  else
    let isWall := negb (CellType_eqb (type node) Wall) in
    (setGrid (setWall (grid c) row col isWall) c,
     mkDrag true isWall false false).

(** [handleMouseEnter]. *)
Definition handleMouseEnter (row col : nat) (ed : Editor) : Editor :=
  let '(c, d) := ed in
  if isMovingStart d then
    let newGrid := setType (grid c) (startPos c) Empty in
    if negb (CellType_eqb (type (getNode newGrid (row, col))) EndCell)
    then (setStartPos (row, col)
            (setGrid (setType newGrid (row, col) Start) c), d)
    else (setGrid newGrid c, d)
  else if isMovingEnd d then
    let newGrid := setType (grid c) (endPos c) Empty in
    if negb (CellType_eqb (type (getNode newGrid (row, col))) Start)
    then (setEndPos (row, col)
            (setGrid (setType newGrid (row, col) EndCell) c), d)
    else (setGrid newGrid c, d)
  else if isMousePressed d then
    (setGrid (setWall (grid c) row col (isDrawingWall d)) c, d)
  else ed.

(** [handleMouseUp]. *)
Definition handleMouseUp (ed : Editor) : Editor :=
  let '(c, d) := ed in (c, mkDrag false (isDrawingWall d) false false).

(** What the user and the browser do to the component. *)
Inductive Action : Type :=
  | Button (ev : Event)
  | MouseDown (row col : nat)
  | MouseEnter (row col : nat)
  | MouseUp.

Definition act (fuel : nat) (a : Action) (ed : Editor) : option Editor :=
  match a with
  | Button ev =>
      match handle fuel ev (fst ed) with
      | Some c' => Some (c', snd ed)
      | None => None
      end
  | MouseDown row col => Some (handleMouseDown row col ed)
  | MouseEnter row col => Some (handleMouseEnter row col ed)
  | MouseUp => Some (handleMouseUp ed)
  end.

Fixpoint acts (fuel : nat) (l : list Action) (ed : Editor) : option Editor :=
  match l with
  | [] => Some ed
  | a :: rest =>
      match act fuel a ed with
      | Some ed' => acts fuel rest ed'
      | None => None
      end
  end.

(** The mouse events of [l] are on cells of a grid of [rows] by [cols]. *)
Definition onCell (rows cols : nat) (a : Action) : bool :=
  match a with
  | MouseDown row col | MouseEnter row col => (row <? rows) && (col <? cols)
  | _ => true
  end.

(** Start cells are found at [startPos] only, end cells at [endPos]. *)
Definition placed (c : GridComponent) : Prop :=
  forall p,
    (type (getNode (grid c) p) = Start -> p = startPos c) /\
    (type (getNode (grid c) p) = EndCell -> p = endPos c).

(** From [g] to [g'] no cell has become a start or an end cell. *)
Definition noNewEnds (g g' : Grid) : Prop :=
  forall p,
    (type (getNode g' p) = Start -> type (getNode g p) = Start) /\
    (type (getNode g' p) = EndCell -> type (getNode g p) = EndCell).

(* ================================================================== *)
(** * Visit orders and completeness *)
(* ================================================================== *)

(** The neighbour bodies of the five loops, as far as predecessors go:
    nothing happens, or [v] alone is touched and is linked to [u]. *)
Definition links (u v : Pos) (st st' : Grid * list Pos) : Prop :=
  st' = st \/
  (touches_only (fst st) (fst st') v /\
   previousNode (getNode (fst st') v) = Some u).

(** The visit order while a loop runs: the target is not in it, and the
    predecessor of every node is. *)
Definition visit_inv (endNode : Pos) (st : SearchState) : Prop :=
  let '(g, _, visitedNodes) := st in
  ~ In endNode visitedNodes /\
  forall p q, previousNode (getNode g p) = Some q -> In q visitedNodes.

(** The visit order a loop returns: cells that paths from the start
    reach; the target last and once on success, not at all on failure;
    and every predecessor. *)
Definition out_visits (g0 : Grid) (startNode endNode : Pos) (o : Outcome)
  : Prop :=
  (forall p, In p (out_visited o) -> exists l, walk g0 startNode p l) /\
  (out_found o = true ->
     exists t, out_visited o = t ++ [endNode] /\ ~ In endNode t) /\
  (out_found o = false -> ~ In endNode (out_visited o)) /\
  (forall p q, previousNode (getNode (out_grid o) p) = Some q ->
     In q (out_visited o)).

Definition loop_visits (L : MainLoop) : Prop :=
  forall g s e fuel o,
    rectangular g = true -> inGrid g s = true -> fresh g = true ->
    L fuel g s e = Some o -> out_visits g s e o.

(** A neighbour body that lets no open neighbour pass: afterwards [v] is
    marked, unless it is a wall. *)
Definition eager (v : Pos) (st st' : Grid * list Pos) : Prop :=
  is_wall (getNode (fst st) v) = true \/ marked (fst st') v.

(** The loop of [dfs], with the start open: every marked node is popped
    or waits on the stack, and the popped ones are closed. *)
Definition scan_closed (g0 : Grid) (startNode endNode : Pos)
    (st : SearchState) : Prop :=
  let '(g, queue, visitedNodes) := st in
  marked g startNode /\
  (forall p, marked g p -> In p visitedNodes \/ In p queue) /\
  (forall p, In p queue -> is_wall (getNode g p) = false) /\
  (forall u, In u visitedNodes -> closed_at g0 endNode g u).

(** The same while the neighbours of the popped node [c] are examined;
    [done] are those examined so far. *)
Definition scan_fold_closed (g0 : Grid) (startNode endNode : Pos)
    (visitedNodes : list Pos) (c : Pos) (done : list Pos)
    (st : Grid * list Pos) : Prop :=
  let '(g, queue) := st in
  layout g = layout g0 /\
  marked g startNode /\
  (forall p, marked g p -> In p (visitedNodes ++ [c]) \/ In p queue) /\
  (forall p, In p queue -> is_wall (getNode g p) = false) /\
  (forall u, In u visitedNodes -> closed_at g0 endNode g u) /\
  (forall v, In v done -> open_cell g0 v = true -> marked g v).

(** An open cell one step from the marked node [u] is marked or waits in
    the open set. *)
Definition reached_from (g0 g : Grid) (openSet : list Pos) (u : Pos)
  : Prop :=
  forall y, step4 u y = true -> open_cell g0 y = true ->
    marked g y \/ In y openSet.

(** The loop of [greedyBFS], with the start open: an unmarked open cell
    whose heuristic is set waits in the open set, and the marked nodes are
    not the target and have all their open neighbours marked or
    waiting. *)
Definition greedy_closed (g0 : Grid) (startNode endNode : Pos)
    (st : SearchState) : Prop :=
  let '(g, openSet, _) := st in
  (marked g startNode \/ In startNode openSet) /\
  (forall p, In p openSet -> is_wall (getNode g p) = false) /\
  (forall p, inGrid g0 p = true -> ~ marked g p ->
     is_wall (getNode g p) = false ->
     heuristic (getNode g p) = Infinity \/ In p openSet) /\
  (forall u, marked g u -> u <> endNode /\ reached_from g0 g openSet u).

Definition greedy_fold_closed (g0 : Grid) (startNode endNode : Pos)
    (gs : Grid) (c : Pos) (done : list Pos) (st : Grid * list Pos) : Prop :=
  let '(g, openSet) := st in
  layout g = layout g0 /\
  (forall p, isVisited (getNode g p) = isVisited (getNode gs p)) /\
  (marked g startNode \/ In startNode openSet) /\
  (forall p, In p openSet -> is_wall (getNode g p) = false) /\
  (forall p, inGrid g0 p = true -> ~ marked g p ->
     is_wall (getNode g p) = false ->
     heuristic (getNode g p) = Infinity \/ In p openSet) /\
  (forall u, marked g u -> u <> c ->
     u <> endNode /\ reached_from g0 g openSet u) /\
  (forall v, In v done -> open_cell g0 v = true ->
     marked g v \/ In v openSet).

(** A loop that fails only when no path joins the start to the target. *)
Definition out_complete (g0 : Grid) (startNode endNode : Pos) (o : Outcome)
  : Prop :=
  out_found o = false -> forall l, ~ walk g0 startNode endNode l.

(** A position on a board of [rows p] by [cols p] cells. *)
Definition onBoard (p : GridProps) (q : Pos) : Prop :=
  fst q < rows p /\ snd q < cols p.

(** A callback that runs a search runs it on a searchable grid of the
    board's shape, between two cells of the board. *)
Definition runsOnBoard (p : GridProps) (cb : Callback) : Prop :=
  forall g s e, cb = RunSearch g s e ->
    searchable g = true /\ shape g = repeat (cols p) (rows p) /\
    onBoard p s /\ onBoard p e.

(** The component with props [p] is in order: its grid has the shape of
    the board and is searchable, the start and end positions are on the
    board and no other cell is a start or an end cell, and so it is with
    every search that a pending timeout will run. *)
Definition board (p : GridProps) (c : GridComponent) : Prop :=
  props c = p /\
  shape (grid c) = repeat (cols p) (rows p) /\
  searchable (grid c) = true /\
  onBoard p (startPos c) /\ onBoard p (endPos c) /\
  placed c /\
  forall t, In t (timers c) -> runsOnBoard p (callback t).

(** The grid after the path frames of [animateAlgorithm] for the nodes of
    [path] have run on [g]. *)
Definition drawn (searched : Grid) (path : list Pos) (g : Grid) : Grid :=
  fold_left
    (fun g' node =>
       if notStartOrEnd (type (getNode searched node))
       then setType g' node Path
       else g')
    path g.

(** An editing session of the examples: two walls are drawn in the top
    row, the start is dragged one cell down, and a run is started. *)
Definition demoEdit : list Action :=
  [MouseDown 0 2; MouseEnter 0 3; MouseUp;
   MouseDown 1 1; MouseEnter 2 1; MouseUp;
   Button Visualize; Button Timeout; Button Timeout; Button Timeout].

Definition edited (x : option Editor) : Editor :=
  match x with Some ed => ed | None => mountEditor demoProps end.

Section GreedyProps.

Import String.StringSyntax.
Local Open Scope string_scope.

(** The props of the example with the greedy search. *)
Definition greedyProps : GridProps := mkProps 3 4 "greedy-bfs" 5.

End GreedyProps.
Unset Implicit Arguments.

(* ================================================================== *)
(** * Positions, arrays and the node store *)
(* ================================================================== *)

Lemma pos_eqb_eq : forall a b : Pos, pos_eqb a b = true <-> a = b.
Proof.
  intros [r1 c1] [r2 c2]; unfold pos_eqb; simpl.
  rewrite andb_true_iff, !Nat.eqb_eq. split.
  - intros [-> ->]; reflexivity.
  - intros H; injection H; auto.
Qed.

Lemma pos_eqb_refl : forall a : Pos, pos_eqb a a = true.
Proof. intros a; apply pos_eqb_eq; reflexivity. Qed.

Lemma pos_eqb_neq : forall a b : Pos, pos_eqb a b = false <-> a <> b.
Proof.
  intros a b; split.
  - intros H E; apply pos_eqb_eq in E; congruence.
  - intros H; destruct (pos_eqb a b) eqn:E; auto.
    apply pos_eqb_eq in E; contradiction.
Qed.

Lemma pos_eq_dec : forall a b : Pos, {a = b} + {a <> b}.
Proof.
  intros a b; destruct (pos_eqb a b) eqn:E.
  - left; apply pos_eqb_eq; assumption.
  - right; apply pos_eqb_neq; assumption.
Qed.

Lemma includes_In : forall l p, includes l p = true <-> In p l.
Proof.
  intros l p; unfold includes; rewrite existsb_exists; split.
  - intros [x [Hx E]]; apply pos_eqb_eq in E; subst; assumption.
  - intros H; exists p; split; [assumption | apply pos_eqb_refl].
Qed.

Lemma includes_not_In : forall l p, includes l p = false <-> ~ In p l.
Proof.
  intros l p; split.
  - intros H HI; apply includes_In in HI; congruence.
  - intros H; destruct (includes l p) eqn:E; auto.
    apply includes_In in E; contradiction.
Qed.

Lemma length_upd_nth : forall (A : Type) n (f : A -> A) l,
  length (upd_nth n f l) = length l.
Proof.
  intros A n f l; revert n; induction l as [|x t IH]; intros [|n]; simpl; auto.
Qed.

Lemma nth_upd_nth_same : forall (A : Type) n (f : A -> A) l d,
  n < length l -> nth n (upd_nth n f l) d = f (nth n l d).
Proof.
  intros A n f l d; revert n; induction l as [|x t IH]; intros [|n] H;
    simpl in *; try lia; auto.
  apply IH; lia.
Qed.

Lemma nth_upd_nth_other : forall (A : Type) n m (f : A -> A) l d,
  n <> m -> nth m (upd_nth n f l) d = nth m l d.
Proof.
  intros A n m f l d; revert n m; induction l as [|x t IH];
    intros [|n] [|m] H; simpl; auto; try lia.
Qed.

Lemma upd_nth_out : forall (A : Type) n (f : A -> A) l,
  length l <= n -> upd_nth n f l = l.
Proof.
  intros A n f l; revert n; induction l as [|x t IH]; intros [|n] H;
    simpl in *; auto; try lia.
  f_equal; apply IH; lia.
Qed.

Lemma map_upd_nth : forall (A B : Type) (h : A -> B) n (f : A -> A) l,
  (forall x, h (f x) = h x) -> map h (upd_nth n f l) = map h l.
Proof.
  intros A B h n f l H; revert n; induction l as [|x t IH]; intros [|n];
    simpl; auto; f_equal; auto.
Qed.

Lemma getNode_setNode_same : forall g p f,
  inStore g p -> getNode (setNode g p f) p = f (getNode g p).
Proof.
  intros g [r c] f [Hr Hc]; unfold getNode, setNode; simpl in *.
  rewrite nth_upd_nth_same by assumption.
  apply nth_upd_nth_same; assumption.
Qed.

Lemma getNode_setNode_other : forall g p q f,
  q <> p -> getNode (setNode g p f) q = getNode g q.
Proof.
  intros g [r c] [r' c'] f H; unfold getNode, setNode; simpl.
  destruct (Nat.eq_dec r r') as [->|Hr].
  - destruct (Nat.lt_ge_cases r' (length g)) as [Hlt|Hge].
    + rewrite nth_upd_nth_same by assumption.
      apply nth_upd_nth_other; intros ->; apply H; reflexivity.
    + rewrite upd_nth_out by assumption; reflexivity.
  - rewrite nth_upd_nth_other by assumption; reflexivity.
Qed.

(** Reading through any reference after an assignment: either the value
    is the old one or it is the assigned node. *)
Lemma getNode_setNode_cases : forall g p q f,
  getNode (setNode g p f) q = getNode g q \/
  (q = p /\ inStore g p /\ getNode (setNode g p f) q = f (getNode g p)).
Proof.
  intros g p q f; destruct (pos_eq_dec q p) as [->|H].
  - destruct p as [r c].
    destruct (Nat.lt_ge_cases r (length g)) as [Hr|Hr].
    + destruct (Nat.lt_ge_cases c (length (nth r g []))) as [Hc|Hc].
      * right; split; [reflexivity|]; split; [split; assumption|].
        apply getNode_setNode_same; split; assumption.
      * left; unfold getNode, setNode; simpl.
        rewrite nth_upd_nth_same by assumption.
        rewrite upd_nth_out by assumption; reflexivity.
    + left; unfold setNode; simpl.
      rewrite upd_nth_out by assumption; reflexivity.
  - left; apply getNode_setNode_other; assumption.
Qed.

(** A field that an assignment leaves alone reads the same through every
    reference. *)
Lemma field_setNode : forall (A : Type) (field : Node -> A) g p q f,
  (forall n, field (f n) = field n) ->
  field (getNode (setNode g p f) q) = field (getNode g q).
Proof.
  intros A field g p q f H.
  destruct (getNode_setNode_cases g p q f) as [->|[-> [_ ->]]]; auto.
Qed.

(* ================================================================== *)
(** * What depends on the layout only *)
(* ================================================================== *)

Lemma layout_setNode : forall g p f,
  (forall n, type (f n) = type n) -> layout (setNode g p f) = layout g.
Proof.
  intros g [r c] f H; unfold layout, setNode; simpl.
  revert r; induction g as [|row g IH]; intros [|r]; simpl; auto.
  - f_equal; apply map_upd_nth; assumption.
  - f_equal; apply IH.
Qed.

Lemma layout_nrows : forall g g', layout g = layout g' -> nrows g = nrows g'.
Proof.
  intros g g' H; unfold nrows.
  rewrite <- (length_map (map type) g), <- (length_map (map type) g').
  unfold layout in H; rewrite H; reflexivity.
Qed.

Lemma layout_row_length : forall g g' r,
  layout g = layout g' -> length (nth r g []) = length (nth r g' []).
Proof.
  intros g g' r H.
  assert (E : forall h, length (nth r h []) = length (nth r (layout h) [])).
  { intros h; unfold layout.
    change (@nil CellType) with (map type []); rewrite map_nth.
    symmetry; apply length_map. }
  rewrite !E, H; reflexivity.
Qed.

Lemma layout_ncols : forall g g', layout g = layout g' -> ncols g = ncols g'.
Proof. intros g g' H; unfold ncols; apply layout_row_length; assumption. Qed.

Lemma layout_type : forall g g' p,
  layout g = layout g' -> type (getNode g p) = type (getNode g' p).
Proof.
  intros g g' [r c] H.
  assert (E : forall h, type (getNode h (r, c))
                        = nth c (nth r (layout h) []) Empty).
  { intros h; unfold getNode, layout; simpl.
    change (@nil CellType) with (map type []); rewrite map_nth.
    change Empty with (type createNode); rewrite map_nth; reflexivity. }
  rewrite !E, H; reflexivity.
Qed.

Lemma layout_is_wall : forall g g' p,
  layout g = layout g' -> is_wall (getNode g p) = is_wall (getNode g' p).
Proof.
  intros g g' p H; unfold is_wall; rewrite (layout_type g g' p H); reflexivity.
Qed.

Lemma layout_inGrid : forall g g' p,
  layout g = layout g' -> inGrid g p = inGrid g' p.
Proof.
  intros g g' p H; unfold inGrid.
  rewrite (layout_nrows g g' H), (layout_ncols g g' H); reflexivity.
Qed.

Lemma layout_getNeighbors : forall g g' p,
  layout g = layout g' -> getNeighbors p g = getNeighbors p g'.
Proof.
  intros g g' [r c] H; unfold getNeighbors.
  rewrite (layout_nrows g g' H), (layout_ncols g g' H); reflexivity.
Qed.

Lemma layout_rectangular : forall g g',
  layout g = layout g' -> rectangular g = rectangular g'.
Proof.
  intros g g' H; unfold rectangular.
  rewrite (layout_ncols g g' H).
  assert (E : forall h n, forallb (fun row : list Node => length row =? n) h
                = forallb (fun row => length row =? n) (layout h)).
  { intros h n; unfold layout; induction h as [|row h IH]; simpl; auto.
    rewrite length_map, IH; reflexivity. }
  rewrite !E, H; reflexivity.
Qed.

Lemma layout_open_cell : forall g g' p,
  layout g = layout g' -> open_cell g p = open_cell g' p.
Proof.
  intros g g' p H; unfold open_cell.
  rewrite (layout_inGrid g g' p H), (layout_is_wall g g' p H); reflexivity.
Qed.

Lemma layout_allCells : forall g g',
  layout g = layout g' -> allCells g = allCells g'.
Proof.
  intros g g' H; unfold allCells.
  rewrite (layout_nrows g g' H), (layout_ncols g g' H); reflexivity.
Qed.

Lemma inGrid_inStore : forall g p,
  rectangular g = true -> inGrid g p = true -> inStore g p.
Proof.
  intros g [r c] HR HG; unfold inGrid, inStore, nrows in *; simpl in *.
  apply andb_true_iff in HG; destruct HG as [Hr Hc].
  apply Nat.ltb_lt in Hr; apply Nat.ltb_lt in Hc.
  split; [assumption|].
  unfold rectangular in HR; rewrite forallb_forall in HR.
  assert (Hin : In (nth r g []) g) by (apply nth_In; assumption).
  apply HR in Hin; apply Nat.eqb_eq in Hin; lia.
Qed.

Lemma in_allCells : forall g p, In p (allCells g) <-> inGrid g p = true.
Proof.
  intros g [r c]; unfold allCells, inGrid.
  rewrite andb_true_iff, !Nat.ltb_lt; simpl.
  split.
  - intros H; apply in_prod_iff in H; rewrite !in_seq in H; lia.
  - intros H; apply in_prod_iff; rewrite !in_seq; lia.
Qed.

Lemma NoDup_list_prod : forall (A B : Type) (l : list A) (l' : list B),
  NoDup l -> NoDup l' -> NoDup (list_prod l l').
Proof.
  intros A B l l' Hl Hl'; induction Hl as [|x l Hx Hl IH]; simpl.
  - constructor.
  - apply NoDup_app.
    + apply NoDup_map_NoDup_ForallPairs; [|assumption].
      intros a b _ _ E; injection E; auto.
    + assumption.
    + intros [a b] H1 H2.
      apply in_map_iff in H1; destruct H1 as [y [E _]]; injection E as <- _.
      apply in_prod_iff in H2; tauto.
Qed.

Lemma NoDup_allCells : forall g, NoDup (allCells g).
Proof.
  intros g; unfold allCells; apply NoDup_list_prod; apply seq_NoDup.
Qed.

Lemma length_allCells : forall g, length (allCells g) = nrows g * ncols g.
Proof.
  intros g; unfold allCells.
  etransitivity; [apply length_prod|]; rewrite !length_seq; reflexivity.
Qed.

(** ** Fresh scratch state *)

Lemma fresh_getNode : forall g p,
  fresh g = true -> fresh_node (getNode g p) = true.
Proof.
  intros g [r c] H; unfold getNode; simpl.
  unfold fresh in H; rewrite forallb_forall in H.
  destruct (Nat.lt_ge_cases r (length g)) as [Hr|Hr].
  - assert (Hrow := H _ (nth_In g [] Hr)); rewrite forallb_forall in Hrow.
    destruct (Nat.lt_ge_cases c (length (nth r g []))) as [Hc|Hc].
    + apply Hrow; apply nth_In; assumption.
    + rewrite nth_overflow by assumption; reflexivity.
  - rewrite (nth_overflow g) by assumption.
    destruct c; reflexivity.
Qed.

Lemma fresh_fields : forall g p,
  fresh g = true ->
  isVisited (getNode g p) = false /\
  distance (getNode g p) = Infinity /\
  previousNode (getNode g p) = None.
Proof.
  intros g p H; apply (fresh_getNode g p) in H; unfold fresh_node in H.
  apply andb_true_iff in H; destruct H as [H H3].
  apply andb_true_iff in H; destruct H as [H1 H2].
  apply negb_true_iff in H1.
  destruct (distance (getNode g p)); try discriminate.
  destruct (previousNode (getNode g p)); try discriminate.
  auto.
Qed.

(* ================================================================== *)
(** * Neighbours *)
(* ================================================================== *)

Lemma getNeighbors_In : forall g r c q,
  In q (getNeighbors (r, c) g) <->
  (0 < r /\ q = (r - 1, c)) \/ (c < ncols g - 1 /\ q = (r, c + 1)) \/
  (r < nrows g - 1 /\ q = (r + 1, c)) \/ (0 < c /\ q = (r, c - 1)).
Proof.
  intros g r c q; unfold getNeighbors.
  rewrite !in_app_iff.
  destruct (Nat.ltb_spec 0 r); destruct (Nat.ltb_spec c (ncols g - 1));
    destruct (Nat.ltb_spec r (nrows g - 1)); destruct (Nat.ltb_spec 0 c);
    simpl; intuition (try lia; auto).
Qed.

Lemma getNeighbors_spec : forall g p q,
  inGrid g p = true ->
  (In q (getNeighbors p g) <-> (step4 p q = true /\ inGrid g q = true)).
Proof.
  intros g [r c] [r' c'] HG; rewrite getNeighbors_In.
  unfold step4, inGrid in *; simpl in *.
  apply andb_true_iff in HG; destruct HG as [Hr Hc].
  apply Nat.ltb_lt in Hr; apply Nat.ltb_lt in Hc.
  rewrite andb_true_iff, orb_true_iff, !andb_true_iff, !orb_true_iff,
    !Nat.eqb_eq, !Nat.ltb_lt.
  split.
  - intros [[H E]|[[H E]|[[H E]|[H E]]]]; injection E as -> ->; lia.
  - intros [H1 [H2 H3]].
    assert (Hcase : (0 < r /\ r' = r - 1 /\ c' = c) \/
                    (c < ncols g - 1 /\ r' = r /\ c' = c + 1) \/
                    (r < nrows g - 1 /\ r' = r + 1 /\ c' = c) \/
                    (0 < c /\ r' = r /\ c' = c - 1)) by lia.
    destruct Hcase as [[? [-> ->]]|[[? [-> ->]]|[[? [-> ->]]|[? [-> ->]]]]];
      auto 10.
Qed.

Lemma getNeighbors_inGrid : forall g p q,
  inGrid g p = true -> In q (getNeighbors p g) -> inGrid g q = true.
Proof. intros g p q H HI; apply (getNeighbors_spec g p q H) in HI; tauto. Qed.

Lemma getNeighbors_step4 : forall g p q,
  inGrid g p = true -> In q (getNeighbors p g) -> step4 p q = true.
Proof. intros g p q H HI; apply (getNeighbors_spec g p q H) in HI; tauto. Qed.

Lemma step4_neq : forall p q, step4 p q = true -> p <> q.
Proof.
  intros [r c] [r' c'] H E; injection E as -> ->; unfold step4 in H; simpl in H.
  rewrite orb_true_iff, !andb_true_iff, !orb_true_iff, !Nat.eqb_eq in H; lia.
Qed.

Lemma step4_sym : forall p q, step4 p q = step4 q p.
Proof.
  intros [r c] [r' c']; unfold step4; simpl.
  rewrite (Nat.eqb_sym r r'), (Nat.eqb_sym c c').
  rewrite (orb_comm (c =? S c')), (orb_comm (r =? S r')); reflexivity.
Qed.

Lemma length_getNeighbors : forall g p, length (getNeighbors p g) <= 4.
Proof.
  intros g [r c]; unfold getNeighbors.
  destruct (0 <? r); destruct (c <? ncols g - 1);
    destruct (r <? nrows g - 1); destruct (0 <? c); simpl; lia.
Qed.

(* ================================================================== *)
(** * Loops, fuel and results *)
(* ================================================================== *)

Section Loops.
Variables St R : Type.
Variable step : St -> Step St R.

Lemma loop_S : forall fuel s,
  loop step (S fuel) s =
  match step s with
  | Continue s' => loop step fuel s'
  | Return r => Some r
  end.
Proof. reflexivity. Qed.

Lemma loop_invariant : forall (I : St -> Prop) (Q : R -> Prop),
  (forall s, I s ->
     match step s with Continue s' => I s' | Return r => Q r end) ->
  forall fuel s r, I s -> loop step fuel s = Some r -> Q r.
Proof.
  intros I Q Hstep fuel; induction fuel as [|fuel IH]; intros s r Hs H;
    simpl in H; [discriminate|].
  specialize (Hstep s Hs); destruct (step s) as [s'|r'].
  - exact (IH s' r Hstep H).
  - injection H as <-; assumption.
Qed.

Lemma loop_mono : forall n m s r,
  loop step n s = Some r -> n <= m -> loop step m s = Some r.
Proof.
  induction n as [|n IH]; intros m s r H Hle; simpl in H; [discriminate|].
  destruct m as [|m]; [lia|]; simpl.
  destruct (step s) as [s'|r']; [apply IH; [assumption|lia] | assumption].
Qed.

(** A loop whose rounds decrease a measure stops. *)
Lemma loop_terminates : forall (I : St -> Prop) (mu : St -> nat),
  (forall s s', I s -> step s = Continue s' -> I s' /\ mu s' < mu s) ->
  forall fuel s, I s -> mu s < fuel -> exists r, loop step fuel s = Some r.
Proof.
  intros I mu Hstep fuel; induction fuel as [|fuel IH]; intros s Hs Hlt;
    [lia|]; simpl.
  destruct (step s) as [s'|r] eqn:E.
  - destruct (Hstep s s' Hs E) as [Hs' Hmu]; apply IH; [assumption|lia].
  - exists r; reflexivity.
Qed.

End Loops.

Lemma Returns_unique : forall (A : Type) (f : nat -> option A) a b,
  Returns f a -> Returns f b -> a = b.
Proof.
  intros A f a b [n Hn] [m Hm].
  specialize (Hn (n + m) ltac:(lia)); specialize (Hm (n + m) ltac:(lia)).
  congruence.
Qed.

Lemma Returns_intro : forall (A : Type) (f : nat -> option A) n a,
  f n = Some a ->
  (forall k m r, f k = Some r -> k <= m -> f m = Some r) ->
  Returns f a.
Proof.
  intros A f n a H Hmono; exists n; intros fuel Hle; eapply Hmono; eassumption.
Qed.

Lemma reconstructPath_loop_mono : forall g n m c acc r,
  reconstructPath_loop n g c acc = Some r -> n <= m ->
  reconstructPath_loop m g c acc = Some r.
Proof.
  intros g n; induction n as [|n IH]; intros m c acc r H Hle;
    destruct c as [c|]; simpl in H; try discriminate.
  - destruct m; exact H.
  - destruct m as [|m]; [lia|]; simpl; apply IH; [assumption|lia].
  - destruct m; exact H.
Qed.

Lemma finish_mono : forall e o n m r,
  finish n e o = Some r -> n <= m -> finish m e o = Some r.
Proof.
  intros e [[g vis [|]]|] n m r H Hle; simpl in *; try assumption.
  unfold reconstructPath in *.
  destruct (reconstructPath_loop n g (Some e) []) as [p|] eqn:E;
    [|discriminate].
  rewrite (reconstructPath_loop_mono g n m _ _ p E Hle); assumption.
Qed.

(** A search built from a loop and [finish] only gains from more fuel. *)
Lemma search_mono : forall (step : SearchState -> Step SearchState Outcome)
    e s n m r,
  finish n e (loop step n s) = Some r -> n <= m ->
  finish m e (loop step m s) = Some r.
Proof.
  intros step e s n m r H Hle.
  destruct (loop step n s) as [o|] eqn:E; [|discriminate].
  rewrite (loop_mono _ _ step n m s o E Hle).
  eapply finish_mono; eassumption.
Qed.

(* ================================================================== *)
(** * Sorting *)
(* ================================================================== *)

Lemma sort_insert_perm : forall (A : Type) cmp (x : A) l,
  Permutation (sort_insert cmp x l) (x :: l).
Proof.
  intros A cmp x l; induction l as [|y t IH]; simpl; [reflexivity|].
  destruct (cmp x y); try reflexivity.
  rewrite IH; apply perm_swap.
Qed.

Lemma sort_perm : forall (A : Type) cmp (l : list A),
  Permutation (sort cmp l) l.
Proof.
  intros A cmp l; induction l as [|x t IH]; simpl; [reflexivity|].
  rewrite sort_insert_perm; constructor; assumption.
Qed.

Lemma num_le_trans : forall a b c, num_le a b -> num_le b c -> num_le a c.
Proof.
  intros [x|] [y|] [z|]; unfold num_le; simpl; try congruence.
  rewrite !Z.compare_gt_iff; lia.
Qed.

Lemma num_gt_le : forall a b, num_sub_sign a b = Gt -> num_le b a.
Proof.
  intros [x|] [y|]; unfold num_le; simpl; try congruence.
  rewrite !Z.compare_gt_iff; lia.
Qed.

Lemma num_le_Fin : forall x y, num_le (Fin x) (Fin y) <-> (x <= y)%Z.
Proof.
  intros x y; unfold num_le; simpl; rewrite Z.compare_gt_iff; lia.
Qed.

Lemma num_le_Fin_l : forall a y, num_le a (Fin y) ->
  exists x, a = Fin x /\ (x <= y)%Z.
Proof.
  intros [x|] y H; [exists x; split; [reflexivity|apply num_le_Fin; assumption]|].
  exfalso; apply H; reflexivity.
Qed.

Section SortByKey.
Variable key : Pos -> Num.
Let cmp (a b : Pos) : comparison := num_sub_sign (key a) (key b).

Lemma sort_insert_head_min : forall x l h t,
  (forall a b l', l = a :: l' -> In b l' -> num_le (key a) (key b)) ->
  sort_insert cmp x l = h :: t ->
  forall y, In y t -> num_le (key h) (key y).
Proof.
  intros x l; revert x; induction l as [|a l IH]; intros x h t Hmin H y Hy;
    simpl in H.
  - injection H as <- <-; destruct Hy.
  - assert (Ha : forall b, In b l -> num_le (key a) (key b))
      by (intros b Hb; eapply Hmin; [reflexivity|assumption]).
    destruct (cmp x a) eqn:E.
    + injection H as <- <-. destruct Hy as [<-|Hy].
      * unfold num_le; fold (cmp x a); congruence.
      * eapply num_le_trans; [|apply Ha; assumption].
        unfold num_le; fold (cmp x a); congruence.
    + injection H as <- <-. destruct Hy as [<-|Hy].
      * unfold num_le; fold (cmp x a); congruence.
      * eapply num_le_trans; [|apply Ha; assumption].
        unfold num_le; fold (cmp x a); congruence.
    + injection H as <- <-.
      assert (Hp := sort_insert_perm Pos cmp x l).
      apply (Permutation_in _ Hp) in Hy; destruct Hy as [<-|Hy].
      * apply num_gt_le; exact E.
      * apply Ha; assumption.
Qed.

(** After sorting, the head has the least key. *)
Lemma sort_head_min : forall l h t,
  sort cmp l = h :: t -> forall y, In y l -> num_le (key h) (key y).
Proof.
  intros l h t H y Hy.
  assert (Hall : forall l h t, sort cmp l = h :: t ->
                   forall y, In y t -> num_le (key h) (key y)).
  { clear; intros l; induction l as [|x l IH]; intros h t H y Hy;
      simpl in H; [discriminate|].
    eapply sort_insert_head_min; [|exact H|exact Hy].
    intros a b l' E Hb; eapply IH; eassumption. }
  assert (Hp := sort_perm Pos cmp l); rewrite H in Hp.
  apply (Permutation_in _ (Permutation_sym Hp)) in Hy.
  destruct Hy as [<-|Hy]; [|eapply Hall; eassumption].
  unfold num_le; destruct (key h) as [z|]; simpl; try congruence.
  rewrite Z.compare_refl; congruence.
Qed.

End SortByKey.

(* ================================================================== *)
(** * Counting cells *)
(* ================================================================== *)

Lemma filter_length_le : forall (A : Type) (P Q : A -> bool) l,
  (forall x, In x l -> P x = true -> Q x = true) ->
  length (filter P l) <= length (filter Q l).
Proof.
  intros A P Q l; induction l as [|a l IH]; intros H; simpl; [lia|].
  assert (IH' : length (filter P l) <= length (filter Q l))
    by (apply IH; intros x Hx; apply H; right; assumption).
  destruct (P a) eqn:EP.
  - rewrite (H a (or_introl eq_refl) EP); simpl; lia.
  - destruct (Q a); simpl; lia.
Qed.

Lemma filter_length_lt : forall (A : Type) (P Q : A -> bool) l x,
  (forall y, In y l -> P y = true -> Q y = true) ->
  In x l -> P x = false -> Q x = true ->
  length (filter P l) < length (filter Q l).
Proof.
  intros A P Q l x; induction l as [|a l IH]; intros H Hx HP HQ; simpl;
    [destruct Hx|].
  assert (Hle : length (filter P l) <= length (filter Q l))
    by (apply filter_length_le; intros y Hy; apply H; right; assumption).
  destruct Hx as [->|Hx].
  - rewrite HP, HQ; simpl; lia.
  - assert (IH' : length (filter P l) < length (filter Q l))
      by (apply IH; auto; intros y Hy; apply H; right; assumption).
    destruct (P a) eqn:EP.
    + rewrite (H a (or_introl eq_refl) EP); simpl; lia.
    + destruct (Q a); simpl; lia.
Qed.

Lemma countCells_le : forall g P Q,
  (forall p, inGrid g p = true -> P p = true -> Q p = true) ->
  countCells g P <= countCells g Q.
Proof.
  intros g P Q H; unfold countCells; apply filter_length_le.
  intros x Hx; apply H; apply in_allCells; assumption.
Qed.

Lemma countCells_lt : forall g P Q x,
  (forall p, inGrid g p = true -> P p = true -> Q p = true) ->
  inGrid g x = true -> P x = false -> Q x = true ->
  countCells g P < countCells g Q.
Proof.
  intros g P Q x H Hx HP HQ; unfold countCells.
  apply filter_length_lt with (x := x); auto.
  - intros y Hy; apply H; apply in_allCells; assumption.
  - apply in_allCells; assumption.
Qed.

Lemma countCells_bound : forall g P, countCells g P <= nrows g * ncols g.
Proof.
  intros g P; unfold countCells; rewrite <- length_allCells.
  assert (H := filter_length P (allCells g)); lia.
Qed.

Lemma countCells_layout : forall g g' P,
  layout g = layout g' -> countCells g P = countCells g' P.
Proof.
  intros g g' P H; unfold countCells; rewrite (layout_allCells g g' H).
  reflexivity.
Qed.

(* ================================================================== *)
(** * Paths and predecessor chains *)
(* ================================================================== *)

Lemma contiguous_snoc : forall l p d,
  l <> [] -> contiguous (l ++ [p]) = contiguous l && step4 (last l d) p.
Proof.
  induction l as [|a l IH]; intros p d Hne; [contradiction|].
  destruct l as [|b l].
  - simpl; rewrite andb_true_r; reflexivity.
  - change (contiguous ((a :: b :: l) ++ [p]))
      with (step4 a b && contiguous ((b :: l) ++ [p])).
    rewrite (IH p d) by discriminate.
    change (contiguous (a :: b :: l)) with (step4 a b && contiguous (b :: l)).
    change (last (a :: b :: l) d) with (last (b :: l) d).
    rewrite andb_assoc; reflexivity.
Qed.

Lemma walk_nonempty : forall g s p l, walk g s p l -> l <> [].
Proof.
  intros g s p l H; destruct H; [discriminate|].
  destruct l; discriminate.
Qed.

Lemma walk_last : forall g s p l d, walk g s p l -> last l d = p.
Proof.
  intros g s p l d H; destruct H; [reflexivity|apply last_last].
Qed.

Lemma walk_head : forall g s p l, walk g s p l -> exists t, l = s :: t.
Proof.
  intros g s p l H; induction H as [|q p l H [t ->] Hs Ho].
  - exists []; reflexivity.
  - exists (t ++ [p]); reflexivity.
Qed.

Lemma walk_open : forall g s p l x,
  walk g s p l -> In x l -> open_cell g x = true.
Proof.
  intros g s p l x H; induction H as [|q p l H IH Hs Ho]; intros Hx.
  - destruct Hx as [<-|[]]; assumption.
  - apply in_app_iff in Hx; destruct Hx as [Hx|[<-|[]]]; auto.
Qed.

Lemma walk_end_open : forall g s p l, walk g s p l -> open_cell g p = true.
Proof. intros g s p l H; destruct H; assumption. Qed.

Lemma walk_start_open : forall g s p l, walk g s p l -> open_cell g s = true.
Proof. intros g s p l H; induction H; assumption. Qed.

Lemma walk_is_path : forall g s e l, walk g s e l -> is_path g s e l = true.
Proof.
  intros g s e l H; induction H as [Ho|q p l H IH Hs Ho].
  - unfold is_path; simpl; rewrite pos_eqb_refl, Ho; reflexivity.
  - destruct (walk_head g s q l H) as [t ->].
    unfold is_path in *.
    apply andb_true_iff in IH; destruct IH as [IH H4].
    apply andb_true_iff in IH; destruct IH as [IH H3].
    apply andb_true_iff in IH; destruct IH as [H1 H2].
    change ((s :: t) ++ [p]) with (s :: (t ++ [p])) at 1.
    cbv iota beta. rewrite H1.
    rewrite last_last, pos_eqb_refl.
    rewrite forallb_app, H3; simpl forallb; rewrite Ho.
    rewrite (contiguous_snoc (s :: t) p s) by discriminate.
    rewrite H4. apply pos_eqb_eq in H2; rewrite H2, Hs; reflexivity.
Qed.

Lemma is_path_walk : forall g s e l, is_path g s e l = true -> walk g s e l.
Proof.
  intros g s e l; revert e; induction l as [|p l IH] using rev_ind;
    intros e H; [discriminate|].
  unfold is_path in H.
  apply andb_true_iff in H; destruct H as [H H4].
  apply andb_true_iff in H; destruct H as [H H3].
  apply andb_true_iff in H; destruct H as [H1 H2].
  rewrite last_last in H2; apply pos_eqb_eq in H2; subst e.
  rewrite forallb_app in H3; apply andb_true_iff in H3; destruct H3 as [H3 Ho].
  simpl in Ho; rewrite andb_true_r in Ho.
  destruct l as [|a l].
  - simpl in H1; apply pos_eqb_eq in H1; subst p; constructor; assumption.
  - rewrite (contiguous_snoc (a :: l) p s) in H4 by discriminate.
    apply andb_true_iff in H4; destruct H4 as [H4 Hs].
    apply walk_snoc with (q := last (a :: l) s); auto.
    apply IH; unfold is_path.
    simpl in H1; rewrite H1, pos_eqb_refl, H3, H4; reflexivity.
Qed.

Lemma walk_layout : forall g g' s p l,
  layout g = layout g' -> walk g s p l -> walk g' s p l.
Proof.
  intros g g' s p l HL H; induction H as [Ho|q p l H IH Hs Ho].
  - constructor; rewrite <- (layout_open_cell g g' s HL); assumption.
  - econstructor; eauto; rewrite <- (layout_open_cell g g' p HL); assumption.
Qed.

(** ** Chains and [reconstructPath] *)

Lemma chain_nonempty : forall g p l, chain g p l -> l <> [].
Proof.
  intros g p l H; destruct H; [discriminate|destruct l; discriminate].
Qed.

Lemma chain_In_end : forall g p l, chain g p l -> In p l.
Proof.
  intros g p l H; destruct H; [left; reflexivity|].
  apply in_app_iff; right; left; reflexivity.
Qed.

Lemma chain_frame : forall g g' p l,
  chain g p l ->
  (forall x, In x l ->
     previousNode (getNode g' x) = previousNode (getNode g x)) ->
  chain g' p l.
Proof.
  intros g g' p l H; induction H as [p Hp|p q l Hp H IH]; intros Hf.
  - constructor; rewrite Hf; [assumption|left; reflexivity].
  - apply chain_link with (q := q).
    + rewrite Hf; [assumption|apply in_app_iff; right; left; reflexivity].
    + apply IH; intros x Hx; apply Hf; apply in_app_iff; left; assumption.
Qed.

Lemma chain_reconstruct : forall g p l,
  chain g p l ->
  forall fuel acc, length l <= fuel ->
    reconstructPath_loop fuel g (Some p) acc = Some (l ++ acc).
Proof.
  intros g p l H; induction H as [p Hp|p q l Hp H IH]; intros fuel acc Hle.
  - destruct fuel as [|fuel]; [simpl in Hle; lia|]; simpl; rewrite Hp.
    destruct fuel; reflexivity.
  - rewrite length_app in Hle; simpl in Hle.
    destruct fuel as [|fuel]; [lia|]; simpl; rewrite Hp.
    rewrite IH by lia; rewrite <- app_assoc; reflexivity.
Qed.

Lemma chain_reconstructPath : forall g p l,
  chain g p l ->
  forall fuel, length l <= fuel -> reconstructPath fuel g p = Some l.
Proof.
  intros g p l H fuel Hle; unfold reconstructPath.
  rewrite (chain_reconstruct g p l H fuel [] Hle), app_nil_r; reflexivity.
Qed.

(** The chain of a node is unique. *)
Lemma chain_unique : forall g p l l',
  chain g p l -> chain g p l' -> l = l'.
Proof.
  intros g p l l' H H'.
  assert (E1 := chain_reconstructPath g p l H (length l + length l') ltac:(lia)).
  assert (E2 := chain_reconstructPath g p l' H' (length l + length l') ltac:(lia)).
  congruence.
Qed.

(* ================================================================== *)
(** * The neighbour bodies, assignment by assignment *)
(* ================================================================== *)

Lemma upd_nth_ext : forall (A : Type) n (f h : A -> A) l,
  (forall x, f x = h x) -> upd_nth n f l = upd_nth n h l.
Proof.
  intros A n f h l H; revert n; induction l as [|x t IH]; intros [|n]; simpl;
    auto; f_equal; auto.
Qed.

Lemma upd_nth_upd_nth : forall (A : Type) n (f h : A -> A) l,
  upd_nth n h (upd_nth n f l) = upd_nth n (fun x => h (f x)) l.
Proof.
  intros A n f h l; revert n; induction l as [|x t IH]; intros [|n]; simpl;
    auto; f_equal; auto.
Qed.

Lemma setNode_ext : forall g p f h,
  (forall n, f n = h n) -> setNode g p f = setNode g p h.
Proof.
  intros g p f h H; unfold setNode; apply upd_nth_ext.
  intros row; apply upd_nth_ext; assumption.
Qed.

(** Two assignments to the same node are one. *)
Lemma setNode_setNode : forall g p f h,
  setNode (setNode g p f) p h = setNode g p (fun n => h (f n)).
Proof.
  intros g p f h; unfold setNode; rewrite upd_nth_upd_nth.
  apply upd_nth_ext; intros row; apply upd_nth_upd_nth.
Qed.

Lemma setNode_touches_only : forall g v f,
  (forall n, type (f n) = type n) -> touches_only g (setNode g v f) v.
Proof.
  intros g v f H; split.
  - apply layout_setNode; assumption.
  - intros q Hq; apply getNode_setNode_other; assumption.
Qed.

Lemma bfs_neighbor_eq : forall u g queue v,
  bfs_neighbor u (g, queue) v =
  if negb (isVisited (getNode g v)) && negb (is_wall (getNode g v))
  then (setNode g v (fun n =>
          mkNode (type n) true (num_add (distance (getNode g u)) (Fin 1))
                 (heuristic n) (Some u)),
        queue ++ [v])
  else (g, queue).
Proof.
  intros u g queue v; unfold bfs_neighbor.
  destruct (negb (isVisited (getNode g v)) && negb (is_wall (getNode g v)));
    [|reflexivity].
  f_equal. rewrite !setNode_setNode.
  rewrite (field_setNode Num distance) by reflexivity.
  apply setNode_ext; reflexivity.
Qed.

Lemma dfs_neighbor_eq : forall u g stack v,
  dfs_neighbor u (g, stack) v =
  if negb (isVisited (getNode g v)) && negb (is_wall (getNode g v))
  then (setNode g v (fun n =>
          mkNode (type n) true (distance n) (heuristic n) (Some u)),
        v :: stack)
  else (g, stack).
Proof.
  intros u g stack v; unfold dfs_neighbor.
  destruct (negb (isVisited (getNode g v)) && negb (is_wall (getNode g v)));
    [|reflexivity].
  f_equal. rewrite !setNode_setNode. apply setNode_ext; reflexivity.
Qed.

Lemma astar_neighbor_eq : forall u e g openSet v,
  astar_neighbor u e (g, openSet) v =
  if isVisited (getNode g v) || is_wall (getNode g v) then (g, openSet)
  else if num_ltb (num_add (distance (getNode g u)) (Fin 1))
                  (distance (getNode g v))
  then (setNode g v (fun n =>
          mkNode (type n) (isVisited n)
                 (num_add (distance (getNode g u)) (Fin 1))
                 (manhattanDistance v e) (Some u)),
        if includes openSet v then openSet else openSet ++ [v])
  else (g, openSet).
Proof.
  intros u e g openSet v; unfold astar_neighbor.
  destruct (isVisited (getNode g v) || is_wall (getNode g v)); [reflexivity|].
  destruct (num_ltb (num_add (distance (getNode g u)) (Fin 1))
                    (distance (getNode g v))); [|reflexivity].
  rewrite !setNode_setNode.
  destruct (includes openSet v); f_equal; apply setNode_ext; reflexivity.
Qed.

Lemma ucs_neighbor_eq : forall u g openSet v,
  ucs_neighbor u (g, openSet) v =
  if isVisited (getNode g v) || is_wall (getNode g v) then (g, openSet)
  else if num_ltb (num_add (distance (getNode g u)) (Fin 1))
                  (distance (getNode g v))
  then (setNode g v (fun n =>
          mkNode (type n) (isVisited n)
                 (num_add (distance (getNode g u)) (Fin 1))
                 (heuristic n) (Some u)),
        if includes openSet v then openSet else openSet ++ [v])
  else (g, openSet).
Proof.
  intros u g openSet v; unfold ucs_neighbor.
  destruct (isVisited (getNode g v) || is_wall (getNode g v)); [reflexivity|].
  destruct (num_ltb (num_add (distance (getNode g u)) (Fin 1))
                    (distance (getNode g v))); [|reflexivity].
  rewrite !setNode_setNode.
  destruct (includes openSet v); f_equal; apply setNode_ext; reflexivity.
Qed.

Lemma greedy_neighbor_eq : forall u e g openSet v,
  greedy_neighbor u e (g, openSet) v =
  if isVisited (getNode g v) || is_wall (getNode g v) then (g, openSet)
  else if num_is_infinity (heuristic (getNode g v))
  then (setNode g v (fun n =>
          mkNode (type n) (isVisited n) (distance n)
                 (manhattanDistance v e) (Some u)),
        openSet ++ [v])
  else (g, openSet).
Proof.
  intros u e g openSet v; unfold greedy_neighbor.
  destruct (isVisited (getNode g v) || is_wall (getNode g v)); [reflexivity|].
  destruct (num_is_infinity (heuristic (getNode g v))); [|reflexivity].
  rewrite !setNode_setNode. f_equal; apply setNode_ext; reflexivity.
Qed.

(** ** The bodies against their two descriptions *)

Lemma bfs_neighbor_discovers : forall u v g queue,
  inStore g v -> discovers u v (g, queue) (bfs_neighbor u (g, queue) v).
Proof.
  intros u v g queue Hv; rewrite bfs_neighbor_eq.
  destruct (isVisited (getNode g v)) eqn:E1; [left; reflexivity|].
  destruct (is_wall (getNode g v)) eqn:E2; [left; reflexivity|].
  right; simpl. repeat split; auto.
  - apply layout_setNode; reflexivity.
  - intros q Hq; apply getNode_setNode_other; assumption.
  - rewrite getNode_setNode_same by assumption; reflexivity.
  - rewrite getNode_setNode_same by assumption; reflexivity.
  - apply Permutation_sym, Permutation_cons_append.
Qed.

Lemma dfs_neighbor_discovers : forall u v g stack,
  inStore g v -> discovers u v (g, stack) (dfs_neighbor u (g, stack) v).
Proof.
  intros u v g stack Hv; rewrite dfs_neighbor_eq.
  destruct (isVisited (getNode g v)) eqn:E1; [left; reflexivity|].
  destruct (is_wall (getNode g v)) eqn:E2; [left; reflexivity|].
  right; simpl. repeat split; auto.
  - apply layout_setNode; reflexivity.
  - intros q Hq; apply getNode_setNode_other; assumption.
  - rewrite getNode_setNode_same by assumption; reflexivity.
  - rewrite getNode_setNode_same by assumption; reflexivity.
Qed.

Lemma astar_neighbor_relaxes : forall u e v g openSet,
  inStore g v ->
  relaxes u v (g, openSet) (astar_neighbor u e (g, openSet) v).
Proof.
  intros u e v g openSet Hv; rewrite astar_neighbor_eq.
  destruct (isVisited (getNode g v)) eqn:E1; [left; reflexivity|].
  destruct (is_wall (getNode g v)) eqn:E2; [left; reflexivity|].
  simpl orb; cbv iota.
  destruct (num_ltb _ _); [|left; reflexivity].
  right; simpl. repeat split; auto.
  - apply layout_setNode; reflexivity.
  - intros q Hq; apply getNode_setNode_other; assumption.
  - rewrite getNode_setNode_same by assumption; simpl; assumption.
  - rewrite getNode_setNode_same by assumption; reflexivity.
  - destruct (includes openSet v); auto.
  - destruct (includes openSet v) eqn:E; [apply includes_In; assumption|].
    apply in_app_iff; right; left; reflexivity.
Qed.

Lemma ucs_neighbor_relaxes : forall u v g openSet,
  inStore g v ->
  relaxes u v (g, openSet) (ucs_neighbor u (g, openSet) v).
Proof.
  intros u v g openSet Hv; rewrite ucs_neighbor_eq.
  destruct (isVisited (getNode g v)) eqn:E1; [left; reflexivity|].
  destruct (is_wall (getNode g v)) eqn:E2; [left; reflexivity|].
  simpl orb; cbv iota.
  destruct (num_ltb _ _); [|left; reflexivity].
  right; simpl. repeat split; auto.
  - apply layout_setNode; reflexivity.
  - intros q Hq; apply getNode_setNode_other; assumption.
  - rewrite getNode_setNode_same by assumption; simpl; assumption.
  - rewrite getNode_setNode_same by assumption; reflexivity.
  - destruct (includes openSet v); auto.
  - destruct (includes openSet v) eqn:E; [apply includes_In; assumption|].
    apply in_app_iff; right; left; reflexivity.
Qed.

Lemma greedy_neighbor_relaxes : forall u e v g openSet,
  inStore g v ->
  relaxes u v (g, openSet) (greedy_neighbor u e (g, openSet) v).
Proof.
  intros u e v g openSet Hv; rewrite greedy_neighbor_eq.
  destruct (isVisited (getNode g v)) eqn:E1; [left; reflexivity|].
  destruct (is_wall (getNode g v)) eqn:E2; [left; reflexivity|].
  simpl orb; cbv iota.
  destruct (num_is_infinity _); [|left; reflexivity].
  right; simpl. repeat split; auto.
  - apply layout_setNode; reflexivity.
  - intros q Hq; apply getNode_setNode_other; assumption.
  - rewrite getNode_setNode_same by assumption; simpl; assumption.
  - rewrite getNode_setNode_same by assumption; reflexivity.
  - apply in_app_iff; right; left; reflexivity.
Qed.

(** ** The five loops are instances of the two shapes *)

Lemma bfs_step_scan : forall e,
  bfs_step e = scan_step bfs_neighbor (fun l => l) e.
Proof. reflexivity. Qed.

Lemma dfs_step_scan : forall e,
  dfs_step e = scan_step dfs_neighbor (@rev Pos) e.
Proof. reflexivity. Qed.

Lemma astar_step_best : forall e,
  astar_step e = best_step astar_cmp (fun u => astar_neighbor u e) e.
Proof. reflexivity. Qed.

Lemma greedy_step_best : forall e,
  greedy_step e = best_step greedy_cmp (fun u => greedy_neighbor u e) e.
Proof. reflexivity. Qed.

Lemma ucs_step_best : forall e,
  ucs_step e = best_step ucs_cmp ucs_neighbor e.
Proof. reflexivity. Qed.

(* ================================================================== *)
(** * The loop of [bfs] and [dfs] *)
(* ================================================================== *)

Lemma fold_left_invariant : forall (A B : Type) (f : A -> B -> A)
    (I : A -> Prop) l a,
  I a -> (forall a x, In x l -> I a -> I (f a x)) -> I (fold_left f l a).
Proof.
  intros A B f I l; induction l as [|x l IH]; intros a Ha H; simpl; auto.
  apply IH.
  - apply H; [left; reflexivity|assumption].
  - intros a' x' Hx; apply H; right; assumption.
Qed.

Lemma rectangular_inStore : forall g0 g p,
  rectangular g0 = true -> layout g = layout g0 -> inGrid g0 p = true ->
  inStore g p.
Proof.
  intros g0 g p HR HL HG; apply inGrid_inStore.
  - rewrite (layout_rectangular g g0 HL); assumption.
  - rewrite (layout_inGrid g g0 p HL); assumption.
Qed.

Section Scan.

Variable nbr : Pos -> Grid * list Pos -> Pos -> Grid * list Pos.
Variable order : list Pos -> list Pos.
Hypothesis nbr_discovers : forall u v g queue,
  inStore g v -> discovers u v (g, queue) (nbr u (g, queue) v).
Hypothesis order_In : forall l x, In x (order l) -> In x l.

Variable g0 : Grid.
Variables startNode endNode : Pos.
Hypothesis g0_rect : rectangular g0 = true.

(** *** Marks and duplicates *)

Lemma scan_neighbor_inv : forall u v g queue vis,
  inGrid g0 v = true ->
  scan_inv g0 (g, queue, vis) ->
  scan_inv g0 (fst (nbr u (g, queue) v), snd (nbr u (g, queue) v), vis).
Proof.
  intros u v g queue vis Hv [HL [Hm Hnd]].
  assert (HS : inStore g v) by (eapply rectangular_inStore; eassumption).
  destruct (nbr_discovers u v g queue HS) as [E|[Hu [Hw [[HL' Hf] [Hm' [_ Hp]]]]]].
  - rewrite E; simpl; exact (conj HL (conj Hm Hnd)).
  - destruct (nbr u (g, queue) v) as [g1 q1]; simpl in *.
    assert (Hnew : ~ In v (vis ++ queue))
      by (intros Hin; apply Hm in Hin; destruct Hin; congruence).
    assert (HP : Permutation (vis ++ q1) (v :: vis ++ queue)).
    { rewrite Hp; symmetry; apply Permutation_middle. }
    repeat split.
    + congruence.
    + apply (Permutation_in _ HP) in H; destruct H as [<-|H];
        [assumption|apply Hm; assumption].
    + apply (Permutation_in _ HP) in H; destruct H as [<-|H];
        [assumption|].
      rewrite Hf; [apply Hm; assumption|].
      intros ->; contradiction.
    + apply (Permutation_NoDup (Permutation_sym HP)).
      constructor; assumption.
Qed.

Lemma scan_fold_inv : forall u vis l g queue,
  (forall v, In v l -> inGrid g0 v = true) ->
  scan_inv g0 (g, queue, vis) ->
  scan_inv g0 (fst (fold_left (nbr u) l (g, queue)),
               snd (fold_left (nbr u) l (g, queue)), vis).
Proof.
  intros u vis l g queue Hl H.
  apply (fold_left_invariant _ _ (nbr u)
           (fun st => scan_inv g0 (fst st, snd st, vis))); [exact H|].
  intros [g1 q1] v Hv H1; apply scan_neighbor_inv; auto.
Qed.

Lemma neighbors_inGrid : forall g u v,
  layout g = layout g0 -> inGrid g0 u = true ->
  In v (order (getNeighbors u g)) -> inGrid g0 v = true.
Proof.
  intros g u v HL Hu Hv; apply order_In in Hv.
  rewrite (layout_getNeighbors g g0 u HL) in Hv.
  eapply getNeighbors_inGrid; eassumption.
Qed.

Lemma scan_step_inv : forall st,
  scan_inv g0 st ->
  match scan_step nbr order endNode st with
  | Continue st' => scan_inv g0 st'
  | Return o => out_ok g0 o
  end.
Proof.
  intros [[g queue] vis] H; unfold scan_step.
  destruct queue as [|c queue].
  - destruct H as [HL [_ Hnd]]; rewrite app_nil_r in Hnd; split; assumption.
  - assert (H' : scan_inv g0 (g, queue, vis ++ [c])).
    { destruct H as [HL [Hm Hnd]]; repeat split; auto;
        try (apply Hm; rewrite <- app_assoc in H; exact H).
      rewrite <- app_assoc; exact Hnd. }
    destruct (is_wall (getNode g c)).
    + destruct H as [HL [Hm Hnd]]; repeat split; auto.
      * apply Hm; apply in_app_iff in H; apply in_app_iff.
        destruct H; [left|right; right]; assumption.
      * apply Hm; apply in_app_iff in H; apply in_app_iff.
        destruct H; [left|right; right]; assumption.
      * apply NoDup_remove_1 in Hnd; assumption.
    + destruct (pos_eqb c endNode).
      * destruct H' as [HL [_ Hnd]]; split; [assumption|].
        apply NoDup_app_remove_r in Hnd; assumption.
      * assert (Hc : inGrid g0 c = true).
        { destruct H as [_ [Hm _]]; apply Hm.
          apply in_app_iff; right; left; reflexivity. }
        assert (HF := scan_fold_inv c (vis ++ [c])
                        (order (getNeighbors c g)) g queue).
        destruct (fold_left (nbr c) (order (getNeighbors c g)) (g, queue))
          as [g' q']; simpl in HF; apply HF; [|assumption].
        intros v Hv; destruct H as [HL _].
        eapply neighbors_inGrid; eassumption.
Qed.

(** *** Termination *)

Lemma scan_neighbor_mu : forall u v g queue vis,
  inGrid g0 v = true -> layout g = layout g0 ->
  scan_mu g0 (fst (nbr u (g, queue) v), snd (nbr u (g, queue) v), vis)
  <= scan_mu g0 (g, queue, vis).
Proof.
  intros u v g queue vis Hv HL.
  assert (HS : inStore g v) by (eapply rectangular_inStore; eassumption).
  destruct (nbr_discovers u v g queue HS) as [E|[Hu [Hw [[HL' Hf] [Hm' [_ Hp]]]]]].
  - rewrite E; simpl; lia.
  - destruct (nbr u (g, queue) v) as [g1 q1]; simpl in *.
    rewrite (Permutation_length Hp); simpl.
    assert (Hlt : countCells g0 (unmarked g1) < countCells g0 (unmarked g)).
    { apply countCells_lt with (x := v); auto.
      - intros p _; unfold unmarked.
        destruct (pos_eq_dec p v) as [->|Hne]; [rewrite Hm'; discriminate|].
        rewrite Hf by assumption; auto.
      - unfold unmarked; rewrite Hm'; reflexivity.
      - unfold unmarked; rewrite Hu; reflexivity. }
    lia.
Qed.

Lemma scan_fold_mu : forall u vis l g queue,
  (forall v, In v l -> inGrid g0 v = true) -> layout g = layout g0 ->
  layout (fst (fold_left (nbr u) l (g, queue))) = layout g0 /\
  scan_mu g0 (fst (fold_left (nbr u) l (g, queue)),
              snd (fold_left (nbr u) l (g, queue)), vis)
  <= scan_mu g0 (g, queue, vis).
Proof.
  intros u vis l; induction l as [|v l IH]; intros g queue Hl HL; simpl.
  - split; [assumption|lia].
  - assert (Hv : inGrid g0 v = true) by (apply Hl; left; reflexivity).
    assert (H1 := scan_neighbor_mu u v g queue vis Hv HL).
    assert (HS : inStore g v) by (eapply rectangular_inStore; eassumption).
    assert (HL1 : layout (fst (nbr u (g, queue) v)) = layout g0).
    { destruct (nbr_discovers u v g queue HS) as [E|[_ [_ [[HL' _] _]]]].
      - rewrite E; assumption.
      - simpl in HL'; congruence. }
    destruct (nbr u (g, queue) v) as [g1 q1]; simpl in *.
    destruct (IH g1 q1) as [HL2 H2]; auto.
    split; [assumption|]. simpl in H2; lia.
Qed.

Lemma scan_step_mu : forall st st',
  scan_inv g0 st -> scan_step nbr order endNode st = Continue st' ->
  scan_mu g0 st' < scan_mu g0 st.
Proof.
  intros [[g queue] vis] st' [HL [Hm _]]; unfold scan_step.
  destruct queue as [|c queue]; [discriminate|].
  destruct (is_wall (getNode g c)).
  - intros E; injection E as <-; simpl; lia.
  - destruct (pos_eqb c endNode); [discriminate|].
    assert (Hc : inGrid g0 c = true).
    { apply Hm; apply in_app_iff; right; left; reflexivity. }
    assert (HF := scan_fold_mu c (vis ++ [c]) (order (getNeighbors c g))
                    g queue).
    destruct (fold_left (nbr c) (order (getNeighbors c g)) (g, queue))
      as [g' q']; simpl in HF.
    intros E; injection E as <-.
    destruct HF as [_ HF]; auto.
    + intros v Hv; eapply neighbors_inGrid; eassumption.
    + simpl in *; lia.
Qed.

(** The loop stops, whatever the scratch state. *)
Lemma scan_terminates : forall st fuel,
  scan_inv g0 st -> scan_mu g0 st < fuel ->
  exists o, loop (scan_step nbr order endNode) fuel st = Some o.
Proof.
  intros st fuel H Hlt.
  apply (loop_terminates _ _ (scan_step nbr order endNode)
           (scan_inv g0) (scan_mu g0)); auto.
  intros s s' Hs E; split.
  - assert (Hi := scan_step_inv s Hs); rewrite E in Hi; assumption.
  - apply scan_step_mu; assumption.
Qed.

(** *** Predecessor chains *)

Lemma linked_discover : forall u v g g',
  linked g0 startNode g ->
  isVisited (getNode g u) = true ->
  isVisited (getNode g v) = false ->
  step4 u v = true -> open_cell g0 v = true ->
  (forall q, q <> v -> getNode g' q = getNode g q) ->
  isVisited (getNode g' v) = true ->
  previousNode (getNode g' v) = Some u ->
  linked g0 startNode g'.
Proof.
  intros u v g g' HLk Hu Hv Hs Ho Hf Hv' Hp p Hvis.
  assert (Hframe : forall q l, isVisited (getNode g q) = true ->
            chain g q l -> (forall x, In x l -> isVisited (getNode g x) = true) ->
            chain g' q l /\ forall x, In x l -> isVisited (getNode g' x) = true).
  { intros q l Hq Hc Hall; split.
    - apply (chain_frame g g' q l Hc); intros x Hx.
      rewrite Hf; [reflexivity|]; intros ->; apply Hall in Hx; congruence.
    - intros x Hx; rewrite Hf; [apply Hall; assumption|].
      intros ->; apply Hall in Hx; congruence. }
  destruct (pos_eq_dec p v) as [->|Hne].
  - destruct (HLk u Hu) as [l [Hc [Hw Hall]]].
    destruct (Hframe u l Hu Hc Hall) as [Hc' Hall'].
    exists (l ++ [v]); repeat split.
    + apply chain_link with (q := u); assumption.
    + apply walk_snoc with (q := u); assumption.
    + intros x Hx; apply in_app_iff in Hx; destruct Hx as [Hx|[<-|[]]]; auto.
  - rewrite Hf in Hvis by assumption.
    destruct (HLk p Hvis) as [l [Hc [Hw Hall]]].
    destruct (Hframe p l Hvis Hc Hall) as [Hc' Hall'].
    exists l; auto.
Qed.

Lemma scan_neighbor_paths : forall u v g queue,
  layout g = layout g0 -> inGrid g0 v = true ->
  isVisited (getNode g u) = true -> step4 u v = true ->
  linked g0 startNode g ->
  linked g0 startNode (fst (nbr u (g, queue) v)) /\
  isVisited (getNode (fst (nbr u (g, queue) v)) u) = true /\
  layout (fst (nbr u (g, queue) v)) = layout g0.
Proof.
  intros u v g queue HL Hv Hu Hs HLk.
  assert (HS : inStore g v) by (eapply rectangular_inStore; eassumption).
  destruct (nbr_discovers u v g queue HS) as [E|[Hu' [Hw [[HL' Hf] [Hm' [Hp _]]]]]].
  - rewrite E; simpl; auto.
  - simpl in *; repeat split.
    + apply (linked_discover u v g _ HLk); auto.
      unfold open_cell; rewrite Hv, <- (layout_is_wall g g0 v HL), Hw.
      reflexivity.
    + rewrite Hf; [assumption|]; intros ->; congruence.
    + congruence.
Qed.

Lemma scan_fold_paths : forall u l g queue,
  inGrid g0 u = true ->
  (forall v, In v l -> inGrid g0 v = true /\ step4 u v = true) ->
  layout g = layout g0 -> isVisited (getNode g u) = true ->
  linked g0 startNode g ->
  linked g0 startNode (fst (fold_left (nbr u) l (g, queue))).
Proof.
  intros u l; induction l as [|v l IH]; intros g queue Hu Hl HL Hvis HLk;
    simpl; [assumption|].
  destruct (Hl v (or_introl eq_refl)) as [Hv Hs].
  destruct (scan_neighbor_paths u v g queue HL Hv Hvis Hs HLk)
    as [H1 [H2 H3]].
  destruct (nbr u (g, queue) v) as [g1 q1]; simpl in *.
  apply IH; auto; intros w Hw; apply Hl; right; assumption.
Qed.

Lemma scan_step_paths : forall st,
  scan_inv g0 st -> scan_paths g0 startNode st ->
  match scan_step nbr order endNode st with
  | Continue st' => scan_paths g0 startNode st'
  | Return o => out_path g0 startNode endNode o
  end.
Proof.
  intros [[g queue] vis] [HL [Hm _]] HLk; unfold scan_step.
  destruct queue as [|c queue]; [intros H; discriminate|].
  assert (Hc : inGrid g0 c = true /\ isVisited (getNode g c) = true).
  { apply Hm; apply in_app_iff; right; left; reflexivity. }
  destruct Hc as [Hc Hvis].
  destruct (is_wall (getNode g c)); [exact HLk|].
  destruct (pos_eqb c endNode) eqn:E.
  - apply pos_eqb_eq in E; subst c; intros _; simpl.
    destruct (HLk endNode Hvis) as [l [H1 [H2 _]]]; exists l; auto.
  - assert (HF := scan_fold_paths c (order (getNeighbors c g)) g queue).
    destruct (fold_left (nbr c) (order (getNeighbors c g)) (g, queue))
      as [g' q']; simpl in *; apply HF; auto.
    intros v Hv; apply order_In in Hv.
    rewrite (layout_getNeighbors g g0 c HL) in Hv.
    split; [eapply getNeighbors_inGrid|eapply getNeighbors_step4]; eassumption.
Qed.

(** *** A start that is a wall *)

Lemma scan_step_blocked : forall st,
  blocked st startNode ->
  match scan_step nbr order endNode st with
  | Continue st' => blocked st' startNode
  | Return o => out_found o = false
  end.
Proof.
  intros [[g queue] vis] [Hw [[->| ->] ->]]; unfold scan_step.
  - rewrite Hw; simpl; auto.
  - reflexivity.
Qed.

End Scan.

(* ================================================================== *)
(** * The loop of [astar], [greedyBFS] and [uniformCostSearch] *)
(* ================================================================== *)

(** Marking a node: what every reference reads afterwards. *)
Lemma mark_isVisited : forall g c q,
  isVisited (getNode g q) = true ->
  isVisited (getNode (setNode g c (set_isVisited true)) q) = true.
Proof.
  intros g c q H.
  destruct (getNode_setNode_cases g c q (set_isVisited true))
    as [->|[_ [_ ->]]]; auto.
Qed.

Lemma mark_unvisited : forall g c q,
  isVisited (getNode (setNode g c (set_isVisited true)) q) = false ->
  isVisited (getNode g q) = false /\ (inStore g c -> q <> c).
Proof.
  intros g c q H; split.
  - destruct (getNode_setNode_cases g c q (set_isVisited true))
      as [E|[_ [_ E]]]; rewrite E in H; [assumption|discriminate].
  - intros HS ->; rewrite getNode_setNode_same in H by assumption.
    discriminate.
Qed.

Lemma mark_previousNode : forall g c q,
  previousNode (getNode (setNode g c (set_isVisited true)) q)
  = previousNode (getNode g q).
Proof. intros; apply (field_setNode _ previousNode); reflexivity. Qed.

Section Best.

Variable cmp : Grid -> Pos -> Pos -> comparison.
Variable nbr : Pos -> Grid * list Pos -> Pos -> Grid * list Pos.
Hypothesis nbr_relaxes : forall u v g openSet,
  inStore g v -> relaxes u v (g, openSet) (nbr u (g, openSet) v).

Variable g0 : Grid.
Variables startNode endNode : Pos.
Hypothesis g0_rect : rectangular g0 = true.

(** *** Marks and duplicates *)

Lemma best_neighbor_inv : forall u v g openSet vis,
  inGrid g0 v = true ->
  best_inv g0 (g, openSet, vis) ->
  best_inv g0 (fst (nbr u (g, openSet) v), snd (nbr u (g, openSet) v), vis).
Proof.
  intros u v g openSet vis Hv [HL [Ho [Hm Hnd]]].
  assert (HS : inStore g v) by (eapply rectangular_inStore; eassumption).
  destruct (nbr_relaxes u v g openSet HS)
    as [E|[Hu [Hw [[HL' Hf] [Hu' [_ [Hp _]]]]]]].
  - rewrite E; simpl; exact (conj HL (conj Ho (conj Hm Hnd))).
  - destruct (nbr u (g, openSet) v) as [g1 o1]; simpl in *.
    split; [congruence|]. split; [|split; [|assumption]].
    + intros p Hp'; destruct Hp as [->| ->]; auto.
      apply in_app_iff in Hp'; destruct Hp' as [Hp'|[<-|[]]]; auto.
    + intros p Hp'; rewrite Hf; [apply Hm; assumption|].
      intros ->; apply Hm in Hp'; congruence.
Qed.

Lemma best_fold_inv : forall u vis l g openSet,
  (forall v, In v l -> inGrid g0 v = true) ->
  best_inv g0 (g, openSet, vis) ->
  best_inv g0 (fst (fold_left (nbr u) l (g, openSet)),
               snd (fold_left (nbr u) l (g, openSet)), vis).
Proof.
  intros u vis l g openSet Hl H.
  apply (fold_left_invariant _ _ (nbr u)
           (fun st => best_inv g0 (fst st, snd st, vis))); [exact H|].
  intros [g1 o1] v Hv H1; apply best_neighbor_inv; auto.
Qed.

Lemma best_step_inv : forall st,
  best_inv g0 st ->
  match best_step cmp nbr endNode st with
  | Continue st' => best_inv g0 st'
  | Return o => out_ok g0 o
  end.
Proof.
  intros [[g openSet] vis] [HL [Ho [Hm Hnd]]]; unfold best_step.
  assert (HP := sort_perm Pos (cmp g) openSet).
  destruct (sort (cmp g) openSet) as [|c open'].
  - split; assumption.
  - assert (Ho' : forall p, In p open' -> inGrid g0 p = true).
    { intros p Hp; apply Ho; apply (Permutation_in _ HP); right; assumption. }
    assert (Hc : inGrid g0 c = true).
    { apply Ho; apply (Permutation_in _ HP); left; reflexivity. }
    destruct (is_wall (getNode g c));
      [exact (conj HL (conj Ho' (conj Hm Hnd)))|].
    destruct (isVisited (getNode g c)) eqn:Ec;
      [exact (conj HL (conj Ho' (conj Hm Hnd)))|].
    assert (HS : inStore g c) by (eapply rectangular_inStore; eassumption).
    assert (H1 : best_inv g0 (setNode g c (set_isVisited true), open',
                              vis ++ [c])).
    { split; [rewrite layout_setNode; [assumption|reflexivity]|].
      split; [assumption|]. split.
      - intros p Hp; apply in_app_iff in Hp; destruct Hp as [Hp|[<-|[]]].
        + apply mark_isVisited; apply Hm; assumption.
        + rewrite getNode_setNode_same by assumption; reflexivity.
      - apply NoDup_app; [assumption|repeat constructor; intros []|].
        intros a Ha [<-|[]]; apply Hm in Ha; congruence. }
    destruct (pos_eqb c endNode).
    + destruct H1 as [HL1 [_ [_ Hnd1]]]; split; assumption.
    + assert (HF := best_fold_inv c (vis ++ [c])
                      (getNeighbors c (setNode g c (set_isVisited true)))
                      (setNode g c (set_isVisited true)) open').
      destruct (fold_left (nbr c)
                  (getNeighbors c (setNode g c (set_isVisited true)))
                  (setNode g c (set_isVisited true), open')) as [g' o'].
      simpl in HF; apply HF; [|assumption].
      intros v Hv; destruct H1 as [HL1 _].
      rewrite (layout_getNeighbors _ g0 c HL1) in Hv.
      eapply getNeighbors_inGrid; eassumption.
Qed.

(** *** Termination, given a measure *)

Section Measure.

Variable mu : Grid -> list Pos -> nat.
Hypothesis mu_nbr : forall u v g openSet,
  layout g = layout g0 -> inGrid g0 v = true ->
  mu (fst (nbr u (g, openSet) v)) (snd (nbr u (g, openSet) v)) <= mu g openSet.
Hypothesis mu_pop : forall g c openSet open',
  layout g = layout g0 -> inGrid g0 c = true ->
  Permutation (c :: open') openSet ->
  ((is_wall (getNode g c) = true \/ isVisited (getNode g c) = true) ->
   mu g open' < mu g openSet) /\
  mu (setNode g c (set_isVisited true)) open' < mu g openSet.

Lemma best_fold_mu : forall u l g openSet,
  (forall v, In v l -> inGrid g0 v = true) -> layout g = layout g0 ->
  mu (fst (fold_left (nbr u) l (g, openSet)))
     (snd (fold_left (nbr u) l (g, openSet))) <= mu g openSet.
Proof.
  intros u l; induction l as [|v l IH]; intros g openSet Hl HL; simpl;
    [lia|].
  assert (Hv : inGrid g0 v = true) by (apply Hl; left; reflexivity).
  assert (H1 := mu_nbr u v g openSet HL Hv).
  assert (HS : inStore g v) by (eapply rectangular_inStore; eassumption).
  assert (HL1 : layout (fst (nbr u (g, openSet) v)) = layout g0).
  { destruct (nbr_relaxes u v g openSet HS) as [E|[_ [_ [[HL' _] _]]]].
    - rewrite E; assumption.
    - simpl in HL'; congruence. }
  destruct (nbr u (g, openSet) v) as [g1 o1]; simpl in *.
  assert (H2 : mu (fst (fold_left (nbr u) l (g1, o1)))
                  (snd (fold_left (nbr u) l (g1, o1))) <= mu g1 o1)
    by (apply IH; auto).
  lia.
Qed.

Lemma best_step_mu : forall g openSet vis g' open' vis',
  best_inv g0 (g, openSet, vis) ->
  best_step cmp nbr endNode (g, openSet, vis) = Continue (g', open', vis') ->
  mu g' open' < mu g openSet.
Proof.
  intros g openSet vis g' o' vis' [HL [Ho _]]; unfold best_step.
  assert (HP := sort_perm Pos (cmp g) openSet).
  destruct (sort (cmp g) openSet) as [|c rest]; [discriminate|].
  assert (Hc : inGrid g0 c = true).
  { apply Ho; apply (Permutation_in _ HP); left; reflexivity. }
  destruct (mu_pop g c openSet rest HL Hc HP) as [Hskip Hmark].
  destruct (is_wall (getNode g c)) eqn:Ew.
  - intros E; injection E as <- <- <-; apply Hskip; left; reflexivity.
  - destruct (isVisited (getNode g c)) eqn:Ev.
    + intros E; injection E as <- <- <-; apply Hskip; right; reflexivity.
    + destruct (pos_eqb c endNode); [discriminate|].
      assert (HL1 : layout (setNode g c (set_isVisited true)) = layout g0)
        by (rewrite layout_setNode; [assumption|reflexivity]).
      assert (HF := best_fold_mu c
                      (getNeighbors c (setNode g c (set_isVisited true)))
                      (setNode g c (set_isVisited true)) rest).
      destruct (fold_left (nbr c)
                  (getNeighbors c (setNode g c (set_isVisited true)))
                  (setNode g c (set_isVisited true), rest)) as [g2 o2].
      intros E; injection E as <- <- <-; simpl in HF.
      assert (mu g2 o2 <= mu (setNode g c (set_isVisited true)) rest);
        [|lia].
      apply HF; [|assumption].
      intros v Hv; rewrite (layout_getNeighbors _ g0 c HL1) in Hv.
      eapply getNeighbors_inGrid; eassumption.
Qed.

Lemma best_terminates : forall g openSet vis fuel,
  best_inv g0 (g, openSet, vis) -> mu g openSet < fuel ->
  exists o, loop (best_step cmp nbr endNode) fuel (g, openSet, vis) = Some o.
Proof.
  intros g openSet vis fuel H Hlt.
  apply (loop_terminates _ _ (best_step cmp nbr endNode) (best_inv g0)
           (fun st => mu (fst (fst st)) (snd (fst st)))); auto.
  intros s [[g' o'] vis'] Hs E; split.
  - assert (Hi := best_step_inv s Hs); rewrite E in Hi; assumption.
  - destruct s as [[g1 o1] vis1]; simpl; eapply best_step_mu; eassumption.
Qed.

End Measure.

(** *** Predecessor chains *)

Hypothesis start_open : open_cell g0 startNode = true.

Lemma linked_mark : forall g c openSet,
  inStore g c -> In c openSet -> isVisited (getNode g c) = false ->
  linked g0 startNode g -> pending_ok g0 startNode g openSet ->
  linked g0 startNode (setNode g c (set_isVisited true)).
Proof.
  intros g c openSet HS Hin Hc HLk HP p Hp.
  set (g1 := setNode g c (set_isVisited true)) in *.
  assert (Hframe : forall q l, chain g q l ->
            (forall x, In x l -> isVisited (getNode g x) = true) ->
            chain g1 q l /\ forall x, In x l -> isVisited (getNode g1 x) = true).
  { intros q l Hq Hall; split.
    - apply (chain_frame g g1 q l Hq); intros x _; apply mark_previousNode.
    - intros x Hx; apply mark_isVisited; apply Hall; assumption. }
  destruct (pos_eq_dec p c) as [->|Hne].
  - destruct (HP c Hin Hc) as [[-> Hprev]|[q [Hprev [Hq [Hs Ho]]]]].
    + exists [startNode]; repeat split.
      * constructor; unfold g1; rewrite mark_previousNode; assumption.
      * constructor; assumption.
      * intros x [<-|[]]; assumption.
    + destruct (HLk q Hq) as [l [Hch [Hw Hall]]].
      destruct (Hframe q l Hch Hall) as [Hch' Hall'].
      exists (l ++ [c]); repeat split.
      * apply chain_link with (q := q); [|assumption].
        unfold g1; rewrite mark_previousNode; assumption.
      * apply walk_snoc with (q := q); assumption.
      * intros x Hx; apply in_app_iff in Hx; destruct Hx as [Hx|[<-|[]]]; auto.
  - unfold g1 in Hp; rewrite getNode_setNode_other in Hp by assumption.
    destruct (HLk p Hp) as [l [Hch [Hw Hall]]].
    destruct (Hframe p l Hch Hall) as [Hch' Hall'].
    exists l; auto.
Qed.

Lemma pending_mark : forall g c openSet open',
  (forall p, In p open' -> In p openSet) ->
  pending_ok g0 startNode g openSet ->
  pending_ok g0 startNode (setNode g c (set_isVisited true)) open'.
Proof.
  intros g c openSet open' Hsub HP p Hin Hp.
  apply mark_unvisited in Hp; destruct Hp as [Hp _].
  rewrite mark_previousNode.
  destruct (HP p (Hsub p Hin) Hp) as [H|[q [H1 [H2 [H3 H4]]]]]; [left; exact H|].
  right; exists q; repeat split; auto.
  apply mark_isVisited; assumption.
Qed.

Lemma best_neighbor_paths : forall u v g openSet,
  layout g = layout g0 -> inGrid g0 v = true ->
  isVisited (getNode g u) = true -> step4 u v = true ->
  linked g0 startNode g -> pending_ok g0 startNode g openSet ->
  linked g0 startNode (fst (nbr u (g, openSet) v)) /\
  pending_ok g0 startNode (fst (nbr u (g, openSet) v))
                          (snd (nbr u (g, openSet) v)) /\
  isVisited (getNode (fst (nbr u (g, openSet) v)) u) = true /\
  layout (fst (nbr u (g, openSet) v)) = layout g0.
Proof.
  intros u v g openSet HL Hv Hu Hs HLk HP.
  assert (HS : inStore g v) by (eapply rectangular_inStore; eassumption).
  destruct (nbr_relaxes u v g openSet HS)
    as [E|[Hv0 [Hw [[HL' Hf] [Hv1 [Hprev [Hopen _]]]]]]].
  - rewrite E; simpl; auto.
  - destruct (nbr u (g, openSet) v) as [g1 o1]; simpl in *.
    assert (Huv : u <> v) by (intros ->; congruence).
    assert (Hmono : forall q, isVisited (getNode g q) = true ->
                              isVisited (getNode g1 q) = true).
    { intros q Hq; rewrite Hf; [assumption|]; intros ->; congruence. }
    repeat split.
    + intros p Hp.
      assert (Hpv : p <> v) by (intros ->; congruence).
      rewrite Hf in Hp by assumption.
      destruct (HLk p Hp) as [l [Hch [Hwk Hall]]].
      exists l; repeat split; auto.
      apply (chain_frame g g1 p l Hch); intros x Hx.
      rewrite Hf; [reflexivity|]; intros ->; apply Hall in Hx; congruence.
    + intros p Hin Hp.
      destruct (pos_eq_dec p v) as [->|Hpv].
      * right; exists u; repeat split; auto.
        unfold open_cell; rewrite Hv, <- (layout_is_wall g g0 v HL), Hw.
        reflexivity.
      * assert (Hin' : In p openSet).
        { destruct Hopen as [->| ->]; [assumption|].
          apply in_app_iff in Hin; destruct Hin as [Hin|[<-|[]]];
            [assumption|contradiction]. }
        rewrite Hf in Hp by assumption; rewrite Hf by assumption.
        destruct (HP p Hin' Hp) as [H|[q [H1 [H2 [H3 H4]]]]];
          [left; exact H|].
        right; exists q; repeat split; auto.
    + apply Hmono; assumption.
    + congruence.
Qed.

Lemma best_fold_paths : forall u l g openSet,
  (forall v, In v l -> inGrid g0 v = true /\ step4 u v = true) ->
  layout g = layout g0 -> isVisited (getNode g u) = true ->
  linked g0 startNode g -> pending_ok g0 startNode g openSet ->
  linked g0 startNode (fst (fold_left (nbr u) l (g, openSet))) /\
  pending_ok g0 startNode (fst (fold_left (nbr u) l (g, openSet)))
                          (snd (fold_left (nbr u) l (g, openSet))).
Proof.
  intros u l; induction l as [|v l IH]; intros g openSet Hl HL Hvis HLk HP;
    simpl; [split; assumption|].
  destruct (Hl v (or_introl eq_refl)) as [Hv Hs].
  destruct (best_neighbor_paths u v g openSet HL Hv Hvis Hs HLk HP)
    as [H1 [H2 [H3 H4]]].
  destruct (nbr u (g, openSet) v) as [g1 o1]; simpl in *.
  apply IH; auto; intros w Hw; apply Hl; right; assumption.
Qed.

Lemma best_step_paths : forall st,
  best_inv g0 st -> best_paths g0 startNode st ->
  match best_step cmp nbr endNode st with
  | Continue st' => best_paths g0 startNode st'
  | Return o => out_path g0 startNode endNode o
  end.
Proof.
  intros [[g openSet] vis] [HL [Ho _]] [HLk HP]; unfold best_step.
  assert (HPm := sort_perm Pos (cmp g) openSet).
  destruct (sort (cmp g) openSet) as [|c open']; [intros H; discriminate|].
  assert (Hsub : forall p, In p open' -> In p openSet).
  { intros p Hp; apply (Permutation_in _ HPm); right; assumption. }
  assert (Hcin : In c openSet)
    by (apply (Permutation_in _ HPm); left; reflexivity).
  assert (Hc : inGrid g0 c = true) by (apply Ho; assumption).
  assert (HPo : pending_ok g0 startNode g open').
  { intros p Hp; apply HP; apply Hsub; assumption. }
  destruct (is_wall (getNode g c)); [split; assumption|].
  destruct (isVisited (getNode g c)) eqn:Ec; [split; assumption|].
  assert (HS : inStore g c) by (eapply rectangular_inStore; eassumption).
  assert (HLk1 := linked_mark g c openSet HS Hcin Ec HLk HP).
  assert (HP1 := pending_mark g c openSet open' Hsub HP).
  assert (Hvis1 : isVisited (getNode (setNode g c (set_isVisited true)) c)
                  = true)
    by (rewrite getNode_setNode_same by assumption; reflexivity).
  assert (HL1 : layout (setNode g c (set_isVisited true)) = layout g0)
    by (rewrite layout_setNode; [assumption|reflexivity]).
  destruct (pos_eqb c endNode) eqn:E.
  - apply pos_eqb_eq in E; subst c; intros _; simpl.
    destruct (HLk1 endNode Hvis1) as [l [H1 [H2 _]]]; exists l; auto.
  - assert (HF := best_fold_paths c
                    (getNeighbors c (setNode g c (set_isVisited true)))
                    (setNode g c (set_isVisited true)) open').
    destruct (fold_left (nbr c)
                (getNeighbors c (setNode g c (set_isVisited true)))
                (setNode g c (set_isVisited true), open')) as [g' o'].
    simpl in HF; apply HF; auto.
    intros v Hv; rewrite (layout_getNeighbors _ g0 c HL1) in Hv.
    split; [eapply getNeighbors_inGrid|eapply getNeighbors_step4]; eassumption.
Qed.

End Best.

(** *** A start that is a wall *)

Lemma best_step_blocked : forall cmp nbr startNode endNode st,
  blocked st startNode ->
  match best_step cmp nbr endNode st with
  | Continue st' => blocked st' startNode
  | Return o => out_found o = false
  end.
Proof.
  intros cmp nbr startNode endNode [[g openSet] vis] [Hw [[->| ->] ->]];
    unfold best_step; simpl.
  - rewrite Hw; simpl; auto.
  - reflexivity.
Qed.

(* ================================================================== *)
(** * The five loop-based searches *)
(* ================================================================== *)

Lemma searches_are_loops :
  bfs = search_of bfs_loop /\ dfs = search_of dfs_loop /\
  astar = search_of astar_loop /\ greedyBFS = search_of greedy_loop /\
  uniformCostSearch = search_of ucs_loop.
Proof. repeat split; reflexivity. Qed.

(** ** Initial states *)

Lemma init_fields : forall g s f,
  (forall n, type (f n) = type n) ->
  layout (setNode g s f) = layout g /\
  (forall p, (forall n, isVisited (f n) = isVisited n) ->
             isVisited (getNode (setNode g s f) p) = isVisited (getNode g p)) /\
  (forall p, (forall n, previousNode (f n) = previousNode n) ->
             previousNode (getNode (setNode g s f) p)
             = previousNode (getNode g p)).
Proof.
  intros g s f H; split; [apply layout_setNode; assumption|].
  split; intros p Hf.
  - apply (field_setNode _ isVisited); assumption.
  - apply (field_setNode _ previousNode); assumption.
Qed.

(** A grid in which nothing is marked and the start has no predecessor is
    linked, and its start is a proper pending node. *)
Lemma unmarked_linked : forall g0 s g,
  (forall p, isVisited (getNode g p) = false) -> linked g0 s g.
Proof. intros g0 s g H p Hp; rewrite H in Hp; discriminate. Qed.

Lemma start_pending : forall g0 s g,
  previousNode (getNode g s) = None -> pending_ok g0 s g [s].
Proof.
  intros g0 s g H p [<-|[]] _; left; split; [reflexivity|assumption].
Qed.

Lemma only_start_linked : forall g0 s g,
  open_cell g0 s = true ->
  previousNode (getNode g s) = None ->
  (forall p, p <> s -> isVisited (getNode g p) = false) ->
  isVisited (getNode g s) = true ->
  linked g0 s g.
Proof.
  intros g0 s g Ho Hp Hu Hs p Hvis.
  destruct (pos_eq_dec p s) as [->|Hne]; [|rewrite Hu in Hvis; congruence].
  exists [s]; repeat split.
  - constructor; assumption.
  - constructor; assumption.
  - intros x [<-|[]]; assumption.
Qed.

Lemma bfs_init_eq : forall g s,
  bfs_init g s =
  (setNode g s (fun n => set_distance (Fin 0) (set_isVisited true n)), [s], []).
Proof. intros; unfold bfs_init; rewrite setNode_setNode; reflexivity. Qed.

Lemma astar_init_eq : forall g s e,
  astar_init g s e =
  (setNode g s (fun n => set_heuristic (manhattanDistance s e)
                           (set_distance (Fin 0) n)), [s], []).
Proof. intros; unfold astar_init; rewrite setNode_setNode; reflexivity. Qed.

(** ** Monotonicity in the fuel *)

Lemma loops_monotone :
  loop_monotone bfs_loop /\ loop_monotone dfs_loop /\
  loop_monotone astar_loop /\ loop_monotone greedy_loop /\
  loop_monotone ucs_loop.
Proof.
  repeat split; intros g s e n m o H Hle; eapply loop_mono; eassumption.
Qed.

Lemma search_of_mono : forall L,
  loop_monotone L ->
  forall g s e n m r, search_of L n g s e = Some r -> n <= m ->
                      search_of L m g s e = Some r.
Proof.
  intros L HL g s e n m r H Hle; unfold search_of in *.
  destruct (L n g s e) as [o|] eqn:E; [|discriminate].
  rewrite (HL g s e n m o E Hle); eapply finish_mono; eassumption.
Qed.

(** ** [bfs] and [dfs] *)

Lemma bfs_init_inv : forall g s,
  rectangular g = true -> inGrid g s = true ->
  scan_inv g (bfs_init g s).
Proof.
  intros g s HR HG; rewrite bfs_init_eq; split; [|split].
  - apply layout_setNode; reflexivity.
  - intros p [<-|[]]; split; [assumption|].
    rewrite getNode_setNode_same; [reflexivity|].
    apply inGrid_inStore; assumption.
  - repeat constructor; intros [].
Qed.

Lemma dfs_init_inv : forall g s,
  rectangular g = true -> inGrid g s = true ->
  scan_inv g (dfs_init g s).
Proof.
  intros g s HR HG; unfold dfs_init; split; [|split].
  - apply layout_setNode; reflexivity.
  - intros p [<-|[]]; split; [assumption|].
    rewrite getNode_setNode_same; [reflexivity|].
    apply inGrid_inStore; assumption.
  - repeat constructor; intros [].
Qed.

Lemma bfs_discovers : forall u v g queue,
  inStore g v -> discovers u v (g, queue) (bfs_neighbor u (g, queue) v).
Proof. intros; apply bfs_neighbor_discovers; assumption. Qed.

Lemma dfs_discovers : forall u v g stack,
  inStore g v -> discovers u v (g, stack) (dfs_neighbor u (g, stack) v).
Proof. intros; apply dfs_neighbor_discovers; assumption. Qed.

Lemma id_order_In : forall (l : list Pos) x, In x ((fun l => l) l) -> In x l.
Proof. auto. Qed.

Lemma rev_order_In : forall (l : list Pos) x, In x (rev l) -> In x l.
Proof. intros l x H; apply in_rev; assumption. Qed.

Lemma bfs_loop_safe : loop_safe bfs_loop.
Proof.
  intros g s e fuel o HR HG H; unfold bfs_loop in H.
  apply (loop_invariant _ _ (bfs_step e) (scan_inv g) (out_ok g))
    with (fuel := fuel) (s := bfs_init g s); auto.
  - intros st; rewrite bfs_step_scan.
    apply scan_step_inv; auto using bfs_discovers, id_order_In.
  - apply bfs_init_inv; assumption.
Qed.

Lemma dfs_loop_safe : loop_safe dfs_loop.
Proof.
  intros g s e fuel o HR HG H; unfold dfs_loop in H.
  apply (loop_invariant _ _ (dfs_step e) (scan_inv g) (out_ok g))
    with (fuel := fuel) (s := dfs_init g s); auto.
  - intros st; rewrite dfs_step_scan.
    apply scan_step_inv; auto using dfs_discovers, rev_order_In.
  - apply dfs_init_inv; assumption.
Qed.

Lemma bfs_loop_stops : loop_stops bfs_loop (fun g => S (cells g)).
Proof.
  intros g s e fuel HR HG Hlt; unfold bfs_loop; rewrite bfs_step_scan.
  apply (scan_terminates bfs_neighbor (fun l => l) bfs_discovers id_order_In
           g e HR).
  - apply bfs_init_inv; assumption.
  - rewrite bfs_init_eq; unfold scan_mu, cells in *; simpl.
    assert (H := countCells_bound g
      (unmarked (setNode g s (fun n => set_distance (Fin 0)
                                          (set_isVisited true n))))).
    lia.
Qed.

Lemma dfs_loop_stops : loop_stops dfs_loop (fun g => S (cells g)).
Proof.
  intros g s e fuel HR HG Hlt; unfold dfs_loop; rewrite dfs_step_scan.
  apply (scan_terminates dfs_neighbor (@rev Pos) dfs_discovers rev_order_In
           g e HR).
  - apply dfs_init_inv; assumption.
  - unfold dfs_init, scan_mu, cells in *; simpl.
    assert (H := countCells_bound g
      (unmarked (setNode g s (set_isVisited true)))).
    lia.
Qed.

(** The two cases of a search from a fresh grid: the start is a wall and
    the loop gives up, or it is not and the chains are paths. *)
Lemma scan_links : forall nbr order (init : Grid -> Pos -> SearchState),
  (forall u v g queue,
     inStore g v -> discovers u v (g, queue) (nbr u (g, queue) v)) ->
  (forall l x, In x (order l) -> In x l) ->
  (forall g s, rectangular g = true -> inGrid g s = true ->
               scan_inv g (init g s)) ->
  (forall g s, is_wall (getNode g s) = true -> blocked (init g s) s) ->
  (forall g s, rectangular g = true -> inGrid g s = true ->
               fresh g = true -> open_cell g s = true ->
               scan_paths g s (init g s)) ->
  forall g s e fuel o,
    rectangular g = true -> inGrid g s = true -> fresh g = true ->
    loop (scan_step nbr order e) fuel (init g s) = Some o ->
    out_path g s e o.
Proof.
  intros nbr order init Hnbr Hord Hinv Hblk Hpaths g s e fuel o HR HG HF H.
  destruct (is_wall (getNode g s)) eqn:Ew.
  - assert (Hf : out_found o = false).
    { apply (loop_invariant _ _ (scan_step nbr order e)
               (fun st => blocked st s) (fun o => out_found o = false))
        with (fuel := fuel) (s := init g s); auto.
      intros st; apply scan_step_blocked. }
    intros Hc; congruence.
  - assert (Ho : open_cell g s = true)
      by (unfold open_cell; rewrite HG, Ew; reflexivity).
    apply (loop_invariant _ _ (scan_step nbr order e)
             (fun st => scan_inv g st /\ scan_paths g s st)
             (out_path g s e))
      with (fuel := fuel) (s := init g s); auto.
    intros st [H1 H2].
    assert (Hi := scan_step_inv nbr order Hnbr Hord g e HR st H1).
    assert (Hp := scan_step_paths nbr order Hnbr Hord g s e HR st H1 H2).
    destruct (scan_step nbr order e st); auto.
Qed.

Lemma marked_start_linked : forall g s f,
  rectangular g = true -> inGrid g s = true -> fresh g = true ->
  open_cell g s = true ->
  (forall n, isVisited (f n) = true) ->
  (forall n, previousNode (f n) = previousNode n) ->
  linked g s (setNode g s f).
Proof.
  intros g s f HR HG HF Ho Hv Hp.
  apply only_start_linked; auto.
  - rewrite (field_setNode _ previousNode) by assumption.
    apply (fresh_fields g s HF).
  - intros p Hne; rewrite getNode_setNode_other by assumption.
    apply (fresh_fields g p HF).
  - rewrite getNode_setNode_same by (apply inGrid_inStore; assumption).
    apply Hv.
Qed.

Lemma bfs_loop_links : loop_links bfs_loop.
Proof.
  intros g s e fuel o HR HG HF H; unfold bfs_loop in H.
  rewrite bfs_step_scan in H.
  apply (scan_links bfs_neighbor (fun l => l) bfs_init bfs_discovers
           id_order_In bfs_init_inv) with (fuel := fuel); auto.
  - intros g1 s1 Hw; rewrite bfs_init_eq; split; [|auto].
    rewrite <- Hw; apply layout_is_wall; apply layout_setNode; reflexivity.
  - intros g1 s1 HR1 HG1 HF1 Ho; rewrite bfs_init_eq.
    apply marked_start_linked; auto.
Qed.

Lemma dfs_loop_links : loop_links dfs_loop.
Proof.
  intros g s e fuel o HR HG HF H; unfold dfs_loop in H.
  rewrite dfs_step_scan in H.
  apply (scan_links dfs_neighbor (@rev Pos)
           dfs_init dfs_discovers rev_order_In dfs_init_inv)
    with (fuel := fuel); auto.
  - intros g1 s1 Hw; unfold dfs_init; split; [|auto].
    rewrite <- Hw; apply layout_is_wall; apply layout_setNode; reflexivity.
  - intros g1 s1 HR1 HG1 HF1 Ho; unfold dfs_init.
    apply marked_start_linked; auto.
Qed.

(** ** [astar], [greedyBFS] and [uniformCostSearch] *)

Lemma best_links : forall cmp nbr (init : Grid -> Pos -> Pos -> SearchState),
  (forall u v g openSet,
     inStore g v -> relaxes u v (g, openSet) (nbr u (g, openSet) v)) ->
  (forall g s e, rectangular g = true -> inGrid g s = true ->
                 best_inv g (init g s e)) ->
  (forall g s e, is_wall (getNode g s) = true -> blocked (init g s e) s) ->
  (forall g s e, fresh g = true -> best_paths g s (init g s e)) ->
  forall g s e fuel o,
    rectangular g = true -> inGrid g s = true -> fresh g = true ->
    loop (best_step cmp nbr e) fuel (init g s e) = Some o ->
    out_path g s e o.
Proof.
  intros cmp nbr init Hnbr Hinv Hblk Hpaths g s e fuel o HR HG HF H.
  destruct (is_wall (getNode g s)) eqn:Ew.
  - assert (Hf : out_found o = false).
    { apply (loop_invariant _ _ (best_step cmp nbr e)
               (fun st => blocked st s) (fun o => out_found o = false))
        with (fuel := fuel) (s := init g s e); auto.
      intros st; apply best_step_blocked. }
    intros Hc; congruence.
  - assert (Ho : open_cell g s = true)
      by (unfold open_cell; rewrite HG, Ew; reflexivity).
    apply (loop_invariant _ _ (best_step cmp nbr e)
             (fun st => best_inv g st /\ best_paths g s st)
             (out_path g s e))
      with (fuel := fuel) (s := init g s e); auto.
    intros st [H1 H2].
    assert (Hi := best_step_inv cmp nbr Hnbr g e HR st H1).
    assert (Hp := best_step_paths cmp nbr Hnbr g s e HR Ho st H1 H2).
    destruct (best_step cmp nbr e st); auto.
Qed.

Lemma best_safe : forall cmp nbr (init : Grid -> Pos -> Pos -> SearchState),
  (forall u v g openSet,
     inStore g v -> relaxes u v (g, openSet) (nbr u (g, openSet) v)) ->
  (forall g s e, rectangular g = true -> inGrid g s = true ->
                 best_inv g (init g s e)) ->
  forall g s e fuel o,
    rectangular g = true -> inGrid g s = true ->
    loop (best_step cmp nbr e) fuel (init g s e) = Some o -> out_ok g o.
Proof.
  intros cmp nbr init Hnbr Hinv g s e fuel o HR HG H.
  apply (loop_invariant _ _ (best_step cmp nbr e) (best_inv g) (out_ok g))
    with (fuel := fuel) (s := init g s e); auto.
  intros st; apply best_step_inv; auto.
Qed.

Lemma astar_relaxes : forall e u v g openSet,
  inStore g v -> relaxes u v (g, openSet) (astar_neighbor u e (g, openSet) v).
Proof. intros; apply astar_neighbor_relaxes; assumption. Qed.

Lemma greedy_relaxes : forall e u v g openSet,
  inStore g v -> relaxes u v (g, openSet) (greedy_neighbor u e (g, openSet) v).
Proof. intros; apply greedy_neighbor_relaxes; assumption. Qed.

(** The initial state of the three: one scratch assignment to the start,
    which alone is in the open set. *)
Lemma best_init_inv : forall g s f,
  (forall n, type (f n) = type n) ->
  inGrid g s = true -> best_inv g (setNode g s f, [s], []).
Proof.
  intros g s f Hf HG; split; [apply layout_setNode; assumption|].
  split; [intros p [<-|[]]; assumption|].
  split; [intros p []|constructor].
Qed.

Lemma best_init_blocked : forall g s f,
  (forall n, type (f n) = type n) ->
  is_wall (getNode g s) = true -> blocked (setNode g s f, [s], []) s.
Proof.
  intros g s f Hf Hw; split; [|auto].
  rewrite <- Hw; apply layout_is_wall; apply layout_setNode; assumption.
Qed.

Lemma best_init_paths : forall g s f,
  (forall n, isVisited (f n) = isVisited n) ->
  (forall n, previousNode (f n) = previousNode n) ->
  fresh g = true -> best_paths g s (setNode g s f, [s], []).
Proof.
  intros g s f Hv Hp HF; split.
  - apply unmarked_linked; intros p.
    rewrite (field_setNode _ isVisited) by assumption.
    apply (fresh_fields g p HF).
  - apply start_pending.
    rewrite (field_setNode _ previousNode) by assumption.
    apply (fresh_fields g s HF).
Qed.

Lemma astar_loop_safe : loop_safe astar_loop.
Proof.
  intros g s e fuel o HR HG H; unfold astar_loop in H.
  rewrite astar_step_best in H.
  apply (best_safe astar_cmp (fun u => astar_neighbor u e)
           (fun g s _ => astar_init g s e) (astar_relaxes e))
    with (s := s) (e := e) (fuel := fuel); auto.
  intros g1 s1 _ _ HG1; rewrite astar_init_eq.
  apply best_init_inv; auto.
Qed.

Lemma greedy_loop_safe : loop_safe greedy_loop.
Proof.
  intros g s e fuel o HR HG H; unfold greedy_loop in H.
  rewrite greedy_step_best in H.
  apply (best_safe greedy_cmp (fun u => greedy_neighbor u e)
           (fun g s _ => greedy_init g s e) (greedy_relaxes e))
    with (s := s) (e := e) (fuel := fuel); auto.
  intros g1 s1 _ _ HG1; apply best_init_inv; auto.
Qed.

Lemma ucs_loop_safe : loop_safe ucs_loop.
Proof.
  intros g s e fuel o HR HG H; unfold ucs_loop in H.
  rewrite ucs_step_best in H.
  apply (best_safe ucs_cmp ucs_neighbor
           (fun g s _ => ucs_init g s) ucs_neighbor_relaxes)
    with (s := s) (e := e) (fuel := fuel); auto.
  intros g1 s1 _ _ HG1; apply best_init_inv; auto.
Qed.

Lemma astar_loop_links : loop_links astar_loop.
Proof.
  intros g s e fuel o HR HG HF H; unfold astar_loop in H.
  rewrite astar_step_best in H.
  apply (best_links astar_cmp (fun u => astar_neighbor u e)
           (fun g s _ => astar_init g s e) (astar_relaxes e))
    with (fuel := fuel); auto.
  - intros g1 s1 _ _ HG1; rewrite astar_init_eq; apply best_init_inv; auto.
  - intros g1 s1 _ Hw; rewrite astar_init_eq; apply best_init_blocked; auto.
  - intros g1 s1 _ HF1; rewrite astar_init_eq; apply best_init_paths; auto.
Qed.

Lemma greedy_loop_links : loop_links greedy_loop.
Proof.
  intros g s e fuel o HR HG HF H; unfold greedy_loop in H.
  rewrite greedy_step_best in H.
  apply (best_links greedy_cmp (fun u => greedy_neighbor u e)
           (fun g s _ => greedy_init g s e) (greedy_relaxes e))
    with (fuel := fuel); auto.
  - intros g1 s1 _ _ HG1; apply best_init_inv; auto.
  - intros g1 s1 _ Hw; apply best_init_blocked; auto.
  - intros g1 s1 _ HF1; apply best_init_paths; auto.
Qed.

Lemma ucs_loop_links : loop_links ucs_loop.
Proof.
  intros g s e fuel o HR HG HF H; unfold ucs_loop in H.
  rewrite ucs_step_best in H.
  apply (best_links ucs_cmp ucs_neighbor
           (fun g s _ => ucs_init g s) ucs_neighbor_relaxes)
    with (fuel := fuel); auto.
  - intros g1 s1 _ _ HG1; apply best_init_inv; auto.
  - intros g1 s1 _ Hw; apply best_init_blocked; auto.
  - intros g1 s1 _ HF1; apply best_init_paths; auto.
Qed.

(* ================================================================== *)
(** * Termination of the three sorted searches *)
(* ================================================================== *)

Lemma includes_app : forall l l' p,
  includes (l ++ l') p = includes l p || includes l' p.
Proof. intros; unfold includes; apply existsb_app. Qed.

Lemma waiting_true : forall g openSet p,
  waiting g openSet p = true <->
  isVisited (getNode g p) = false /\ is_wall (getNode g p) = false /\
  ~ In p openSet.
Proof.
  intros g openSet p; unfold waiting.
  rewrite !andb_true_iff, !negb_true_iff, includes_not_In; tauto.
Qed.

Lemma relax_mu_push : forall g0 g v f openSet,
  inGrid g0 v = true ->
  (forall n, type (f n) = type n) ->
  (forall n, isVisited (f n) = isVisited n) ->
  isVisited (getNode g v) = false -> is_wall (getNode g v) = false ->
  relax_mu g0 (setNode g v f)
           (if includes openSet v then openSet else openSet ++ [v])
  <= relax_mu g0 g openSet.
Proof.
  intros g0 g v f openSet Hv Ht Hvis Hu Hw; unfold relax_mu.
  assert (Hsame : forall o p, waiting (setNode g v f) o p = waiting g o p).
  { intros o p; unfold waiting.
    rewrite (field_setNode _ isVisited) by assumption.
    rewrite (field_setNode _ is_wall)
      by (intros n; unfold is_wall; rewrite Ht; reflexivity).
    reflexivity. }
  destruct (includes openSet v) eqn:E.
  - assert (H : countCells g0 (waiting (setNode g v f) openSet)
                <= countCells g0 (waiting g openSet))
      by (apply countCells_le; intros p _; rewrite Hsame; auto).
    lia.
  - assert (H : countCells g0 (waiting (setNode g v f) (openSet ++ [v]))
                < countCells g0 (waiting g openSet)).
    { apply countCells_lt with (x := v); auto.
      - intros p _; rewrite Hsame, !waiting_true.
        intros [H1 [H2 H3]]; repeat split; auto.
        intros Hin; apply H3; apply in_app_iff; left; assumption.
      - rewrite Hsame; unfold waiting; rewrite includes_app.
        unfold includes at 2; simpl; rewrite pos_eqb_refl.
        rewrite orb_true_r, andb_false_r; reflexivity.
      - apply waiting_true; repeat split; auto.
        apply includes_not_In; assumption. }
    rewrite length_app; simpl; lia.
Qed.

Lemma relax_mu_pop : forall g0 g c openSet open',
  rectangular g0 = true -> layout g = layout g0 -> inGrid g0 c = true ->
  Permutation (c :: open') openSet ->
  ((is_wall (getNode g c) = true \/ isVisited (getNode g c) = true) ->
   relax_mu g0 g open' < relax_mu g0 g openSet) /\
  relax_mu g0 (setNode g c (set_isVisited true)) open'
  < relax_mu g0 g openSet.
Proof.
  intros g0 g c openSet open' HR HL Hc HP; unfold relax_mu.
  assert (Hlen : length openSet = S (length open'))
    by (rewrite <- (Permutation_length HP); reflexivity).
  assert (Hin : forall p, p <> c -> ~ In p open' -> ~ In p openSet).
  { intros p Hne Hn Hp; apply (Permutation_in _ (Permutation_sym HP)) in Hp.
    destruct Hp as [->|Hp]; [apply Hne; reflexivity|contradiction]. }
  assert (HS : inStore g c) by (eapply rectangular_inStore; eassumption).
  split.
  - intros Hskip.
    assert (H : countCells g0 (waiting g open')
                <= countCells g0 (waiting g openSet)); [|lia].
    apply countCells_le; intros p _; rewrite !waiting_true.
    intros [H1 [H2 H3]]; repeat split; auto.
    apply Hin; [|assumption].
    intros ->; destruct Hskip; congruence.
  - assert (H : countCells g0 (waiting (setNode g c (set_isVisited true)) open')
                <= countCells g0 (waiting g openSet)); [|lia].
    apply countCells_le; intros p _; rewrite !waiting_true.
    intros [H1 [H2 H3]].
    apply mark_unvisited in H1; destruct H1 as [H1 Hne].
    repeat split; auto.
    rewrite <- H2; symmetry; apply (field_setNode _ is_wall); reflexivity.
Qed.

Lemma relax_mu_init : forall g s f,
  relax_mu g (setNode g s f) [s] <= 2 * cells g + 1.
Proof.
  intros g s f; unfold relax_mu, cells; simpl.
  assert (H := countCells_bound g (waiting (setNode g s f) [s])); lia.
Qed.

Lemma astar_mu_nbr : forall g0 e u v g openSet,
  layout g = layout g0 -> inGrid g0 v = true ->
  relax_mu g0 (fst (astar_neighbor u e (g, openSet) v))
              (snd (astar_neighbor u e (g, openSet) v))
  <= relax_mu g0 g openSet.
Proof.
  intros g0 e u v g openSet HL Hv; rewrite astar_neighbor_eq.
  destruct (isVisited (getNode g v)) eqn:E1; [simpl; lia|].
  destruct (is_wall (getNode g v)) eqn:E2; [simpl; lia|].
  simpl orb; cbv iota.
  destruct (num_ltb _ _); [|simpl; lia].
  simpl fst; simpl snd; apply relax_mu_push; auto.
Qed.

Lemma ucs_mu_nbr : forall g0 u v g openSet,
  layout g = layout g0 -> inGrid g0 v = true ->
  relax_mu g0 (fst (ucs_neighbor u (g, openSet) v))
              (snd (ucs_neighbor u (g, openSet) v))
  <= relax_mu g0 g openSet.
Proof.
  intros g0 u v g openSet HL Hv; rewrite ucs_neighbor_eq.
  destruct (isVisited (getNode g v)) eqn:E1; [simpl; lia|].
  destruct (is_wall (getNode g v)) eqn:E2; [simpl; lia|].
  simpl orb; cbv iota.
  destruct (num_ltb _ _); [|simpl; lia].
  simpl fst; simpl snd; apply relax_mu_push; auto.
Qed.

Lemma greedy_mu_nbr : forall g0 e u v g openSet,
  layout g = layout g0 -> inGrid g0 v = true ->
  rectangular g0 = true ->
  greedy_mu g0 (fst (greedy_neighbor u e (g, openSet) v))
               (snd (greedy_neighbor u e (g, openSet) v))
  <= greedy_mu g0 g openSet.
Proof.
  intros g0 e u v g openSet HL Hv HR; rewrite greedy_neighbor_eq.
  destruct (isVisited (getNode g v)) eqn:E1; [simpl; lia|].
  destruct (is_wall (getNode g v)) eqn:E2; [simpl; lia|].
  simpl orb; cbv iota.
  destruct (num_is_infinity (heuristic (getNode g v))) eqn:E3; [|simpl; lia].
  simpl fst; simpl snd; unfold greedy_mu.
  assert (HS : inStore g v) by (eapply rectangular_inStore; eassumption).
  set (g' := setNode g v _).
  assert (H : countCells g0 (unrated g') < countCells g0 (unrated g)).
  { apply countCells_lt with (x := v); auto.
    - intros p _; unfold unrated, g'.
      destruct (pos_eq_dec p v) as [->|Hne].
      + rewrite getNode_setNode_same by assumption; discriminate.
      + rewrite getNode_setNode_other by assumption; auto.
    - unfold unrated, g'; rewrite getNode_setNode_same by assumption.
      reflexivity. }
  rewrite length_app; simpl; lia.
Qed.

Lemma greedy_mu_pop : forall g0 g c openSet open',
  Permutation (c :: open') openSet ->
  greedy_mu g0 g open' < greedy_mu g0 g openSet /\
  greedy_mu g0 (setNode g c (set_isVisited true)) open'
  < greedy_mu g0 g openSet.
Proof.
  intros g0 g c openSet open' HP; unfold greedy_mu.
  assert (Hlen : length openSet = S (length open'))
    by (rewrite <- (Permutation_length HP); reflexivity).
  split; [lia|].
  assert (H : countCells g0 (unrated (setNode g c (set_isVisited true)))
              <= countCells g0 (unrated g)); [|lia].
  apply countCells_le; intros p _; unfold unrated.
  rewrite (field_setNode _ heuristic) by reflexivity; auto.
Qed.

Lemma greedy_mu_init : forall g s f,
  greedy_mu g (setNode g s f) [s] <= cells g + 1.
Proof.
  intros g s f; unfold greedy_mu, cells; simpl.
  assert (H := countCells_bound g (unrated (setNode g s f))); lia.
Qed.

Lemma astar_loop_stops : loop_stops astar_loop (fun g => 2 * cells g + 1).
Proof.
  intros g s e fuel HR HG Hlt; unfold astar_loop.
  rewrite astar_step_best, astar_init_eq.
  apply (best_terminates astar_cmp (fun u => astar_neighbor u e)
           (astar_relaxes e) g e HR (relax_mu g)).
  - intros u v g1 o1; apply astar_mu_nbr.
  - intros g1 c o1 o1'; apply relax_mu_pop; assumption.
  - apply best_init_inv; auto.
  - eapply Nat.le_lt_trans; [apply relax_mu_init|assumption].
Qed.

Lemma ucs_loop_stops : loop_stops ucs_loop (fun g => 2 * cells g + 1).
Proof.
  intros g s e fuel HR HG Hlt; unfold ucs_loop, ucs_init.
  rewrite ucs_step_best.
  apply (best_terminates ucs_cmp ucs_neighbor
           ucs_neighbor_relaxes g e HR (relax_mu g)).
  - intros u v g1 o1; apply ucs_mu_nbr.
  - intros g1 c o1 o1'; apply relax_mu_pop; assumption.
  - apply best_init_inv; auto.
  - eapply Nat.le_lt_trans; [apply relax_mu_init|assumption].
Qed.

Lemma greedy_loop_stops : loop_stops greedy_loop (fun g => cells g + 1).
Proof.
  intros g s e fuel HR HG Hlt; unfold greedy_loop, greedy_init.
  rewrite greedy_step_best.
  apply (best_terminates greedy_cmp (fun u => greedy_neighbor u e)
           (greedy_relaxes e) g e HR (greedy_mu g)).
  - intros u v g1 o1 HL Hv; apply greedy_mu_nbr; assumption.
  - intros g1 c o1 o1' _ _ HP.
    destruct (greedy_mu_pop g g1 c o1 o1' HP); auto.
  - apply best_init_inv; auto.
  - eapply Nat.le_lt_trans; [apply greedy_mu_init|assumption].
Qed.

(* ================================================================== *)
(** * From the main loop to the result *)
(* ================================================================== *)

Lemma finish_Some : forall fuel e o r g',
  finish fuel e (Some o) = Some (r, g') ->
  g' = out_grid o /\ visitedNodesInOrder r = out_visited o /\
  success r = out_found o /\
  (out_found o = false -> shortestPath r = []) /\
  (out_found o = true -> reconstructPath fuel g' e = Some (shortestPath r)).
Proof.
  intros fuel e [g vis [|]] r g' H; simpl in H.
  - destruct (reconstructPath fuel g e) as [p|] eqn:E; [|discriminate].
    injection H as <- <-; simpl; repeat split; auto; discriminate.
  - injection H as <- <-; simpl; repeat split; auto; discriminate.
Qed.

Lemma reconstructPath_chain : forall fuel g e p l,
  reconstructPath fuel g e = Some p -> chain g e l -> p = l.
Proof.
  intros fuel g e p l H Hc.
  assert (H1 := chain_reconstructPath g e l Hc (fuel + length l) ltac:(lia)).
  unfold reconstructPath in *.
  rewrite (reconstructPath_loop_mono g fuel (fuel + length l) _ _ p H
             ltac:(lia)) in H1.
  congruence.
Qed.

Section Results.

Variable L : MainLoop.
Variable bound : Grid -> nat.
Hypothesis L_mono : loop_monotone L.
Hypothesis L_safe : loop_safe L.
Hypothesis L_stops : loop_stops L bound.
Hypothesis L_links : loop_links L.

Lemma search_safe : forall fuel g s e r g',
  rectangular g = true -> inGrid g s = true ->
  search_of L fuel g s e = Some (r, g') ->
  layout g' = layout g /\ NoDup (visitedNodesInOrder r).
Proof.
  intros fuel g s e r g' HR HG H; unfold search_of in H.
  destruct (L fuel g s e) as [o|] eqn:E; [|discriminate].
  destruct (finish_Some fuel e o r g' H) as [-> [-> _]].
  apply (L_safe g s e fuel o HR HG E).
Qed.

Lemma search_path : forall fuel g s e r g',
  rectangular g = true -> inGrid g s = true -> fresh g = true ->
  search_of L fuel g s e = Some (r, g') -> success r = true ->
  is_path g s e (shortestPath r) = true.
Proof.
  intros fuel g s e r g' HR HG HF H Hs; unfold search_of in H.
  destruct (L fuel g s e) as [o|] eqn:E; [|discriminate].
  destruct (finish_Some fuel e o r g' H) as [-> [_ [Hf [_ Hrec]]]].
  rewrite Hs in Hf; symmetry in Hf.
  destruct (L_links g s e fuel o HR HG HF E Hf) as [l [Hc Hw]].
  rewrite (reconstructPath_chain fuel _ e _ l (Hrec Hf) Hc).
  apply walk_is_path; assumption.
Qed.

(** The search returns, and what it returns is either a failure with an
    empty path or a success with a path from the start to the target. *)
Lemma search_returns : forall g s e,
  rectangular g = true -> inGrid g s = true -> fresh g = true ->
  exists r g',
    Returns (fun fuel => search_of L fuel g s e) (r, g') /\
    ((success r = false /\ shortestPath r = []) \/
     (success r = true /\ is_path g s e (shortestPath r) = true)).
Proof.
  intros g s e HR HG HF.
  destruct (L_stops g s e (S (bound g)) HR HG ltac:(lia)) as [o Ho].
  assert (Hp := L_links g s e _ o HR HG HF Ho).
  destruct o as [g1 vis [|]].
  - destruct (Hp eq_refl) as [l [Hc Hw]]; simpl in Hc.
    exists (mkResult vis l true), g1; split.
    + exists (S (bound g) + length l); intros fuel Hle; unfold search_of.
      rewrite (L_mono g s e _ fuel _ Ho ltac:(lia)); simpl.
      rewrite (chain_reconstructPath g1 e l Hc fuel ltac:(lia)); reflexivity.
    + right; split; [reflexivity|apply walk_is_path; assumption].
  - exists (mkResult vis [] false), g1; split.
    + exists (S (bound g)); intros fuel Hle; unfold search_of.
      rewrite (L_mono g s e _ fuel _ Ho Hle); reflexivity.
    + left; split; reflexivity.
Qed.

Lemma search_no_path : forall g s e,
  rectangular g = true -> inGrid g s = true -> fresh g = true ->
  (forall l, is_path g s e l = false) ->
  exists r g',
    Returns (fun fuel => search_of L fuel g s e) (r, g') /\
    success r = false /\ shortestPath r = [].
Proof.
  intros g s e HR HG HF Hno.
  destruct (search_returns g s e HR HG HF) as [r [g' [H [[H1 H2]|[_ H2]]]]].
  - exists r, g'; auto.
  - rewrite Hno in H2; discriminate.
Qed.

End Results.

(* ================================================================== *)
(** * Iterative deepening *)
(* ================================================================== *)

Lemma depthLimitedSearch_S : forall fuel g c e maxDepth vis depth,
  depthLimitedSearch (S fuel) g c e maxDepth vis depth =
  if is_wall (getNode g c) then Some (false, g, vis)
  else
    let g1 := setNode g c (set_isVisited true) in
    if pos_eqb c e then Some (true, g1, vis ++ [c])
    else if maxDepth <=? depth then Some (false, g1, vis ++ [c])
    else depthLimitedSearch_for (fun g' n vis' =>
                    depthLimitedSearch fuel g' n e maxDepth vis' (S depth))
                 c (getNeighbors c g1) g1 (vis ++ [c]).
Proof. reflexivity. Qed.

(** ** Kinds, fuel and termination *)

Lemma dls_for_layout : forall call c,
  (forall g n vis b g' vis',
     call g n vis = Some (b, g', vis') -> layout g' = layout g) ->
  forall neighbors g vis b g' vis',
    depthLimitedSearch_for call c neighbors g vis = Some (b, g', vis') ->
    layout g' = layout g.
Proof.
  intros call c Hcall neighbors; induction neighbors as [|n rest IH];
    intros g vis b g' vis' H; simpl in H.
  - injection H as _ <- _; reflexivity.
  - destruct (negb (isVisited (getNode g n)) && negb (is_wall (getNode g n)));
      [|eapply IH; eassumption].
    destruct (call (setNode g n (set_previousNode (Some c))) n vis)
      as [[[b1 g1] vis1]|] eqn:E; [|discriminate].
    apply Hcall in E; rewrite layout_setNode in E by reflexivity.
    destruct b1.
    + injection H as _ <- _; assumption.
    + apply IH in H; congruence.
Qed.

Lemma depthLimitedSearch_layout : forall fuel g c e maxDepth vis depth b g' vis',
  depthLimitedSearch fuel g c e maxDepth vis depth = Some (b, g', vis') ->
  layout g' = layout g.
Proof.
  induction fuel as [|fuel IH]; intros g c e maxDepth vis depth b g' vis' H;
    [discriminate|].
  rewrite depthLimitedSearch_S in H.
  destruct (is_wall (getNode g c)); [injection H as _ <- _; reflexivity|].
  cbv zeta in H.
  assert (HL : layout (setNode g c (set_isVisited true)) = layout g)
    by (apply layout_setNode; reflexivity).
  destruct (pos_eqb c e); [injection H as _ <- _; assumption|].
  destruct (maxDepth <=? depth); [injection H as _ <- _; assumption|].
  apply dls_for_layout in H; [congruence|].
  intros g1 n vis1 b1 g1' vis1' H1; eapply IH; eassumption.
Qed.

Lemma layout_resetVisited : forall g, layout (resetVisited g) = layout g.
Proof.
  intros g; unfold layout, resetVisited; rewrite map_map.
  apply map_ext; intros row; rewrite map_map; apply map_ext; reflexivity.
Qed.

Lemma iterativeDeepening_loop_layout :
  forall fuel rounds maxDepth g s e vis r g',
    iterativeDeepening_loop fuel rounds maxDepth g s e vis = Some (r, g') ->
    layout g' = layout g.
Proof.
  intros fuel rounds; induction rounds as [|rounds IH];
    intros maxDepth g s e vis r g' H; simpl in H.
  - injection H as _ <-; reflexivity.
  - destruct (depthLimitedSearch fuel (resetVisited g) s e maxDepth vis 0)
      as [[[b g1] vis1]|] eqn:E; [|discriminate].
    apply depthLimitedSearch_layout in E; rewrite layout_resetVisited in E.
    destruct b.
    + destruct (reconstructPath fuel g1 e); [|discriminate].
      injection H as _ <-; assumption.
    + apply IH in H; congruence.
Qed.

Lemma dls_for_mono : forall call1 call2 c,
  (forall g n vis r, call1 g n vis = Some r -> call2 g n vis = Some r) ->
  forall neighbors g vis r,
    depthLimitedSearch_for call1 c neighbors g vis = Some r ->
    depthLimitedSearch_for call2 c neighbors g vis = Some r.
Proof.
  intros call1 call2 c Hcall neighbors; induction neighbors as [|n rest IH];
    intros g vis r H; simpl in *; [assumption|].
  destruct (negb (isVisited (getNode g n)) && negb (is_wall (getNode g n)));
    [|apply IH; assumption].
  destruct (call1 (setNode g n (set_previousNode (Some c))) n vis)
    as [[[b1 g1] vis1]|] eqn:E; [|discriminate].
  rewrite (Hcall _ _ _ _ E).
  destruct b1; [assumption|apply IH; assumption].
Qed.

Lemma depthLimitedSearch_mono : forall n m g c e maxDepth vis depth r,
  depthLimitedSearch n g c e maxDepth vis depth = Some r -> n <= m ->
  depthLimitedSearch m g c e maxDepth vis depth = Some r.
Proof.
  induction n as [|n IH]; intros m g c e maxDepth vis depth r H Hle;
    [discriminate|].
  destruct m as [|m]; [lia|].
  rewrite depthLimitedSearch_S in *.
  destruct (is_wall (getNode g c)); [assumption|].
  cbv zeta in *.
  destruct (pos_eqb c e); [assumption|].
  destruct (maxDepth <=? depth); [assumption|].
  revert H; apply dls_for_mono.
  intros g1 n1 vis1 r1 H1; apply IH; [assumption|lia].
Qed.

Lemma iterativeDeepening_loop_mono :
  forall n m rounds maxDepth g s e vis r,
    iterativeDeepening_loop n rounds maxDepth g s e vis = Some r -> n <= m ->
    iterativeDeepening_loop m rounds maxDepth g s e vis = Some r.
Proof.
  intros n m rounds; induction rounds as [|rounds IH];
    intros maxDepth g s e vis r H Hle; simpl in *; [assumption|].
  destruct (depthLimitedSearch n (resetVisited g) s e maxDepth vis 0)
    as [[[b g1] vis1]|] eqn:E; [|discriminate].
  rewrite (depthLimitedSearch_mono n m _ _ _ _ _ _ _ E Hle).
  destruct b.
  - unfold reconstructPath in *.
    destruct (reconstructPath_loop n g1 (Some e) []) as [p|] eqn:Ep;
      [|discriminate].
    rewrite (reconstructPath_loop_mono g1 n m _ _ p Ep Hle); assumption.
  - apply IH; assumption.
Qed.

Lemma iterativeDeepening_mono : forall g s e n m r,
  iterativeDeepening n g s e = Some r -> n <= m ->
  iterativeDeepening m g s e = Some r.
Proof.
  intros g s e n m r; unfold iterativeDeepening.
  apply iterativeDeepening_loop_mono.
Qed.

Lemma dls_for_total : forall call c,
  (forall g n vis, exists r, call g n vis = Some r) ->
  forall neighbors g vis,
    exists r, depthLimitedSearch_for call c neighbors g vis = Some r.
Proof.
  intros call c Hcall neighbors; induction neighbors as [|n rest IH];
    intros g vis; simpl; [eauto|].
  destruct (negb (isVisited (getNode g n)) && negb (is_wall (getNode g n)));
    [|apply IH].
  destruct (Hcall (setNode g n (set_previousNode (Some c))) n vis)
    as [[[b1 g1] vis1] ->].
  destruct b1; [eauto|apply IH].
Qed.

(** A call at depth [depth] needs one unit of fuel per level left. *)
Lemma depthLimitedSearch_total : forall fuel g c e maxDepth vis depth,
  maxDepth - depth < fuel ->
  exists r, depthLimitedSearch fuel g c e maxDepth vis depth = Some r.
Proof.
  induction fuel as [|fuel IH]; intros g c e maxDepth vis depth Hlt; [lia|].
  rewrite depthLimitedSearch_S.
  destruct (is_wall (getNode g c)); [eauto|].
  cbv zeta.
  destruct (pos_eqb c e); [eauto|].
  destruct (Nat.leb_spec maxDepth depth); [eauto|].
  apply dls_for_total; intros g1 n vis1; apply IH; lia.
Qed.

(** ** The recursion keeps the stack linked *)

Lemma keeps_marked_refl : forall g, keeps_marked g g.
Proof. intros g p H; auto. Qed.

Lemma keeps_marked_trans : forall g1 g2 g3,
  keeps_marked g1 g2 -> keeps_marked g2 g3 -> keeps_marked g1 g3.
Proof.
  intros g1 g2 g3 H12 H23 p Hp.
  destruct (H12 p Hp) as [H1 H2]; destruct (H23 p H1) as [H3 H4].
  split; congruence.
Qed.

Lemma keeps_marked_mark : forall g c,
  keeps_marked g (setNode g c (set_isVisited true)).
Proof.
  intros g c p Hp; split;
    [apply mark_isVisited; assumption|apply mark_previousNode].
Qed.

Lemma keeps_marked_link : forall g n c,
  isVisited (getNode g n) = false ->
  keeps_marked g (setNode g n (set_previousNode (Some c))).
Proof.
  intros g n c Hn p Hp.
  assert (Hne : p <> n) by (intros ->; congruence).
  rewrite getNode_setNode_other by assumption; auto.
Qed.

Lemma chain_keeps_marked : forall g g' c l,
  keeps_marked g g' -> chain g c l ->
  (forall x, In x l -> isVisited (getNode g x) = true) ->
  chain g' c l /\ forall x, In x l -> isVisited (getNode g' x) = true.
Proof.
  intros g g' c l HK Hc Hall; split.
  - apply (chain_frame g g' c l Hc); intros x Hx; apply HK; auto.
  - intros x Hx; apply HK; auto.
Qed.

Section DepthLimited.

Variable g0 : Grid.
Variables startNode endNode : Pos.
Variable maxDepth : nat.
Hypothesis g0_rect : rectangular g0 = true.

Lemma dls_for_contract : forall fuel,
  (forall g c vis d res,
     layout g = layout g0 -> on_stack g0 startNode g c d -> d <= maxDepth ->
     depthLimitedSearch fuel g c endNode maxDepth vis d = Some res ->
     dls_post g0 startNode endNode maxDepth
              (setNode g c (set_isVisited true)) res) ->
  forall c d neighbors g vis res,
    layout g = layout g0 -> d < maxDepth ->
    (forall n, In n neighbors -> inGrid g0 n = true /\ step4 c n = true) ->
    (exists l, chain g c l /\ walk g0 startNode c l /\ length l = S d /\
               forall x, In x l -> isVisited (getNode g x) = true) ->
    depthLimitedSearch_for
      (fun g' n vis' =>
         depthLimitedSearch fuel g' n endNode maxDepth vis' (S d))
      c neighbors g vis = Some res ->
    dls_post g0 startNode endNode maxDepth g res.
Proof.
  intros fuel IHf c d neighbors; induction neighbors as [|n rest IH];
    intros g vis res HL Hd Hn [l [Hc [Hw [Hlen Hall]]]] H; simpl in H.
  - injection H as <-; simpl; repeat split; auto; try discriminate.
  - assert (Hrest : forall n', In n' rest ->
                      inGrid g0 n' = true /\ step4 c n' = true)
      by (intros n' Hn'; apply Hn; right; assumption).
    destruct (isVisited (getNode g n)) eqn:Ev;
      [simpl in H; apply (IH g vis res); eauto|].
    destruct (is_wall (getNode g n)) eqn:Ew;
      [simpl in H; apply (IH g vis res); eauto|].
    simpl in H.
    destruct (Hn n (or_introl eq_refl)) as [Hin Hs].
    set (g1 := setNode g n (set_previousNode (Some c))) in *.
    assert (HK1 : keeps_marked g g1) by (apply keeps_marked_link; assumption).
    assert (HL1 : layout g1 = layout g0)
      by (unfold g1; rewrite layout_setNode; [assumption|reflexivity]).
    destruct (chain_keeps_marked g g1 c l HK1 Hc Hall) as [Hc1 Hall1].
    assert (Hstack : on_stack g0 startNode g1 n (S d)).
    { exists (l ++ [n]); repeat split.
      - apply chain_link with (q := c); [|assumption].
        unfold g1; rewrite getNode_setNode_same; [reflexivity|].
        eapply rectangular_inStore; eassumption.
      - apply walk_snoc with (q := c); auto.
        unfold open_cell; rewrite Hin, <- (layout_is_wall g g0 n HL), Ew.
        reflexivity.
      - rewrite length_app; simpl; lia.
      - intros x Hx; apply in_app_iff in Hx; destruct Hx as [Hx|[<-|[]]];
          auto. }
    destruct (depthLimitedSearch fuel g1 n endNode maxDepth vis (S d))
      as [[[b g2] vis2]|] eqn:E; [|discriminate].
    assert (HP := IHf g1 n vis (S d) _ HL1 Hstack ltac:(lia) E).
    destruct HP as [HL2 [HPt HPf]].
    destruct b.
    + injection H as <-; simpl; repeat split; auto; discriminate.
    + assert (HK2 : keeps_marked g g2).
      { apply keeps_marked_trans with (g2 := g1); [assumption|].
        apply keeps_marked_trans
          with (g2 := setNode g1 n (set_isVisited true));
          [apply keeps_marked_mark|apply HPf; reflexivity]. }
      destruct (chain_keeps_marked g g2 c l HK2 Hc Hall) as [Hc2 Hall2].
      assert (HR := IH g2 vis2 res HL2 Hd Hrest
                      (ex_intro _ l (conj Hc2 (conj Hw (conj Hlen Hall2)))) H).
      destruct res as [[b' g'] vis']; destruct HR as [HL' [HRt HRf]].
      split; [assumption|split; [assumption|]].
      intros Hb; eapply keeps_marked_trans; [exact HK2|apply HRf; assumption].
Qed.

Lemma depthLimitedSearch_contract : forall fuel g c vis d res,
  layout g = layout g0 -> on_stack g0 startNode g c d -> d <= maxDepth ->
  depthLimitedSearch fuel g c endNode maxDepth vis d = Some res ->
  dls_post g0 startNode endNode maxDepth
           (setNode g c (set_isVisited true)) res.
Proof.
  induction fuel as [|fuel IHf]; intros g c vis d res HL Hst Hd H;
    [discriminate|].
  rewrite depthLimitedSearch_S in H.
  destruct Hst as [l [Hc [Hw [Hlen Hall]]]].
  assert (Ho := walk_end_open g0 startNode c l Hw).
  unfold open_cell in Ho; apply andb_true_iff in Ho; destruct Ho as [Hin Hnw].
  apply negb_true_iff in Hnw.
  rewrite (layout_is_wall g g0 c HL), Hnw in H; cbv zeta in H.
  set (g1 := setNode g c (set_isVisited true)) in *.
  assert (HL1 : layout g1 = layout g0)
    by (unfold g1; rewrite layout_setNode; [assumption|reflexivity]).
  assert (Hc1 : chain g1 c l).
  { apply (chain_frame g g1 c l Hc); intros x _; apply mark_previousNode. }
  assert (Hall1 : forall x, In x l -> isVisited (getNode g1 x) = true).
  { intros x Hx; destruct (Hall x Hx) as [->|Hv].
    - unfold g1; rewrite getNode_setNode_same; [reflexivity|].
      eapply rectangular_inStore; eassumption.
    - apply mark_isVisited; assumption. }
  destruct (pos_eqb c endNode) eqn:E.
  - apply pos_eqb_eq in E; subst c.
    injection H as <-; simpl; repeat split; auto; try discriminate.
    intros _; exists l; repeat split; auto; lia.
  - destruct (Nat.leb_spec maxDepth d).
    + injection H as <-; simpl; repeat split; auto; try discriminate.
    + apply (dls_for_contract fuel IHf c d (getNeighbors c g1) g1
               (vis ++ [c]) res); auto.
      * intros n Hn; rewrite (layout_getNeighbors g1 g0 c HL1) in Hn.
        split; [eapply getNeighbors_inGrid|eapply getNeighbors_step4];
          eassumption.
      * exists l; auto.
Qed.

End DepthLimited.

(** ** The outer loop *)

Lemma resetVisited_fields : forall g p,
  isVisited (getNode (resetVisited g) p) = false /\
  previousNode (getNode (resetVisited g) p) = None.
Proof.
  intros g [r c]; unfold getNode, resetVisited; simpl.
  set (f := fun node => set_previousNode None (set_isVisited false node)).
  destruct (Nat.lt_ge_cases r (length g)) as [Hr|Hr].
  - rewrite (nth_indep _ [] (map f []))
      by (rewrite length_map; assumption).
    rewrite map_nth.
    destruct (Nat.lt_ge_cases c (length (nth r g []))) as [Hc|Hc].
    + rewrite (nth_indep _ createNode (f createNode))
        by (rewrite length_map; assumption).
      rewrite map_nth; split; reflexivity.
    + rewrite nth_overflow by (rewrite length_map; assumption).
      split; reflexivity.
  - rewrite (nth_overflow (map _ g)) by (rewrite length_map; assumption).
    destruct c; split; reflexivity.
Qed.

Lemma reset_on_stack : forall g s,
  open_cell g s = true -> on_stack g s (resetVisited g) s 0.
Proof.
  intros g s Ho; exists [s]; repeat split.
  - constructor; apply resetVisited_fields.
  - constructor; assumption.
  - intros x [<-|[]]; left; reflexivity.
Qed.

(** With a wall for a start, every round fails at once. *)
Lemma iterativeDeepening_loop_blocked :
  forall fuel rounds maxDepth g s e vis r g',
    is_wall (getNode g s) = true ->
    iterativeDeepening_loop fuel rounds maxDepth g s e vis = Some (r, g') ->
    success r = false /\ shortestPath r = [].
Proof.
  intros fuel rounds; induction rounds as [|rounds IH];
    intros maxDepth g s e vis r g' Hw H; simpl in H.
  - injection H as <- _; split; reflexivity.
  - destruct fuel as [|fuel]; [discriminate|].
    rewrite depthLimitedSearch_S in H.
    rewrite (layout_is_wall _ g s (layout_resetVisited g)), Hw in H.
    apply IH in H; [assumption|].
    rewrite (layout_is_wall _ g s (layout_resetVisited g)); assumption.
Qed.

Lemma iterativeDeepening_loop_path :
  forall fuel rounds maxDepth g0 g s e vis r g',
    rectangular g0 = true -> open_cell g0 s = true ->
    layout g = layout g0 ->
    iterativeDeepening_loop fuel rounds maxDepth g s e vis = Some (r, g') ->
    (success r = false /\ shortestPath r = []) \/
    (success r = true /\ is_path g0 s e (shortestPath r) = true /\
     length (shortestPath r) <= maxDepth + rounds).
Proof.
  intros fuel rounds; induction rounds as [|rounds IH];
    intros maxDepth g0 g s e vis r g' HR Ho HL H; simpl in H.
  - injection H as <- _; left; split; reflexivity.
  - destruct (depthLimitedSearch fuel (resetVisited g) s e maxDepth vis 0)
      as [[[b g1] vis1]|] eqn:E; [|discriminate].
    assert (HL0 : layout (resetVisited g) = layout g0)
      by (rewrite layout_resetVisited; assumption).
    assert (Hst : on_stack g0 s (resetVisited g) s 0).
    { destruct (reset_on_stack g0 s Ho) as [l [Hc [Hw [Hlen Hall]]]].
      exists l; repeat split; auto.
      - inversion Hc as [p Hp|p q l' Hp Hc']; subst.
        + constructor; apply resetVisited_fields.
        + rewrite (proj2 (resetVisited_fields g0 s)) in Hp; discriminate.
      - intros x Hx; destruct (Hall x Hx) as [->|Hv]; [left; reflexivity|].
        rewrite (proj1 (resetVisited_fields g0 x)) in Hv; discriminate. }
    assert (HP := depthLimitedSearch_contract g0 s e maxDepth HR fuel
                    (resetVisited g) s vis 0 _ HL0 Hst ltac:(lia) E).
    destruct HP as [HL1 [HPt HPf]].
    destruct b.
    + destruct (reconstructPath fuel g1 e) as [p|] eqn:Ep; [|discriminate].
      injection H as <- _; simpl.
      destruct (HPt eq_refl) as [l [Hc [Hw Hlen]]].
      rewrite (reconstructPath_chain fuel g1 e p l Ep Hc).
      right; repeat split; [apply walk_is_path; assumption|lia].
    + apply (IH (S maxDepth) g0 g1 s e vis1 r g' HR Ho HL1) in H.
      destruct H as [H|[H1 [H2 H3]]]; [left; assumption|].
      right; repeat split; auto; lia.
Qed.

Lemma iterativeDeepening_path : forall fuel g s e r g',
  rectangular g = true -> inGrid g s = true ->
  iterativeDeepening fuel g s e = Some (r, g') ->
  (success r = false /\ shortestPath r = []) \/
  (success r = true /\ is_path g s e (shortestPath r) = true /\
   length (shortestPath r) <= cells g).
Proof.
  intros fuel g s e r g' HR HG H; unfold iterativeDeepening in H.
  destruct (is_wall (getNode g s)) eqn:Ew.
  - left; eapply iterativeDeepening_loop_blocked; eassumption.
  - apply (iterativeDeepening_loop_path fuel _ 0 g g s e [] r g'); auto.
    unfold open_cell; rewrite HG, Ew; reflexivity.
Qed.

Lemma iterativeDeepening_loop_total :
  forall rounds maxDepth g0 g s e vis fuel,
    rectangular g0 = true -> inGrid g0 s = true -> layout g = layout g0 ->
    maxDepth + rounds < fuel ->
    exists r g',
      iterativeDeepening_loop fuel rounds maxDepth g s e vis = Some (r, g').
Proof.
  induction rounds as [|rounds IH];
    intros maxDepth g0 g s e vis fuel HR HG HL Hlt; simpl; [eauto|].
  destruct (depthLimitedSearch_total fuel (resetVisited g) s e maxDepth vis 0
              ltac:(lia)) as [[[b g1] vis1] E].
  rewrite E.
  assert (HL0 : layout (resetVisited g) = layout g0)
    by (rewrite layout_resetVisited; assumption).
  assert (HL1 : layout g1 = layout g0).
  { apply depthLimitedSearch_layout in E; congruence. }
  destruct b; [|apply (IH (S maxDepth) g0); auto; lia].
  destruct (is_wall (getNode g0 s)) eqn:Ew.
  - destruct fuel as [|fuel]; [lia|].
    rewrite depthLimitedSearch_S in E.
    rewrite (layout_is_wall _ g0 s HL0), Ew in E; discriminate.
  - assert (Ho : open_cell g0 s = true)
      by (unfold open_cell; rewrite HG, Ew; reflexivity).
    assert (Hst : on_stack g0 s (resetVisited g) s 0).
    { exists [s]; repeat split.
      - constructor; apply resetVisited_fields.
      - constructor; assumption.
      - intros x [<-|[]]; left; reflexivity. }
    destruct (depthLimitedSearch_contract g0 s e maxDepth HR fuel
                (resetVisited g) s vis 0 _ HL0 Hst ltac:(lia) E)
      as [_ [HPt _]].
    destruct (HPt eq_refl) as [l [Hc [Hw Hlen]]].
    rewrite (chain_reconstructPath g1 e l Hc fuel ltac:(lia)); eauto.
Qed.

Lemma iterativeDeepening_total : forall g s e fuel,
  rectangular g = true -> inGrid g s = true -> cells g < fuel ->
  exists r g', iterativeDeepening fuel g s e = Some (r, g').
Proof.
  intros g s e fuel HR HG Hlt; unfold iterativeDeepening.
  apply (iterativeDeepening_loop_total _ 0 g); auto.
Qed.

Lemma iterativeDeepening_returns : forall g s e,
  rectangular g = true -> inGrid g s = true ->
  exists r g',
    Returns (fun fuel => iterativeDeepening fuel g s e) (r, g') /\
    ((success r = false /\ shortestPath r = []) \/
     (success r = true /\ is_path g s e (shortestPath r) = true)).
Proof.
  intros g s e HR HG.
  destruct (iterativeDeepening_total g s e (S (cells g)) HR HG ltac:(lia))
    as [r [g' H]].
  exists r, g'; split.
  - exists (S (cells g)); intros fuel Hle.
    eapply iterativeDeepening_mono; eassumption.
  - destruct (iterativeDeepening_path _ g s e r g' HR HG H)
      as [H1|[H1 [H2 _]]]; auto.
Qed.

(* ================================================================== *)
(** * The kinds of the cells are never written *)
(* ================================================================== *)

Lemma fold_layout : forall (nbr : Grid * list Pos -> Pos -> Grid * list Pos),
  (forall st v, layout (fst (nbr st v)) = layout (fst st)) ->
  forall l st, layout (fst (fold_left nbr l st)) = layout (fst st).
Proof.
  intros nbr H l; induction l as [|v l IH]; intros st; simpl; [reflexivity|].
  rewrite IH; apply H.
Qed.

Lemma scan_step_layout : forall nbr order e g0,
  (forall u st v, layout (fst (nbr u st v)) = layout (fst st)) ->
  forall st, layout (fst (fst st)) = layout g0 ->
    match scan_step nbr order e st with
    | Continue st' => layout (fst (fst st')) = layout g0
    | Return o => layout (out_grid o) = layout g0
    end.
Proof.
  intros nbr order e g0 Hn [[g queue] vis] HL; unfold scan_step; simpl in *.
  destruct queue as [|c queue]; [assumption|].
  destruct (is_wall (getNode g c)); [assumption|].
  destruct (pos_eqb c e); [assumption|].
  assert (HF := fold_layout (nbr c) (Hn c) (order (getNeighbors c g))
                  (g, queue)).
  destruct (fold_left (nbr c) (order (getNeighbors c g)) (g, queue));
    simpl in *; congruence.
Qed.

Lemma best_step_layout : forall cmp nbr e g0,
  (forall u st v, layout (fst (nbr u st v)) = layout (fst st)) ->
  forall st, layout (fst (fst st)) = layout g0 ->
    match best_step cmp nbr e st with
    | Continue st' => layout (fst (fst st')) = layout g0
    | Return o => layout (out_grid o) = layout g0
    end.
Proof.
  intros cmp nbr e g0 Hn [[g openSet] vis] HL; unfold best_step; simpl in *.
  destruct (sort (cmp g) openSet) as [|c open']; [assumption|].
  destruct (is_wall (getNode g c)); [assumption|].
  destruct (isVisited (getNode g c)); [assumption|].
  assert (HL1 : layout (setNode g c (set_isVisited true)) = layout g0)
    by (rewrite layout_setNode; [assumption|reflexivity]).
  destruct (pos_eqb c e); [assumption|].
  assert (HF := fold_layout (nbr c) (Hn c)
                  (getNeighbors c (setNode g c (set_isVisited true)))
                  (setNode g c (set_isVisited true), open')).
  destruct (fold_left (nbr c) _ _); simpl in *; congruence.
Qed.

Lemma neighbor_layouts :
  (forall u st v, layout (fst (bfs_neighbor u st v)) = layout (fst st)) /\
  (forall u st v, layout (fst (dfs_neighbor u st v)) = layout (fst st)) /\
  (forall e u st v, layout (fst (astar_neighbor u e st v)) = layout (fst st)) /\
  (forall e u st v, layout (fst (greedy_neighbor u e st v)) = layout (fst st)) /\
  (forall u st v, layout (fst (ucs_neighbor u st v)) = layout (fst st)).
Proof.
  repeat split; intros.
  - destruct st as [g q]; rewrite bfs_neighbor_eq.
    destruct (_ && _); simpl; [apply layout_setNode|]; reflexivity.
  - destruct st as [g q]; rewrite dfs_neighbor_eq.
    destruct (_ && _); simpl; [apply layout_setNode|]; reflexivity.
  - destruct st as [g q]; rewrite astar_neighbor_eq.
    destruct (_ || _); [reflexivity|].
    destruct (num_ltb _ _); simpl; [apply layout_setNode|]; reflexivity.
  - destruct st as [g q]; rewrite greedy_neighbor_eq.
    destruct (_ || _); [reflexivity|].
    destruct (num_is_infinity _); simpl; [apply layout_setNode|]; reflexivity.
  - destruct st as [g q]; rewrite ucs_neighbor_eq.
    destruct (_ || _); [reflexivity|].
    destruct (num_ltb _ _); simpl; [apply layout_setNode|]; reflexivity.
Qed.

Lemma finish_grid : forall fuel e o r g',
  finish fuel e o = Some (r, g') -> exists o', o = Some o' /\ g' = out_grid o'.
Proof.
  intros fuel e [o|] r g' H; [|discriminate].
  exists o; split; [reflexivity|].
  apply (finish_Some fuel e o r g' H).
Qed.

(** Each of the six searches hands the grid back with the kinds it had. *)
Lemma searches_keep_layout : forall search,
  In search [bfs; dfs; astar; greedyBFS; uniformCostSearch;
             iterativeDeepening] ->
  forall fuel g s e r g',
    search fuel g s e = Some (r, g') -> layout g' = layout g.
Proof.
  destruct neighbor_layouts as [Hb [Hd [Ha [Hg Hu]]]].
  intros search Hin fuel g s e r g' H.
  simpl in Hin; destruct Hin as [<-|[<-|[<-|[<-|[<-|[<-|[]]]]]]].
  - destruct (finish_grid _ _ _ _ _ H) as [o [E ->]].
    apply (loop_invariant _ _ (bfs_step e)
             (fun st => layout (fst (fst st)) = layout g)
             (fun o => layout (out_grid o) = layout g) (fun st =>
               scan_step_layout bfs_neighbor (fun l => l) e g Hb st)
             fuel (bfs_init g s) o); auto.
    rewrite bfs_init_eq; simpl; apply layout_setNode; reflexivity.
  - destruct (finish_grid _ _ _ _ _ H) as [o [E ->]].
    apply (loop_invariant _ _ (dfs_step e)
             (fun st => layout (fst (fst st)) = layout g)
             (fun o => layout (out_grid o) = layout g) (fun st =>
               scan_step_layout dfs_neighbor (@rev Pos) e g Hd st)
             fuel (dfs_init g s) o); auto.
    simpl; apply layout_setNode; reflexivity.
  - destruct (finish_grid _ _ _ _ _ H) as [o [E ->]].
    apply (loop_invariant _ _ (astar_step e)
             (fun st => layout (fst (fst st)) = layout g)
             (fun o => layout (out_grid o) = layout g) (fun st =>
               best_step_layout astar_cmp (fun u => astar_neighbor u e) e g
                 (Ha e) st)
             fuel (astar_init g s e) o); auto.
    rewrite astar_init_eq; simpl; apply layout_setNode; reflexivity.
  - destruct (finish_grid _ _ _ _ _ H) as [o [E ->]].
    apply (loop_invariant _ _ (greedy_step e)
             (fun st => layout (fst (fst st)) = layout g)
             (fun o => layout (out_grid o) = layout g) (fun st =>
               best_step_layout greedy_cmp (fun u => greedy_neighbor u e) e g
                 (Hg e) st)
             fuel (greedy_init g s e) o); auto.
    simpl; apply layout_setNode; reflexivity.
  - destruct (finish_grid _ _ _ _ _ H) as [o [E ->]].
    apply (loop_invariant _ _ (ucs_step e)
             (fun st => layout (fst (fst st)) = layout g)
             (fun o => layout (out_grid o) = layout g) (fun st =>
               best_step_layout ucs_cmp ucs_neighbor e g Hu st)
             fuel (ucs_init g s) o); auto.
    simpl; apply layout_setNode; reflexivity.
  - unfold iterativeDeepening in H.
    eapply iterativeDeepening_loop_layout; eassumption.
Qed.

(* ================================================================== *)
(** * Iterative deepening finds the target *)
(* ================================================================== *)

(** The last round of [iterativeDeepening] has a depth limit that no
    branch can reach before every cell is marked, so it is a plain
    depth-first search: when it fails, the marked cells are closed under
    steps, and the target is not among them. *)

Lemma countCells_full : forall g P p,
  cells g <= countCells g P -> inGrid g p = true -> P p = true.
Proof.
  intros g P p H Hp; destruct (P p) eqn:E; [reflexivity|].
  assert (Hlt := countCells_lt g P (fun _ => true) p
                   (fun _ _ _ => eq_refl) Hp E eq_refl).
  assert (Hb := countCells_bound g (fun _ => true)).
  unfold cells in H; lia.
Qed.

Lemma grows_refl : forall g, grows g g.
Proof. intros g x H; assumption. Qed.

Lemma grows_trans : forall g1 g2 g3, grows g1 g2 -> grows g2 g3 -> grows g1 g3.
Proof. intros g1 g2 g3 H1 H2 x H; auto. Qed.

Lemma grows_mark : forall g c, grows g (setNode g c (set_isVisited true)).
Proof. intros g c x H; apply mark_isVisited; assumption. Qed.

Lemma link_isVisited : forall g n c x,
  isVisited (getNode (setNode g n (set_previousNode (Some c))) x)
  = isVisited (getNode g x).
Proof. intros; apply (field_setNode _ isVisited); reflexivity. Qed.

Lemma markCount_grows : forall g0 g g',
  grows g g' -> markCount g0 g <= markCount g0 g'.
Proof.
  intros g0 g g' H; unfold markCount; apply countCells_le.
  intros p _ Hp; apply H; assumption.
Qed.

Lemma markCount_mark : forall g0 g c,
  inGrid g0 c = true -> inStore g c -> isVisited (getNode g c) = false ->
  markCount g0 g < markCount g0 (setNode g c (set_isVisited true)).
Proof.
  intros g0 g c Hin Hst Hc; unfold markCount.
  apply countCells_lt with (x := c); auto.
  - intros p _ Hp; apply mark_isVisited; assumption.
  - rewrite getNode_setNode_same by assumption; reflexivity.
Qed.

Lemma closed_at_grows : forall g0 e g g' x,
  grows g g' -> closed_at g0 e g x -> closed_at g0 e g' x.
Proof.
  intros g0 e g g' x HG [H1 H2]; split; [assumption|].
  intros y Hs Ho; apply HG, H2; assumption.
Qed.

Section DepthFirst.

Variable g0 : Grid.
Variable endNode : Pos.
Variable maxDepth : nat.
Hypothesis g0_rect : rectangular g0 = true.
Hypothesis deep_enough : cells g0 <= S maxDepth.

Lemma dls_for_closed : forall fuel d,
  (forall g c vis res,
     layout g = layout g0 -> inGrid g0 c = true ->
     isVisited (getNode g c) = false -> S d <= markCount g0 g ->
     depthLimitedSearch fuel g c endNode maxDepth vis (S d) = Some res ->
     dls_closed g0 endNode g res /\
     (let '(found, g', _) := res in
      found = false -> is_wall (getNode g0 c) = false -> marked g' c)) ->
  forall c neighbors g vis res,
    layout g = layout g0 ->
    (forall n, In n neighbors -> inGrid g0 n = true) ->
    S d <= markCount g0 g ->
    depthLimitedSearch_for
      (fun g' n vis' =>
         depthLimitedSearch fuel g' n endNode maxDepth vis' (S d))
      c neighbors g vis = Some res ->
    dls_closed g0 endNode g res /\
    (let '(found, g', _) := res in
     found = false ->
     forall n, In n neighbors -> open_cell g0 n = true -> marked g' n).
Proof.
  intros fuel d IHf c neighbors; induction neighbors as [|n rest IH];
    intros g vis res HL Hn Hcnt H; simpl in H.
  - injection H as <-; split.
    + intros _; split; [apply grows_refl|].
      intros x [H1 H2]; unfold marked in H2; congruence.
    + intros _ n [].
  - assert (Hrest : forall n', In n' rest -> inGrid g0 n' = true)
      by (intros n' Hn'; apply Hn; right; assumption).
    assert (Hskip :
      isVisited (getNode g n) = true \/ is_wall (getNode g n) = true ->
      depthLimitedSearch_for
        (fun g' n vis' =>
           depthLimitedSearch fuel g' n endNode maxDepth vis' (S d))
        c rest g vis = Some res ->
      dls_closed g0 endNode g res /\
      (let '(found, g', _) := res in
       found = false ->
       forall n', In n' (n :: rest) -> open_cell g0 n' = true ->
                  marked g' n')).
    { intros Hor H'.
      destruct (IH g vis res HL Hrest Hcnt H') as [H1 H2].
      split; [assumption|].
      destruct res as [[found g'] vis']; intros Hf n' [<-|Hin] Ho;
        [|apply H2; assumption].
      destruct (H1 Hf) as [HG _].
      destruct Hor as [Hv|Hw]; [apply HG; assumption|].
      unfold open_cell in Ho; apply andb_true_iff in Ho.
      rewrite (layout_is_wall g g0 n HL) in Hw.
      destruct Ho as [_ Ho]; rewrite Hw in Ho; discriminate. }
    destruct (isVisited (getNode g n)) eqn:Ev;
      [simpl in H; apply Hskip; auto|].
    destruct (is_wall (getNode g n)) eqn:Ew;
      [simpl in H; apply Hskip; auto|].
    clear Hskip; simpl in H.
    set (g1 := setNode g n (set_previousNode (Some c))) in *.
    assert (HL1 : layout g1 = layout g0)
      by (unfold g1; rewrite layout_setNode; [assumption|reflexivity]).
    assert (Hv1 : forall x, isVisited (getNode g1 x) = isVisited (getNode g x))
      by (intros x; apply link_isVisited).
    assert (Hcnt1 : S d <= markCount g0 g1).
    { assert (Hle : markCount g0 g <= markCount g0 g1); [|lia].
      apply markCount_grows; intros x Hx; unfold marked; rewrite Hv1.
      assumption. }
    destruct (depthLimitedSearch fuel g1 n endNode maxDepth vis (S d))
      as [[[b g2] vis2]|] eqn:E; [|discriminate].
    destruct (IHf g1 n vis _ HL1 (Hn n (or_introl eq_refl))
                ltac:(rewrite Hv1; assumption) Hcnt1 E) as [HC Hm].
    destruct b.
    + injection H as <-; split; intros; discriminate.
    + destruct (HC eq_refl) as [HG12 Hnew12].
      assert (HL2 : layout g2 = layout g0)
        by (apply depthLimitedSearch_layout in E; congruence).
      assert (HG2 : grows g g2).
      { intros x Hx; apply HG12; unfold marked; rewrite Hv1; assumption. }
      assert (Hcnt2 : S d <= markCount g0 g2).
      { assert (Hle := markCount_grows g0 g g2 HG2); lia. }
      destruct (IH g2 vis2 res HL2 Hrest Hcnt2 H) as [HR1 HR2].
      destruct res as [[found g'] vis']; split.
      * intros Hf; destruct (HR1 Hf) as [HG2' Hnew2].
        split; [eapply grows_trans; eassumption|].
        intros x [Hx1 Hx2].
        destruct (isVisited (getNode g2 x)) eqn:Ex.
        -- apply closed_at_grows with (g := g2); [assumption|].
           apply Hnew12; split; [rewrite Hv1; assumption|assumption].
        -- apply Hnew2; split; assumption.
      * intros Hf n' [<-|Hin] Ho; [|apply HR2; assumption].
        destruct (HR1 Hf) as [HG2' _]; apply HG2'.
        apply Hm; [reflexivity|].
        rewrite <- (layout_is_wall g g0 n HL); assumption.
Qed.

Lemma depthLimitedSearch_closed : forall fuel g c vis d res,
  layout g = layout g0 -> inGrid g0 c = true ->
  isVisited (getNode g c) = false -> d <= markCount g0 g ->
  depthLimitedSearch fuel g c endNode maxDepth vis d = Some res ->
  dls_closed g0 endNode g res /\
  (let '(found, g', _) := res in
   found = false -> is_wall (getNode g0 c) = false -> marked g' c).
Proof.
  induction fuel as [|fuel IHf]; intros g c vis d res HL Hin Hc Hcnt H;
    [discriminate|].
  rewrite depthLimitedSearch_S in H.
  rewrite (layout_is_wall g g0 c HL) in H.
  destruct (is_wall (getNode g0 c)) eqn:Ew.
  - injection H as <-; split.
    + intros _; split; [apply grows_refl|].
      intros x [H1 H2]; unfold marked in H2; congruence.
    + intros _ Hw; discriminate.
  - cbv zeta in H.
    assert (Hst : inStore g c)
      by (eapply rectangular_inStore; eassumption).
    set (g1 := setNode g c (set_isVisited true)) in *.
    assert (HL1 : layout g1 = layout g0)
      by (unfold g1; rewrite layout_setNode; [assumption|reflexivity]).
    assert (Hc1 : marked g1 c)
      by (unfold marked, g1; rewrite getNode_setNode_same by assumption;
          reflexivity).
    assert (Hcnt1 : S d <= markCount g0 g1)
      by (assert (Hlt := markCount_mark g0 g c Hin Hst Hc); fold g1 in Hlt;
          lia).
    assert (Hopen : open_cell g0 c = true)
      by (unfold open_cell; rewrite Hin, Ew; reflexivity).
    assert (Hother : forall x, newly g g1 x -> x = c).
    { intros x [H1 H2]; destruct (pos_eq_dec x c) as [->|Hne];
        [reflexivity|].
      unfold marked, g1 in H2; rewrite getNode_setNode_other in H2
        by assumption.
      congruence. }
    destruct (pos_eqb c endNode) eqn:Ee.
    + injection H as <-; split; intros; discriminate.
    + apply pos_eqb_neq in Ee.
      destruct (Nat.leb_spec maxDepth d) as [Hcut|Hdeep].
      * injection H as <-; split; [|intros _ _; assumption].
        intros _; split; [apply grows_mark|].
        intros x Hx; rewrite (Hother x Hx); split; [assumption|].
        intros y _ Hy; unfold marked.
        apply (countCells_full g0 (fun p => isVisited (getNode g1 p)));
          [fold (markCount g0 g1); lia|].
        unfold open_cell in Hy; apply andb_true_iff in Hy; tauto.
      * destruct (dls_for_closed fuel d
                    ltac:(intros; eapply IHf; eassumption)
                    c (getNeighbors c g1) g1 (vis ++ [c]) res HL1)
          as [HC Hnb]; auto.
        { intros n Hn; rewrite (layout_getNeighbors g1 g0 c HL1) in Hn.
          eapply getNeighbors_inGrid; eassumption. }
        destruct res as [[found g'] vis']; split.
        -- intros Hf; destruct (HC Hf) as [HG Hnew].
           split; [eapply grows_trans; [apply grows_mark|exact HG]|].
           intros x [Hx1 Hx2].
           destruct (pos_eq_dec x c) as [->|Hne].
           ++ split; [assumption|].
              intros y Hs Ho; apply (Hnb Hf); [|assumption].
              rewrite (layout_getNeighbors g1 g0 c HL1).
              apply getNeighbors_spec; [assumption|].
              unfold open_cell in Ho; apply andb_true_iff in Ho; tauto.
           ++ apply Hnew; split; [|assumption].
              unfold g1; rewrite getNode_setNode_other by assumption.
              assumption.
        -- intros Hf _; destruct (HC Hf) as [HG _]; apply HG; assumption.
Qed.

(** A failing search from a grid without marks leaves every cell that a
    path from the start reaches marked, and none of them is the target. *)
Lemma failing_search_no_path : forall fuel g s vis g' vis',
  layout g = layout g0 -> inGrid g0 s = true ->
  (forall x, isVisited (getNode g x) = false) ->
  depthLimitedSearch fuel g s endNode maxDepth vis 0 = Some (false, g', vis') ->
  forall l, ~ walk g0 s endNode l.
Proof.
  intros fuel g s vis g' vis' HL Hin Hclean H l Hw.
  destruct (depthLimitedSearch_closed fuel g s vis 0 _ HL Hin (Hclean s)
              ltac:(lia) H) as [HC Hs].
  destruct (HC eq_refl) as [_ Hnew].
  assert (Hall : forall p l', walk g0 s p l' -> marked g' p).
  { intros p l' Hp; induction Hp as [Ho|q p l' Hq IH Hstep Ho].
    - apply Hs; [reflexivity|].
      unfold open_cell in Ho; apply andb_true_iff in Ho.
      destruct Ho as [_ Ho]; apply negb_true_iff; assumption.
    - destruct (Hnew q (conj (Hclean q) IH)) as [_ Hcl].
      apply Hcl; assumption. }
  destruct (Hnew endNode (conj (Hclean endNode) (Hall _ _ Hw))) as [Hne _].
  apply Hne; reflexivity.
Qed.

End DepthFirst.

(** The outer loop: when a path exists and the rounds go up to the depth
    limit [cells g0 - 1], one of them succeeds. *)
Lemma iterativeDeepening_loop_finds :
  forall fuel rounds maxDepth g0 g s e vis r g' l,
    rectangular g0 = true -> layout g = layout g0 ->
    walk g0 s e l ->
    0 < rounds -> maxDepth + rounds = cells g0 ->
    iterativeDeepening_loop fuel rounds maxDepth g s e vis = Some (r, g') ->
    success r = true.
Proof.
  intros fuel rounds; induction rounds as [|rounds IH];
    intros maxDepth g0 g s e vis r g' l HR HL Hw Hpos Hsum H; [lia|].
  simpl in H.
  destruct (depthLimitedSearch fuel (resetVisited g) s e maxDepth vis 0)
    as [[[b g1] vis1]|] eqn:E; [|discriminate].
  assert (HL0 : layout (resetVisited g) = layout g0)
    by (rewrite layout_resetVisited; assumption).
  destruct b.
  - destruct (reconstructPath fuel g1 e); [|discriminate].
    injection H as <- _; reflexivity.
  - assert (HL1 : layout g1 = layout g0)
      by (apply depthLimitedSearch_layout in E; congruence).
    destruct rounds as [|rounds].
    + exfalso.
      assert (Ho := walk_start_open g0 s e l Hw).
      unfold open_cell in Ho; apply andb_true_iff in Ho.
      apply (failing_search_no_path g0 e maxDepth HR ltac:(lia) fuel
               (resetVisited g) s vis g1 vis1 HL0 (proj1 Ho)
               (fun x => proj1 (resetVisited_fields g x)) E l Hw).
    + apply (IH (S maxDepth) g0 g1 s e vis1 r g' l); auto; lia.
Qed.

Lemma iterativeDeepening_finds : forall fuel g s e r g' l,
  rectangular g = true -> is_path g s e l = true ->
  iterativeDeepening fuel g s e = Some (r, g') ->
  success r = true.
Proof.
  intros fuel g s e r g' l HR Hl H; unfold iterativeDeepening in H.
  apply is_path_walk in Hl.
  assert (Ho := walk_start_open g s e l Hl).
  unfold open_cell in Ho; apply andb_true_iff in Ho; destruct Ho as [Hin _].
  assert (Hpos : 0 < nrows g * ncols g).
  { unfold inGrid in Hin; apply andb_true_iff in Hin.
    rewrite !Nat.ltb_lt in Hin; nia. }
  apply (iterativeDeepening_loop_finds fuel (nrows g * ncols g) 0 g g s e
           [] r g' l); auto.
Qed.

(* ================================================================== *)
(** * [bfs] returns a shortest path *)
(* ================================================================== *)

Lemma within_le : forall g p k k', within g p k -> (k <= k')%Z -> within g p k'.
Proof. intros g p k k' [d [H1 H2]] Hle; exists d; split; [assumption|lia]. Qed.

(** Along a chain of marked, stepped nodes the distance counts the links. *)
Lemma stepped_chain_length : forall g p l,
  (forall x, marked g x -> stepped g x) ->
  chain g p l -> (forall x, In x l -> marked g x) ->
  dist_is g p (Z.of_nat (length l) - 1).
Proof.
  intros g p l Hst Hc; induction Hc as [p Hp|p q l Hp Hc IH]; intros Hall.
  - destruct (Hst p (Hall p (or_introl eq_refl))) as [[_ H]|[q [d [H _]]]];
      [exact H|congruence].
  - assert (Hpm : marked g p)
      by (apply Hall; apply in_app_iff; right; left; reflexivity).
    destruct (Hst p Hpm) as [[H _]|[q' [d [H1 [_ [H2 H3]]]]]]; [congruence|].
    assert (q' = q) by congruence; subst q'.
    assert (Hq := IH (fun x Hx => Hall x (proj2 (in_app_iff _ _ _)
                                             (or_introl Hx)))).
    unfold dist_is in *.
    assert (d = Z.of_nat (length l) - 1)%Z by congruence; subst d.
    rewrite H3, length_app; simpl; f_equal; lia.
Qed.

Section BfsLevels.

Variable g0 : Grid.
Variables startNode endNode : Pos.
Hypothesis g0_rect : rectangular g0 = true.

Lemma bfs_neighbor_levels : forall vis c k done v g queue,
  inGrid g0 v = true ->
  bfs_fold_levels g0 startNode vis c k done (g, queue) ->
  bfs_fold_levels g0 startNode vis c k (done ++ [v])
                  (bfs_neighbor c (g, queue) v).
Proof.
  intros vis c k done v g queue Hv
    [Hinv [Hs [Hs0 [Hst [Hc [Htl [Hw [Hvis [Hexp [Hdone Hexh]]]]]]]]]].
  assert (Hinv' := scan_neighbor_inv bfs_neighbor bfs_discovers g0 g0_rect
                     c v g queue (vis ++ [c]) Hv Hinv).
  destruct Hinv as [HL [Hm Hnd]].
  assert (HS : inStore g v) by (eapply rectangular_inStore; eassumption).
  rewrite bfs_neighbor_eq in *.
  destruct (isVisited (getNode g v)) eqn:Ev; simpl negb; cbv iota.
  { simpl in Hinv'; split; [exact Hinv'|].
    repeat (split; [assumption|]). split; [|assumption].
    intros x Hx Ho; apply in_app_iff in Hx; destruct Hx as [Hx|[<-|[]]]; auto. }
  destruct (is_wall (getNode g v)) eqn:Ew; simpl andb; cbv iota.
  { simpl in Hinv'; split; [exact Hinv'|].
    repeat (split; [assumption|]). split; [|assumption].
    intros x Hx Ho; apply in_app_iff in Hx; destruct Hx as [Hx|[<-|[]]]; auto.
    unfold open_cell in Ho; rewrite <- (layout_is_wall g g0 v HL), Ew in Ho.
    rewrite andb_false_r in Ho; discriminate. }
  simpl in Hinv'.
  set (g' := setNode g v _) in *.
  assert (Hsame : forall p, p <> v -> getNode g' p = getNode g p)
    by (intros p Hp; apply getNode_setNode_other; assumption).
  assert (Hv' : getNode g' v =
                mkNode (type (getNode g v)) true (Fin (k + 1))
                       (heuristic (getNode g v)) (Some c)).
  { unfold g'; rewrite getNode_setNode_same by assumption.
    unfold dist_is in Hc; rewrite Hc; reflexivity. }
  assert (Hne : forall p, marked g p -> p <> v)
    by (intros p Hp ->; unfold marked in Hp; congruence).
  assert (Hold : forall p, marked g p -> getNode g' p = getNode g p)
    by (intros p Hp; apply Hsame, Hne; assumption).
  assert (Hback : forall p, marked g' p -> p = v \/ marked g p).
  { intros p Hp; destruct (pos_eq_dec p v) as [->|Hpv]; [left; reflexivity|].
    right; unfold marked in *; rewrite Hsame in Hp; assumption. }
  assert (Hfwd : forall p, marked g p -> marked g' p)
    by (intros p Hp; unfold marked; rewrite Hold; assumption).
  assert (Hcm : marked g c)
    by (apply Hm; apply in_app_iff; left; apply in_app_iff; right; left;
        reflexivity).
  assert (Hdist : forall p d, marked g p -> dist_is g p d -> dist_is g' p d)
    by (intros p d Hp Hd; unfold dist_is; rewrite Hold; assumption).
  assert (Hwithin : forall p d, marked g p -> within g p d -> within g' p d).
  { intros p d Hp [d' [H1 H2]]; exists d'; split; [apply Hdist|]; assumption. }
  assert (Hqm : forall x, In x queue -> marked g x)
    by (intros x Hx; apply Hm; apply in_app_iff; right; assumption).
  assert (Hvm : forall x, In x (vis ++ [c]) -> marked g x)
    by (intros x Hx; apply Hm; apply in_app_iff; left; assumption).
  split; [exact Hinv'|].
  split; [apply Hfwd; assumption|].
  split; [apply Hdist; assumption|].
  split.
  { intros p Hp; destruct (Hback p Hp) as [->|Hpm].
    - right; exists c, k; unfold marked, dist_is; rewrite Hv'; simpl.
      repeat split; [apply Hfwd|apply Hdist]; assumption.
    - destruct (Hst p Hpm) as [[H1 H2]|[q [d [H1 [H2 [H3 H4]]]]]].
      + left; rewrite Hold by assumption; split; [assumption|].
        apply Hdist; assumption.
      + right; exists q, d; rewrite Hold by assumption.
        repeat split; auto. }
  split; [apply Hdist; assumption|].
  split.
  { destruct Htl as [A [B [-> [HA HB]]]].
    exists A, (B ++ [v]); split; [rewrite app_assoc; reflexivity|].
    split.
    - intros x Hx; apply Hdist; [|apply HA; assumption].
      apply Hqm; apply in_app_iff; left; assumption.
    - intros x Hx; apply in_app_iff in Hx; destruct Hx as [Hx|[<-|[]]].
      + apply Hdist; [|apply HB; assumption].
        apply Hqm; apply in_app_iff; right; assumption.
      + unfold dist_is; rewrite Hv'; reflexivity. }
  split.
  { intros p Hp; destruct (Hback p Hp) as [->|Hpm].
    - exists (k + 1)%Z; split; [unfold dist_is; rewrite Hv'; reflexivity|lia].
    - apply Hwithin; auto. }
  split; [intros p Hp; apply Hwithin; auto|].
  split.
  { intros u Hu w Hsw How.
    destruct (Hexp u Hu w Hsw How) as [Hwm [du [dv [H1 [H2 H3]]]]].
    split; [apply Hfwd; assumption|].
    exists du, dv; repeat split; auto.
    apply Hdist; [|assumption].
    apply Hvm; apply in_app_iff; left; assumption. }
  split.
  { intros x Hx Ho; apply in_app_iff in Hx; destruct Hx as [Hx|[<-|[]]].
    - apply Hfwd; auto.
    - unfold marked; rewrite Hv'; reflexivity. }
  intros p Hp; destruct (Hback p Hp) as [->|Hpm].
  - right; apply in_app_iff; right; left; reflexivity.
  - destruct (Hexh p Hpm) as [H|H]; [left; assumption|].
    right; apply in_app_iff; left; assumption.
Qed.

Lemma bfs_fold_levels_all : forall vis c k l done g queue,
  (forall v, In v l -> inGrid g0 v = true) ->
  bfs_fold_levels g0 startNode vis c k done (g, queue) ->
  bfs_fold_levels g0 startNode vis c k (done ++ l)
                  (fold_left (bfs_neighbor c) l (g, queue)).
Proof.
  intros vis c k l; induction l as [|v l IH]; intros done g queue Hl H.
  - rewrite app_nil_r; exact H.
  - change (fold_left (bfs_neighbor c) (v :: l) (g, queue))
      with (fold_left (bfs_neighbor c) l (bfs_neighbor c (g, queue) v)).
    assert (H1 := bfs_neighbor_levels vis c k done v g queue
                    (Hl v (or_introl eq_refl)) H).
    destruct (bfs_neighbor c (g, queue) v) as [g1 q1].
    replace (done ++ v :: l) with ((done ++ [v]) ++ l)
      by (rewrite <- app_assoc; reflexivity).
    apply IH; [|exact H1].
    intros w Hw; apply Hl; right; assumption.
Qed.

(** Any path from the start either ends at a marked node no deeper than
    the path is long, or meets the frontier at such a node. *)
Lemma bfs_walk_frontier : forall g queue vis,
  bfs_levels g0 startNode endNode (g, queue, vis) ->
  forall u l, walk g0 startNode u l ->
    (marked g u /\ within g u (Z.of_nat (length l) - 1)) \/
    (exists w, In w queue /\ within g w (Z.of_nat (length l) - 1)).
Proof.
  intros g queue vis [Hs [Hs0 [Hst [_ [Hexp [Hexh _]]]]]] u l Hw.
  induction Hw as [Ho|q p l Hw IH Hstep Ho].
  - left; split; [assumption|]; exists 0%Z; split; [assumption|simpl; lia].
  - rewrite length_app; simpl length.
    destruct IH as [[Hq Hqw]|[w [Hin Hww]]].
    + destruct (Hexh q Hq) as [Hqv|Hqq].
      * left; destruct (Hexp q Hqv p Hstep Ho) as [Hp [du [dv [H1 [H2 H3]]]]].
        split; [assumption|]; exists dv; split; [assumption|].
        destruct Hqw as [d [H4 H5]]; unfold dist_is in *.
        assert (d = du) by congruence; lia.
      * right; exists q; split; [assumption|].
        eapply within_le; [exact Hqw|lia].
    + right; exists w; split; [assumption|].
      eapply within_le; [exact Hww|lia].
Qed.

Lemma two_levels_head : forall g k c rest,
  two_levels g k (c :: rest) ->
  exists k', (k' = k \/ k' = (k + 1)%Z) /\ dist_is g c k' /\
             two_levels g k' rest /\
             (forall w d, In w (c :: rest) -> dist_is g w d -> (k' <= d)%Z).
Proof.
  intros g k c rest [A [B [E [HA HB]]]].
  destruct A as [|a A].
  - simpl in E; subst B; exists (k + 1)%Z; split; [right; reflexivity|].
    split; [apply HB; left; reflexivity|]. split.
    + exists rest, []; rewrite app_nil_r; split; [reflexivity|].
      split; [intros x Hx; apply HB; right; assumption|intros x []].
    + intros w d Hw Hd; apply HB in Hw; unfold dist_is in *.
      assert (d = k + 1)%Z by congruence; lia.
  - simpl in E; injection E as E1 E2; subst a rest.
    exists k; split; [left; reflexivity|].
    split; [apply HA; left; reflexivity|]. split.
    + exists A, B; split; [reflexivity|].
      split; [intros x Hx; apply HA; right; assumption|assumption].
    + intros w d Hw Hd.
      change (c :: A ++ B) with ((c :: A) ++ B) in Hw.
      apply in_app_iff in Hw; destruct Hw as [Hw|Hw];
        [apply HA in Hw|apply HB in Hw]; unfold dist_is in *;
        assert (Fin d = Fin k \/ Fin d = Fin (k + 1)) as [E|E]
          by (first [left; congruence|right; congruence]);
        injection E as ->; lia.
Qed.

Lemma bfs_step_levels : forall st,
  scan_inv g0 st -> scan_paths g0 startNode st ->
  bfs_levels g0 startNode endNode st ->
  match bfs_step endNode st with
  | Continue st' => bfs_levels g0 startNode endNode st'
  | Return o => out_optimal g0 startNode endNode o
  end.
Proof.
  intros [[g queue] vis] Hinv HLk Hlev.
  assert (Hfront := bfs_walk_frontier g queue vis Hlev).
  destruct Hlev as [Hs [Hs0 [Hst [[k [Htl [Hw Hvisw]]] [Hexp [Hexh Hend]]]]]].
  unfold bfs_step.
  destruct queue as [|c queue].
  - split; [discriminate|]; intros _ l Hl.
    destruct (Hfront endNode l Hl) as [[He _]|[w [[] _]]].
    destruct (Hexh endNode He) as [H|[]]; contradiction.
  - assert (Hcm : marked g c).
    { destruct Hinv as [_ [Hm _]]; apply Hm.
      apply in_app_iff; right; left; reflexivity. }
    assert (Hcg : inGrid g0 c = true).
    { destruct Hinv as [_ [Hm _]]; apply Hm.
      apply in_app_iff; right; left; reflexivity. }
    destruct (HLk c Hcm) as [lc [Hchain [Hwalk Hall]]].
    assert (Hopen := walk_end_open g0 startNode c lc Hwalk).
    assert (Hnw : is_wall (getNode g c) = false).
    { destruct Hinv as [HL _]; rewrite (layout_is_wall g g0 c HL).
      unfold open_cell in Hopen; apply andb_true_iff in Hopen.
      destruct Hopen as [_ Hopen]; apply negb_true_iff; assumption. }
    rewrite Hnw.
    destruct (two_levels_head g k c queue Htl) as [k' [Hk' [Hck [Htl' Hmin]]]].
    destruct (pos_eqb c endNode) eqn:E.
    + apply pos_eqb_eq in E; subst c; split; [|discriminate]; intros _.
      exists lc; split; [assumption|]; split; [assumption|].
      intros l Hl.
      assert (Hlen := stepped_chain_length g endNode lc Hst Hchain Hall).
      assert (Hbound : within g endNode (Z.of_nat (length l) - 1)).
      { destruct (Hfront endNode l Hl) as [[_ H]|[w [Hin [d [H1 H2]]]]];
          [assumption|].
        exists k'; split; [assumption|].
        assert (H3 := Hmin w d Hin H1); lia. }
      destruct Hbound as [d [H1 H2]]; unfold dist_is in *.
      assert (d = Z.of_nat (length lc) - 1)%Z by congruence; lia.
    + apply pos_eqb_neq in E.
      assert (Hfold : bfs_fold_levels g0 startNode vis c k' [] (g, queue)).
      { split.
        { destruct Hinv as [HL [Hm Hnd]]; split; [assumption|].
          rewrite <- app_assoc; split; assumption. }
        repeat (split; [assumption|]).
        split; [intros p Hp; eapply within_le; [apply Hw; assumption|lia]|].
        split.
        { intros p Hp; apply in_app_iff in Hp; destruct Hp as [Hp|[<-|[]]].
          - eapply within_le; [apply Hvisw; assumption|lia].
          - exists k'; split; [assumption|lia]. }
        split; [assumption|].
        split; [intros v []|].
        intros p Hp; destruct (Hexh p Hp) as [H|[<-|H]].
        - left; apply in_app_iff; left; assumption.
        - left; apply in_app_iff; right; left; reflexivity.
        - right; assumption. }
      assert (Hnb : forall v, In v (getNeighbors c g) -> inGrid g0 v = true).
      { intros v Hv; destruct Hinv as [HL _].
        rewrite (layout_getNeighbors g g0 c HL) in Hv.
        eapply getNeighbors_inGrid; eassumption. }
      assert (HF := bfs_fold_levels_all vis c k' (getNeighbors c g) [] g queue
                      Hnb Hfold).
      destruct (fold_left (bfs_neighbor c) (getNeighbors c g) (g, queue))
        as [g' q'].
      destruct HF as [Hinv' [Hs' [Hs0' [Hst' [Hc' [Htl2 [Hw' [Hvis'
                       [Hexp' [Hdone' Hexh']]]]]]]]]].
      simpl app in Hdone'.
      split; [assumption|]. split; [assumption|]. split; [assumption|].
      split; [exists k'; auto|].
      split.
      { intros u Hu; apply in_app_iff in Hu; destruct Hu as [Hu|[<-|[]]];
          [apply Hexp'; assumption|].
        intros v Hsv Hov.
        assert (Hvg : inGrid g0 v = true)
          by (unfold open_cell in Hov; apply andb_true_iff in Hov; tauto).
        assert (Hin : In v (getNeighbors c g)).
        { destruct Hinv as [HL _].
          rewrite (layout_getNeighbors g g0 c HL).
          apply getNeighbors_spec; auto. }
        assert (Hvm := Hdone' v Hin Hov).
        split; [assumption|].
        destruct (Hw' v Hvm) as [dv [H1 H2]].
        exists k', dv; auto. }
      split; [assumption|].
      intros Hin; apply in_app_iff in Hin; destruct Hin as [Hin|[Hin|[]]];
        [contradiction|congruence].
Qed.

End BfsLevels.

Lemma bfs_init_levels : forall g s e,
  rectangular g = true -> inGrid g s = true -> fresh g = true ->
  bfs_levels g s e (bfs_init g s).
Proof.
  intros g s e HR HG HF; rewrite bfs_init_eq.
  set (g2 := setNode g s _).
  assert (HS : inStore g s) by (apply inGrid_inStore; assumption).
  assert (Hs : getNode g2 s = set_distance (Fin 0)
                                (set_isVisited true (getNode g s)))
    by (unfold g2; rewrite getNode_setNode_same by assumption; reflexivity).
  assert (Honly : forall p, marked g2 p -> p = s).
  { intros p Hp; destruct (pos_eq_dec p s) as [->|Hne]; [reflexivity|].
    unfold marked, g2 in Hp; rewrite getNode_setNode_other in Hp by assumption.
    rewrite (proj1 (fresh_fields g p HF)) in Hp; discriminate. }
  assert (Hd : dist_is g2 s 0) by (unfold dist_is; rewrite Hs; reflexivity).
  split; [unfold marked; rewrite Hs; reflexivity|].
  split; [assumption|].
  split.
  { intros p Hp; apply Honly in Hp; subst p; left; split; [|assumption].
    rewrite Hs; simpl; apply (fresh_fields g s HF). }
  split.
  { exists 0%Z; split; [|split].
    - exists [s], []; split; [reflexivity|].
      split; [intros x [<-|[]]; assumption|intros x []].
    - intros p Hp; apply Honly in Hp; subst p; exists 0%Z; split;
        [assumption|lia].
    - intros p []. }
  split; [intros u []|].
  split; [|intros []].
  intros p Hp; apply Honly in Hp; subst p; right; left; reflexivity.
Qed.

(** A loop that is blocked by a wall is optimal: there is no path. *)
Lemma blocked_optimal : forall g s e o,
  is_wall (getNode g s) = true -> out_found o = false ->
  out_optimal g s e o.
Proof.
  intros g s e o Hw Hf; split; [congruence|].
  intros _ l Hl; apply walk_start_open in Hl.
  unfold open_cell in Hl; rewrite Hw, andb_false_r in Hl; discriminate.
Qed.

Lemma bfs_loop_optimal : loop_optimal bfs_loop.
Proof.
  intros g s e fuel o HR HG HF H; unfold bfs_loop in H.
  destruct (is_wall (getNode g s)) eqn:Ew.
  - apply blocked_optimal; [assumption|].
    apply (loop_invariant _ _ (bfs_step e)
             (fun st => blocked st s) (fun o => out_found o = false))
      with (fuel := fuel) (s := bfs_init g s); auto.
    + intros st; rewrite bfs_step_scan; apply scan_step_blocked.
    + rewrite bfs_init_eq; split; [|auto].
      rewrite <- Ew; apply layout_is_wall; apply layout_setNode; reflexivity.
  - assert (Ho : open_cell g s = true)
      by (unfold open_cell; rewrite HG, Ew; reflexivity).
    apply (loop_invariant _ _ (bfs_step e)
             (fun st => scan_inv g st /\ scan_paths g s st /\
                        bfs_levels g s e st)
             (out_optimal g s e))
      with (fuel := fuel) (s := bfs_init g s); auto.
    + intros st [H1 [H2 H3]].
      assert (Hi := scan_step_inv bfs_neighbor (fun l => l) bfs_discovers
                      id_order_In g e HR st H1).
      assert (Hp := scan_step_paths bfs_neighbor (fun l => l) bfs_discovers
                      id_order_In g s e HR st H1 H2).
      assert (Hl := bfs_step_levels g s e HR st H1 H2 H3).
      rewrite <- bfs_step_scan in Hi, Hp.
      destruct (bfs_step e st); auto.
    + split; [apply bfs_init_inv; assumption|].
      split; [|apply bfs_init_levels; assumption].
      rewrite bfs_init_eq; apply marked_start_linked; auto.
Qed.

(** ** From an optimal loop to an optimal search *)

Lemma search_optimal : forall L bound,
  loop_monotone L -> loop_stops L bound -> loop_optimal L ->
  forall g s e,
    rectangular g = true -> inGrid g s = true -> fresh g = true ->
    optimal_on (search_of L) g s e.
Proof.
  intros L bound HM HS HO g s e HR HG HF d [[l [Hl Hlen]] Hmin].
  destruct (HS g s e (S (bound g)) HR HG ltac:(lia)) as [o Ho].
  destruct (HO g s e _ o HR HG HF Ho) as [Hyes Hno].
  destruct o as [g1 vis [|]].
  - destruct (Hyes eq_refl) as [le [Hc [Hw Hle]]]; simpl in Hc.
    exists (mkResult vis le true), g1; split; [|split; [reflexivity|]].
    + exists (S (bound g) + length le); intros fuel Hf; unfold search_of.
      rewrite (HM g s e _ fuel _ Ho ltac:(lia)); simpl.
      rewrite (chain_reconstructPath g1 e le Hc fuel ltac:(lia)); reflexivity.
    + simpl.
      assert (H1 := Hle l (is_path_walk g s e l Hl)).
      assert (H2 := Hmin le (walk_is_path g s e le Hw)).
      lia.
  - exfalso; apply (Hno eq_refl l); apply is_path_walk; assumption.
Qed.

(* ================================================================== *)
(** * [uniformCostSearch] and [astar] return a shortest path *)
(* ================================================================== *)

Lemma stepped_fields : forall g g' p,
  stepped g p ->
  previousNode (getNode g' p) = previousNode (getNode g p) ->
  distance (getNode g' p) = distance (getNode g p) ->
  (forall q, marked g q ->
     marked g' q /\ distance (getNode g' q) = distance (getNode g q)) ->
  stepped g' p.
Proof.
  intros g g' p [[H1 H2]|[q [d [H1 [H2 [H3 H4]]]]]] Hp Hd Hm.
  - left; unfold dist_is in *; rewrite Hp, Hd; auto.
  - right; exists q, d; unfold dist_is in *.
    destruct (Hm q H2) as [H5 H6]; rewrite Hp, Hd, H6; auto.
Qed.

Lemma stepped_transfer : forall g g' p,
  stepped g p -> getNode g' p = getNode g p ->
  (forall q, marked g q -> getNode g' q = getNode g q) ->
  stepped g' p.
Proof.
  intros g g' p H Hp Hm; apply (stepped_fields g g' p H).
  - rewrite Hp; reflexivity.
  - rewrite Hp; reflexivity.
  - intros q Hq; unfold marked in *; rewrite (Hm q Hq); auto.
Qed.

Lemma within_fields : forall g g' p k,
  within g p k -> distance (getNode g' p) = distance (getNode g p) ->
  within g' p k.
Proof.
  intros g g' p k [d [H1 H2]] Hp; exists d; unfold dist_is in *.
  rewrite Hp; auto.
Qed.

Lemma exact_fields : forall g0 s g g' p,
  exact g0 s g p -> distance (getNode g' p) = distance (getNode g p) ->
  exact g0 s g' p.
Proof.
  intros g0 s g g' p H Hp l Hl; eapply within_fields; eauto.
Qed.

Lemma exact_transfer : forall g0 s g g' p,
  exact g0 s g p -> getNode g' p = getNode g p -> exact g0 s g' p.
Proof.
  intros g0 s g g' p H Hp; apply (exact_fields g0 s g g' p H).
  rewrite Hp; reflexivity.
Qed.

Lemma mark_distance : forall g c q,
  distance (getNode (setNode g c (set_isVisited true)) q)
  = distance (getNode g q).
Proof. intros; apply (field_setNode _ distance); reflexivity. Qed.

Section RelaxOptimal.

Variable newH : Pos -> Node -> Num.
Variable K : Node -> Num.
Variable hh : Pos -> Z.
Hypothesis K_relaxed : forall v n t b d u,
  K (mkNode t b (Fin d) (newH v n) u) = Fin (d + hh v).
Hypothesis hh_step : forall p q, step4 p q = true -> (hh p <= hh q + 1)%Z.

Variable g0 : Grid.
Variables startNode endNode : Pos.
Hypothesis g0_rect : rectangular g0 = true.
Hypothesis start_open : open_cell g0 startNode = true.

Lemma relax_update_fold : forall gs c dc done v g openSet,
  inGrid g0 v = true ->
  isVisited (getNode g v) = false -> is_wall (getNode g v) = false ->
  (forall dv, dist_is g v dv -> (dc + 1 < dv)%Z) ->
  relax_fold K hh g0 startNode gs c dc done (g, openSet) ->
  relax_fold K hh g0 startNode gs c dc (done ++ [v])
    (setNode g v (fun n =>
       mkNode (type n) (isVisited n) (Fin (dc + 1)) (newH v n) (Some c)),
     if includes openSet v then openSet else openSet ++ [v]).
Proof.
  intros gs c dc done v g openSet Hv Ev Ew Hlt
    [HL [Hmarks [[Hopen [Hmk HF]] [Hcm [Hcd [Hset Hdone]]]]]].
  assert (HS : inStore g v) by (eapply rectangular_inStore; eassumption).
  set (g' := setNode g v _).
  set (o' := if includes openSet v then openSet else openSet ++ [v]).
  assert (Hsame : forall p, p <> v -> getNode g' p = getNode g p)
    by (intros p Hp; apply getNode_setNode_other; assumption).
  assert (Hv' : getNode g' v =
                mkNode (type (getNode g v)) false (Fin (dc + 1))
                       (newH v (getNode g v)) (Some c)).
  { unfold g'; rewrite getNode_setNode_same by assumption.
    rewrite Ev; reflexivity. }
  assert (Hne : forall p, marked g p -> p <> v)
    by (intros p Hp ->; unfold marked in Hp; congruence).
  assert (Hold : forall p, marked g p -> getNode g' p = getNode g p)
    by (intros p Hp; apply Hsame, Hne; assumption).
  assert (Hvis : forall p, isVisited (getNode g' p) = isVisited (getNode g p)).
  { intros p; destruct (pos_eq_dec p v) as [->|Hp];
      [rewrite Hv', Ev; reflexivity|rewrite Hsame by assumption; reflexivity]. }
  assert (Hmk' : forall p, marked g' p <-> marked g p)
    by (intros p; unfold marked; rewrite Hvis; tauto).
  assert (Hsub : forall p, In p openSet -> In p o').
  { intros p Hp; unfold o'; destruct (includes openSet v); [assumption|].
    apply in_app_iff; left; assumption. }
  assert (Hin : In v o').
  { unfold o'; destruct (includes openSet v) eqn:E;
      [apply includes_In; assumption|].
    apply in_app_iff; right; left; reflexivity. }
  assert (Hsup : forall p, In p o' -> p = v \/ In p openSet).
  { intros p Hp; unfold o' in Hp; destruct (includes openSet v); [auto|].
    apply in_app_iff in Hp; destruct Hp as [Hp|[<-|[]]]; auto. }
  assert (Hcv : c <> v) by (apply Hne; assumption).
  assert (Hdv : dist_is g' v (dc + 1))
    by (unfold dist_is; rewrite Hv'; reflexivity).
  assert (Hrel : forall u w, marked g u -> relaxed g openSet u w ->
                             relaxed g' o' u w).
  { intros u w Hu [Hw|[Hw [du [dw [H1 [H2 H3]]]]]].
    - left; apply Hmk'; assumption.
    - right; split; [apply Hsub; assumption|].
      assert (H1' : dist_is g' u du)
        by (unfold dist_is; rewrite Hold; assumption).
      destruct (pos_eq_dec w v) as [->|Hwv].
      + exists du, (dc + 1)%Z; repeat split; auto.
        assert (H4 := Hlt dw H2); lia.
      + exists du, dw; repeat split; auto.
        unfold dist_is; rewrite Hsame; assumption. }
  split; [unfold g'; rewrite layout_setNode; [assumption|reflexivity]|].
  split; [intros p; rewrite Hvis; apply Hmarks|].
  split.
  { split; [|split].
    - intros p Hp Hnm; destruct (pos_eq_dec p v) as [->|Hpv].
      + split.
        * exists (dc + 1)%Z; split; [assumption|].
          rewrite Hv'; apply K_relaxed.
        * right; exists c, dc; rewrite Hv'; simpl.
          repeat split; auto; [apply Hmk'; assumption|].
          unfold dist_is; rewrite Hold; assumption.
      + destruct (Hsup p Hp) as [->|Hp']; [contradiction|].
        rewrite Hmk' in Hnm.
        destruct (Hopen p Hp' Hnm) as [[d [H1 H2]] H3]; split.
        * exists d; unfold dist_is; rewrite Hsame by assumption; auto.
        * apply (stepped_transfer g g' p H3); auto.
    - intros p Hp; apply Hmk' in Hp.
      destruct (Hmk p Hp) as [H1 H2]; split.
      + apply (stepped_transfer g g' p H1); auto.
      + apply (exact_transfer g0 startNode g g' p H2); auto.
    - intros w Hw Hww; rewrite Hmk' in Hw.
      destruct (pos_eq_dec w v) as [->|Hwv]; [right; assumption|].
      rewrite Hsame in Hww |- * by assumption.
      destruct (HF w Hw Hww) as [H|H]; [left; assumption|right; auto]. }
  split; [apply Hmk'; assumption|].
  split; [unfold dist_is; rewrite Hold; assumption|].
  split.
  { intros u Hu Huc w Hsw How; apply Hmk' in Hu.
    apply Hrel; [assumption|]. apply Hset; assumption. }
  intros w Hw How; apply in_app_iff in Hw; destruct Hw as [Hw|[<-|[]]].
  - apply Hrel; [assumption|apply Hdone; assumption].
  - right; split; [assumption|].
    exists dc, (dc + 1)%Z; repeat split; auto; [|lia].
    unfold dist_is; rewrite Hold; assumption.
Qed.

Lemma relax_neighbor_fold : forall gs c dc done v g openSet,
  inGrid g0 v = true ->
  relax_fold K hh g0 startNode gs c dc done (g, openSet) ->
  relax_fold K hh g0 startNode gs c dc (done ++ [v])
             (relax_neighbor newH c (g, openSet) v).
Proof.
  intros gs c dc done v g openSet Hv H.
  assert (Hkeep : forall (P : Prop),
            (open_cell g0 v = true -> relaxed g openSet c v) ->
            relax_fold K hh g0 startNode gs c dc (done ++ [v]) (g, openSet)).
  { intros _ Hrel.
    destruct H as [HL [Hmarks [Hcore [Hcm [Hcd [Hset Hdone]]]]]].
    repeat (split; [assumption|]).
    intros w Hw How; apply in_app_iff in Hw; destruct Hw as [Hw|[<-|[]]];
      auto. }
  assert (H' := H).
  destruct H' as [HL [Hmarks [[Hopen [Hmk HF]] [Hcm [Hcd [Hset Hdone]]]]]].
  unfold relax_neighbor.
  destruct (isVisited (getNode g v)) eqn:Ev.
  { apply (Hkeep True); intros _; left; exact Ev. }
  destruct (is_wall (getNode g v)) eqn:Ew.
  { apply (Hkeep True); intros Ho; exfalso.
    unfold open_cell in Ho; rewrite <- (layout_is_wall g g0 v HL), Ew in Ho.
    rewrite andb_false_r in Ho; discriminate. }
  simpl orb; cbv iota.
  unfold dist_is in Hcd; rewrite Hcd; simpl num_add.
  destruct (distance (getNode g v)) as [dv|] eqn:Edv; simpl num_ltb.
  - destruct (Z.ltb_spec (dc + 1) dv) as [Hlt|Hge].
    + apply relax_update_fold; auto.
      intros dv' Hdv'; unfold dist_is in Hdv'.
      assert (dv' = dv) by congruence; lia.
    + apply (Hkeep True); intros _; right.
      assert (Hnm : ~ marked g v) by (unfold marked; congruence).
      destruct (HF v Hnm Ew) as [Hinf|Hin]; [congruence|].
      split; [assumption|]; exists dc, dv; auto.
  - apply relax_update_fold; auto.
    intros dv' Hdv'; unfold dist_is in Hdv'; congruence.
Qed.

Lemma relax_fold_all : forall gs c dc l done g openSet,
  (forall v, In v l -> inGrid g0 v = true) ->
  relax_fold K hh g0 startNode gs c dc done (g, openSet) ->
  relax_fold K hh g0 startNode gs c dc (done ++ l)
             (fold_left (relax_neighbor newH c) l (g, openSet)).
Proof.
  intros gs c dc l; induction l as [|v l IH]; intros done g openSet Hl H.
  - rewrite app_nil_r; exact H.
  - change (fold_left (relax_neighbor newH c) (v :: l) (g, openSet))
      with (fold_left (relax_neighbor newH c) l
              (relax_neighbor newH c (g, openSet) v)).
    assert (H1 := relax_neighbor_fold gs c dc done v g openSet
                    (Hl v (or_introl eq_refl)) H).
    destruct (relax_neighbor newH c (g, openSet) v) as [g1 o1].
    replace (done ++ v :: l) with ((done ++ [v]) ++ l)
      by (rewrite <- app_assoc; reflexivity).
    apply IH; [|exact H1].
    intros w Hw; apply Hl; right; assumption.
Qed.

(** A path from the start ends at a marked node, or meets the open set at
    an unmarked node whose key is no more than the path allows. *)
Lemma relax_walk_frontier : forall g openSet vis,
  relax_levels K hh g0 startNode endNode (g, openSet, vis) ->
  forall u l, walk g0 startNode u l ->
    marked g u \/
    exists w d, In w openSet /\ ~ marked g w /\ dist_is g w d /\
                (d + hh w <= Z.of_nat (length l) - 1 + hh u)%Z.
Proof.
  intros g openSet vis [[Hopen [Hmk HF]] [Hset [Hstart Hend]]] u l Hw.
  induction Hw as [Ho|q p l Hw IH Hstep Ho].
  - destruct Hstart as [Hs|[-> [Hd Hnone]]]; [left; assumption|].
    right; exists startNode, 0%Z; repeat split; auto.
    + left; reflexivity.
    + simpl; lia.
  - rewrite length_app; simpl length.
    destruct (isVisited (getNode g p)) eqn:Ep; [left; exact Ep|].
    right.
    destruct IH as [Hq|[w [d [H1 [H2 [H3 H4]]]]]].
    + destruct (Hset q Hq p Hstep Ho) as [Hp|[Hin [du [dv [H1 [H2 H3]]]]]];
        [unfold marked in Hp; congruence|].
      exists p, dv; repeat split; auto; [unfold marked; congruence|].
      destruct (proj2 (Hmk q Hq) l Hw) as [d' [H4 H5]]; unfold dist_is in *.
      assert (d' = du) by congruence; lia.
    + exists w, d; repeat split; auto.
      assert (H5 := hh_step q p Hstep); lia.
Qed.

(** Dropping from the open set a node that is a wall or is marked. *)
Lemma relax_skip : forall g openSet c open' vis vis',
  (forall p, In p openSet -> p = c \/ In p open') ->
  (forall p, In p open' -> In p openSet) -> In c openSet ->
  layout g = layout g0 ->
  is_wall (getNode g c) = true \/ marked g c ->
  relax_levels K hh g0 startNode endNode (g, openSet, vis) ->
  relax_levels K hh g0 startNode endNode (g, open', vis').
Proof.
  intros g openSet c open' vis vis' Hsup Hsub Hcin HL Hc
    [[Hopen [Hmk HF]] [Hset [Hstart Hend]]].
  assert (Hwall : is_wall (getNode g c) = true -> open_cell g0 c = false).
  { intros Hw; unfold open_cell.
    rewrite <- (layout_is_wall g g0 c HL), Hw; apply andb_false_r. }
  split; [split; [|split]|split; [|split]]; auto.
  - intros v Hv Hvw; destruct (HF v Hv Hvw) as [H|H]; [left; assumption|].
    destruct (Hsup v H) as [->|H']; [|right; assumption].
    destruct Hc as [Hc|Hc]; [congruence|contradiction].
  - intros u Hu v Hsv Hov.
    destruct (Hset u Hu v Hsv Hov) as [H|[H1 H2]]; [left; assumption|].
    destruct (Hsup v H1) as [->|H']; [|right; split; assumption].
    destruct Hc as [Hc|Hc]; [|left; assumption].
    rewrite (Hwall Hc) in Hov; discriminate.
  - destruct Hstart as [H|[E [Hd Hnone]]]; [left; assumption|].
    exfalso; rewrite E in Hcin; destruct Hcin as [<-|[]].
    destruct Hc as [Hc|Hc]; [|exact (Hnone startNode Hc)].
    rewrite (Hwall Hc) in start_open; discriminate.
Qed.

Lemma relax_step_levels : forall st,
  best_inv g0 st -> best_paths g0 startNode st ->
  relax_levels K hh g0 startNode endNode st ->
  match best_step (key_cmp K) (relax_neighbor newH) endNode st with
  | Continue st' => relax_levels K hh g0 startNode endNode st'
  | Return o => out_optimal g0 startNode endNode o
  end.
Proof.
  intros [[g openSet] vis] Hinv Hpaths Hlev.
  assert (Hfront := relax_walk_frontier g openSet vis Hlev).
  assert (Hlev' := Hlev).
  destruct Hlev' as [[Hopen [Hmk HF]] [Hset [Hstart Hend]]].
  destruct Hinv as [HL [Hog [Hvm Hnd]]].
  destruct Hpaths as [HLk HPend].
  unfold best_step.
  assert (HP := sort_perm Pos (key_cmp K g) openSet).
  destruct (sort (key_cmp K g) openSet) as [|c open'] eqn:Es.
  - apply Permutation_nil in HP; subst openSet.
    split; [discriminate|]; intros _ l Hl.
    destruct (Hfront endNode l Hl) as [He|[w [d [[] _]]]]; contradiction.
  - assert (Hmin := sort_head_min (fun p => K (getNode g p)) openSet c open'
                      Es).
    assert (Hcin : In c openSet)
      by (apply (Permutation_in _ HP); left; reflexivity).
    assert (Hsub : forall p, In p open' -> In p openSet)
      by (intros p Hp; apply (Permutation_in _ HP); right; assumption).
    assert (Hsup : forall p, In p openSet -> p = c \/ In p open').
    { intros p Hp; apply (Permutation_in _ (Permutation_sym HP)) in Hp.
      destruct Hp as [<-|Hp]; auto. }
    assert (Hcg : inGrid g0 c = true) by (apply Hog; assumption).
    assert (HS : inStore g c) by (eapply rectangular_inStore; eassumption).
    destruct (is_wall (getNode g c)) eqn:Ew.
    { apply (relax_skip g openSet c open' vis vis); auto. }
    destruct (isVisited (getNode g c)) eqn:Ev.
    { apply (relax_skip g openSet c open' vis vis); auto. }
    assert (Hcn : ~ marked g c) by (unfold marked; congruence).
    destruct (Hopen c Hcin Hcn) as [[dc [Hcd HcK]] Hcst].
    set (g1 := setNode g c (set_isVisited true)).
    assert (HL1 : layout g1 = layout g0)
      by (unfold g1; rewrite layout_setNode; [assumption|reflexivity]).
    assert (Hc1 : marked g1 c)
      by (unfold marked, g1; rewrite getNode_setNode_same by assumption;
          reflexivity).
    assert (Hd1 : forall q, distance (getNode g1 q) = distance (getNode g q))
      by (intros q; apply mark_distance).
    assert (Hp1 : forall q, previousNode (getNode g1 q)
                            = previousNode (getNode g q))
      by (intros q; apply mark_previousNode).
    assert (Hm1 : forall q, marked g q -> marked g1 q)
      by (intros q Hq; apply mark_isVisited; assumption).
    assert (Hback : forall q, marked g1 q -> q = c \/ marked g q).
    { intros q Hq; destruct (pos_eq_dec q c) as [->|Hne]; [auto|right].
      unfold marked, g1 in *; rewrite getNode_setNode_other in Hq; auto. }
    assert (Hst1 : forall q, stepped g q -> stepped g1 q).
    { intros q Hq; apply (stepped_fields g g1 q Hq); auto. }
    assert (Hexact : exact g0 startNode g c).
    { intros l Hl; exists dc; split; [assumption|].
      destruct (Hfront c l Hl) as [Hc|[w [d [H1 [H2 [H3 H4]]]]]];
        [contradiction|].
      destruct (Hopen w H1 H2) as [[d' [H5 H6]] _].
      assert (Hle := Hmin w H1); cbv beta in Hle.
      rewrite HcK, H6 in Hle; apply (proj1 (num_le_Fin _ _)) in Hle.
      unfold dist_is in *; assert (d' = d) by congruence; lia. }
    assert (Hmk1 : forall p, marked g1 p ->
                     stepped g1 p /\ exact g0 startNode g1 p).
    { intros p Hp; destruct (Hback p Hp) as [->|Hpm].
      - split; [apply Hst1; assumption|].
        apply (exact_fields g0 startNode g g1 c Hexact); auto.
      - destruct (Hmk p Hpm) as [H1 H2]; split; [apply Hst1; assumption|].
        apply (exact_fields g0 startNode g g1 p H2); auto. }
    destruct (pos_eqb c endNode) eqn:E.
    + apply pos_eqb_eq in E; subst c; split; [|discriminate]; intros _.
      assert (HLk1 := linked_mark g0 startNode start_open g endNode openSet
                        HS Hcin Ev HLk HPend).
      destruct (HLk1 endNode Hc1) as [le [Hch [Hwk Hall]]].
      exists le; split; [assumption|]; split; [assumption|].
      intros l Hl.
      assert (Hlen := stepped_chain_length g1 endNode le
                        (fun x Hx => proj1 (Hmk1 x Hx)) Hch Hall).
      destruct (proj2 (Hmk1 endNode Hc1) l Hl) as [d [H1 H2]].
      unfold dist_is in *.
      assert (d = Z.of_nat (length le) - 1)%Z by congruence; lia.
    + apply pos_eqb_neq in E.
      assert (Hun1 : forall p, ~ marked g1 p -> ~ marked g p /\ p <> c).
      { intros p Hp; split; [intros H; apply Hp, Hm1; assumption|].
        intros ->; contradiction. }
      assert (Hfold : relax_fold K hh g0 startNode g1 c dc [] (g1, open')).
      { split; [assumption|]. split; [reflexivity|].
        split; [split; [|split]|].
        - intros p Hp Hnm; destruct (Hun1 p Hnm) as [Hnm' Hpc].
          destruct (Hopen p (Hsub p Hp) Hnm') as [[d [H1 H2]] H3]; split.
          + exists d; unfold dist_is, g1 in *.
            rewrite getNode_setNode_other by assumption; auto.
          + apply Hst1; assumption.
        - exact Hmk1.
        - intros v Hv Hvw; destruct (Hun1 v Hv) as [Hv' Hvc].
          rewrite Hd1.
          unfold g1 in Hvw; rewrite getNode_setNode_other in Hvw by assumption.
          destruct (HF v Hv' Hvw) as [H|H]; [left; assumption|].
          destruct (Hsup v H) as [->|H']; [contradiction|right; assumption].
        - split; [assumption|]. split; [unfold dist_is; rewrite Hd1; exact Hcd|].
          split; [|intros v []].
          intros u Hu Huc v Hsv Hov.
          destruct (Hback u Hu) as [->|Hum]; [contradiction|].
          destruct (Hset u Hum v Hsv Hov) as [H|[H1 [du [dv [H2 [H3 H4]]]]]];
            [left; apply Hm1; assumption|].
          destruct (Hsup v H1) as [->|H']; [left; assumption|].
          right; split; [assumption|].
          exists du, dv; unfold dist_is; rewrite !Hd1; auto. }
      assert (Hnb : forall v, In v (getNeighbors c g1) -> inGrid g0 v = true).
      { intros v Hv; rewrite (layout_getNeighbors g1 g0 c HL1) in Hv.
        eapply getNeighbors_inGrid; eassumption. }
      assert (HF' := relax_fold_all g1 c dc (getNeighbors c g1) [] g1 open'
                       Hnb Hfold).
      fold g1.
      destruct (fold_left (relax_neighbor newH c) (getNeighbors c g1)
                  (g1, open')) as [g' o'].
      destruct HF' as [HL' [Hmarks' [Hcore' [Hcm' [Hcd' [Hset' Hdone']]]]]].
      simpl app in Hdone'.
      split; [assumption|]. split; [|split].
      * intros u Hu; destruct (pos_eq_dec u c) as [->|Huc];
          [|apply Hset'; assumption].
        intros v Hsv Hov; apply Hdone'; [|assumption].
        rewrite (layout_getNeighbors g1 g0 c HL1).
        apply getNeighbors_spec; [assumption|]. split; [assumption|].
        unfold open_cell in Hov; apply andb_true_iff in Hov; tauto.
      * left; unfold marked; rewrite Hmarks'.
        destruct Hstart as [H|[Eo _]]; [apply Hm1; assumption|].
        rewrite Eo in Hcin; destruct Hcin as [<-|[]]; exact Hc1.
      * unfold marked; rewrite Hmarks'; intros He.
        destruct (Hback endNode He) as [H|H]; [congruence|contradiction].
Qed.

End RelaxOptimal.

(** ** The two searches as instances *)

Lemma relax_neighbor_relaxes : forall newH u v g openSet,
  inStore g v ->
  relaxes u v (g, openSet) (relax_neighbor newH u (g, openSet) v).
Proof.
  intros newH u v g openSet Hv; unfold relax_neighbor.
  destruct (isVisited (getNode g v)) eqn:E1; [left; reflexivity|].
  destruct (is_wall (getNode g v)) eqn:E2; [left; reflexivity|].
  simpl orb; cbv iota.
  destruct (num_ltb _ _); [|left; reflexivity].
  right; simpl. repeat split; auto.
  - apply layout_setNode; reflexivity.
  - intros q Hq; apply getNode_setNode_other; assumption.
  - rewrite getNode_setNode_same by assumption; simpl; assumption.
  - rewrite getNode_setNode_same by assumption; reflexivity.
  - destruct (includes openSet v); auto.
  - destruct (includes openSet v) eqn:E; [apply includes_In; assumption|].
    apply in_app_iff; right; left; reflexivity.
Qed.

Lemma fold_left_ext : forall (A B : Type) (f f' : A -> B -> A) l a,
  (forall a x, f a x = f' a x) -> fold_left f l a = fold_left f' l a.
Proof.
  intros A B f f' l; induction l as [|x l IH]; intros a H; simpl;
    [reflexivity|].
  rewrite H; apply IH; assumption.
Qed.

Lemma best_step_ext : forall cmp nbr nbr' e st,
  (forall u st v, nbr u st v = nbr' u st v) ->
  best_step cmp nbr e st = best_step cmp nbr' e st.
Proof.
  intros cmp nbr nbr' e [[g openSet] vis] H; unfold best_step.
  destruct (sort (cmp g) openSet) as [|c open']; [reflexivity|].
  destruct (is_wall (getNode g c)); [reflexivity|].
  destruct (isVisited (getNode g c)); [reflexivity|].
  destruct (pos_eqb c e); [reflexivity|].
  rewrite (fold_left_ext _ _ (nbr c) (nbr' c)) by (apply H); reflexivity.
Qed.

Lemma loop_ext : forall (St R : Type) (step step' : St -> Step St R) fuel s,
  (forall s, step s = step' s) -> loop step fuel s = loop step' fuel s.
Proof.
  intros St R step step' fuel; induction fuel as [|fuel IH]; intros s H;
    simpl; [reflexivity|].
  rewrite H; destruct (step' s); [apply IH; assumption|reflexivity].
Qed.

Lemma astar_step_relax : forall e st,
  astar_step e st =
  best_step (key_cmp astar_key)
            (relax_neighbor (fun v _ => manhattanDistance v e)) e st.
Proof.
  intros e st; rewrite astar_step_best.
  change astar_cmp with (key_cmp astar_key).
  apply best_step_ext; intros u [g o] v; apply astar_neighbor_eq.
Qed.

Lemma ucs_step_relax : forall e st,
  ucs_step e st =
  best_step (key_cmp ucs_key) (relax_neighbor (fun _ n => heuristic n)) e st.
Proof.
  intros e st; rewrite ucs_step_best.
  change ucs_cmp with (key_cmp ucs_key).
  apply best_step_ext; intros u [g o] v; apply ucs_neighbor_eq.
Qed.

Lemma manhattan_step : forall e p q,
  step4 p q = true -> (manhattan e p <= manhattan e q + 1)%Z.
Proof.
  intros [er ec] [r c] [r' c'] H; unfold step4, manhattan in *; simpl in *.
  rewrite orb_true_iff, !andb_true_iff, !orb_true_iff, !Nat.eqb_eq in H.
  lia.
Qed.

(** The state a relaxing search starts from. *)
Lemma relax_init_levels : forall K hh g s e f,
  inStore g s -> fresh g = true ->
  (forall n, type (f n) = type n) ->
  (forall n, isVisited (f n) = isVisited n) ->
  (forall n, previousNode (f n) = previousNode n) ->
  (forall n, distance (f n) = Fin 0) ->
  (forall n, K (f n) = Fin (0 + hh s)) ->
  relax_levels K hh g s e (setNode g s f, [s], []).
Proof.
  intros K hh g s e f HS HF Ht Hv Hp Hd HK.
  set (g1 := setNode g s f).
  assert (Hs : getNode g1 s = f (getNode g s))
    by (unfold g1; apply getNode_setNode_same; assumption).
  assert (Hnone : forall p, ~ marked g1 p).
  { intros p; unfold marked, g1.
    rewrite (field_setNode _ isVisited) by assumption.
    rewrite (proj1 (fresh_fields g p HF)); discriminate. }
  assert (Hd0 : dist_is g1 s 0) by (unfold dist_is; rewrite Hs; apply Hd).
  split; [split; [|split]|split; [|split]].
  - intros p [<-|[]] _; split.
    + exists 0%Z; split; [assumption|rewrite Hs; apply HK].
    + left; split; [|assumption].
      rewrite Hs, Hp; apply (fresh_fields g s HF).
  - intros p Hpm; exfalso; exact (Hnone p Hpm).
  - intros v _ _; destruct (pos_eq_dec v s) as [->|Hne];
      [right; left; reflexivity|left].
    unfold g1; rewrite getNode_setNode_other by assumption.
    apply (fresh_fields g v HF).
  - intros u Hu; exfalso; exact (Hnone u Hu).
  - right; auto.
  - apply Hnone.
Qed.

Lemma relax_loop_optimal : forall newH K hh g s e st0 fuel o,
  (forall v n t b d u, K (mkNode t b (Fin d) (newH v n) u) = Fin (d + hh v)) ->
  (forall p q, step4 p q = true -> (hh p <= hh q + 1)%Z) ->
  rectangular g = true -> open_cell g s = true ->
  best_inv g st0 -> best_paths g s st0 -> relax_levels K hh g s e st0 ->
  loop (best_step (key_cmp K) (relax_neighbor newH) e) fuel st0 = Some o ->
  out_optimal g s e o.
Proof.
  intros newH K hh g s e st0 fuel o HK1 Hhh HR Ho H1 H2 H3 H.
  apply (loop_invariant _ _
           (best_step (key_cmp K) (relax_neighbor newH) e)
           (fun st => best_inv g st /\ best_paths g s st /\
                      relax_levels K hh g s e st)
           (out_optimal g s e))
    with (fuel := fuel) (s := st0); auto.
  intros st [I1 [I2 I3]].
  assert (Hi := best_step_inv (key_cmp K) (relax_neighbor newH)
                  (relax_neighbor_relaxes newH) g e HR st I1).
  assert (Hp := best_step_paths (key_cmp K) (relax_neighbor newH)
                  (relax_neighbor_relaxes newH) g s e HR Ho st I1 I2).
  assert (Hl := relax_step_levels newH K hh HK1 Hhh g s e HR Ho
                  st I1 I2 I3).
  destruct (best_step (key_cmp K) (relax_neighbor newH) e st); auto.
Qed.

Lemma best_blocked_optimal : forall cmp nbr g s e st0 fuel o,
  is_wall (getNode g s) = true -> blocked st0 s ->
  loop (best_step cmp nbr e) fuel st0 = Some o ->
  out_optimal g s e o.
Proof.
  intros cmp nbr g s e st0 fuel o Hw Hb H.
  apply blocked_optimal; [assumption|].
  apply (loop_invariant _ _ (best_step cmp nbr e)
           (fun st => blocked st s) (fun o => out_found o = false))
    with (fuel := fuel) (s := st0); auto.
  intros st; apply best_step_blocked.
Qed.

Lemma astar_loop_optimal : loop_optimal astar_loop.
Proof.
  intros g s e fuel o HR HG HF H; unfold astar_loop in H.
  rewrite (loop_ext _ _ _ _ fuel _ (astar_step_relax e)) in H.
  rewrite astar_init_eq in H.
  destruct (is_wall (getNode g s)) eqn:Ew.
  - eapply best_blocked_optimal; [exact Ew| |exact H].
    apply best_init_blocked; auto.
  - assert (Ho : open_cell g s = true)
      by (unfold open_cell; rewrite HG, Ew; reflexivity).
    refine (relax_loop_optimal (fun v _ => manhattanDistance v e) astar_key
              (manhattan e) g s e _ fuel o _ _ HR Ho _ _ _ H).
    + reflexivity.
    + intros p q; apply manhattan_step.
    + apply best_init_inv; auto.
    + apply best_init_paths; auto.
    + apply relax_init_levels; auto.
      apply inGrid_inStore; assumption.
Qed.

Lemma ucs_loop_optimal : loop_optimal ucs_loop.
Proof.
  intros g s e fuel o HR HG HF H; unfold ucs_loop, ucs_init in H.
  rewrite (loop_ext _ _ _ _ fuel _ (ucs_step_relax e)) in H.
  destruct (is_wall (getNode g s)) eqn:Ew.
  - eapply best_blocked_optimal; [exact Ew| |exact H].
    apply best_init_blocked; auto.
  - assert (Ho : open_cell g s = true)
      by (unfold open_cell; rewrite HG, Ew; reflexivity).
    refine (relax_loop_optimal (fun _ n => heuristic n) ucs_key
              (fun _ => 0%Z) g s e _ fuel o _ _ HR Ho _ _ _ H).
    + intros v n t b d u; unfold ucs_key; simpl; rewrite Z.add_0_r.
      reflexivity.
    + intros p q _; lia.
    + apply best_init_inv; auto.
    + apply best_init_paths; auto.
    + apply relax_init_levels; auto.
      apply inGrid_inStore; assumption.
Qed.

(* ================================================================== *)
(** * The playback scheduler: timers *)
(* ================================================================== *)

(** ** Due times *)

Section TimeFacts.

Import QArith_base Lqa.
Local Open Scope Q_scope.

Lemma delayOf_pos : forall c, 0 < delayOf c.
Proof. intros c; unfold delayOf; reflexivity. Qed.

Lemma count_nonneg : forall n, 0 <= count n.
Proof.
  intros n; unfold count, ms.
  change 0 with (inject_Z 0); rewrite <- Zle_Qle; lia.
Qed.

Lemma count_mono : forall i j, (i <= j)%nat -> count i <= count j.
Proof. intros i j H; unfold count, ms; rewrite <- Zle_Qle; lia. Qed.

Lemma time_leb_refl : forall a, time_leb a a = true.
Proof. intros a; apply Qle_bool_iff; lra. Qed.

Lemma time_leb_trans : forall a b c,
  time_leb a b = true -> time_leb b c = true -> time_leb a c = true.
Proof.
  unfold time_leb; intros a b c H1 H2.
  apply Qle_bool_iff in H1; apply Qle_bool_iff in H2.
  apply Qle_bool_iff; lra.
Qed.

(** The visited frames are due in the order of their indices. *)
Lemma visited_due_mono : forall c i j,
  (i <= j)%nat ->
  time_leb (time_add (now c) (time_mul (delayOf c) (count i)))
           (time_add (now c) (time_mul (delayOf c) (count j))) = true.
Proof.
  intros c i j H; unfold time_leb, time_add, time_mul.
  apply Qle_bool_iff.
  assert (H1 := delayOf_pos c). assert (H2 := count_mono i j H).
  assert (delayOf c * count i <= delayOf c * count j)
    by (apply Qmult_le_l; assumption).
  lra.
Qed.

(** The frames of the path and the completion are due after the last
    visited frame. *)
Lemma path_due_after : forall c n j,
  time_leb (time_add (now c) (time_mul (delayOf c) (count n)))
           (time_add (now c)
              (time_add
                 (time_add (time_mul (delayOf c) (count n)) (ms 50))
                 (time_mul (time_mul (delayOf c) (count j)) (ms 3))))
  = true.
Proof.
  intros c n j; unfold time_leb, time_add, time_mul, ms.
  apply Qle_bool_iff.
  assert (H1 := delayOf_pos c). assert (H2 := count_nonneg j).
  assert (0 <= delayOf c * count j) by (apply Qmult_le_0_compat; lra).
  change (inject_Z 50) with 50; change (inject_Z 3) with 3.
  lra.
Qed.

Lemma complete_due_after : forall c n m,
  time_leb (time_add (now c) (time_mul (delayOf c) (count n)))
           (time_add (now c)
              (time_add
                 (time_add
                    (time_add (time_mul (delayOf c) (count n)) (ms 50))
                    (time_mul (time_mul (delayOf c) (count m)) (ms 3)))
                 (ms 100)))
  = true.
Proof.
  intros c n m; unfold time_leb, time_add, time_mul, ms.
  apply Qle_bool_iff.
  assert (H1 := delayOf_pos c). assert (H2 := count_nonneg m).
  assert (0 <= delayOf c * count m) by (apply Qmult_le_0_compat; lra).
  change (inject_Z 50) with 50; change (inject_Z 3) with 3;
    change (inject_Z 100) with 100.
  lra.
Qed.

End TimeFacts.

(** ** The timer table *)

Lemma earliest_first : forall t l, dueAfter (fireAt t) l -> earliest t l = t.
Proof.
  intros t l; induction l as [|x l IH]; intros H; simpl; [reflexivity|].
  rewrite (H x (or_introl eq_refl)).
  apply IH; intros y Hy; apply H; right; assumption.
Qed.

Lemma filter_all : forall (A : Type) (f : A -> bool) l,
  (forall x, In x l -> f x = true) -> filter f l = l.
Proof.
  intros A f l; induction l as [|a l IH]; intros H; simpl; [reflexivity|].
  rewrite (H a (or_introl eq_refl)), IH; [reflexivity|].
  intros x Hx; apply H; right; assumption.
Qed.

Lemma filter_none : forall (A : Type) (f : A -> bool) l,
  (forall x, In x l -> f x = false) -> filter f l = [].
Proof.
  intros A f l; induction l as [|a l IH]; intros H; simpl; [reflexivity|].
  rewrite (H a (or_introl eq_refl)); apply IH.
  intros x Hx; apply H; right; assumption.
Qed.

Lemma filter_filter : forall (A : Type) (f g : A -> bool) l,
  filter f (filter g l) = filter (fun x => g x && f x) l.
Proof.
  intros A f g l; induction l as [|a l IH]; simpl; [reflexivity|].
  destruct (g a); simpl; [destruct (f a)|]; rewrite IH; reflexivity.
Qed.

Lemma set_timers_same : forall c, set_timers (timers c) c = c.
Proof. intros []; reflexivity. Qed.

(** The [forEach] of [clearAnimations] removes from the table the timers
    whose ids are on the list, and touches nothing else. *)
Lemma clearTimeout_all : forall ids c,
  fold_left (fun c' timeout => clearTimeout timeout c') ids c
  = set_timers
      (filter (fun t => negb (existsb (Nat.eqb (timer_id t)) ids))
              (timers c))
      c.
Proof.
  induction ids as [|a ids IH]; intros c; simpl.
  - rewrite filter_all by reflexivity; symmetry; apply set_timers_same.
  - rewrite IH; unfold clearTimeout, set_timers; simpl.
    rewrite filter_filter; f_equal.
    apply filter_ext; intros t; rewrite negb_orb; reflexivity.
Qed.

Lemma clearAnimations_eq : forall c,
  clearAnimations c
  = set_animationData None
      (set_currentAnimationIndex 0
         (set_animationTimeouts []
            (set_timers
               (filter
                  (fun t =>
                     negb (existsb (Nat.eqb (timer_id t))
                                   (animationTimeouts c)))
                  (timers c))
               c))).
Proof. intros c; unfold clearAnimations; rewrite clearTimeout_all; reflexivity. Qed.

Lemma tracked_cleared : forall c,
  tracked c = true -> timers (clearAnimations c) = [].
Proof.
  intros c H; rewrite clearAnimations_eq; simpl.
  apply filter_none; intros t Ht.
  unfold tracked in H; rewrite forallb_forall in H.
  rewrite (H t Ht); reflexivity.
Qed.

(** With nothing pending, nothing ever runs. *)
Lemma fires_idle : forall fuel n c, timers c = [] -> fires fuel n c = Some c.
Proof.
  intros fuel n; induction n as [|n IH]; intros c H; simpl; [reflexivity|].
  unfold fire; rewrite H; apply IH; assumption.
Qed.

Lemma fires_S : forall fuel n c,
  fires fuel (S n) c
  = match fires fuel n c with
    | Some c' => fire fuel c'
    | None => None
    end.
Proof.
  intros fuel n; induction n as [|n IH]; intros c.
  - simpl; destruct (fire fuel c); reflexivity.
  - change (fires fuel (S (S n)) c)
      with (match fire fuel c with
            | Some c' => fires fuel (S n) c'
            | None => None
            end).
    destruct (fire fuel c) as [c'|] eqn:E.
    + rewrite IH; simpl; rewrite E; reflexivity.
    + simpl; rewrite E; reflexivity.
Qed.

(** The timer at the head of the table runs when nothing is due before
    it. *)
Lemma fire_head : forall fuel c t others,
  timers c = t :: others ->
  dueAfter (fireAt t) others ->
  (forall u, In u others -> timer_id u <> timer_id t) ->
  fire fuel c
  = runCallback fuel (callback t)
      (set_now (if time_leb (now c) (fireAt t) then fireAt t else now c)
         (set_timers others c)).
Proof.
  intros fuel c t others H Hdue Hid; unfold fire; rewrite H.
  rewrite (earliest_first t others Hdue).
  unfold dequeue, clearTimeout; rewrite H; simpl.
  rewrite Nat.eqb_refl; simpl.
  rewrite filter_all; [reflexivity|].
  intros u Hu; apply negb_true_iff, Nat.eqb_neq, Hid; assumption.
Qed.

(** ** The timers of [animateAlgorithm] *)

Lemma timersOf_ids : forall (A : Type) mk due (l : list A) id index,
  map timer_id (timersOf mk due id index l) = seq id (length l).
Proof.
  intros A mk due l; induction l as [|x l IH]; intros id index; simpl;
    [reflexivity|].
  rewrite IH; reflexivity.
Qed.

Lemma timersOf_In : forall (A : Type) mk due (l : list A) id index t,
  In t (timersOf mk due id index l) ->
  exists j, index <= j /\ fireAt t = due j /\ id <= timer_id t.
Proof.
  intros A mk due l; induction l as [|x l IH]; intros id index t H;
    simpl in H; [contradiction|].
  destruct H as [<-|H].
  - exists index; simpl; auto.
  - destruct (IH _ _ _ H) as [j [H1 [H2 H3]]].
    exists j; repeat split; [lia|assumption|lia].
Qed.

Lemma timersOf_In_strict : forall (A : Type) mk due (l : list A) id index t,
  In t (timersOf mk due (S id) (S index) l) ->
  exists j, index <= j /\ fireAt t = due j /\ timer_id t <> id.
Proof.
  intros A mk due l id index t H.
  destruct (timersOf_In A mk due l _ _ t H) as [j [H1 [H2 H3]]].
  exists j; repeat split; [lia|assumption|lia].
Qed.

Lemma component_ext : forall a b : GridComponent,
  props a = props b -> grid a = grid b ->
  isVisualizing a = isVisualizing b -> isPaused a = isPaused b ->
  canPause a = canPause b -> animationCompleted a = animationCompleted b ->
  startPos a = startPos b -> endPos a = endPos b ->
  animationTimeouts a = animationTimeouts b ->
  currentAnimationIndex a = currentAnimationIndex b ->
  animationData a = animationData b ->
  timers a = timers b -> nextTimer a = nextTimer b -> now a = now b ->
  a = b.
Proof.
  intros [] []; simpl; intros; subst; reflexivity.
Qed.

Ltac fields :=
  cbn [props grid isVisualizing isPaused canPause animationCompleted
       startPos endPos animationTimeouts currentAnimationIndex
       animationData timers nextTimer now
       setGrid setIsVisualizing setIsPaused setCanPause
       setAnimationCompleted setStartPos setEndPos set_animationTimeouts
       set_currentAnimationIndex set_animationData set_timers
       set_nextTimer set_now schedule setTimeout fst snd].

Lemma forEach_schedule : forall (A : Type) mk delayAt (l : list A) index c,
  forEach (fun x i => schedule (mk x i) (delayAt i)) l index c
  = set_animationTimeouts
      (animationTimeouts c ++ seq (nextTimer c) (length l))
      (set_nextTimer (nextTimer c + length l)
         (set_timers
            (timers c
               ++ timersOf mk (fun i => time_add (now c) (delayAt i))
                    (nextTimer c) index l)
            c)).
Proof.
  intros A mk delayAt l; induction l as [|x l IH]; intros index c.
  - apply component_ext; fields; try reflexivity;
      cbn [timersOf length seq]; rewrite ?app_nil_r, ?Nat.add_0_r;
      reflexivity.
  - cbn [forEach]; rewrite IH.
    apply component_ext; fields; try reflexivity;
      cbn [timersOf length seq]; rewrite <- ?app_assoc; try reflexivity.
    rewrite Nat.add_succ_r; reflexivity.
Qed.

(** The timers that [animateAlgorithm] sets, after those of the visited
    frames. *)
Lemma animateAlgorithm_timers : forall searched visited path c,
  exists rest,
    timers (animateAlgorithm searched visited path c)
    = timers c
      ++ timersOf (VisitedFrame searched visited)
           (fun i => time_add (now c) (time_mul (delayOf c) (count i)))
           (nextTimer c) 0 visited
      ++ rest /\
    dueAfter (time_add (now c)
                (time_mul (delayOf c) (count (length visited)))) rest /\
    (forall t, In t rest -> nextTimer c + length visited <= timer_id t) /\
    animationTimeouts (animateAlgorithm searched visited path c)
    = animationTimeouts c
      ++ seq (nextTimer c) (length visited)
      ++ map timer_id rest.
Proof.
  intros searched visited path c; unfold animateAlgorithm; cbv zeta.
  rewrite !forEach_schedule; fields.
  change (delayOf (set_animationData _ c)) with (delayOf c).
  set (D := delayOf c); set (n := length visited).
  eexists (mkTimer (nextTimer c + n) _ ClearFrontiers
             :: timersOf (fun x (_ : nat) => PathFrame searched x) _
                  (S (nextTimer c + n)) 0 path
             ++ [mkTimer (S (nextTimer c + n) + length path) _ Complete]).
  split; [rewrite <- !app_assoc; reflexivity|].
  split; [|split].
  - intros t [<-|Ht]; [apply time_leb_refl|].
    apply in_app_iff in Ht; destruct Ht as [Ht|[<-|[]]].
    + apply timersOf_In in Ht; destruct Ht as [j [_ [-> _]]].
      apply path_due_after.
    + apply complete_due_after.
  - intros t [<-|Ht]; [simpl; lia|].
    apply in_app_iff in Ht; destruct Ht as [Ht|[<-|[]]].
    + apply timersOf_In in Ht; destruct Ht as [j [_ [_ Hid]]]; lia.
    + simpl; lia.
  - cbn [map timer_id]; rewrite map_app, timersOf_ids.
    rewrite <- !app_assoc; reflexivity.
Qed.

(* ================================================================== *)
(** * The playback scheduler: frames *)
(* ================================================================== *)

(** ** Frames keep the shape of the grid *)

Lemma shape_setNode : forall g p f, shape (setNode g p f) = shape g.
Proof.
  intros g p f; unfold shape, setNode.
  apply map_upd_nth; intros row; apply length_upd_nth.
Qed.

Lemma shape_map : forall (f : Node -> Node) g, shape (map (map f) g) = shape g.
Proof.
  intros f g; unfold shape; rewrite map_map.
  apply map_ext; intros row; apply length_map.
Qed.

Lemma shape_nrows : forall g g', shape g = shape g' -> nrows g = nrows g'.
Proof.
  intros g g' H; unfold nrows.
  rewrite <- (length_map (@length Node) g), <- (length_map (@length Node) g').
  unfold shape in H; rewrite H; reflexivity.
Qed.

Lemma shape_row : forall g r, length (nth r g []) = nth r (shape g) 0.
Proof.
  intros g r; unfold shape.
  change 0 with (@length Node []); rewrite map_nth; reflexivity.
Qed.

Lemma shape_allCells : forall g g', shape g = shape g' -> allCells g = allCells g'.
Proof.
  intros g g' H; unfold allCells, ncols.
  rewrite (shape_nrows g g' H), !shape_row, H; reflexivity.
Qed.

Lemma shape_inStore : forall g g' p,
  shape g = shape g' -> inStore g p -> inStore g' p.
Proof.
  intros g g' p H [H1 H2]; unfold inStore.
  rewrite shape_row in *; rewrite <- H.
  split; [|assumption].
  rewrite <- (length_map (@length Node) g'); fold (shape g').
  rewrite <- H; unfold shape; rewrite length_map; assumption.
Qed.

(** ** What a frame does to the kinds *)

Lemma getNode_map : forall (f : Node -> Node) g p,
  f createNode = createNode -> getNode (map (map f) g) p = f (getNode g p).
Proof.
  intros f g [r c] Hf; unfold getNode; simpl.
  destruct (Nat.lt_ge_cases r (length g)) as [Hr|Hr].
  - rewrite (nth_indep _ [] (map f [])) by (rewrite length_map; assumption).
    rewrite map_nth.
    destruct (Nat.lt_ge_cases c (length (nth r g []))) as [Hc|Hc].
    + rewrite (nth_indep _ createNode (f createNode))
        by (rewrite length_map; assumption).
      apply map_nth.
    + rewrite !nth_overflow by (rewrite ?length_map; assumption).
      symmetry; assumption.
  - rewrite (nth_overflow (map _ g)) by (rewrite length_map; assumption).
    rewrite (nth_overflow g) by assumption.
    destruct c; symmetry; assumption.
Qed.

Lemma clearFrontiers_visited : forall g q,
  type (getNode (clearFrontiers g) q) = Visited
  <-> type (getNode g q) = Visited.
Proof.
  intros g q; unfold clearFrontiers; rewrite getNode_map by reflexivity.
  destruct (type (getNode g q)) eqn:E; simpl; rewrite ?E; split;
    intros H; try discriminate; try reflexivity.
Qed.

Lemma setType_same : forall g p t,
  inStore g p -> type (getNode (setType g p t) p) = t.
Proof.
  intros g p t H; unfold setType; rewrite getNode_setNode_same by assumption.
  reflexivity.
Qed.

Lemma setType_other : forall g p q t,
  q <> p -> getNode (setType g p t) q = getNode g q.
Proof. intros g p q t H; apply getNode_setNode_other; assumption. Qed.

(** The frontier preview writes [Frontier] only, and only on nodes that
    come later in the visit order. *)
Lemma showFrontier_visited : forall searched visited index g q,
  type (getNode (showFrontier searched visited index g) q) = Visited ->
  type (getNode g q) = Visited.
Proof.
  intros searched visited index g q; unfold showFrontier.
  apply fold_left_invariant with
    (I := fun g' => type (getNode g' q) = Visited ->
                    type (getNode g q) = Visited); [auto|].
  intros g' i _ IH H; apply IH; clear IH.
  destruct (nth_error visited (index + i)) as [nextNode|]; [|assumption].
  destruct (notStartOrEnd (type (getNode searched nextNode))
            && negb (CellType_eqb (type (getNode searched nextNode)) Visited));
    [|assumption].
  unfold setType in H.
  destruct (getNode_setNode_cases g' nextNode q (set_type Frontier))
    as [E|[_ [_ E]]]; rewrite E in H; [assumption|discriminate].
Qed.

Lemma showFrontier_other : forall searched visited index g q,
  (forall i, 1 <= i -> nth_error visited (index + i) <> Some q) ->
  getNode (showFrontier searched visited index g) q = getNode g q.
Proof.
  intros searched visited index g q Hq; unfold showFrontier.
  apply fold_left_invariant with
    (I := fun g' => getNode g' q = getNode g q); [reflexivity|].
  intros g' i Hi IH.
  apply in_seq in Hi.
  destruct (nth_error visited (index + i)) as [nextNode|] eqn:E;
    [|assumption].
  destruct (notStartOrEnd (type (getNode searched nextNode))
            && negb (CellType_eqb (type (getNode searched nextNode)) Visited));
    [|assumption].
  rewrite setType_other; [assumption|].
  intros ->; apply (Hq i); [lia|assumption].
Qed.

Lemma shape_showFrontier : forall searched visited index g,
  shape (showFrontier searched visited index g) = shape g.
Proof.
  intros searched visited index g; unfold showFrontier.
  apply fold_left_invariant with (I := fun g' => shape g' = shape g);
    [reflexivity|].
  intros g' i _ IH.
  destruct (nth_error visited (index + i)) as [nextNode|]; [|assumption].
  destruct (notStartOrEnd (type (getNode searched nextNode))
            && negb (CellType_eqb (type (getNode searched nextNode)) Visited));
    [|assumption].
  unfold setType; rewrite shape_setNode; assumption.
Qed.

Lemma shape_visitedFrame : forall searched visited node index g,
  shape (visitedFrame searched visited node index g) = shape g.
Proof.
  intros; unfold visitedFrame, clearFrontiers, setType.
  rewrite shape_showFrontier, shape_map, shape_setNode; reflexivity.
Qed.

Lemma shape_played : forall searched visited k g,
  shape (played searched visited k g) = shape g.
Proof.
  intros searched visited k g; induction k as [|k IH]; simpl; [reflexivity|].
  destruct (nth_error visited k) as [node|]; [|assumption].
  destruct (notStartOrEnd (type (getNode searched node))); [|assumption].
  rewrite shape_visitedFrame; assumption.
Qed.

(** ** The cells displayed as visited after [k] frames *)

Lemma In_firstn : forall (A : Type) k (l : list A) x,
  In x (firstn k l) <-> exists m, m < k /\ nth_error l m = Some x.
Proof.
  intros A k; induction k as [|k IH]; intros l x.
  - simpl; split; [contradiction|intros [m [H _]]; lia].
  - destruct l as [|a l]; simpl.
    + split; [contradiction|intros [[|m] [_ H]]; discriminate].
    + rewrite IH; split.
      * intros [->|[m [H1 H2]]]; [exists 0; split; [lia|reflexivity]|].
        exists (S m); split; [lia|assumption].
      * intros [[|m] [H1 H2]]; [left; injection H2; auto|].
        right; exists m; split; [lia|assumption].
Qed.

Lemma In_revealed : forall searched visited k q,
  In q (revealed searched visited k) <->
  exists m, m < k /\ nth_error visited m = Some q /\
            notStartOrEnd (type (getNode searched q)) = true.
Proof.
  intros searched visited k q; unfold revealed.
  rewrite filter_In, In_firstn; split.
  - intros [[m [H1 H2]] H3]; eauto.
  - intros [m [H1 [H2 H3]]]; eauto.
Qed.

Section Played.

Variable searched : Grid.
Variable visited : list Pos.
Variable g0 : Grid.
Hypothesis visited_NoDup : NoDup visited.
Hypothesis visited_inGrid : forallb (inGrid g0) visited = true.
Hypothesis g0_rect : rectangular g0 = true.
Hypothesis g0_clean : visitedCells g0 = [].

Lemma visited_inStore : forall k m q,
  nth_error visited m = Some q -> inStore (played searched visited k g0) q.
Proof.
  intros k m q H.
  apply (shape_inStore g0); [symmetry; apply shape_played|].
  apply inGrid_inStore; [assumption|].
  rewrite forallb_forall in visited_inGrid; apply visited_inGrid.
  eapply nth_error_In; eassumption.
Qed.

Lemma played_visited : forall k q,
  inGrid g0 q = true ->
  (type (getNode (played searched visited k g0) q) = Visited <->
   In q (revealed searched visited k)).
Proof.
  induction k as [|k IH]; intros q Hq.
  - cbn [played]; split.
    + intros H.
      assert (Hin : In q (visitedCells g0)).
      { unfold visitedCells; apply filter_In; split;
          [apply in_allCells; assumption|rewrite H; reflexivity]. }
      rewrite g0_clean in Hin; contradiction.
    + intros H; apply In_revealed in H; destruct H as [m [H _]]; lia.
  - specialize (IH q Hq).
    assert (Hstep : In q (revealed searched visited (S k)) <->
                    In q (revealed searched visited k) \/
                    (nth_error visited k = Some q /\
                     notStartOrEnd (type (getNode searched q)) = true)).
    { rewrite !In_revealed; split.
      - intros [m [H1 [H2 H3]]].
        destruct (Nat.eq_dec m k) as [->|Hne]; [right; auto|].
        left; exists m; repeat split; auto; lia.
      - intros [[m [H1 [H2 H3]]]|[H2 H3]].
        + exists m; repeat split; auto.
        + exists k; repeat split; auto. }
    rewrite Hstep; clear Hstep.
    cbn [played].
    destruct (nth_error visited k) as [node|] eqn:En;
      [|rewrite IH; split; [auto|intros [H|[H _]]; [assumption|discriminate]]].
    destruct (notStartOrEnd (type (getNode searched node))) eqn:Eg.
    + assert (Hst := visited_inStore k k node En).
      set (g := played searched visited k g0) in *.
      unfold visitedFrame; split.
      * intros H; apply showFrontier_visited in H.
        apply (proj1 (clearFrontiers_visited _ _)) in H.
        destruct (pos_eq_dec q node) as [->|Hne]; [right; auto|].
        rewrite setType_other in H by assumption.
        left; apply IH; assumption.
      * intros H.
        rewrite showFrontier_other.
        -- apply clearFrontiers_visited.
           destruct H as [H|[H _]].
           ++ destruct (pos_eq_dec q node) as [->|Hne];
                [apply setType_same; assumption|].
              rewrite setType_other by assumption; apply IH; assumption.
           ++ injection H as <-; apply setType_same; assumption.
        -- intros i Hi Hnth.
           assert (Hm : exists m, m <= k /\ nth_error visited m = Some q).
           { destruct H as [H|[H _]];
               [|exists k; split; [lia|congruence]].
             apply In_revealed in H; destruct H as [m [H1 [H2 _]]].
             exists m; split; [lia|assumption]. }
           destruct Hm as [m [Hm1 Hm2]].
           assert (Hlt : m < length visited)
             by (apply nth_error_Some; rewrite Hm2; discriminate).
           assert (E := proj1 (NoDup_nth_error visited) visited_NoDup m
                          (k + i) Hlt ltac:(congruence)).
           lia.
    + rewrite IH; split; [auto|].
      intros [H|[H1 H2]]; [assumption|].
      injection H1 as <-; congruence.
Qed.

Lemma played_visitedCells : forall k,
  Permutation (visitedCells (played searched visited k g0))
              (revealed searched visited k).
Proof.
  intros k; apply NoDup_Permutation.
  - unfold visitedCells; apply NoDup_filter, NoDup_allCells.
  - unfold revealed; apply NoDup_filter.
    rewrite <- (firstn_skipn k visited) in visited_NoDup.
    apply NoDup_app_remove_r in visited_NoDup; assumption.
  - intros q; unfold visitedCells.
    rewrite filter_In, (shape_allCells _ g0) by apply shape_played.
    rewrite in_allCells; split.
    + intros [Hq H]; apply played_visited; [assumption|].
      destruct (type (getNode (played searched visited k g0) q));
        try discriminate; reflexivity.
    + intros H.
      assert (Hq : inGrid g0 q = true).
      { apply In_revealed in H; destruct H as [m [_ [H _]]].
        rewrite forallb_forall in visited_inGrid; apply visited_inGrid.
        eapply nth_error_In; eassumption. }
      split; [assumption|].
      apply (played_visited k q Hq) in H; rewrite H; reflexivity.
Qed.

End Played.

(* ================================================================== *)
(** * The playback scheduler: a run of visited frames *)
(* ================================================================== *)

Lemma skipn_nth_error : forall (A : Type) k (l : list A) x,
  nth_error l k = Some x -> skipn k l = x :: skipn (S k) l.
Proof.
  intros A k; induction k as [|k IH]; intros [|a l] x H; simpl in H;
    try discriminate.
  - injection H as ->; reflexivity.
  - change (skipn (S k) (a :: l)) with (skipn k l).
    rewrite (IH l x H); reflexivity.
Qed.

Lemma tracked_intro : forall c,
  (forall t, In t (timers c) -> In (timer_id t) (animationTimeouts c)) ->
  tracked c = true.
Proof.
  intros c H; unfold tracked; apply forallb_forall; intros t Ht.
  apply existsb_exists; exists (timer_id t); split;
    [apply H; assumption|apply Nat.eqb_refl].
Qed.

Section Playback.

Variable fuel : nat.
Variable searched : Grid.
Variables visited path : list Pos.
Variable c : GridComponent.
Hypothesis c_quiet : timers c = [].

(** The component while the visited frames run: [k] of them have run on
    [ck]. *)
Lemma playback_from : forall rest,
  timers (animateAlgorithm searched visited path c)
  = timersOf (VisitedFrame searched visited)
      (fun i => time_add (now c) (time_mul (delayOf c) (count i)))
      (nextTimer c) 0 visited
    ++ rest ->
  dueAfter (time_add (now c)
              (time_mul (delayOf c) (count (length visited)))) rest ->
  (forall t, In t rest -> nextTimer c + length visited <= timer_id t) ->
  forall k,
    k <= length visited ->
    exists ck,
      fires fuel k (animateAlgorithm searched visited path c) = Some ck /\
      grid ck = played searched visited k (grid c) /\
      timers ck
      = timersOf (VisitedFrame searched visited)
          (fun i => time_add (now c) (time_mul (delayOf c) (count i)))
          (nextTimer c + k) k (skipn k visited)
        ++ rest /\
      animationTimeouts ck
      = animationTimeouts (animateAlgorithm searched visited path c).
Proof.
  intros rest HT Hdue Hid; induction k as [|k IH]; intros Hk.
  - exists (animateAlgorithm searched visited path c).
    split; [reflexivity|].
    split; [unfold animateAlgorithm; cbv zeta; rewrite !forEach_schedule;
            reflexivity|].
    rewrite Nat.add_0_r; auto.
  - destruct (IH ltac:(lia)) as [ck [Hf [Hg [Ht Ha]]]].
    rewrite fires_S, Hf.
    destruct (nth_error visited k) as [node|] eqn:En;
      [|apply nth_error_None in En; lia].
    rewrite (skipn_nth_error _ k visited node En) in Ht; cbn [timersOf app] in Ht.
    rewrite (fire_head fuel ck _ _ Ht).
    + cbn [callback runCallback fireAt]; cbv zeta.
      cbn [played]; rewrite En, <- Hg, <- Nat.add_succ_r.
      destruct (notStartOrEnd (type (getNode searched node)));
        eexists; (split; [reflexivity|]); fields; auto.
    + cbn [fireAt]; intros t Hin; apply in_app_iff in Hin.
      destruct Hin as [Hin|Hin].
      * apply timersOf_In_strict in Hin; destruct Hin as [j [Hj [-> _]]].
        apply visited_due_mono; assumption.
      * eapply time_leb_trans; [|apply Hdue; assumption].
        apply visited_due_mono; lia.
    + cbn [timer_id]; intros t Hin; apply in_app_iff in Hin.
      destruct Hin as [Hin|Hin].
      * apply timersOf_In_strict in Hin; destruct Hin as [j [_ [_ Hne]]].
        assumption.
      * apply Hid in Hin; lia.
Qed.

(** After [k] visited frames every pending timeout is on
    [animationTimeouts], the grid is the one the frames have drawn, and
    the flags are those [animateAlgorithm] has left. *)
Lemma playback : forall k,
  k <= length visited ->
  exists ck,
    fires fuel k (animateAlgorithm searched visited path c) = Some ck /\
    grid ck = played searched visited k (grid c) /\
    tracked ck = true.
Proof.
  intros k Hk.
  destruct (animateAlgorithm_timers searched visited path c)
    as [rest [HT [Hdue [Hid HA]]]].
  rewrite c_quiet in HT; cbn [app] in HT.
  destruct (playback_from rest HT Hdue Hid k Hk) as [ck [Hf [Hg [Ht Ha]]]].
  exists ck; split; [assumption|split; [assumption|]].
  apply tracked_intro; intros t Hin.
  rewrite Ha, HA, Ht in *; apply in_app_iff; right.
  apply in_app_iff in Hin; apply in_app_iff; destruct Hin as [Hin|Hin].
  - left; apply (in_map timer_id) in Hin; rewrite timersOf_ids in Hin.
    apply in_seq in Hin; apply in_seq.
    rewrite length_skipn in Hin; lia.
  - right; apply in_map; assumption.
Qed.

End Playback.

(** ** Stopping *)

Lemma stopVisualization_fields : forall c,
  grid (stopVisualization c) = grid c /\
  animationTimeouts (stopVisualization c) = [] /\
  animationData (stopVisualization c) = None /\
  currentAnimationIndex (stopVisualization c) = 0 /\
  phase (stopVisualization c) = Finished.
Proof.
  intros c; unfold stopVisualization, phase; rewrite clearAnimations_eq.
  repeat split.
Qed.

Lemma stopVisualization_timers : forall c,
  tracked c = true -> timers (stopVisualization c) = [].
Proof.
  intros c H; unfold stopVisualization; fields.
  apply tracked_cleared; assumption.
Qed.

(* ================================================================== *)
(** * The component searches fresh grids only *)
(* ================================================================== *)

(** The searches are proved correct from a fresh scratch state.  The
    component provides it: the displayed grid keeps the scratch fields of
    [createNode] or of the reset in [visualizeAlgorithm], since frames and
    handlers write kinds only, and the nodes a search has written to are
    never displayed. *)

Lemma shape_rectangular : forall g g',
  shape g = shape g' -> rectangular g = rectangular g'.
Proof.
  intros g g' H.
  assert (E : forall k h, forallb (fun row : list Node => length row =? k) h
                          = forallb (fun n => n =? k) (shape h)).
  { intros k h; induction h as [|row h IH]; simpl; [reflexivity|].
    rewrite IH; reflexivity. }
  unfold rectangular, ncols; rewrite !shape_row.
  rewrite !E, H; reflexivity.
Qed.

Lemma fresh_map : forall (f : Node -> Node) g,
  (forall n, fresh_node (f n) = fresh_node n) ->
  fresh (map (map f) g) = fresh g.
Proof.
  intros f g H; unfold fresh.
  induction g as [|row g IH]; simpl; [reflexivity|].
  rewrite IH; f_equal.
  induction row as [|n row IHr]; simpl; [reflexivity|].
  rewrite H, IHr; reflexivity.
Qed.

Lemma forallb_upd_nth : forall (A : Type) (P : A -> bool) n f l,
  (forall x, P x = true -> P (f x) = true) ->
  forallb P l = true -> forallb P (upd_nth n f l) = true.
Proof.
  intros A P n f l H; revert n; induction l as [|x l IH]; intros [|n] Hl;
    simpl in *; auto; apply andb_true_iff in Hl; destruct Hl as [H1 H2];
    apply andb_true_iff; auto.
Qed.

Lemma fresh_setNode : forall g p f,
  (forall n, fresh_node (f n) = fresh_node n) ->
  fresh g = true -> fresh (setNode g p f) = true.
Proof.
  intros g p f H Hg; unfold fresh, setNode.
  apply forallb_upd_nth; [|assumption].
  intros row Hrow; apply forallb_upd_nth; [|assumption].
  intros n Hn; rewrite H; assumption.
Qed.

Lemma searchable_setType : forall g p t,
  searchable g = true -> searchable (setType g p t) = true.
Proof.
  intros g p t H; unfold searchable in *; apply andb_true_iff in H.
  destruct H as [H1 H2]; apply andb_true_iff; split.
  - rewrite (shape_rectangular _ g); [assumption|apply shape_setNode].
  - apply fresh_setNode; [reflexivity|assumption].
Qed.

Lemma searchable_map : forall (f : Node -> Node) g,
  (forall n, fresh_node (f n) = fresh_node n) ->
  searchable g = true -> searchable (map (map f) g) = true.
Proof.
  intros f g Hf H; unfold searchable in *.
  rewrite (shape_rectangular _ g) by apply shape_map.
  rewrite fresh_map by assumption; assumption.
Qed.

Lemma searchable_clearFrontiers : forall g,
  searchable g = true -> searchable (clearFrontiers g) = true.
Proof.
  intros g; apply searchable_map; intros n.
  destruct (CellType_eqb (type n) Frontier); reflexivity.
Qed.

Lemma searchable_clearWalls : forall g,
  searchable g = true -> searchable (clearWalls g) = true.
Proof.
  intros g; apply searchable_map; intros n.
  destruct (CellType_eqb (type n) Wall); reflexivity.
Qed.

Lemma searchable_resetForRun : forall g,
  rectangular g = true -> searchable (resetForRun g) = true.
Proof.
  intros g H; unfold searchable, resetForRun.
  rewrite (shape_rectangular _ g) by apply shape_map.
  rewrite H; simpl; unfold fresh.
  apply forallb_forall; intros row Hrow.
  apply in_map_iff in Hrow; destruct Hrow as [row0 [<- _]].
  apply forallb_forall; intros n Hn.
  apply in_map_iff in Hn; destruct Hn as [n0 [<- _]]; reflexivity.
Qed.

Lemma searchable_createGrid : forall rows cols,
  searchable (createGrid rows cols) = true.
Proof.
  intros rows cols; unfold searchable, createGrid; apply andb_true_iff; split.
  - destruct rows as [|rows]; [reflexivity|].
    unfold rectangular, ncols; apply forallb_forall; intros row Hrow.
    apply repeat_spec in Hrow; subst row; simpl; apply Nat.eqb_refl.
  - unfold fresh; apply forallb_forall; intros row Hrow.
    apply repeat_spec in Hrow; subst row.
    apply forallb_forall; intros n Hn; apply repeat_spec in Hn; subst n.
    reflexivity.
Qed.

Lemma searchable_resetGrid : forall rows cols,
  searchable (resetGrid rows cols) = true.
Proof.
  intros rows cols; unfold resetGrid, placeStartAndEnd.
  apply searchable_setType, searchable_setType, searchable_createGrid.
Qed.

Lemma searchable_showFrontier : forall searched visited index g,
  searchable g = true ->
  searchable (showFrontier searched visited index g) = true.
Proof.
  intros searched visited index g H; unfold showFrontier.
  apply fold_left_invariant with (I := fun g' => searchable g' = true);
    [assumption|].
  intros g' i _ IH.
  destruct (nth_error visited (index + i)) as [nextNode|]; [|assumption].
  destruct (notStartOrEnd (type (getNode searched nextNode))
            && negb (CellType_eqb (type (getNode searched nextNode)) Visited));
    [apply searchable_setType|]; assumption.
Qed.

Lemma searchable_showFrontier_resumed : forall visited i g,
  searchable g = true ->
  searchable (showFrontier_resumed visited i g) = true.
Proof.
  intros visited i g H; unfold showFrontier_resumed.
  apply fold_left_invariant with (I := fun g' => searchable g' = true);
    [assumption|].
  intros g' j _ IH.
  destruct (nth_error visited (i + j)) as [nextNode|]; [|assumption].
  destruct (notStartOrEnd (type (getNode g' nextNode))
            && negb (CellType_eqb (type (getNode g' nextNode)) Visited));
    [apply searchable_setType|]; assumption.
Qed.

(** ** The timers of the handlers run no search *)

Lemma wellKept_schedule : forall cb d c,
  searchesFresh cb -> wellKept c -> wellKept (schedule cb d c).
Proof.
  intros cb d c Hcb [H1 H2]; split; [exact H1|].
  intros t Ht; unfold schedule, setTimeout in Ht; fields; cbn [timers] in Ht.
  apply in_app_iff in Ht; destruct Ht as [Ht|[<-|[]]]; [apply H2|];
    assumption.
Qed.

Lemma wellKept_forEach : forall (A : Type) f (l : list A) index c,
  (forall x i c', wellKept c' -> wellKept (f x i c')) ->
  wellKept c -> wellKept (forEach f l index c).
Proof.
  intros A f l; induction l as [|x l IH]; intros index c Hf H; simpl;
    [assumption|].
  apply IH; [assumption|apply Hf; assumption].
Qed.

Lemma wellKept_flags : forall c c',
  grid c' = grid c -> timers c' = timers c -> wellKept c -> wellKept c'.
Proof. intros c c' Hg Ht [H1 H2]; split; rewrite ?Hg, ?Ht; assumption. Qed.

Lemma wellKept_setGrid : forall g c,
  searchable g = true -> wellKept c -> wellKept (setGrid g c).
Proof. intros g c Hg [_ H2]; split; assumption. Qed.

Lemma wellKept_clearAnimations : forall c,
  wellKept c -> wellKept (clearAnimations c).
Proof.
  intros c [H1 H2]; rewrite clearAnimations_eq; split; [exact H1|].
  fields; intros t Ht; apply filter_In in Ht; apply H2; tauto.
Qed.

Lemma wellKept_animateAlgorithm : forall searched visited path c,
  wellKept c -> wellKept (animateAlgorithm searched visited path c).
Proof.
  intros searched visited path c H; unfold animateAlgorithm; cbv zeta.
  apply wellKept_schedule; [discriminate|].
  apply wellKept_forEach;
    [intros; apply wellKept_schedule; [discriminate|assumption]|].
  apply wellKept_schedule; [discriminate|].
  apply wellKept_forEach;
    [intros; apply wellKept_schedule; [discriminate|assumption]|].
  eapply wellKept_flags; [| |exact H]; reflexivity.
Qed.

Lemma wellKept_resumeVisualization : forall c,
  wellKept c -> wellKept (resumeVisualization c).
Proof.
  intros c H; unfold resumeVisualization.
  destruct (animationData c) as [data|]; [|assumption].
  destruct (isPaused c); [|assumption]; cbv zeta; cbn [negb].
  apply wellKept_schedule; [discriminate|].
  apply wellKept_forEach;
    [intros; apply wellKept_schedule; [discriminate|assumption]|].
  apply wellKept_schedule; [discriminate|].
  apply fold_left_invariant with (I := wellKept).
  - eapply wellKept_flags; [| |exact H]; reflexivity.
  - intros c' i _ Hc'.
    destruct (nth_error (visitedNodes data) i); [|assumption].
    apply wellKept_schedule; [discriminate|assumption].
Qed.

Lemma wellKept_mount : forall p, wellKept (mount p).
Proof.
  intros p; split; [apply searchable_resetGrid|intros t []].
Qed.

(** Every operation keeps the component well kept: the grid that the next
    search receives is fresh. *)
Lemma wellKept_handle : forall fuel ev c c',
  wellKept c -> handle fuel ev c = Some c' -> wellKept c'.
Proof.
  intros fuel ev c c' H E; destruct ev; simpl in E.
  - injection E as <-; unfold visualizeAlgorithm.
    destruct (isVisualizing c || animationCompleted c); [assumption|].
    cbv zeta.
    assert (Hc := wellKept_clearAnimations c H).
    destruct Hc as [Hg Ht]; split.
    + fields; apply searchable_resetForRun.
      unfold searchable in Hg; apply andb_true_iff in Hg; tauto.
    + fields; intros t Hin; apply in_app_iff in Hin.
      destruct Hin as [Hin|[<-|[]]]; [apply Ht; assumption|].
      intros g s e Heq; injection Heq as <- _ _; apply H.
  - injection E as <-; unfold onPauseTrigger.
    destruct (isPaused c); [apply wellKept_resumeVisualization; assumption|].
    unfold pauseVisualization.
    destruct (negb (canPause c) || negb (isVisualizing c)); [assumption|].
    apply wellKept_clearAnimations.
    eapply wellKept_flags; [| |exact H]; reflexivity.
  - injection E as <-; unfold stopVisualization.
    eapply wellKept_flags;
      [| |exact (wellKept_clearAnimations c H)]; reflexivity.
  - injection E as <-; unfold handleClearWalls; cbv zeta.
    destruct (wellKept_clearAnimations c H) as [Hg Ht]; split.
    + fields; apply searchable_clearWalls; assumption.
    + fields; assumption.
  - injection E as <-; unfold handleReset; cbv zeta.
    destruct (wellKept_clearAnimations c H) as [Hg Ht]; split.
    + fields; apply searchable_resetGrid.
    + fields; assumption.
  - unfold fire in E.
    destruct (timers c) as [|t0 rest] eqn:Et; [injection E as <-; assumption|].
    set (t := earliest t0 rest) in *.
    assert (Hd : wellKept (dequeue t c)).
    { destruct H as [H1 H2]; split; [exact H1|].
      unfold dequeue, clearTimeout; fields.
      intros u Hu; apply filter_In in Hu; apply H2; tauto. }
    assert (Hg : searchable (grid (dequeue t c)) = true) by apply Hd.
    destruct (callback t) as [g s e|searched visited node index|
                              |searched node| |visited node i|node|];
      cbn [runCallback] in E; cbv zeta in E.
    + destruct (getAlgorithmFunction (selectedAlgorithm (props (dequeue t c)))
                  fuel g s e) as [[result searched']|]; [|discriminate].
      injection E as <-; apply wellKept_animateAlgorithm; assumption.
    + destruct (notStartOrEnd (type (getNode searched node)));
        injection E as <-.
      * apply wellKept_setGrid.
        -- unfold visitedFrame; fields.
           apply searchable_showFrontier, searchable_clearFrontiers,
             searchable_setType; assumption.
        -- eapply wellKept_flags; [| |exact Hd]; reflexivity.
      * eapply wellKept_flags; [| |exact Hd]; reflexivity.
    + injection E as <-; apply wellKept_setGrid; [|assumption].
      apply searchable_clearFrontiers; assumption.
    + destruct (notStartOrEnd (type (getNode searched node)));
        injection E as <-; [|assumption].
      apply wellKept_setGrid; [|assumption].
      apply searchable_setType; assumption.
    + injection E as <-; eapply wellKept_flags; [| |exact Hd]; reflexivity.
    + injection E as <-; apply wellKept_setGrid.
      * unfold visitedFrame_resumed; fields.
        apply searchable_showFrontier_resumed, searchable_clearFrontiers.
        match goal with
        | |- context [if ?b then _ else _] => destruct b
        end; [apply searchable_setType|]; assumption.
      * eapply wellKept_flags; [| |exact Hd]; reflexivity.
    + injection E as <-; apply wellKept_setGrid; [|assumption].
      match goal with
      | |- context [if ?b then _ else _] => destruct b
      end; [apply searchable_setType|]; assumption.
    + injection E as <-; eapply wellKept_flags; [| |exact Hd]; reflexivity.
Qed.

(** Whatever the user and the browser do after the component is mounted,
    a search that runs receives a rectangular grid with a fresh scratch
    state. *)
Lemma searches_get_fresh_grids : forall fuel events p c,
  session fuel events (mount p) = Some c -> wellKept c.
Proof.
  intros fuel events p.
  assert (H : forall c0 c, wellKept c0 ->
                session fuel events c0 = Some c -> wellKept c).
  { induction events as [|ev rest IH]; intros c0 c H0 E; simpl in E.
    - injection E as <-; assumption.
    - destruct (handle fuel ev c0) as [c1|] eqn:E1; [|discriminate].
      apply (IH c1 c); [|assumption].
      eapply wellKept_handle; eassumption. }
  intros c; apply H, wellKept_mount.
Qed.

(* ================================================================== *)
(** * The grid helpers *)
(* ================================================================== *)

Lemma upd_nth_same : forall (A : Type) n (f : A -> A) l d,
  f (nth n l d) = nth n l d -> upd_nth n f l = l.
Proof.
  intros A n f l d; revert n; induction l as [|x l IH]; intros [|n] H;
    simpl in *; try reflexivity.
  - rewrite H; reflexivity.
  - rewrite IH by assumption; reflexivity.
Qed.

(** Writing to a cell what it holds changes nothing. *)
Lemma setNode_same : forall g p f,
  inStore g p -> f (getNode g p) = getNode g p -> setNode g p f = g.
Proof.
  intros g [r c] f [Hr Hc] H; unfold setNode, getNode in *; simpl in *.
  apply upd_nth_same with (d := []).
  apply upd_nth_same with (d := createNode); assumption.
Qed.

Lemma inStore_setNode : forall g p f q,
  inStore (setNode g p f) q <-> inStore g q.
Proof.
  intros g p f q; split; apply shape_inStore;
    [|symmetry]; apply shape_setNode.
Qed.

Lemma getNode_createGrid : forall rows cols p,
  getNode (createGrid rows cols) p = createNode.
Proof.
  intros rows cols [r c]; unfold getNode, createGrid; simpl.
  destruct (Nat.lt_ge_cases r rows) as [Hr|Hr].
  - rewrite (nth_indep _ [] (repeat createNode cols))
      by (rewrite repeat_length; assumption).
    rewrite nth_repeat; apply nth_repeat.
  - rewrite (nth_overflow (repeat _ rows)) by (rewrite repeat_length; assumption).
    destruct c; reflexivity.
Qed.

Lemma shape_createGrid : forall rows cols,
  shape (createGrid rows cols) = repeat cols rows.
Proof.
  intros rows cols; unfold shape, createGrid.
  induction rows as [|rows IH]; simpl; [reflexivity|].
  rewrite IH, repeat_length; reflexivity.
Qed.

Lemma shape_resetGrid : forall rows cols,
  shape (resetGrid rows cols) = repeat cols rows.
Proof.
  intros rows cols; unfold resetGrid, placeStartAndEnd, setType.
  rewrite !shape_setNode; apply shape_createGrid.
Qed.

Lemma shape_dims : forall g rows cols,
  shape g = repeat cols rows -> 1 <= rows ->
  nrows g = rows /\ ncols g = cols /\
  forall p, inStore g p <-> (fst p < rows /\ snd p < cols).
Proof.
  intros g rows cols H Hrows.
  assert (Hn : nrows g = rows).
  { unfold nrows; rewrite <- (length_map (@length Node) g).
    fold (shape g); rewrite H; apply repeat_length. }
  split; [assumption|split].
  - unfold ncols; rewrite shape_row, H.
    destruct rows; [lia|reflexivity].
  - intros [r c]; unfold inStore; simpl.
    rewrite shape_row, H; fold (nrows g); rewrite Hn.
    split; intros [H1 H2]; (split; [assumption|]).
    + rewrite (nth_indep _ 0 cols) in H2 by (rewrite repeat_length; assumption).
      rewrite nth_repeat in H2; assumption.
    + rewrite (nth_indep _ 0 cols) by (rewrite repeat_length; assumption).
      rewrite nth_repeat; assumption.
Qed.

(** The default positions of [resetGrid]. *)
Lemma default_positions : forall rows cols,
  1 <= rows -> 1 <= cols ->
  rows / 2 < rows /\ cols / 4 < cols /\ (cols * 3) / 4 < cols /\
  (2 <= cols -> cols / 4 < (cols * 3) / 4) /\
  (cols = 1 -> cols / 4 = (cols * 3) / 4).
Proof.
  intros rows cols Hr Hc.
  split; [apply Nat.Div0.div_lt_upper_bound; lia|].
  split; [apply Nat.Div0.div_lt_upper_bound; lia|].
  split; [apply Nat.Div0.div_lt_upper_bound; lia|].
  split; [|intros ->; reflexivity].
  intros H2.
  assert (H := Nat.div_mod_eq cols 4).
  assert (Hm := Nat.mod_upper_bound cols 4 ltac:(lia)).
  apply Nat.lt_le_trans with (m := S (cols / 4)); [lia|].
  apply Nat.div_le_lower_bound; lia.
Qed.

(** The cells of [resetGrid]. *)
Lemma getNode_resetGrid : forall rows cols,
  1 <= rows -> 1 <= cols ->
  forall p,
    getNode (resetGrid rows cols) p
    = set_type (if pos_eqb p (rows / 2, (cols * 3) / 4) then EndCell
                else if pos_eqb p (rows / 2, cols / 4) then Start
                else Empty) createNode.
Proof.
  intros rows cols Hr Hc.
  destruct (default_positions rows cols Hr Hc) as [P1 [P2 [P3 [P4 P5]]]].
  destruct (shape_dims (createGrid rows cols) rows cols
              (shape_createGrid rows cols) Hr) as [_ [_ D4]].
  intros p; unfold resetGrid, placeStartAndEnd, setType.
  destruct (pos_eqb p (rows / 2, (cols * 3) / 4)) eqn:Ee.
  - apply pos_eqb_eq in Ee; subst p.
    rewrite getNode_setNode_same
      by (apply (proj2 (inStore_setNode _ _ _ _)), (proj2 (D4 _));
          cbn [fst snd]; lia).
    destruct (pos_eq_dec (rows / 2, (cols * 3) / 4) (rows / 2, cols / 4))
      as [E|Hne].
    + rewrite E, getNode_setNode_same
        by (apply (proj2 (D4 _)); cbn [fst snd]; lia).
      rewrite getNode_createGrid; reflexivity.
    + rewrite getNode_setNode_other by assumption.
      rewrite getNode_createGrid; reflexivity.
  - apply pos_eqb_neq in Ee.
    rewrite getNode_setNode_other by assumption.
    destruct (pos_eqb p (rows / 2, cols / 4)) eqn:Es.
    + apply pos_eqb_eq in Es; subst p.
      rewrite getNode_setNode_same
        by (apply (proj2 (D4 _)); cbn [fst snd]; lia).
      rewrite getNode_createGrid; reflexivity.
    + apply pos_eqb_neq in Es.
      rewrite getNode_setNode_other by assumption.
      rewrite getNode_createGrid; reflexivity.
Qed.

(** ** [clearWalls] and [clearPath] *)

Lemma map_map_idem : forall (f : Node -> Node) g,
  (forall n, f (f n) = f n) -> map (map f) (map (map f) g) = map (map f) g.
Proof.
  intros f g H; rewrite map_map; apply map_ext; intros row.
  rewrite map_map; apply map_ext; assumption.
Qed.

Lemma getNode_clearWalls : forall g p,
  getNode (clearWalls g) p
  = if CellType_eqb (type (getNode g p)) Wall
    then set_type Empty (getNode g p) else getNode g p.
Proof. intros g p; unfold clearWalls; apply getNode_map; reflexivity. Qed.

Lemma getNode_clearPath : forall g p,
  getNode (clearPath g) p
  = mkNode (match type (getNode g p) with
            | Visited | Path | Frontier => Empty
            | t => t
            end) false Infinity (Fin 0) None.
Proof.
  intros g p; unfold clearPath.
  apply (getNode_map
           (fun node => mkNode (match type node with
                                | Visited | Path | Frontier => Empty
                                | t => t
                                end) false Infinity (Fin 0) None)).
  reflexivity.
Qed.

Lemma fresh_clearPath : forall g, fresh (clearPath g) = true.
Proof.
  intros g; unfold fresh, clearPath.
  apply forallb_forall; intros row Hrow.
  apply in_map_iff in Hrow; destruct Hrow as [row0 [<- _]].
  apply forallb_forall; intros n Hn.
  apply in_map_iff in Hn; destruct Hn as [n0 [<- _]]; reflexivity.
Qed.

(* ================================================================== *)
(** * More on the helpers of [pathfinding.ts] *)
(* ================================================================== *)

Lemma NoDup_getNeighbors : forall g p, NoDup (getNeighbors p g).
Proof.
  intros g [r c]; unfold getNeighbors.
  destruct (Nat.ltb_spec 0 r); destruct (Nat.ltb_spec c (ncols g - 1));
    destruct (Nat.ltb_spec r (nrows g - 1)); destruct (Nat.ltb_spec 0 c);
    simpl; repeat constructor; simpl;
    intros F; repeat (destruct F as [F|F]; [injection F; lia|]);
    exact F.
Qed.

Lemma manhattanDistance_manhattan : forall a b,
  manhattanDistance a b = Fin (manhattan b a).
Proof. reflexivity. Qed.

Lemma manhattan_zero : forall a b, manhattan a b = 0%Z <-> a = b.
Proof.
  intros [r c] [r' c']; unfold manhattan; simpl; split.
  - intros H; f_equal; lia.
  - intros E; injection E as -> ->; lia.
Qed.

Lemma manhattan_step4 : forall a b, step4 a b = true -> manhattan a b = 1%Z.
Proof.
  intros [r c] [r' c'] H; unfold step4, manhattan in *; simpl in *.
  rewrite orb_true_iff, !andb_true_iff, !orb_true_iff, !Nat.eqb_eq in H.
  lia.
Qed.

(** ** Predecessor chains *)

Lemma ancestor_add : forall g n k p,
  ancestor g (n + k) p
  = match ancestor g n p with
    | Some q => ancestor g k q
    | None => None
    end.
Proof.
  intros g n; induction n as [|n IH]; intros k p; simpl; [reflexivity|].
  destruct (previousNode (getNode g p)); [apply IH|reflexivity].
Qed.

Lemma ancestor_cycle : forall g k e,
  0 < k -> ancestor g k e = Some e -> forall n, ancestor g n e <> None.
Proof.
  intros g k e Hk Hc n; induction n as [n IH] using lt_wf_ind.
  destruct (Nat.lt_ge_cases n k) as [Hlt|Hge].
  - intros Hn.
    replace k with (n + (k - n)) in Hc by lia.
    rewrite ancestor_add, Hn in Hc; discriminate.
  - replace n with (k + (n - k)) by lia.
    rewrite ancestor_add, Hc; apply IH; lia.
Qed.

Lemma reconstructPath_loop_endless : forall g fuel c acc,
  (forall n, ancestor g n c <> None) ->
  reconstructPath_loop fuel g (Some c) acc = None.
Proof.
  intros g fuel; induction fuel as [|fuel IH]; intros c acc H;
    [reflexivity|]; simpl.
  destruct (previousNode (getNode g c)) as [q|] eqn:E.
  - apply IH; intros n; assert (Hn := H (S n)); simpl in Hn.
    rewrite E in Hn; assumption.
  - exfalso; apply (H 1); simpl; rewrite E; reflexivity.
Qed.

(** What [reconstructPath] returns is the chain of its argument. *)
Lemma reconstructPath_loop_chain : forall fuel g c acc p,
  reconstructPath_loop fuel g (Some c) acc = Some p ->
  exists l, chain g c l /\ p = l ++ acc /\ length l <= fuel.
Proof.
  intros fuel; induction fuel as [|fuel IH]; intros g c acc p H;
    [discriminate|]; simpl in H.
  destruct (previousNode (getNode g c)) as [q|] eqn:E.
  - apply IH in H; destruct H as [l [Hl [-> Hlen]]].
    exists (l ++ [c]); split; [apply chain_link with q; assumption|].
    split; [rewrite <- app_assoc; reflexivity|].
    rewrite length_app; simpl; lia.
  - exists [c]; split; [apply chain_root; assumption|].
    destruct fuel; simpl in H; injection H as <-; simpl; split;
      [reflexivity|lia|reflexivity|lia].
Qed.

Lemma chain_ends : forall g p l,
  chain g p l ->
  last l p = p /\
  exists r t, l = r :: t /\ previousNode (getNode g r) = None.
Proof.
  intros g p l H; induction H as [p Hp|p q l Hp H [_ [r [t [-> Hr]]]]].
  - split; [reflexivity|]; exists p, []; auto.
  - split; [apply last_last|].
    exists r, (t ++ [p]); auto.
Qed.

(* ================================================================== *)
(** * The searches at the edges: a walled start, a start that is the
      target *)
(* ================================================================== *)

Lemma is_wall_setNode : forall g p q f,
  (forall n, type (f n) = type n) ->
  is_wall (getNode (setNode g p f) q) = is_wall (getNode g q).
Proof.
  intros g p q f H; unfold is_wall.
  rewrite (field_setNode _ type) by assumption; reflexivity.
Qed.

(** ** The start is a wall *)

Lemma scan_walled : forall nbr order e g s fuel,
  is_wall (getNode g s) = true -> 2 <= fuel ->
  loop (scan_step nbr order e) fuel (g, [s], [])
  = Some (mkOutcome g [] false).
Proof.
  intros nbr order e g s fuel H Hf.
  destruct fuel as [|[|fuel]]; try lia.
  cbn [loop scan_step]; rewrite H; reflexivity.
Qed.

Lemma best_walled : forall cmp nbr e g s fuel,
  is_wall (getNode g s) = true -> 2 <= fuel ->
  loop (best_step cmp nbr e) fuel (g, [s], [])
  = Some (mkOutcome g [] false).
Proof.
  intros cmp nbr e g s fuel H Hf.
  destruct fuel as [|[|fuel]]; try lia.
  cbn [loop best_step sort sort_insert]; rewrite H; reflexivity.
Qed.

(** The five loops, from a walled start. *)
Lemma loops_walled : forall L,
  In L [bfs_loop; dfs_loop; ucs_loop; astar_loop; greedy_loop] ->
  forall g s e fuel,
    is_wall (getNode g s) = true -> 2 <= fuel ->
    exists g',
      L fuel g s e = Some (mkOutcome g' [] false) /\
      forall p, previousNode (getNode g' p) = previousNode (getNode g p).
Proof.
  intros L HL g s e fuel Hw Hf; simpl in HL.
  destruct HL as [<-|[<-|[<-|[<-|[<-|[]]]]]].
  - unfold bfs_loop; rewrite bfs_step_scan, bfs_init_eq.
    eexists; split; [apply scan_walled; [|assumption]|].
    + rewrite is_wall_setNode by reflexivity; assumption.
    + intros p; apply (field_setNode _ previousNode); reflexivity.
  - unfold dfs_loop, dfs_init; rewrite dfs_step_scan.
    eexists; split; [apply scan_walled; [|assumption]|].
    + rewrite is_wall_setNode by reflexivity; assumption.
    + intros p; apply (field_setNode _ previousNode); reflexivity.
  - unfold ucs_loop, ucs_init; rewrite ucs_step_best.
    eexists; split; [apply best_walled; [|assumption]|].
    + rewrite is_wall_setNode by reflexivity; assumption.
    + intros p; apply (field_setNode _ previousNode); reflexivity.
  - unfold astar_loop; rewrite astar_step_best, astar_init_eq.
    eexists; split; [apply best_walled; [|assumption]|].
    + rewrite is_wall_setNode by reflexivity; assumption.
    + intros p; apply (field_setNode _ previousNode); reflexivity.
  - unfold greedy_loop, greedy_init; rewrite greedy_step_best.
    eexists; split; [apply best_walled; [|assumption]|].
    + rewrite is_wall_setNode by reflexivity; assumption.
    + intros p; apply (field_setNode _ previousNode); reflexivity.
Qed.

Lemma getNode_resetVisited : forall g p,
  getNode (resetVisited g) p
  = set_previousNode None (set_isVisited false (getNode g p)).
Proof. intros g p; unfold resetVisited; apply getNode_map; reflexivity. Qed.

Lemma iterativeDeepening_loop_walled : forall e s rounds fuel maxDepth g vis,
  is_wall (getNode g s) = true -> 1 <= fuel ->
  exists g',
    iterativeDeepening_loop fuel rounds maxDepth g s e vis
    = Some (mkResult vis [] false, g').
Proof.
  intros e s rounds; induction rounds as [|rounds IH];
    intros fuel maxDepth g vis Hw Hf; simpl; [eexists; reflexivity|].
  assert (Hw' : is_wall (getNode (resetVisited g) s) = true)
    by (unfold is_wall in *; rewrite getNode_resetVisited; assumption).
  destruct fuel as [|fuel]; [lia|].
  cbn [depthLimitedSearch]; rewrite Hw'.
  apply IH; [assumption|lia].
Qed.

(** ** The start is the target *)

Lemma scan_at_target : forall nbr order g s fuel,
  is_wall (getNode g s) = false -> 1 <= fuel ->
  loop (scan_step nbr order s) fuel (g, [s], [])
  = Some (mkOutcome g [s] true).
Proof.
  intros nbr order g s fuel H Hf.
  destruct fuel as [|fuel]; try lia.
  cbn [loop scan_step]; rewrite H, pos_eqb_refl; reflexivity.
Qed.

Lemma best_at_target : forall cmp nbr g s fuel,
  is_wall (getNode g s) = false -> isVisited (getNode g s) = false ->
  1 <= fuel ->
  loop (best_step cmp nbr s) fuel (g, [s], [])
  = Some (mkOutcome (setNode g s (set_isVisited true)) [s] true).
Proof.
  intros cmp nbr g s fuel H Hv Hf.
  destruct fuel as [|fuel]; try lia.
  cbn [loop best_step sort sort_insert]; rewrite H, Hv, pos_eqb_refl.
  reflexivity.
Qed.

Lemma finish_at_root : forall fuel g s,
  previousNode (getNode g s) = None -> 1 <= fuel ->
  finish fuel s (Some (mkOutcome g [s] true))
  = Some (mkResult [s] [s] true, g).
Proof.
  intros fuel g s H Hf; unfold finish.
  rewrite (chain_reconstructPath g s [s]); [reflexivity| |assumption].
  apply chain_root; assumption.
Qed.

Lemma five_at_target : forall search,
  In search [bfs; dfs; uniformCostSearch; astar; greedyBFS] ->
  forall g s fuel,
    fresh g = true -> is_wall (getNode g s) = false -> 1 <= fuel ->
    exists g', search fuel g s s = Some (mkResult [s] [s] true, g').
Proof.
  intros search HL g s fuel HF Hw Hf; simpl in HL.
  destruct (fresh_fields g s HF) as [Hv [_ Hp]].
  destruct HL as [<-|[<-|[<-|[<-|[<-|[]]]]]].
  - unfold bfs; rewrite bfs_step_scan, bfs_init_eq.
    rewrite scan_at_target;
      [|rewrite is_wall_setNode by reflexivity; assumption|assumption].
    eexists; apply finish_at_root; [|assumption].
    rewrite (field_setNode _ previousNode) by reflexivity; assumption.
  - unfold dfs, dfs_init; rewrite dfs_step_scan.
    rewrite scan_at_target;
      [|rewrite is_wall_setNode by reflexivity; assumption|assumption].
    eexists; apply finish_at_root; [|assumption].
    rewrite (field_setNode _ previousNode) by reflexivity; assumption.
  - unfold uniformCostSearch, ucs_init; rewrite ucs_step_best.
    rewrite best_at_target;
      [|rewrite is_wall_setNode by reflexivity; assumption
       |rewrite (field_setNode _ isVisited) by reflexivity; assumption
       |assumption].
    eexists; apply finish_at_root; [|assumption].
    rewrite !(field_setNode _ previousNode) by reflexivity; assumption.
  - unfold astar; rewrite astar_step_best, astar_init_eq.
    rewrite best_at_target;
      [|rewrite is_wall_setNode by reflexivity; assumption
       |rewrite (field_setNode _ isVisited) by reflexivity; assumption
       |assumption].
    eexists; apply finish_at_root; [|assumption].
    rewrite !(field_setNode _ previousNode) by reflexivity; assumption.
  - unfold greedyBFS, greedy_init; rewrite greedy_step_best.
    rewrite best_at_target;
      [|rewrite is_wall_setNode by reflexivity; assumption
       |rewrite (field_setNode _ isVisited) by reflexivity; assumption
       |assumption].
    eexists; apply finish_at_root; [|assumption].
    rewrite !(field_setNode _ previousNode) by reflexivity; assumption.
Qed.

Lemma iterativeDeepening_at_target : forall g s fuel,
  inGrid g s = true -> is_wall (getNode g s) = false -> 1 <= fuel ->
  exists g', iterativeDeepening fuel g s s = Some (mkResult [s] [s] true, g').
Proof.
  intros g s fuel HG Hw Hf; unfold iterativeDeepening.
  assert (Hcells : 1 <= nrows g * ncols g).
  { unfold inGrid in HG; apply andb_true_iff in HG; destruct HG as [H1 H2].
    apply Nat.ltb_lt in H1; apply Nat.ltb_lt in H2; nia. }
  destruct (nrows g * ncols g) as [|rounds]; [lia|].
  cbn [iterativeDeepening_loop].
  assert (Hw' : is_wall (getNode (resetVisited g) s) = false)
    by (unfold is_wall in *; rewrite getNode_resetVisited; assumption).
  destruct fuel as [|fuel]; [lia|].
  cbn [depthLimitedSearch]; rewrite Hw', pos_eqb_refl; cbn [app].
  rewrite (chain_reconstructPath _ s [s]); [eexists; reflexivity| |simpl; lia].
  apply chain_root.
  rewrite (field_setNode _ previousNode) by reflexivity.
  rewrite getNode_resetVisited; reflexivity.
Qed.

(* ================================================================== *)
(** * The visit order of the five loops *)
(* ================================================================== *)

Lemma discovers_links : forall u v st st',
  discovers u v st st' -> links u v st st'.
Proof.
  intros u v st st' [E|[_ [_ [HT [_ [HP _]]]]]]; [left|right]; auto.
Qed.

Lemma relaxes_links : forall u v st st',
  relaxes u v st st' -> links u v st st'.
Proof.
  intros u v st st' [E|[_ [_ [HT [_ [HP _]]]]]]; [left|right]; auto.
Qed.

(** The nodes of a chain are its end and predecessors. *)
Lemma chain_incl : forall g p l vis,
  (forall a b, previousNode (getNode g a) = Some b -> In b vis) ->
  chain g p l -> forall x, In x l -> x = p \/ In x vis.
Proof.
  intros g p l vis H Hc; induction Hc as [p Hp|p q l Hp Hc IH]; intros x Hx.
  - destruct Hx as [<-|[]]; left; reflexivity.
  - apply in_app_iff in Hx; destruct Hx as [Hx|[<-|[]]];
      [|left; reflexivity].
    right; destruct (IH x Hx) as [->|Hin]; [|assumption].
    apply (H p); assumption.
Qed.

Section Visits.

Variable nbr : Pos -> Grid * list Pos -> Pos -> Grid * list Pos.
Hypothesis nbr_links : forall u v g frontier,
  inStore g v -> links u v (g, frontier) (nbr u (g, frontier) v).

Variable g0 : Grid.
Variables startNode endNode : Pos.
Hypothesis g0_rect : rectangular g0 = true.

Lemma visit_fold : forall u vis l g frontier,
  layout g = layout g0 -> (forall v, In v l -> inGrid g0 v = true) ->
  In u vis ->
  (forall p q, previousNode (getNode g p) = Some q -> In q vis) ->
  forall p q,
    previousNode (getNode (fst (fold_left (nbr u) l (g, frontier))) p)
    = Some q ->
    In q vis.
Proof.
  intros u vis l g frontier HL Hl Hu HP.
  assert (H : layout (fst (fold_left (nbr u) l (g, frontier))) = layout g0 /\
              forall p q,
                previousNode
                  (getNode (fst (fold_left (nbr u) l (g, frontier))) p)
                = Some q -> In q vis).
  { apply (fold_left_invariant _ _ (nbr u)
             (fun st => layout (fst st) = layout g0 /\
                        forall p q,
                          previousNode (getNode (fst st) p) = Some q ->
                          In q vis)).
    - split; assumption.
    - intros [g1 f1] v Hv [HL1 HP1]; simpl in *.
      assert (HS : inStore g1 v) by (eapply rectangular_inStore; eauto).
      destruct (nbr_links u v g1 f1 HS) as [E|[[HL' Hf] Hp']].
      + rewrite E; split; assumption.
      + simpl in *; split; [congruence|].
        intros p q Hpq; destruct (pos_eq_dec p v) as [->|Hne].
        * rewrite Hp' in Hpq; injection Hpq as <-; assumption.
        * rewrite Hf in Hpq by assumption; eapply HP1; eassumption. }
  exact (proj2 H).
Qed.

Lemma scan_step_visits : forall order,
  (forall l x, In x (order l) -> In x l) ->
  forall st,
    scan_inv g0 st -> visit_inv endNode st ->
    match scan_step nbr order endNode st with
    | Continue st' => visit_inv endNode st'
    | Return o =>
        (out_found o = true ->
           exists t, out_visited o = t ++ [endNode] /\ ~ In endNode t) /\
        (out_found o = false -> ~ In endNode (out_visited o)) /\
        (forall p q, previousNode (getNode (out_grid o) p) = Some q ->
           In q (out_visited o))
    end.
Proof.
  intros order order_In [[g queue] vis] [HL [Hm _]] [He HP]; unfold scan_step.
  destruct queue as [|c queue].
  - simpl; split; [discriminate|split; auto].
  - destruct (is_wall (getNode g c)); [split; assumption|].
    assert (HP' : forall p q, previousNode (getNode g p) = Some q ->
                              In q (vis ++ [c])).
    { intros p q H; apply in_app_iff; left; eapply HP; eassumption. }
    destruct (pos_eqb c endNode) eqn:E.
    + apply pos_eqb_eq in E; subst c; simpl.
      split; [intros _; exists vis; auto|split; [discriminate|assumption]].
    + apply pos_eqb_neq in E.
      assert (Hc : inGrid g0 c = true).
      { apply Hm; apply in_app_iff; right; left; reflexivity. }
      assert (HF := visit_fold c (vis ++ [c]) (order (getNeighbors c g))
                      g queue HL).
      destruct (fold_left (nbr c) (order (getNeighbors c g)) (g, queue))
        as [g' q']; simpl in HF; split.
      * intros Hin; apply in_app_iff in Hin.
        destruct Hin as [Hin|[Hin|[]]]; [contradiction|congruence].
      * apply HF; [|apply in_app_iff; right; left; reflexivity|assumption].
        intros v Hv; apply order_In in Hv.
        rewrite (layout_getNeighbors g g0 c HL) in Hv.
        eapply getNeighbors_inGrid; eassumption.
Qed.

Lemma scan_return_reached : forall order st o,
  scan_inv g0 st -> scan_paths g0 startNode st ->
  scan_step nbr order endNode st = Return o ->
  forall p, In p (out_visited o) -> exists l, walk g0 startNode p l.
Proof.
  intros order [[g queue] vis] o [_ [Hm _]] HLk H p Hp.
  assert (Hall : forall x, In x (vis ++ queue) -> exists l, walk g0 startNode x l).
  { intros x Hx; apply Hm in Hx; destruct Hx as [_ Hx].
    destruct (HLk x Hx) as [l [_ [Hw _]]]; exists l; assumption. }
  unfold scan_step in H; destruct queue as [|c queue].
  - injection H as <-; simpl in Hp; apply Hall; rewrite app_nil_r; assumption.
  - destruct (is_wall (getNode g c)); [discriminate|].
    destruct (pos_eqb c endNode).
    + injection H as <-; simpl in Hp; apply Hall.
      apply in_app_iff in Hp; apply in_app_iff.
      destruct Hp as [Hp|[<-|[]]]; [left; assumption|right; left; reflexivity].
    + destruct (fold_left (nbr c) (order (getNeighbors c g)) (g, queue));
        discriminate.
Qed.

Lemma best_step_visits : forall cmp st,
  best_inv g0 st -> visit_inv endNode st ->
  match best_step cmp nbr endNode st with
  | Continue st' => visit_inv endNode st'
  | Return o =>
      (out_found o = true ->
         exists t, out_visited o = t ++ [endNode] /\ ~ In endNode t) /\
      (out_found o = false -> ~ In endNode (out_visited o)) /\
      (forall p q, previousNode (getNode (out_grid o) p) = Some q ->
         In q (out_visited o))
  end.
Proof.
  intros cmp [[g openSet] vis] [HL [Ho _]] [He HP]; unfold best_step.
  assert (HPm := sort_perm Pos (cmp g) openSet).
  destruct (sort (cmp g) openSet) as [|c open'].
  - simpl; split; [discriminate|split; auto].
  - destruct (is_wall (getNode g c)); [split; assumption|].
    destruct (isVisited (getNode g c)); [split; assumption|].
    assert (HP' : forall p q,
              previousNode (getNode (setNode g c (set_isVisited true)) p)
              = Some q -> In q (vis ++ [c])).
    { intros p q H; rewrite mark_previousNode in H.
      apply in_app_iff; left; eapply HP; eassumption. }
    assert (HL1 : layout (setNode g c (set_isVisited true)) = layout g0)
      by (rewrite layout_setNode; [assumption|reflexivity]).
    destruct (pos_eqb c endNode) eqn:E.
    + apply pos_eqb_eq in E; subst c; simpl.
      split; [intros _; exists vis; auto|split; [discriminate|assumption]].
    + apply pos_eqb_neq in E.
      assert (Hc : inGrid g0 c = true).
      { apply Ho; apply (Permutation_in _ HPm); left; reflexivity. }
      assert (HF := visit_fold c (vis ++ [c])
                      (getNeighbors c (setNode g c (set_isVisited true)))
                      (setNode g c (set_isVisited true)) open' HL1).
      destruct (fold_left (nbr c)
                  (getNeighbors c (setNode g c (set_isVisited true)))
                  (setNode g c (set_isVisited true), open')) as [g' o'].
      simpl in HF; split.
      * intros Hin; apply in_app_iff in Hin.
        destruct Hin as [Hin|[Hin|[]]]; [contradiction|congruence].
      * apply HF; [|apply in_app_iff; right; left; reflexivity|assumption].
        intros v Hv; rewrite (layout_getNeighbors _ g0 c HL1) in Hv.
        eapply getNeighbors_inGrid; eassumption.
Qed.

Lemma best_return_reached : forall cmp st o,
  open_cell g0 startNode = true ->
  best_inv g0 st -> best_paths g0 startNode st ->
  best_step cmp nbr endNode st = Return o ->
  forall p, In p (out_visited o) -> exists l, walk g0 startNode p l.
Proof.
  intros cmp [[g openSet] vis] o Hopen [_ [_ [Hm _]]] [HLk HPd] H p Hp.
  assert (Hall : forall x, In x vis -> exists l, walk g0 startNode x l).
  { intros x Hx; apply Hm in Hx.
    destruct (HLk x Hx) as [l [_ [Hw _]]]; exists l; assumption. }
  unfold best_step in H.
  assert (HPm := sort_perm Pos (cmp g) openSet).
  destruct (sort (cmp g) openSet) as [|c open'].
  - injection H as <-; simpl in Hp; apply Hall; assumption.
  - destruct (is_wall (getNode g c)); [discriminate|].
    destruct (isVisited (getNode g c)) eqn:Ec; [discriminate|].
    destruct (pos_eqb c endNode).
    + injection H as <-; simpl in Hp.
      apply in_app_iff in Hp; destruct Hp as [Hp|[<-|[]]];
        [apply Hall; assumption|].
      assert (Hcin : In c openSet)
        by (apply (Permutation_in _ HPm); left; reflexivity).
      destruct (HPd c Hcin Ec) as [[-> _]|[q [_ [Hq [Hs Hoc]]]]].
      * exists [startNode]; constructor; assumption.
      * destruct (HLk q Hq) as [l [_ [Hw _]]].
        exists (l ++ [c]); apply walk_snoc with q; assumption.
    + destruct (fold_left (nbr c)
                  (getNeighbors c (setNode g c (set_isVisited true)))
                  (setNode g c (set_isVisited true), open')); discriminate.
Qed.

End Visits.

(** ** The five loops *)

Lemma walled_visits : forall L,
  In L [bfs_loop; dfs_loop; ucs_loop; astar_loop; greedy_loop] ->
  forall g s e fuel o,
    fresh g = true -> is_wall (getNode g s) = true ->
    L fuel g s e = Some o -> out_visits g s e o.
Proof.
  intros L HL g s e fuel o HF Hw H.
  assert (HM : loop_monotone L).
  { destruct loops_monotone as [M1 [M2 [M3 [M4 M5]]]]; simpl in HL.
    destruct HL as [<-|[<-|[<-|[<-|[<-|[]]]]]]; assumption. }
  destruct (loops_walled L HL g s e (fuel + 2) Hw ltac:(lia)) as [g' [E HP]].
  rewrite (HM g s e fuel (fuel + 2) o H ltac:(lia)) in E.
  injection E as ->; unfold out_visits; simpl.
  split; [intros p []|].
  split; [discriminate|].
  split; [auto|].
  intros p q Hpq; rewrite HP in Hpq.
  destruct (fresh_fields g p HF) as [_ [_ Hn]]; congruence.
Qed.

Lemma scan_visits : forall nbr order (init : Grid -> Pos -> SearchState),
  (forall u v g queue,
     inStore g v -> discovers u v (g, queue) (nbr u (g, queue) v)) ->
  (forall l x, In x (order l) -> In x l) ->
  (forall g s, rectangular g = true -> inGrid g s = true ->
               scan_inv g (init g s)) ->
  (forall g s, rectangular g = true -> inGrid g s = true ->
               fresh g = true -> open_cell g s = true ->
               scan_paths g s (init g s)) ->
  (forall g s e, fresh g = true -> visit_inv e (init g s)) ->
  forall g s e fuel o,
    rectangular g = true -> inGrid g s = true -> fresh g = true ->
    open_cell g s = true ->
    loop (scan_step nbr order e) fuel (init g s) = Some o ->
    out_visits g s e o.
Proof.
  intros nbr order init Hnbr Hord Hinv Hpaths Hvis g s e fuel o HR HG HF Ho H.
  assert (Hlk : forall u v g1 frontier, inStore g1 v ->
            links u v (g1, frontier) (nbr u (g1, frontier) v))
    by (intros; apply discovers_links, Hnbr; assumption).
  apply (loop_invariant _ _ (scan_step nbr order e)
           (fun st => scan_inv g st /\ scan_paths g s st /\ visit_inv e st)
           (out_visits g s e))
    with (fuel := fuel) (s := init g s); auto.
  intros st [H1 [H2 H3]].
  assert (Hi := scan_step_inv nbr order Hnbr Hord g e HR st H1).
  assert (Hp := scan_step_paths nbr order Hnbr Hord g s e HR st H1 H2).
  assert (Hv := scan_step_visits nbr Hlk g e HR order Hord st H1 H3).
  assert (Hr := scan_return_reached nbr g s e order st).
  destruct (scan_step nbr order e st) as [st'|o']; [auto|].
  split; [apply (Hr o'); auto|exact Hv].
Qed.

Lemma best_visits : forall cmp nbr (init : Grid -> Pos -> Pos -> SearchState),
  (forall u v g openSet,
     inStore g v -> relaxes u v (g, openSet) (nbr u (g, openSet) v)) ->
  (forall g s e, rectangular g = true -> inGrid g s = true ->
                 best_inv g (init g s e)) ->
  (forall g s e, fresh g = true -> best_paths g s (init g s e)) ->
  (forall g s e, fresh g = true -> visit_inv e (init g s e)) ->
  forall g s e fuel o,
    rectangular g = true -> inGrid g s = true -> fresh g = true ->
    open_cell g s = true ->
    loop (best_step cmp nbr e) fuel (init g s e) = Some o ->
    out_visits g s e o.
Proof.
  intros cmp nbr init Hnbr Hinv Hpaths Hvis g s e fuel o HR HG HF Ho H.
  assert (Hlk : forall u v g1 frontier, inStore g1 v ->
            links u v (g1, frontier) (nbr u (g1, frontier) v))
    by (intros; apply relaxes_links, Hnbr; assumption).
  apply (loop_invariant _ _ (best_step cmp nbr e)
           (fun st => best_inv g st /\ best_paths g s st /\ visit_inv e st)
           (out_visits g s e))
    with (fuel := fuel) (s := init g s e); auto.
  intros st [H1 [H2 H3]].
  assert (Hi := best_step_inv cmp nbr Hnbr g e HR st H1).
  assert (Hp := best_step_paths cmp nbr Hnbr g s e HR Ho st H1 H2).
  assert (Hv := best_step_visits nbr Hlk g e HR cmp st H1 H3).
  assert (Hr := best_return_reached nbr g s e cmp st).
  destruct (best_step cmp nbr e st) as [st'|o']; [auto|].
  split; [apply (Hr o'); auto|exact Hv].
Qed.

(** The initial states: no node has a predecessor. *)
Lemma init_visit_inv : forall g s e f frontier,
  (forall n, previousNode (f n) = previousNode n) ->
  fresh g = true -> visit_inv e (setNode g s f, frontier, []).
Proof.
  intros g s e f frontier Hf HF; split; [intros []|].
  intros p q H; rewrite (field_setNode _ previousNode) in H by assumption.
  destruct (fresh_fields g p HF) as [_ [_ Hn]]; congruence.
Qed.

Lemma five_loop_visits : forall L,
  In L [bfs_loop; dfs_loop; ucs_loop; astar_loop; greedy_loop] ->
  loop_visits L.
Proof.
  intros L HL g s e fuel o HR HG HF H.
  destruct (is_wall (getNode g s)) eqn:Ew;
    [apply (walled_visits L HL g s e fuel); assumption|].
  assert (Ho : open_cell g s = true)
    by (unfold open_cell; rewrite HG, Ew; reflexivity).
  simpl in HL; destruct HL as [<-|[<-|[<-|[<-|[<-|[]]]]]].
  - unfold bfs_loop in H; rewrite bfs_step_scan in H.
    apply (scan_visits bfs_neighbor (fun l => l) bfs_init bfs_discovers
             id_order_In bfs_init_inv) with (fuel := fuel); auto.
    + intros g1 s1 HR1 HG1 HF1 Ho1; rewrite bfs_init_eq.
      apply marked_start_linked; auto.
    + intros g1 s1 e1 HF1; rewrite bfs_init_eq.
      apply init_visit_inv; auto.
  - unfold dfs_loop in H; rewrite dfs_step_scan in H.
    apply (scan_visits dfs_neighbor (@rev Pos) dfs_init dfs_discovers
             rev_order_In dfs_init_inv) with (fuel := fuel); auto.
    + intros g1 s1 HR1 HG1 HF1 Ho1; unfold dfs_init.
      apply marked_start_linked; auto.
    + intros g1 s1 e1 HF1; unfold dfs_init.
      apply init_visit_inv; auto.
  - unfold ucs_loop in H; rewrite ucs_step_best in H.
    apply (best_visits ucs_cmp ucs_neighbor (fun g s _ => ucs_init g s)
             ucs_neighbor_relaxes) with (fuel := fuel); auto.
    + intros g1 s1 e1 HR1 HG1; apply best_init_inv; auto.
    + intros g1 s1 e1 HF1; apply best_init_paths; auto.
    + intros g1 s1 e1 HF1; apply init_visit_inv; auto.
  - unfold astar_loop in H; rewrite astar_step_best in H.
    apply (best_visits astar_cmp (fun u => astar_neighbor u e) astar_init
             (astar_relaxes e)) with (fuel := fuel); auto.
    + intros g1 s1 e1 HR1 HG1; rewrite astar_init_eq.
      apply best_init_inv; auto.
    + intros g1 s1 e1 HF1; rewrite astar_init_eq.
      apply best_init_paths; auto.
    + intros g1 s1 e1 HF1; rewrite astar_init_eq.
      apply init_visit_inv; auto.
  - unfold greedy_loop in H; rewrite greedy_step_best in H.
    apply (best_visits greedy_cmp (fun u => greedy_neighbor u e) greedy_init
             (greedy_relaxes e)) with (fuel := fuel); auto.
    + intros g1 s1 e1 HR1 HG1; apply best_init_inv; auto.
    + intros g1 s1 e1 HF1; apply best_init_paths; auto.
    + intros g1 s1 e1 HF1; apply init_visit_inv; auto.
Qed.

(** What the visit order of the loop means for the result of the
    search. *)
Lemma search_visits : forall L,
  loop_visits L ->
  forall fuel g s e r g',
    rectangular g = true -> inGrid g s = true -> fresh g = true ->
    search_of L fuel g s e = Some (r, g') ->
    (forall p, In p (visitedNodesInOrder r) ->
       exists l, is_path g s p l = true) /\
    (success r = true ->
       exists t, visitedNodesInOrder r = t ++ [e] /\ ~ In e t) /\
    (success r = false -> ~ In e (visitedNodesInOrder r)) /\
    incl (shortestPath r) (visitedNodesInOrder r).
Proof.
  intros L HL fuel g s e r g' HR HG HF H; unfold search_of in H.
  destruct (L fuel g s e) as [o|] eqn:E; [|discriminate].
  destruct (HL g s e fuel o HR HG HF E) as [V1 [V2 [V3 V4]]].
  destruct (finish_Some fuel e o r g' H) as [-> [Hv [Hs [Hn Hy]]]].
  rewrite Hv, Hs.
  split; [|split; [assumption|split; [assumption|]]].
  - intros p Hp; destruct (V1 p Hp) as [l Hl]; exists l.
    apply walk_is_path; assumption.
  - destruct (out_found o) eqn:Ef.
    + specialize (Hy eq_refl); unfold reconstructPath in Hy.
      apply reconstructPath_loop_chain in Hy.
      destruct Hy as [l [Hc [Hl _]]]; rewrite app_nil_r in Hl.
      rewrite Hl; intros x Hx.
      destruct (chain_incl _ e l (out_visited o) V4 Hc x Hx) as [->|Hin];
        [|assumption].
      destruct (V2 eq_refl) as [t [-> _]].
      apply in_app_iff; right; left; reflexivity.
    + rewrite (Hn eq_refl); intros x [].
Qed.

(* ================================================================== *)
(** * [dfs] and [greedyBFS] find a path when there is one *)
(* ================================================================== *)

(** An invariant of a [for] loop that depends on the elements seen. *)
Lemma fold_left_prefix : forall (A B : Type) (f : A -> B -> A)
    (I : list B -> A -> Prop) l done a,
  I done a ->
  (forall done x a, In x l -> I done a -> I (done ++ [x]) (f a x)) ->
  I (done ++ l) (fold_left f l a).
Proof.
  intros A B f I l; induction l as [|x l IH]; intros done a Ha H; simpl.
  - rewrite app_nil_r; assumption.
  - replace (done ++ x :: l) with ((done ++ [x]) ++ l)
      by (rewrite <- app_assoc; reflexivity).
    apply IH.
    + apply H; [left; reflexivity|assumption].
    + intros d y b Hy; apply H; right; assumption.
Qed.

(** When the start is marked and every marked node is closed, every cell
    that a path reaches is marked: the target is out of reach. *)
Lemma closed_walk : forall g0 s e g,
  marked g s -> (forall u, marked g u -> closed_at g0 e g u) ->
  forall p l, walk g0 s p l -> marked g p.
Proof.
  intros g0 s e g Hs Hcl p l Hw; induction Hw as [Ho|q p l Hw IH Hstep Ho].
  - assumption.
  - destruct (Hcl q IH) as [_ H]; apply H; assumption.
Qed.

Lemma closed_no_path : forall g0 s e g,
  marked g s -> (forall u, marked g u -> closed_at g0 e g u) ->
  forall l, ~ walk g0 s e l.
Proof.
  intros g0 s e g Hs Hcl l Hw.
  assert (He := closed_walk g0 s e g Hs Hcl e l Hw).
  destruct (Hcl e He) as [Hne _]; apply Hne; reflexivity.
Qed.

Lemma walled_complete : forall g s e o,
  is_wall (getNode g s) = true -> out_complete g s e o.
Proof.
  intros g s e o Hw _ l Hl; apply walk_start_open in Hl.
  unfold open_cell in Hl; rewrite Hw in Hl.
  rewrite andb_false_r in Hl; discriminate.
Qed.

(** ** The loop of [dfs] *)

Section ScanClosed.

Variable nbr : Pos -> Grid * list Pos -> Pos -> Grid * list Pos.
Variable order : list Pos -> list Pos.
Hypothesis nbr_discovers : forall u v g queue,
  inStore g v -> discovers u v (g, queue) (nbr u (g, queue) v).
Hypothesis nbr_eager : forall u v g queue,
  inStore g v -> eager v (g, queue) (nbr u (g, queue) v).
Hypothesis order_all : forall l x, In x l -> In x (order l).
Hypothesis order_In : forall l x, In x (order l) -> In x l.

Variable g0 : Grid.
Variables startNode endNode : Pos.
Hypothesis g0_rect : rectangular g0 = true.

Lemma scan_neighbor_closed : forall vis c done v g queue,
  inGrid g0 v = true ->
  scan_fold_closed g0 startNode endNode vis c done (g, queue) ->
  scan_fold_closed g0 startNode endNode vis c (done ++ [v])
                   (nbr c (g, queue) v).
Proof.
  intros vis c done v g queue Hv [HL [Hs [Hall [Hnw [Hcl Hd]]]]].
  assert (HS : inStore g v) by (eapply rectangular_inStore; eassumption).
  assert (He := nbr_eager c v g queue HS).
  destruct (nbr_discovers c v g queue HS)
    as [E|[Hu [Hw [[HL' Hf] [Hm' [_ Hp]]]]]].
  - rewrite E in *; unfold eager in He; simpl in He.
    repeat (split; [assumption|]).
    intros x Hx Ho; apply in_app_iff in Hx; destruct Hx as [Hx|[<-|[]]];
      [apply Hd; assumption|].
    destruct He as [He|He]; [|assumption].
    unfold open_cell in Ho; rewrite <- (layout_is_wall g g0 v HL), He in Ho.
    rewrite andb_false_r in Ho; discriminate.
  - destruct (nbr c (g, queue) v) as [g' q']; simpl in *.
    assert (HG : grows g g').
    { intros x Hx; destruct (pos_eq_dec x v) as [->|Hne]; [assumption|].
      unfold marked; rewrite Hf by assumption; assumption. }
    split; [congruence|].
    split; [apply HG; assumption|].
    split.
    { intros p Hp'; destruct (pos_eq_dec p v) as [->|Hne].
      - right; apply (Permutation_in _ (Permutation_sym Hp)); left; reflexivity.
      - unfold marked in Hp'; rewrite Hf in Hp' by assumption.
        destruct (Hall p Hp') as [H|H]; [left; assumption|right].
        apply (Permutation_in _ (Permutation_sym Hp)); right; assumption. }
    split.
    { intros p Hp'; rewrite (layout_is_wall g' g p HL').
      apply (Permutation_in _ Hp) in Hp'; destruct Hp' as [<-|Hp'];
        [assumption|apply Hnw; assumption]. }
    split.
    { intros u Hu'; apply closed_at_grows with g; auto. }
    intros x Hx Ho; apply in_app_iff in Hx; destruct Hx as [Hx|[<-|[]]];
      [apply HG, Hd; assumption|assumption].
Qed.

Lemma scan_step_closed : forall st,
  scan_inv g0 st -> scan_closed g0 startNode endNode st ->
  match scan_step nbr order endNode st with
  | Continue st' => scan_closed g0 startNode endNode st'
  | Return o => out_complete g0 startNode endNode o
  end.
Proof.
  intros [[g queue] vis] [HL [Hm _]] [Hs [Hall [Hnw Hcl]]]; unfold scan_step.
  destruct queue as [|c queue].
  - intros _; apply closed_no_path with g; [assumption|].
    intros u Hu; apply Hcl; destruct (Hall u Hu) as [H|[]]; assumption.
  - rewrite (Hnw c (or_introl eq_refl)).
    destruct (pos_eqb c endNode) eqn:E; [intros Hf; discriminate|].
    apply pos_eqb_neq in E.
    assert (Hc : inGrid g0 c = true).
    { apply Hm; apply in_app_iff; right; left; reflexivity. }
    assert (H0 : scan_fold_closed g0 startNode endNode vis c [] (g, queue)).
    { split; [assumption|split; [assumption|]].
      split.
      { intros p Hp; destruct (Hall p Hp) as [H|[<-|H]].
        - left; apply in_app_iff; left; assumption.
        - left; apply in_app_iff; right; left; reflexivity.
        - right; assumption. }
      split; [intros p Hp; apply Hnw; right; assumption|].
      split; [assumption|intros v []]. }
    assert (HF := fold_left_prefix _ _ (nbr c)
                    (scan_fold_closed g0 startNode endNode vis c)
                    (order (getNeighbors c g)) [] (g, queue) H0).
    simpl in HF.
    destruct (fold_left (nbr c) (order (getNeighbors c g)) (g, queue))
      as [g' q'].
    destruct HF as [HL' [Hs' [Hall' [Hnw' [Hcl' Hd']]]]].
    { intros done x [g1 q1] Hx H1; apply scan_neighbor_closed; [|assumption].
      apply order_In in Hx; rewrite (layout_getNeighbors g g0 c HL) in Hx.
      eapply getNeighbors_inGrid; eassumption. }
    split; [assumption|split; [assumption|split; [assumption|]]].
    intros u Hu; apply in_app_iff in Hu; destruct Hu as [Hu|[<-|[]]];
      [apply Hcl'; assumption|].
    split; [assumption|].
    intros y Hy Ho; apply Hd'; [|assumption].
    apply order_all; rewrite (layout_getNeighbors g g0 c HL).
    apply getNeighbors_spec; [assumption|].
    split; [assumption|].
    unfold open_cell in Ho; apply andb_true_iff in Ho; tauto.
Qed.

End ScanClosed.

Lemma dfs_eager : forall u v g stack,
  inStore g v -> eager v (g, stack) (dfs_neighbor u (g, stack) v).
Proof.
  intros u v g stack HS; unfold eager; rewrite dfs_neighbor_eq; simpl.
  destruct (isVisited (getNode g v)) eqn:Ev; simpl; [right; assumption|].
  destruct (is_wall (getNode g v)) eqn:Ew; simpl; [left; reflexivity|].
  right; unfold marked; rewrite getNode_setNode_same by assumption.
  reflexivity.
Qed.

Lemma dfs_init_closed : forall g s e,
  rectangular g = true -> inGrid g s = true -> fresh g = true ->
  is_wall (getNode g s) = false ->
  scan_closed g s e (dfs_init g s).
Proof.
  intros g s e HR HG HF Hw; unfold dfs_init.
  assert (HS : inStore g s) by (apply inGrid_inStore; assumption).
  split; [unfold marked; rewrite getNode_setNode_same by assumption;
          reflexivity|].
  split.
  { intros p Hp; right; left.
    destruct (pos_eq_dec p s) as [->|Hne]; [reflexivity|].
    unfold marked in Hp; rewrite getNode_setNode_other in Hp by assumption.
    destruct (fresh_fields g p HF) as [Hn _]; congruence. }
  split; [|intros u []].
  intros p [<-|[]]; rewrite is_wall_setNode by reflexivity; assumption.
Qed.

Lemma dfs_loop_complete : forall g s e fuel o,
  rectangular g = true -> inGrid g s = true -> fresh g = true ->
  dfs_loop fuel g s e = Some o -> out_complete g s e o.
Proof.
  intros g s e fuel o HR HG HF H.
  destruct (is_wall (getNode g s)) eqn:Ew;
    [apply walled_complete; assumption|].
  unfold dfs_loop in H; rewrite dfs_step_scan in H.
  apply (loop_invariant _ _ (scan_step dfs_neighbor (@rev Pos) e)
           (fun st => scan_inv g st /\ scan_closed g s e st)
           (out_complete g s e))
    with (fuel := fuel) (s := dfs_init g s); auto.
  - intros st [H1 H2].
    assert (Hi := scan_step_inv dfs_neighbor (@rev Pos) dfs_discovers
                    rev_order_In g e HR st H1).
    assert (Hc := scan_step_closed dfs_neighbor (@rev Pos) dfs_discovers
                    dfs_eager (fun l x Hx => proj1 (in_rev l x) Hx)
                    rev_order_In g s e HR st H1 H2).
    destruct (scan_step dfs_neighbor (@rev Pos) e st); auto.
  - split; [apply dfs_init_inv; assumption|].
    apply dfs_init_closed; assumption.
Qed.

(** ** The loop of [greedyBFS] *)

Section GreedyClosed.

Variable g0 : Grid.
Variables startNode endNode : Pos.
Hypothesis g0_rect : rectangular g0 = true.

Lemma greedy_neighbor_closed : forall gs c done v g openSet,
  inGrid g0 v = true ->
  greedy_fold_closed g0 startNode endNode gs c done (g, openSet) ->
  greedy_fold_closed g0 startNode endNode gs c (done ++ [v])
                     (greedy_neighbor c endNode (g, openSet) v).
Proof.
  intros gs c done v g openSet Hv [HL [Hk [HA [HB [HC [HD Hd]]]]]].
  assert (HS : inStore g v) by (eapply rectangular_inStore; eassumption).
  assert (Hold : forall x, In x (done ++ [v]) -> open_cell g0 x = true ->
                   (marked g v \/ In v openSet) ->
                   marked g x \/ In x openSet).
  { intros x Hx Ho Hnew; apply in_app_iff in Hx.
    destruct Hx as [Hx|[<-|[]]]; [apply Hd; assumption|assumption]. }
  rewrite greedy_neighbor_eq.
  destruct (isVisited (getNode g v)) eqn:Ev; simpl.
  { repeat (split; [assumption|]).
    intros x Hx Ho; apply Hold; auto. }
  destruct (is_wall (getNode g v)) eqn:Ew; simpl.
  { repeat (split; [assumption|]).
    intros x Hx Ho; apply in_app_iff in Hx.
    destruct Hx as [Hx|[<-|[]]]; [apply Hd; assumption|].
    unfold open_cell in Ho; rewrite <- (layout_is_wall g g0 v HL), Ew in Ho.
    rewrite andb_false_r in Ho; discriminate. }
  destruct (num_is_infinity (heuristic (getNode g v))) eqn:Eh.
  - set (f := fun n : Node =>
               mkNode (type n) (isVisited n) (distance n)
                      (manhattanDistance v endNode) (Some c)).
    assert (Hm : forall p, isVisited (getNode (setNode g v f) p)
                           = isVisited (getNode g p))
      by (intros p; apply (field_setNode _ isVisited); reflexivity).
    assert (Hw : forall p, is_wall (getNode (setNode g v f) p)
                           = is_wall (getNode g p))
      by (intros p; apply is_wall_setNode; reflexivity).
    split; [rewrite layout_setNode; [assumption|reflexivity]|].
    split; [intros p; rewrite Hm; apply Hk|].
    split.
    { destruct HA as [H|H]; [left; unfold marked; rewrite Hm; assumption|].
      right; apply in_app_iff; left; assumption. }
    split.
    { intros p Hp; rewrite Hw; apply in_app_iff in Hp.
      destruct Hp as [Hp|[<-|[]]]; [apply HB|]; assumption. }
    split.
    { intros p Hg Hp Hpw; destruct (pos_eq_dec p v) as [->|Hne].
      - right; apply in_app_iff; right; left; reflexivity.
      - unfold marked in Hp; rewrite Hm in Hp; rewrite Hw in Hpw.
        rewrite getNode_setNode_other by assumption.
        destruct (HC p Hg Hp Hpw) as [H|H]; [left; assumption|].
        right; apply in_app_iff; left; assumption. }
    split.
    { intros u Hu Hne; unfold marked in Hu; rewrite Hm in Hu.
      destruct (HD u Hu Hne) as [H1 H2]; split; [assumption|].
      intros y Hy Ho; destruct (H2 y Hy Ho) as [H|H].
      - left; unfold marked; rewrite Hm; assumption.
      - right; apply in_app_iff; left; assumption. }
    intros x Hx Ho; apply in_app_iff in Hx; destruct Hx as [Hx|[<-|[]]].
    + destruct (Hd x Hx Ho) as [H|H].
      * left; unfold marked; rewrite Hm; assumption.
      * right; apply in_app_iff; left; assumption.
    + right; apply in_app_iff; right; left; reflexivity.
  - repeat (split; [assumption|]).
    intros x Hx Ho; apply Hold; auto.
    right; destruct (HC v Hv) as [H|H]; auto.
    + unfold marked; rewrite Ev; discriminate.
    + rewrite H in Eh; discriminate.
Qed.

Lemma greedy_step_closed : forall st,
  best_inv g0 st -> greedy_closed g0 startNode endNode st ->
  match best_step greedy_cmp (fun u => greedy_neighbor u endNode) endNode st
  with
  | Continue st' => greedy_closed g0 startNode endNode st'
  | Return o => out_complete g0 startNode endNode o
  end.
Proof.
  intros [[g openSet] vis] [HL [Ho _]] [HA [HB [HC HD]]]; unfold best_step.
  assert (HPm := sort_perm Pos (greedy_cmp g) openSet).
  destruct (sort (greedy_cmp g) openSet) as [|c open'].
  - apply Permutation_nil in HPm; subst openSet.
    intros _; apply closed_no_path with g.
    + destruct HA as [H|[]]; assumption.
    + intros u Hu; destruct (HD u Hu) as [H1 H2]; split; [assumption|].
      intros y Hy Hoy; destruct (H2 y Hy Hoy) as [H|[]]; assumption.
  - assert (Hcin : In c openSet)
      by (apply (Permutation_in _ HPm); left; reflexivity).
    assert (Hsub : forall p, In p open' -> In p openSet)
      by (intros p Hp; apply (Permutation_in _ HPm); right; assumption).
    assert (Hsplit : forall p, In p openSet -> p = c \/ In p open').
    { intros p Hp; apply (Permutation_in _ (Permutation_sym HPm)) in Hp.
      destruct Hp as [->|Hp]; auto. }
    assert (Hc : inGrid g0 c = true) by (apply Ho; assumption).
    assert (HS : inStore g c) by (eapply rectangular_inStore; eassumption).
    rewrite (HB c Hcin).
    destruct (isVisited (getNode g c)) eqn:Ec.
    { split.
      { destruct HA as [H|H]; [left; assumption|].
        destruct (Hsplit _ H) as [->|H']; [left|right]; assumption. }
      split; [intros p Hp; apply HB, Hsub; assumption|].
      split.
      { intros p Hg Hp Hpw; destruct (HC p Hg Hp Hpw) as [H|H];
          [left; assumption|].
        destruct (Hsplit _ H) as [->|H']; [contradiction|right; assumption]. }
      intros u Hu; destruct (HD u Hu) as [H1 H2]; split; [assumption|].
      intros y Hy Hoy; destruct (H2 y Hy Hoy) as [H|H]; [left; assumption|].
      destruct (Hsplit _ H) as [->|H']; [left|right]; assumption. }
    destruct (pos_eqb c endNode) eqn:E; [intros Hf; discriminate|].
    apply pos_eqb_neq in E.
    set (g1 := setNode g c (set_isVisited true)).
    assert (HL1 : layout g1 = layout g0)
      by (unfold g1; rewrite layout_setNode; [assumption|reflexivity]).
    assert (Hmc : marked g1 c)
      by (unfold marked, g1; rewrite getNode_setNode_same by assumption;
          reflexivity).
    assert (Hgrow : forall p, marked g p -> marked g1 p)
      by (intros p Hp; apply mark_isVisited; assumption).
    assert (Hw1 : forall p, is_wall (getNode g1 p) = is_wall (getNode g p))
      by (intros p; apply is_wall_setNode; reflexivity).
    assert (H0 : greedy_fold_closed g0 startNode endNode g1 c []
                   (g1, open')).
    { split; [assumption|split; [reflexivity|]].
      split.
      { destruct HA as [H|H]; [left; apply Hgrow; assumption|].
        destruct (Hsplit _ H) as [->|H']; [left|right]; assumption. }
      split; [intros p Hp; rewrite Hw1; apply HB, Hsub; assumption|].
      split.
      { intros p Hg Hp Hpw; rewrite Hw1 in Hpw.
        assert (Hne : p <> c) by (intros ->; contradiction).
        unfold g1; rewrite getNode_setNode_other by assumption.
        assert (Hp' : ~ marked g p).
        { intros H; apply Hp, Hgrow; assumption. }
        destruct (HC p Hg Hp' Hpw) as [H|H]; [left; assumption|].
        destruct (Hsplit _ H) as [->|H']; [contradiction|right; assumption]. }
      split; [|intros v []].
      intros u Hu Hne; unfold marked, g1 in Hu.
      rewrite getNode_setNode_other in Hu by assumption.
      destruct (HD u Hu) as [H1 H2]; split; [assumption|].
      intros y Hy Hoy; destruct (H2 y Hy Hoy) as [H|H];
        [left; apply Hgrow; assumption|].
      destruct (Hsplit _ H) as [->|H']; [left|right]; assumption. }
    assert (HF := fold_left_prefix _ _ (greedy_neighbor c endNode)
                    (greedy_fold_closed g0 startNode endNode g1 c)
                    (getNeighbors c g1) [] (g1, open') H0).
    simpl in HF.
    destruct (fold_left (greedy_neighbor c endNode) (getNeighbors c g1)
                (g1, open')) as [g' o'].
    destruct HF as [HL' [Hk' [HA' [HB' [HC' [HD' Hd']]]]]].
    { intros done x [g2 o2] Hx H2; apply greedy_neighbor_closed;
        [|assumption].
      rewrite (layout_getNeighbors g1 g0 c HL1) in Hx.
      eapply getNeighbors_inGrid; eassumption. }
    split; [assumption|split; [assumption|split; [assumption|]]].
    intros u Hu; destruct (pos_eq_dec u c) as [->|Hne];
      [|apply HD'; assumption].
    split; [assumption|].
    intros y Hy Hoy; apply Hd'; [|assumption].
    rewrite (layout_getNeighbors g1 g0 c HL1).
    apply getNeighbors_spec; [assumption|].
    split; [assumption|].
    unfold open_cell in Hoy; apply andb_true_iff in Hoy; tauto.
Qed.

End GreedyClosed.

Lemma greedy_init_closed : forall g s e,
  fresh g = true -> is_wall (getNode g s) = false ->
  (forall p, inGrid g p = true -> heuristic (getNode g p) = Infinity) ->
  greedy_closed g s e (greedy_init g s e).
Proof.
  intros g s e HF Hw Hh; unfold greedy_init.
  split; [right; left; reflexivity|].
  split; [intros p [<-|[]]; rewrite is_wall_setNode by reflexivity;
          assumption|].
  split.
  - intros p Hg _ _; destruct (pos_eq_dec p s) as [->|Hne];
      [right; left; reflexivity|left].
    rewrite getNode_setNode_other by assumption; apply Hh; assumption.
  - intros u Hu; unfold marked in Hu.
    rewrite (field_setNode _ isVisited) in Hu by reflexivity.
    destruct (fresh_fields g u HF) as [Hn _]; congruence.
Qed.

Lemma greedy_loop_complete : forall g s e fuel o,
  rectangular g = true -> inGrid g s = true -> fresh g = true ->
  (forall p, inGrid g p = true -> heuristic (getNode g p) = Infinity) ->
  greedy_loop fuel g s e = Some o -> out_complete g s e o.
Proof.
  intros g s e fuel o HR HG HF Hh H.
  destruct (is_wall (getNode g s)) eqn:Ew;
    [apply walled_complete; assumption|].
  unfold greedy_loop in H; rewrite greedy_step_best in H.
  apply (loop_invariant _ _
           (best_step greedy_cmp (fun u => greedy_neighbor u e) e)
           (fun st => best_inv g st /\ greedy_closed g s e st)
           (out_complete g s e))
    with (fuel := fuel) (s := greedy_init g s e); auto.
  - intros st [H1 H2].
    assert (Hi := best_step_inv greedy_cmp (fun u => greedy_neighbor u e)
                    (greedy_relaxes e) g e HR st H1).
    assert (Hc := greedy_step_closed g s e HR st H1 H2).
    destruct (best_step greedy_cmp (fun u => greedy_neighbor u e) e st);
      auto.
  - split; [apply best_init_inv; auto|].
    apply greedy_init_closed; assumption.
Qed.

(** A search whose loop is complete succeeds when a path exists. *)
Lemma search_complete : forall L bound,
  loop_monotone L -> loop_stops L bound -> loop_links L ->
  forall g s e l,
    rectangular g = true -> inGrid g s = true -> fresh g = true ->
    (forall fuel o, L fuel g s e = Some o -> out_complete g s e o) ->
    is_path g s e l = true ->
    exists r g',
      Returns (fun fuel => search_of L fuel g s e) (r, g') /\
      success r = true /\ is_path g s e (shortestPath r) = true.
Proof.
  intros L bound HM HS HLk g s e l HR HG HF HC Hl.
  destruct (search_returns L bound HM HS HLk g s e HR HG HF)
    as [r [g' [[n0 Hret] Hrest]]].
  exists r, g'; split; [exists n0; assumption|].
  assert (H := Hret n0 (Nat.le_refl n0)); unfold search_of in H.
  destruct (L n0 g s e) as [o|] eqn:E; [|discriminate].
  destruct (finish_Some n0 e o r g' H) as [-> [Hv [Hs [Hn Hy]]]].
  assert (Hfound : out_found o = true).
  { destruct (out_found o) eqn:Ef; [reflexivity|].
    exfalso; apply (HC n0 o E Ef l); apply is_path_walk; assumption. }
  split; [congruence|].
  destruct (HLk g s e n0 o HR HG HF E Hfound) as [lc [Hc Hw]].
  specialize (Hy Hfound).
  rewrite (reconstructPath_chain n0 (out_grid o) e _ lc Hy Hc).
  apply walk_is_path; assumption.
Qed.

(* ================================================================== *)
(** * The board of the component, under the buttons, the timeouts and
      the mouse *)
(* ================================================================== *)

(** ** Start and end cells are never made by a frame or a reset *)

Lemma noNewEnds_refl : forall g, noNewEnds g g.
Proof. intros g p; split; auto. Qed.

Lemma noNewEnds_trans : forall g1 g2 g3,
  noNewEnds g1 g2 -> noNewEnds g2 g3 -> noNewEnds g1 g3.
Proof.
  intros g1 g2 g3 H1 H2 p; destruct (H1 p), (H2 p); split; auto.
Qed.

Lemma noNewEnds_setType : forall g p t,
  notStartOrEnd t = true -> noNewEnds g (setType g p t).
Proof.
  intros g p t Ht q; unfold setType.
  destruct (getNode_setNode_cases g p q (set_type t)) as [E|[_ [_ E]]];
    rewrite E; [tauto|].
  simpl; split; intros ->; discriminate.
Qed.

Lemma noNewEnds_map : forall (f : Node -> Node) g,
  f createNode = createNode ->
  (forall n, type (f n) = Start -> type n = Start) ->
  (forall n, type (f n) = EndCell -> type n = EndCell) ->
  noNewEnds g (map (map f) g).
Proof.
  intros f g Hd H1 H2 p; rewrite getNode_map by assumption; split; auto.
Qed.

Lemma noNewEnds_resetForRun : forall g, noNewEnds g (resetForRun g).
Proof.
  intros g; unfold resetForRun.
  pose (f := fun node : Node =>
               mkNode (match type node with
                       | Visited | Path => Empty
                       | t => t
                       end) false Infinity Infinity None).
  intros p; split; intros H.
  - destruct (Nat.lt_ge_cases (fst p) (length g)) as [Hr|Hr];
      [destruct (Nat.lt_ge_cases (snd p) (length (nth (fst p) g [])))
         as [Hc|Hc]|].
    + unfold getNode in *.
      rewrite (nth_indep _ [] (map f [])) in H
        by (rewrite length_map; assumption).
      rewrite map_nth in H.
      rewrite (nth_indep _ createNode (f createNode)) in H
        by (rewrite length_map; assumption).
      rewrite map_nth in H; simpl in H.
      destruct (type (nth (snd p) (nth (fst p) g []) createNode));
        try discriminate; reflexivity.
    + unfold getNode in H.
      rewrite (nth_indep _ [] (map f [])) in H
        by (rewrite length_map; assumption).
      rewrite map_nth, nth_overflow in H
        by (rewrite length_map; assumption).
      discriminate.
    + unfold getNode in H.
      rewrite (nth_overflow (map _ g)) in H
        by (rewrite length_map; assumption).
      destruct (snd p); discriminate.
  - destruct (Nat.lt_ge_cases (fst p) (length g)) as [Hr|Hr];
      [destruct (Nat.lt_ge_cases (snd p) (length (nth (fst p) g [])))
         as [Hc|Hc]|].
    + unfold getNode in *.
      rewrite (nth_indep _ [] (map f [])) in H
        by (rewrite length_map; assumption).
      rewrite map_nth in H.
      rewrite (nth_indep _ createNode (f createNode)) in H
        by (rewrite length_map; assumption).
      rewrite map_nth in H; simpl in H.
      destruct (type (nth (snd p) (nth (fst p) g []) createNode));
        try discriminate; reflexivity.
    + unfold getNode in H.
      rewrite (nth_indep _ [] (map f [])) in H
        by (rewrite length_map; assumption).
      rewrite map_nth, nth_overflow in H
        by (rewrite length_map; assumption).
      discriminate.
    + unfold getNode in H.
      rewrite (nth_overflow (map _ g)) in H
        by (rewrite length_map; assumption).
      destruct (snd p); discriminate.
Qed.

Lemma noNewEnds_clearWalls : forall g, noNewEnds g (clearWalls g).
Proof.
  intros g; apply noNewEnds_map; [reflexivity| |]; intros n;
    destruct (CellType_eqb (type n) Wall); simpl; auto; discriminate.
Qed.

Lemma noNewEnds_clearFrontiers : forall g, noNewEnds g (clearFrontiers g).
Proof.
  intros g; apply noNewEnds_map; [reflexivity| |]; intros n;
    destruct (CellType_eqb (type n) Frontier); simpl; auto; discriminate.
Qed.

Lemma noNewEnds_showFrontier : forall searched visited index g,
  noNewEnds g (showFrontier searched visited index g).
Proof.
  intros searched visited index g; unfold showFrontier.
  apply fold_left_invariant with (I := fun g' => noNewEnds g g');
    [apply noNewEnds_refl|].
  intros g' i _ IH.
  destruct (nth_error visited (index + i)) as [nextNode|]; [|assumption].
  destruct (notStartOrEnd (type (getNode searched nextNode))
            && negb (CellType_eqb (type (getNode searched nextNode)) Visited));
    [|assumption].
  eapply noNewEnds_trans; [exact IH|apply noNewEnds_setType; reflexivity].
Qed.

Lemma noNewEnds_showFrontier_resumed : forall visited i g,
  noNewEnds g (showFrontier_resumed visited i g).
Proof.
  intros visited i g; unfold showFrontier_resumed.
  apply fold_left_invariant with (I := fun g' => noNewEnds g g');
    [apply noNewEnds_refl|].
  intros g' j _ IH.
  destruct (nth_error visited (i + j)) as [nextNode|]; [|assumption].
  destruct (notStartOrEnd (type (getNode g' nextNode))
            && negb (CellType_eqb (type (getNode g' nextNode)) Visited));
    [|assumption].
  eapply noNewEnds_trans; [exact IH|apply noNewEnds_setType; reflexivity].
Qed.

Lemma shape_showFrontier_resumed : forall visited i g,
  shape (showFrontier_resumed visited i g) = shape g.
Proof.
  intros visited i g; unfold showFrontier_resumed.
  apply fold_left_invariant with (I := fun g' => shape g' = shape g);
    [reflexivity|].
  intros g' j _ IH.
  destruct (nth_error visited (i + j)) as [nextNode|]; [|assumption].
  destruct (notStartOrEnd (type (getNode g' nextNode))
            && negb (CellType_eqb (type (getNode g' nextNode)) Visited));
    [|assumption].
  unfold setType; rewrite shape_setNode; assumption.
Qed.

Lemma noNewEnds_visitedFrame : forall searched visited node index g,
  noNewEnds g (visitedFrame searched visited node index g).
Proof.
  intros; unfold visitedFrame.
  eapply noNewEnds_trans; [|apply noNewEnds_showFrontier].
  eapply noNewEnds_trans; [|apply noNewEnds_clearFrontiers].
  apply noNewEnds_setType; reflexivity.
Qed.

Lemma noNewEnds_visitedFrame_resumed : forall visited node i g,
  noNewEnds g (visitedFrame_resumed visited node i g).
Proof.
  intros; unfold visitedFrame_resumed.
  eapply noNewEnds_trans; [|apply noNewEnds_showFrontier_resumed].
  eapply noNewEnds_trans; [|apply noNewEnds_clearFrontiers].
  destruct (notStartOrEnd (type (getNode g node)));
    [apply noNewEnds_setType; reflexivity|apply noNewEnds_refl].
Qed.

Lemma shape_visitedFrame_resumed : forall visited node i g,
  shape (visitedFrame_resumed visited node i g) = shape g.
Proof.
  intros; unfold visitedFrame_resumed, clearFrontiers.
  rewrite shape_showFrontier_resumed, shape_map.
  destruct (notStartOrEnd (type (getNode g node))); [|reflexivity].
  unfold setType; apply shape_setNode.
Qed.

Lemma setWall_cases : forall g row col isWall,
  setWall g row col isWall = g \/
  setWall g row col isWall
  = setType g (row, col) (if isWall then Wall else Empty).
Proof.
  intros g row col isWall; unfold setWall.
  destruct (CellType_eqb (type (getNode g (row, col))) Start
            || CellType_eqb (type (getNode g (row, col))) EndCell); auto.
Qed.

(** ** The board *)

Lemma board_flags : forall p c c',
  props c' = props c -> grid c' = grid c ->
  startPos c' = startPos c -> endPos c' = endPos c ->
  (forall t, In t (timers c') -> In t (timers c)) ->
  board p c -> board p c'.
Proof.
  intros p c c' Hp Hg Hs He Ht [B1 [B2 [B3 [B4 [B5 [B6 B7]]]]]].
  unfold board, placed in *; rewrite Hp, Hg, Hs, He.
  repeat (split; [assumption|]).
  intros t Hin; apply B7, Ht; assumption.
Qed.

Lemma board_schedule : forall p cb d c,
  runsOnBoard p cb -> board p c -> board p (schedule cb d c).
Proof.
  intros p cb d c Hcb [B1 [B2 [B3 [B4 [B5 [B6 B7]]]]]].
  unfold board, placed, schedule, setTimeout in *; fields.
  repeat (split; [assumption|]).
  intros t Ht; apply in_app_iff in Ht; destruct Ht as [Ht|[<-|[]]];
    [apply B7|]; assumption.
Qed.

Lemma board_setTimeout : forall p cb d c,
  runsOnBoard p cb -> board p c -> board p (snd (setTimeout cb d c)).
Proof.
  intros p cb d c Hcb [B1 [B2 [B3 [B4 [B5 [B6 B7]]]]]].
  unfold board, placed, setTimeout in *; fields.
  repeat (split; [assumption|]).
  intros t Ht; apply in_app_iff in Ht; destruct Ht as [Ht|[<-|[]]];
    [apply B7|]; assumption.
Qed.

Lemma board_forEach : forall p (A : Type) f (l : list A) index c,
  (forall x i c', board p c' -> board p (f x i c')) ->
  board p c -> board p (forEach f l index c).
Proof.
  intros p A f l; induction l as [|x l IH]; intros index c Hf H; simpl;
    [assumption|].
  apply IH; [assumption|apply Hf; assumption].
Qed.

Lemma board_setGrid : forall p g c,
  shape g = shape (grid c) -> searchable g = true ->
  noNewEnds (grid c) g ->
  board p c -> board p (setGrid g c).
Proof.
  intros p g c Hs Hg Hn [B1 [B2 [B3 [B4 [B5 [B6 B7]]]]]].
  unfold board, placed in *; fields.
  split; [assumption|split; [congruence|split; [assumption|]]].
  split; [assumption|split; [assumption|split; [|assumption]]].
  intros q; destruct (Hn q) as [H1 H2], (B6 q) as [H3 H4]; split; auto.
Qed.

Lemma board_clearAnimations : forall p c,
  board p c -> board p (clearAnimations c).
Proof.
  intros p c H; rewrite clearAnimations_eq.
  eapply board_flags; [| | | | |exact H]; try reflexivity.
  fields; intros t Ht; apply filter_In in Ht; tauto.
Qed.

Lemma board_animateAlgorithm : forall p searched visited path c,
  board p c -> board p (animateAlgorithm searched visited path c).
Proof.
  intros p searched visited path c H; unfold animateAlgorithm; cbv zeta.
  apply board_schedule; [discriminate|].
  apply board_forEach;
    [intros; apply board_schedule; [discriminate|assumption]|].
  apply board_schedule; [discriminate|].
  apply board_forEach;
    [intros; apply board_schedule; [discriminate|assumption]|].
  eapply board_flags; [| | | | |exact H]; try reflexivity; auto.
Qed.

Lemma board_resumeVisualization : forall p c,
  board p c -> board p (resumeVisualization c).
Proof.
  intros p c H; unfold resumeVisualization.
  destruct (animationData c) as [data|]; [|assumption].
  destruct (isPaused c); [|assumption]; cbv zeta; cbn [negb].
  apply board_schedule; [discriminate|].
  apply board_forEach;
    [intros; apply board_schedule; [discriminate|assumption]|].
  apply board_schedule; [discriminate|].
  apply fold_left_invariant with (I := board p).
  - eapply board_flags; [| | | | |exact H]; try reflexivity; auto.
  - intros c' i _ Hc'.
    destruct (nth_error (visitedNodes data) i); [|assumption].
    apply board_schedule; [discriminate|assumption].
Qed.

Lemma placed_resetGrid : forall rows cols q,
  1 <= rows -> 1 <= cols ->
  (type (getNode (resetGrid rows cols) q) = Start ->
   q = (rows / 2, cols / 4)) /\
  (type (getNode (resetGrid rows cols) q) = EndCell ->
   q = (rows / 2, (cols * 3) / 4)).
Proof.
  intros rows cols q Hr Hc; rewrite getNode_resetGrid by assumption.
  destruct (pos_eqb q (rows / 2, (cols * 3) / 4)) eqn:Ee;
    [split; [discriminate|intros _; apply pos_eqb_eq; assumption]|].
  destruct (pos_eqb q (rows / 2, cols / 4)) eqn:Es;
    [split; [intros _; apply pos_eqb_eq; assumption|discriminate]|].
  split; discriminate.
Qed.

Lemma board_reset : forall p c,
  1 <= rows p -> 1 <= cols p ->
  props c = p -> (forall t, In t (timers c) -> runsOnBoard p (callback t)) ->
  grid c = resetGrid (rows p) (cols p) ->
  startPos c = (rows p / 2, cols p / 4) ->
  endPos c = (rows p / 2, (cols p * 3) / 4) ->
  board p c.
Proof.
  intros p c Hr Hc Hp Ht Hg Hs He.
  destruct (default_positions (rows p) (cols p) Hr Hc) as [P1 [P2 [P3 _]]].
  unfold board, placed, onBoard; rewrite Hg, Hs, He.
  split; [assumption|split; [apply shape_resetGrid|]].
  split; [apply searchable_resetGrid|].
  split; [split; assumption|split; [split; assumption|]].
  split; [intros q; apply placed_resetGrid; assumption|assumption].
Qed.

Lemma board_mount : forall p,
  1 <= rows p -> 1 <= cols p -> board p (mount p).
Proof.
  intros p Hr Hc; apply board_reset; auto; intros t [].
Qed.

(** Every button and every timeout keeps the board in order. *)
Lemma board_handle : forall p fuel ev c c',
  1 <= rows p -> 1 <= cols p ->
  board p c -> handle fuel ev c = Some c' -> board p c'.
Proof.
  intros p fuel ev c c' Hr Hc H E; destruct ev; simpl in E.
  - injection E as <-; unfold visualizeAlgorithm.
    destruct (isVisualizing c || animationCompleted c); [assumption|].
    cbv zeta.
    assert (H1 := board_clearAnimations p c H).
    apply board_setTimeout.
    + intros g s e Heq; injection Heq as <- <- <-.
      destruct H as [_ [B2 [B3 [B4 [B5 _]]]]]; auto.
    + eapply board_flags with
        (c := setGrid (resetForRun (grid (clearAnimations c)))
                (clearAnimations c)); try reflexivity; auto.
      apply board_setGrid; [apply shape_map| |apply noNewEnds_resetForRun
                            |assumption].
      apply searchable_resetForRun.
      destruct H1 as [_ [_ [B3 _]]]; unfold searchable in B3.
      apply andb_true_iff in B3; tauto.
  - injection E as <-; unfold onPauseTrigger.
    destruct (isPaused c); [apply board_resumeVisualization; assumption|].
    unfold pauseVisualization.
    destruct (negb (canPause c) || negb (isVisualizing c)); [assumption|].
    apply board_clearAnimations.
    eapply board_flags; [| | | | |exact H]; try reflexivity; auto.
  - injection E as <-; unfold stopVisualization.
    eapply board_flags;
      [| | | | |exact (board_clearAnimations p c H)]; try reflexivity; auto.
  - injection E as <-; unfold handleClearWalls; cbv zeta.
    assert (H1 := board_clearAnimations p c H).
    apply board_setGrid.
    + fields; apply shape_map.
    + fields; apply searchable_clearWalls; apply H1.
    + fields; apply noNewEnds_clearWalls.
    + eapply board_flags; [| | | | |exact H1]; try reflexivity; auto.
  - injection E as <-; unfold handleReset; cbv zeta.
    assert (H1 := board_clearAnimations p c H).
    destruct H1 as [B1 [_ [_ [_ [_ [_ B7]]]]]].
    assert (Hp : props c = p) by apply H.
    apply board_reset; auto; fields; rewrite ?Hp; auto.
  - unfold fire in E.
    destruct (timers c) as [|t0 rest] eqn:Et; [injection E as <-; assumption|].
    set (t := earliest t0 rest) in *.
    assert (Hd : board p (dequeue t c)).
    { eapply board_flags; [| | | | |exact H]; try reflexivity.
      unfold dequeue, clearTimeout; fields.
      intros u Hu; apply filter_In in Hu; tauto. }
    assert (Hg : searchable (grid (dequeue t c)) = true) by apply Hd.
    destruct (callback t) as [g s e|searched visited node index|
                              |searched node| |visited node i|node|];
      cbn [runCallback] in E; cbv zeta in E.
    + destruct (getAlgorithmFunction (selectedAlgorithm (props (dequeue t c)))
                  fuel g s e) as [[result searched']|]; [|discriminate].
      injection E as <-; apply board_animateAlgorithm; assumption.
    + assert (Hi : board p (set_currentAnimationIndex index (dequeue t c)))
        by (eapply board_flags; [| | | | |exact Hd]; try reflexivity; auto).
      destruct (notStartOrEnd (type (getNode searched node)));
        injection E as <-; [|assumption].
      apply board_setGrid; [| | |assumption]; fields.
      * apply shape_visitedFrame.
      * unfold visitedFrame.
        apply searchable_showFrontier, searchable_clearFrontiers,
          searchable_setType; assumption.
      * apply noNewEnds_visitedFrame.
    + injection E as <-; apply board_setGrid; [| | |assumption].
      * apply shape_map.
      * apply searchable_clearFrontiers; assumption.
      * apply noNewEnds_clearFrontiers.
    + destruct (notStartOrEnd (type (getNode searched node)));
        injection E as <-; [|assumption].
      apply board_setGrid; [| | |assumption].
      * apply shape_setNode.
      * apply searchable_setType; assumption.
      * apply noNewEnds_setType; reflexivity.
    + injection E as <-.
      eapply board_flags; [| | | | |exact Hd]; try reflexivity; auto.
    + assert (Hi : board p (set_currentAnimationIndex (i + 1) (dequeue t c)))
        by (eapply board_flags; [| | | | |exact Hd]; try reflexivity; auto).
      injection E as <-; apply board_setGrid; [| | |assumption]; fields.
      * apply shape_visitedFrame_resumed.
      * unfold visitedFrame_resumed.
        apply searchable_showFrontier_resumed, searchable_clearFrontiers.
        match goal with
        | |- context [if ?b then _ else _] => destruct b
        end; [apply searchable_setType|]; assumption.
      * apply noNewEnds_visitedFrame_resumed.
    + injection E as <-; apply board_setGrid; [| | |assumption].
      * match goal with
        | |- context [if ?b then _ else _] => destruct b
        end; [apply shape_setNode|reflexivity].
      * match goal with
        | |- context [if ?b then _ else _] => destruct b
        end; [apply searchable_setType|]; assumption.
      * match goal with
        | |- context [if ?b then _ else _] => destruct b
        end; [apply noNewEnds_setType; reflexivity|apply noNewEnds_refl].
    + injection E as <-.
      eapply board_flags; [| | | | |exact Hd]; try reflexivity; auto.
Qed.

(** ** The mouse *)

Lemma board_setWall : forall p c row col isWall,
  board p c -> board p (setGrid (setWall (grid c) row col isWall) c).
Proof.
  intros p c row col isWall H.
  destruct (setWall_cases (grid c) row col isWall) as [E|E]; rewrite E.
  - eapply board_flags; [| | | | |exact H]; try reflexivity; auto.
  - apply board_setGrid; [apply shape_setNode| | |assumption].
    + apply searchable_setType; apply H.
    + apply noNewEnds_setType; destruct isWall; reflexivity.
Qed.

Lemma type_setType : forall g p q t,
  type (getNode (setType g p t) q) = type (getNode g q) \/
  (q = p /\ type (getNode (setType g p t) q) = t).
Proof.
  intros g p q t; unfold setType.
  destruct (getNode_setNode_cases g p q (set_type t)) as [E|[-> [_ E]]];
    rewrite E; [left; reflexivity|right; split; reflexivity].
Qed.

Lemma type_setType_same : forall g p t,
  type (getNode (setType g p t) p) = t \/
  (type (getNode (setType g p t) p) = Empty /\
   type (getNode g p) = Empty).
Proof.
  intros g p t; unfold setType.
  destruct (getNode_setNode_cases g p p (set_type t)) as [E|[_ [HS E]]].
  - destruct p as [r c].
    destruct (Nat.lt_ge_cases r (length g)) as [Hr|Hr];
      [destruct (Nat.lt_ge_cases c (length (nth r g []))) as [Hc|Hc]|].
    + left; rewrite getNode_setNode_same by (split; assumption); reflexivity.
    + right; rewrite E; unfold getNode; simpl.
      rewrite nth_overflow by assumption; auto.
    + right; rewrite E; unfold getNode; simpl.
      rewrite (nth_overflow g) by assumption; destruct c; auto.
  - left; rewrite E; reflexivity.
Qed.

(** Moving the start: the old start cell is emptied, and the start is put
    on the cell entered unless that cell is the end. *)
Lemma board_move_start : forall p c row col,
  row < rows p -> col < cols p ->
  board p c ->
  let newGrid := setType (grid c) (startPos c) Empty in
  board p (if negb (CellType_eqb (type (getNode newGrid (row, col))) EndCell)
           then setStartPos (row, col)
                  (setGrid (setType newGrid (row, col) Start) c)
           else setGrid newGrid c).
Proof.
  intros p c row col Hrow Hcol H newGrid.
  assert (H1 : board p (setGrid newGrid c)).
  { apply board_setGrid; [apply shape_setNode| | |assumption].
    - apply searchable_setType; apply H.
    - apply noNewEnds_setType; reflexivity. }
  destruct (CellType_eqb (type (getNode newGrid (row, col))) EndCell) eqn:Ee;
    simpl; [assumption|].
  destruct H as [B1 [B2 [B3 [B4 [B5 [B6 B7]]]]]].
  unfold board, placed in *; fields.
  split; [assumption|].
  split; [unfold newGrid, setType; rewrite !shape_setNode; assumption|].
  split; [unfold newGrid; apply searchable_setType, searchable_setType;
          assumption|].
  split; [split; assumption|split; [assumption|split; [|assumption]]].
  intros q; split; intros Hq.
  - destruct (type_setType newGrid (row, col) q Start) as [E|[-> _]];
      [|reflexivity].
    rewrite E in Hq; unfold newGrid in Hq.
    assert (Hq' : type (getNode (grid c) q) = Start).
    { destruct (type_setType (grid c) (startPos c) q Empty) as [E'|[_ E']];
        rewrite E' in Hq; [assumption|discriminate]. }
    apply B6 in Hq'; subst q; exfalso.
    destruct (type_setType_same (grid c) (startPos c) Empty) as [E2|[E2 _]];
      rewrite E2 in Hq; discriminate.
  - destruct (type_setType newGrid (row, col) q Start) as [E1|[_ E1]];
      rewrite E1 in Hq; [|discriminate].
    unfold newGrid in Hq.
    destruct (type_setType (grid c) (startPos c) q Empty) as [E'|[_ E']];
      rewrite E' in Hq; [|discriminate].
    apply B6; assumption.
Qed.

Lemma board_move_end : forall p c row col,
  row < rows p -> col < cols p ->
  board p c ->
  let newGrid := setType (grid c) (endPos c) Empty in
  board p (if negb (CellType_eqb (type (getNode newGrid (row, col))) Start)
           then setEndPos (row, col)
                  (setGrid (setType newGrid (row, col) EndCell) c)
           else setGrid newGrid c).
Proof.
  intros p c row col Hrow Hcol H newGrid.
  assert (H1 : board p (setGrid newGrid c)).
  { apply board_setGrid; [apply shape_setNode| | |assumption].
    - apply searchable_setType; apply H.
    - apply noNewEnds_setType; reflexivity. }
  destruct (CellType_eqb (type (getNode newGrid (row, col))) Start) eqn:Ee;
    simpl; [assumption|].
  destruct H as [B1 [B2 [B3 [B4 [B5 [B6 B7]]]]]].
  unfold board, placed in *; fields.
  split; [assumption|].
  split; [unfold newGrid, setType; rewrite !shape_setNode; assumption|].
  split; [unfold newGrid; apply searchable_setType, searchable_setType;
          assumption|].
  split; [assumption|split; [split; assumption|split; [|assumption]]].
  intros q; split; intros Hq.
  - destruct (type_setType newGrid (row, col) q EndCell) as [E1|[_ E1]];
      rewrite E1 in Hq; [|discriminate].
    unfold newGrid in Hq.
    destruct (type_setType (grid c) (endPos c) q Empty) as [E'|[_ E']];
      rewrite E' in Hq; [|discriminate].
    apply B6; assumption.
  - destruct (type_setType newGrid (row, col) q EndCell) as [E|[-> _]];
      [|reflexivity].
    rewrite E in Hq; unfold newGrid in Hq.
    assert (Hq' : type (getNode (grid c) q) = EndCell).
    { destruct (type_setType (grid c) (endPos c) q Empty) as [E'|[_ E']];
        rewrite E' in Hq; [assumption|discriminate]. }
    apply B6 in Hq'; subst q; exfalso.
    destruct (type_setType_same (grid c) (endPos c) Empty) as [E2|[E2 _]];
      rewrite E2 in Hq; discriminate.
Qed.

Lemma board_act : forall p fuel a ed ed',
  1 <= rows p -> 1 <= cols p ->
  onCell (rows p) (cols p) a = true ->
  board p (fst ed) -> act fuel a ed = Some ed' -> board p (fst ed').
Proof.
  intros p fuel a [c d] ed' Hr Hc Ha H E; destruct a as [ev|row col|row col|];
    simpl in E.
  - destruct (handle fuel ev c) as [c'|] eqn:Eh; [|discriminate].
    injection E as <-; simpl.
    apply (board_handle p fuel ev c c'); assumption.
  - injection E as <-; simpl in *.
    destruct (CellType_eqb (type (getNode (grid c) (row, col))) Start);
      [assumption|].
    destruct (CellType_eqb (type (getNode (grid c) (row, col))) EndCell);
      [assumption|].
    simpl; apply board_setWall; assumption.
  - injection E as <-; simpl in Ha.
    apply andb_true_iff in Ha; destruct Ha as [Ha1 Ha2].
    apply Nat.ltb_lt in Ha1; apply Nat.ltb_lt in Ha2.
    unfold handleMouseEnter.
    destruct (isMovingStart d).
    { assert (Hm := board_move_start p c row col Ha1 Ha2 H); cbv zeta in *.
      simpl in H.
      destruct (negb (CellType_eqb
                  (type (getNode (setType (grid c) (startPos c) Empty)
                           (row, col))) EndCell)); exact Hm. }
    destruct (isMovingEnd d).
    { assert (Hm := board_move_end p c row col Ha1 Ha2 H); cbv zeta in *.
      simpl in H.
      destruct (negb (CellType_eqb
                  (type (getNode (setType (grid c) (endPos c) Empty)
                           (row, col))) Start)); exact Hm. }
    destruct (isMousePressed d); [|assumption].
    simpl; apply board_setWall; assumption.
  - injection E as <-; assumption.
Qed.

Lemma board_acts : forall p fuel l ed ed',
  1 <= rows p -> 1 <= cols p ->
  forallb (onCell (rows p) (cols p)) l = true ->
  board p (fst ed) -> acts fuel l ed = Some ed' -> board p (fst ed').
Proof.
  intros p fuel l; induction l as [|a l IH]; intros ed ed' Hr Hc Hl H E;
    simpl in E.
  - injection E as <-; assumption.
  - simpl in Hl; apply andb_true_iff in Hl; destruct Hl as [Ha Hl].
    destruct (act fuel a ed) as [ed1|] eqn:E1; [|discriminate].
    apply (IH ed1 ed'); auto.
    apply (board_act p fuel a ed ed1); assumption.
Qed.

(* ================================================================== *)
(** * The playback scheduler: a run to its end *)
(* ================================================================== *)

Section PathTimes.

Import QArith_base Lqa.
Local Open Scope Q_scope.

(** The path frames are due in the order of their indices, and the
    completion after them. *)
Lemma path_due_mono : forall c n i j,
  (i <= j)%nat ->
  time_leb
    (time_add (now c)
       (time_add (time_add (time_mul (delayOf c) (count n)) (ms 50))
          (time_mul (time_mul (delayOf c) (count i)) (ms 3))))
    (time_add (now c)
       (time_add (time_add (time_mul (delayOf c) (count n)) (ms 50))
          (time_mul (time_mul (delayOf c) (count j)) (ms 3))))
  = true.
Proof.
  intros c n i j H; unfold time_leb, time_add, time_mul, ms.
  apply Qle_bool_iff.
  assert (H1 := delayOf_pos c). assert (H2 := count_mono i j H).
  assert (delayOf c * count i <= delayOf c * count j)
    by (apply Qmult_le_l; assumption).
  change (inject_Z 3) with 3.
  lra.
Qed.

Lemma path_due_before_complete : forall c n m j,
  (j <= m)%nat ->
  time_leb
    (time_add (now c)
       (time_add (time_add (time_mul (delayOf c) (count n)) (ms 50))
          (time_mul (time_mul (delayOf c) (count j)) (ms 3))))
    (time_add (now c)
       (time_add
          (time_add (time_add (time_mul (delayOf c) (count n)) (ms 50))
             (time_mul (time_mul (delayOf c) (count m)) (ms 3)))
          (ms 100)))
  = true.
Proof.
  intros c n m j H; unfold time_leb, time_add, time_mul, ms.
  apply Qle_bool_iff.
  assert (H1 := delayOf_pos c). assert (H2 := count_mono j m H).
  assert (delayOf c * count j <= delayOf c * count m)
    by (apply Qmult_le_l; assumption).
  change (inject_Z 3) with 3; change (inject_Z 100) with 100.
  lra.
Qed.

End PathTimes.

Lemma firstn_S_nth_error : forall (A : Type) k (l : list A) x,
  nth_error l k = Some x -> firstn (S k) l = firstn k l ++ [x].
Proof.
  intros A k; induction k as [|k IH]; intros [|a l] x H; simpl in H;
    try discriminate.
  - injection H as ->; reflexivity.
  - change (firstn (S (S k)) (a :: l)) with (a :: firstn (S k) l).
    rewrite (IH l x H); reflexivity.
Qed.

Lemma drawn_snoc : forall searched path node g,
  drawn searched (path ++ [node]) g
  = if notStartOrEnd (type (getNode searched node))
    then setType (drawn searched path g) node Path
    else drawn searched path g.
Proof.
  intros searched path node g; unfold drawn; rewrite fold_left_app.
  reflexivity.
Qed.

Section FullRun.

Variable fuel : nat.
Variable searched : Grid.
Variables visited path : list Pos.
Variable c : GridComponent.
Hypothesis c_quiet : timers c = [].

(** The timer table that [animateAlgorithm] leaves. *)
Lemma animateAlgorithm_table :
  timers (animateAlgorithm searched visited path c)
  = timersOf (VisitedFrame searched visited)
      (fun i => time_add (now c) (time_mul (delayOf c) (count i)))
      (nextTimer c) 0 visited
    ++ mkTimer (nextTimer c + length visited)
         (time_add (now c)
            (time_mul (delayOf c) (count (length visited))))
         ClearFrontiers
    :: timersOf (fun x (_ : nat) => PathFrame searched x)
         (fun j =>
            time_add (now c)
              (time_add
                 (time_add (time_mul (delayOf c) (count (length visited)))
                    (ms 50))
                 (time_mul (time_mul (delayOf c) (count j)) (ms 3))))
         (S (nextTimer c + length visited)) 0 path
    ++ [mkTimer (S (nextTimer c + length visited) + length path)
          (time_add (now c)
             (time_add
                (time_add
                   (time_add
                      (time_mul (delayOf c) (count (length visited)))
                      (ms 50))
                   (time_mul
                      (time_mul (delayOf c) (count (length path))) (ms 3)))
                (ms 100)))
          Complete].
Proof.
  unfold animateAlgorithm; cbv zeta.
  rewrite !forEach_schedule; fields.
  change (delayOf (set_animationData _ c)) with (delayOf c).
  rewrite c_quiet; cbn [app].
  rewrite <- !app_assoc; reflexivity.
Qed.

(** After the visited frames and the frame that clears the frontier. *)
Lemma playback_cleared :
  exists c1,
    fires fuel (S (length visited)) (animateAlgorithm searched visited path c)
    = Some c1 /\
    grid c1
    = clearFrontiers (played searched visited (length visited) (grid c)) /\
    timers c1
    = timersOf (fun x (_ : nat) => PathFrame searched x)
        (fun j =>
           time_add (now c)
             (time_add
                (time_add (time_mul (delayOf c) (count (length visited)))
                   (ms 50))
                (time_mul (time_mul (delayOf c) (count j)) (ms 3))))
        (S (nextTimer c + length visited)) 0 path
      ++ [mkTimer (S (nextTimer c + length visited) + length path)
            (time_add (now c)
               (time_add
                  (time_add
                     (time_add
                        (time_mul (delayOf c) (count (length visited)))
                        (ms 50))
                     (time_mul
                        (time_mul (delayOf c) (count (length path))) (ms 3)))
                  (ms 100)))
            Complete].
Proof.
  assert (HT := animateAlgorithm_table).
  match type of HT with
  | _ = _ ++ ?r => set (rest := r) in *
  end.
  assert (Hdue : dueAfter (time_add (now c)
                   (time_mul (delayOf c) (count (length visited)))) rest).
  { intros t [<-|Ht]; [apply time_leb_refl|].
    apply in_app_iff in Ht; destruct Ht as [Ht|[<-|[]]].
    - apply timersOf_In in Ht; destruct Ht as [j [_ [-> _]]].
      apply path_due_after.
    - apply complete_due_after. }
  assert (Hid : forall t, In t rest ->
                  nextTimer c + length visited <= timer_id t).
  { intros t [<-|Ht]; [simpl; lia|].
    apply in_app_iff in Ht; destruct Ht as [Ht|[<-|[]]].
    - apply timersOf_In in Ht; destruct Ht as [j [_ [_ Hj]]]; lia.
    - simpl; lia. }
  destruct (playback_from fuel searched visited path c rest HT Hdue Hid
              (length visited) (Nat.le_refl _)) as [ck [Hf [Hg [Ht _]]]].
  rewrite skipn_all in Ht; cbn [timersOf app] in Ht.
  rewrite fires_S, Hf.
  unfold rest in Ht.
  rewrite (fire_head fuel ck _ _ Ht).
  - cbn [callback runCallback]; eexists; split; [reflexivity|].
    fields; rewrite Hg; split; reflexivity.
  - cbn [fireAt]; intros t Hin; apply in_app_iff in Hin.
    destruct Hin as [Hin|[<-|[]]].
    + apply timersOf_In in Hin; destruct Hin as [j [_ [-> _]]].
      apply path_due_after.
    + apply complete_due_after.
  - cbn [timer_id]; intros t Hin; apply in_app_iff in Hin.
    destruct Hin as [Hin|[<-|[]]].
    + apply timersOf_In in Hin; destruct Hin as [j [_ [_ Hj]]]; lia.
    + simpl; lia.
Qed.

(** After [j] path frames. *)
Lemma playback_path : forall j,
  j <= length path ->
  exists cj,
    fires fuel (S (length visited) + j)
      (animateAlgorithm searched visited path c) = Some cj /\
    grid cj
    = drawn searched (firstn j path)
        (clearFrontiers (played searched visited (length visited) (grid c))) /\
    timers cj
    = timersOf (fun x (_ : nat) => PathFrame searched x)
        (fun i =>
           time_add (now c)
             (time_add
                (time_add (time_mul (delayOf c) (count (length visited)))
                   (ms 50))
                (time_mul (time_mul (delayOf c) (count i)) (ms 3))))
        (S (nextTimer c + length visited) + j) j (skipn j path)
      ++ [mkTimer (S (nextTimer c + length visited) + length path)
            (time_add (now c)
               (time_add
                  (time_add
                     (time_add
                        (time_mul (delayOf c) (count (length visited)))
                        (ms 50))
                     (time_mul
                        (time_mul (delayOf c) (count (length path))) (ms 3)))
                  (ms 100)))
            Complete].
Proof.
  induction j as [|j IH]; intros Hj.
  - destruct playback_cleared as [c1 [Hf [Hg Ht]]].
    exists c1; rewrite !Nat.add_0_r; auto.
  - destruct (IH ltac:(lia)) as [cj [Hf [Hg Ht]]].
    rewrite Nat.add_succ_r, fires_S, Hf.
    destruct (nth_error path j) as [node|] eqn:En;
      [|apply nth_error_None in En; lia].
    rewrite (skipn_nth_error _ j path node En) in Ht;
      cbn [timersOf app] in Ht.
    rewrite (fire_head fuel cj _ _ Ht).
    + cbn [callback runCallback].
      rewrite (firstn_S_nth_error _ j path node En), drawn_snoc, <- Hg.
      rewrite <- !Nat.add_succ_r.
      destruct (notStartOrEnd (type (getNode searched node)));
        eexists; (split; [reflexivity|]); fields; auto.
    + cbn [fireAt]; intros t Hin; apply in_app_iff in Hin.
      destruct Hin as [Hin|[<-|[]]].
      * apply timersOf_In in Hin; destruct Hin as [i [Hi [-> _]]].
        apply path_due_mono; lia.
      * apply path_due_before_complete; lia.
    + cbn [timer_id]; intros t Hin; apply in_app_iff in Hin.
      destruct Hin as [Hin|[<-|[]]].
      * apply timersOf_In_strict in Hin; destruct Hin as [i [_ [_ Hne]]].
        assumption.
      * simpl; lia.
Qed.

(** The whole run: all the timeouts of [animateAlgorithm], in turn. *)
Lemma playback_complete :
  exists cf,
    fires fuel (length visited + length path + 2)
      (animateAlgorithm searched visited path c) = Some cf /\
    grid cf
    = drawn searched path
        (clearFrontiers (played searched visited (length visited) (grid c))) /\
    timers cf = [] /\
    isVisualizing cf = false /\ isPaused cf = false /\
    canPause cf = false /\ animationCompleted cf = true /\
    animationData cf = None.
Proof.
  destruct (playback_path (length path) (Nat.le_refl _)) as [cj [Hf [Hg Ht]]].
  rewrite firstn_all in Hg; rewrite skipn_all in Ht; cbn [timersOf app] in Ht.
  replace (length visited + length path + 2)
    with (S (S (length visited) + length path)) by lia.
  rewrite fires_S, Hf.
  rewrite (fire_head fuel cj _ _ Ht);
    [|intros t []|intros t []].
  cbn [callback runCallback]; eexists; split; [reflexivity|].
  fields; rewrite Hg; repeat split; reflexivity.
Qed.

End FullRun.

(** ** The grid at the end of a run *)

Lemma drawn_other : forall searched path g q,
  ~ In q path -> getNode (drawn searched path g) q = getNode g q.
Proof.
  intros searched path g q Hq; unfold drawn.
  apply fold_left_invariant with
    (I := fun g' => getNode g' q = getNode g q); [reflexivity|].
  intros g' node Hin IH.
  destruct (notStartOrEnd (type (getNode searched node))); [|assumption].
  rewrite setType_other; [assumption|].
  intros ->; contradiction.
Qed.

Lemma shape_drawn : forall searched path g,
  shape (drawn searched path g) = shape g.
Proof.
  intros searched path g; unfold drawn.
  apply fold_left_invariant with (I := fun g' => shape g' = shape g);
    [reflexivity|].
  intros g' node _ IH.
  destruct (notStartOrEnd (type (getNode searched node))); [|assumption].
  unfold setType; rewrite shape_setNode; assumption.
Qed.

Lemma drawn_kinds : forall searched path g q,
  type (getNode (drawn searched path g) q) = type (getNode g q) \/
  (type (getNode (drawn searched path g) q) = Path /\ In q path /\
   notStartOrEnd (type (getNode searched q)) = true).
Proof.
  intros searched path; induction path as [|node path IH]
    using rev_ind; intros g q; [left; reflexivity|].
  rewrite drawn_snoc.
  destruct (notStartOrEnd (type (getNode searched node))) eqn:En.
  - destruct (type_setType (drawn searched path g) node q Path)
      as [E|[-> E]].
    + rewrite E; destruct (IH g q) as [H|[H1 [H2 H3]]]; [left; assumption|].
      right; split; [assumption|split; [|assumption]].
      apply in_app_iff; left; assumption.
    + right; split; [assumption|split; [|assumption]].
      apply in_app_iff; right; left; reflexivity.
  - destruct (IH g q) as [H|[H1 [H2 H3]]]; [left; assumption|].
    right; split; [assumption|split; [|assumption]].
    apply in_app_iff; left; assumption.
Qed.

Lemma drawn_path : forall searched path g q,
  In q path -> notStartOrEnd (type (getNode searched q)) = true ->
  inStore g q ->
  type (getNode (drawn searched path g) q) = Path.
Proof.
  intros searched path; induction path as [|node path IH]
    using rev_ind; intros g q Hin Hq HS; [contradiction|].
  rewrite drawn_snoc.
  assert (HS' : inStore (drawn searched path g) q).
  { apply (shape_inStore g); [symmetry; apply shape_drawn|assumption]. }
  apply in_app_iff in Hin; destruct Hin as [Hin|[->|[]]].
  - destruct (notStartOrEnd (type (getNode searched node)));
      [|apply IH; assumption].
    destruct (pos_eq_dec q node) as [->|Hne];
      [apply setType_same; assumption|].
    rewrite setType_other by assumption; apply IH; assumption.
  - rewrite Hq; apply setType_same; assumption.
Qed.

Lemma clearFrontiers_kinds : forall g q,
  type (getNode (clearFrontiers g) q)
  = match type (getNode g q) with Frontier => Empty | t => t end.
Proof.
  intros g q; unfold clearFrontiers.
  rewrite (getNode_map
             (fun n => if CellType_eqb (type n) Frontier
                       then set_type Empty n else n)) by reflexivity.
  destruct (type (getNode g q)) eqn:E; simpl; try assumption; reflexivity.
Qed.

(* ================================================================== *)
(** * The claims about the search engine *)
(* ================================================================== *)

(** The four facts proved of each main loop, search by search. *)
Lemma five_loops : forall search,
  In search [bfs; dfs; uniformCostSearch; astar; greedyBFS] ->
  exists L bound,
    search = search_of L /\ loop_monotone L /\ loop_safe L /\
    loop_stops L bound /\ loop_links L /\
    (forall g, bound g <= 2 * cells g + 1).
Proof.
  destruct loops_monotone as [M1 [M2 [M3 [M4 M5]]]].
  intros search Hin; simpl in Hin.
  destruct Hin as [<-|[<-|[<-|[<-|[<-|[]]]]]].
  - exists bfs_loop, (fun g => S (cells g)).
    split; [reflexivity|]. split; [assumption|].
    split; [apply bfs_loop_safe|]. split; [apply bfs_loop_stops|].
    split; [apply bfs_loop_links|intros g; lia].
  - exists dfs_loop, (fun g => S (cells g)).
    split; [reflexivity|]. split; [assumption|].
    split; [apply dfs_loop_safe|]. split; [apply dfs_loop_stops|].
    split; [apply dfs_loop_links|intros g; lia].
  - exists ucs_loop, (fun g => 2 * cells g + 1).
    split; [reflexivity|]. split; [assumption|].
    split; [apply ucs_loop_safe|]. split; [apply ucs_loop_stops|].
    split; [apply ucs_loop_links|intros g; lia].
  - exists astar_loop, (fun g => 2 * cells g + 1).
    split; [reflexivity|]. split; [assumption|].
    split; [apply astar_loop_safe|]. split; [apply astar_loop_stops|].
    split; [apply astar_loop_links|intros g; lia].
  - exists greedy_loop, (fun g => cells g + 1).
    split; [reflexivity|]. split; [assumption|].
    split; [apply greedy_loop_safe|]. split; [apply greedy_loop_stops|].
    split; [apply greedy_loop_links|intros g; lia].
Qed.

Lemma six_cases : forall search,
  In search sixSearches ->
  In search [bfs; dfs; uniformCostSearch; astar; greedyBFS] \/
  search = iterativeDeepening.
Proof.
  intros search H; unfold sixSearches in H; simpl in *.
  destruct H as [H|[H|[H|[H|[H|[H|[]]]]]]]; auto 10.
Qed.

(** A certificate that no path exists: a region closed under steps that
    holds the start and not the target. *)
Lemma closed_region_no_path : forall g region s e,
  closed_region g region = true -> region s = true -> region e = false ->
  forall l, is_path g s e l = false.
Proof.
  intros g region s e HC Hs He l.
  destruct (is_path g s e l) eqn:E; [|reflexivity].
  apply is_path_walk in E.
  assert (H : region e = true); [|congruence].
  clear He; induction E as [Ho|q p l Hw IH Hstep Ho]; [assumption|].
  unfold closed_region in HC; rewrite forallb_forall in HC.
  assert (Hq := walk_end_open g s q l Hw).
  assert (Hqg : inGrid g q = true)
    by (unfold open_cell in Hq; apply andb_true_iff in Hq; tauto).
  assert (Hpg : inGrid g p = true)
    by (unfold open_cell in Ho; apply andb_true_iff in Ho; tauto).
  specialize (HC q (proj2 (in_allCells g q) Hqg)).
  rewrite IH, Hq in HC; simpl in HC; rewrite forallb_forall in HC.
  specialize (HC p (proj2 (getNeighbors_spec g q p Hqg) (conj Hstep Hpg))).
  rewrite Ho in HC; exact HC.
Qed.

(** From a fresh scratch state each of the six searches returns. *)
Lemma six_return : forall search,
  In search sixSearches ->
  forall g s e,
    rectangular g = true -> inGrid g s = true -> fresh g = true ->
    exists r g', Returns (fun fuel => search fuel g s e) (r, g').
Proof.
  intros search Hin g s e HR HG HF.
  destruct (six_cases search Hin) as [H5| ->].
  - destruct (five_loops search H5) as [L [bound [-> [HM [_ [HS [HL _]]]]]]].
    destruct (search_returns L bound HM HS HL g s e HR HG HF)
      as [r [g' [H _]]]; eauto.
  - destruct (iterativeDeepening_returns g s e HR HG) as [r [g' [H _]]];
      eauto.
Qed.

(** A path has at least one cell more than the Manhattan distance between
    its ends. *)
Lemma walk_manhattan : forall g s e l,
  walk g s e l -> (manhattan s e + 1 <= Z.of_nat (length l))%Z.
Proof.
  intros g s e l H; induction H as [Ho|q p l Hw IH Hstep Ho].
  - unfold manhattan; simpl; lia.
  - rewrite length_app; simpl.
    rewrite step4_sym in Hstep.
    assert (Hm := manhattan_step s p q Hstep); lia.
Qed.

(** The three searches that return shortest paths. *)
Lemma three_loops : forall search,
  In search [bfs; uniformCostSearch; astar] ->
  exists L bound,
    search = search_of L /\ loop_monotone L /\ loop_stops L bound /\
    loop_optimal L.
Proof.
  destruct loops_monotone as [M1 [M2 [M3 [M4 M5]]]].
  intros search Hin; simpl in Hin.
  destruct Hin as [<-|[<-|[<-|[]]]].
  - exists bfs_loop, (fun g => S (cells g)).
    split; [reflexivity|]. split; [assumption|].
    split; [apply bfs_loop_stops|apply bfs_loop_optimal].
  - exists ucs_loop, (fun g => 2 * cells g + 1).
    split; [reflexivity|]. split; [assumption|].
    split; [apply ucs_loop_stops|apply ucs_loop_optimal].
  - exists astar_loop, (fun g => 2 * cells g + 1).
    split; [reflexivity|]. split; [assumption|].
    split; [apply astar_loop_stops|apply astar_loop_optimal].
Qed.

(** On the gate grid the shortest paths have four cells. *)
Lemma gate_shortest : shortest_cells gateGrid (1, 1) (1, 4) 4.
Proof.
  split.
  - exists [(1, 1); (1, 2); (1, 3); (1, 4)]; split;
      [vm_compute; reflexivity|reflexivity].
  - intros l Hl; apply is_path_walk in Hl; apply walk_manhattan in Hl.
    unfold manhattan in Hl; simpl in Hl; lia.
Qed.

(** **** C1 *)

(** C1, as the specification states it, fails for [iterativeDeepening]: on
    the gate grid, fresh, with the start and the target in bounds and
    distinct, the shortest paths have four cells, and [iterativeDeepening]
    returns a path of six.  Its marks are shared by all the branches of a
    round, so a cell first reached by a long branch is closed to the short
    one. *)
Lemma iterativeDeepening_not_shortest :
  rectangular gateGrid = true /\ fresh gateGrid = true /\
  inGrid gateGrid (1, 1) = true /\ inGrid gateGrid (1, 4) = true /\
  shortest_cells gateGrid (1, 1) (1, 4) 4 /\
  run_success (iterativeDeepening 16 gateGrid (1, 1) (1, 4)) = true /\
  run_path (iterativeDeepening 16 gateGrid (1, 1) (1, 4))
    = [(1, 1); (0, 1); (0, 2); (1, 2); (1, 3); (1, 4)] /\
  ~ optimal_on iterativeDeepening gateGrid (1, 1) (1, 4).
Proof.
  assert (Hp : run_path (iterativeDeepening 16 gateGrid (1, 1) (1, 4))
               = [(1, 1); (0, 1); (0, 2); (1, 2); (1, 3); (1, 4)])
    by (vm_compute; reflexivity).
  repeat (split; [vm_compute; reflexivity|]).
  split; [exact gate_shortest|].
  repeat (split; [vm_compute; reflexivity|]).
  intros H; destruct (H 4 gate_shortest) as [r [g' [[n0 Hret] [_ Hlen]]]].
  specialize (Hret (n0 + 16) ltac:(lia)).
  unfold run_path in Hp.
  destruct (iterativeDeepening 16 gateGrid (1, 1) (1, 4)) as [[r16 g16]|]
    eqn:E; [|discriminate].
  apply (iterativeDeepening_mono gateGrid (1, 1) (1, 4) 16 (n0 + 16)) in E;
    [|lia].
  rewrite E in Hret; injection Hret as <- _.
  rewrite Hp in Hlen; discriminate.
Qed.

(** C1, amended.  From a fresh scratch state, when paths from the start to
    the target exist and the shortest have [d] cells, each of [bfs],
    [uniformCostSearch] and [astar] returns with [success = true] and a
    [shortestPath] of exactly [d] cells; [iterativeDeepening] returns with
    [success = true] too, and its [shortestPath] is a path of the grid from
    the start to the target, of [d] cells or more. *)
Theorem shortest_path_searches : forall g s e d,
  rectangular g = true -> inGrid g s = true -> fresh g = true ->
  shortest_cells g s e d ->
  (forall search, In search [bfs; uniformCostSearch; astar] ->
     exists r g',
       Returns (fun fuel => search fuel g s e) (r, g') /\
       success r = true /\ length (shortestPath r) = d) /\
  (exists r g',
     Returns (fun fuel => iterativeDeepening fuel g s e) (r, g') /\
     success r = true /\
     is_path g s e (shortestPath r) = true /\
     d <= length (shortestPath r)).
Proof.
  intros g s e d HR HG HF Hd; split.
  - intros search Hin.
    destruct (three_loops search Hin) as [L [bound [-> [HM [HS HO]]]]].
    exact (search_optimal L bound HM HS HO g s e HR HG HF d Hd).
  - destruct (iterativeDeepening_returns g s e HR HG)
      as [r [g' [H Hcases]]]; exists r, g'; split; [assumption|].
    destruct Hd as [[l [Hl _]] Hmin].
    assert (Hs : success r = true).
    { destruct H as [n0 Hn0].
      apply (iterativeDeepening_finds n0 g s e r g' l HR Hl).
      apply Hn0; apply le_n. }
    destruct Hcases as [[H1 _]|[_ H2]]; [congruence|].
    split; [assumption|split; [assumption|apply Hmin; assumption]].
Qed.

Lemma shortest_path_searches_witness :
  rectangular gateGrid = true /\ inGrid gateGrid (1, 1) = true /\
  fresh gateGrid = true /\ shortest_cells gateGrid (1, 1) (1, 4) 4 /\
  (forall search, In search [bfs; uniformCostSearch; astar] ->
     exists r g',
       Returns (fun fuel => search fuel gateGrid (1, 1) (1, 4)) (r, g') /\
       success r = true /\ length (shortestPath r) = 4) /\
  (exists r g',
     Returns (fun fuel => iterativeDeepening fuel gateGrid (1, 1) (1, 4))
             (r, g') /\
     success r = true /\
     is_path gateGrid (1, 1) (1, 4) (shortestPath r) = true /\
     4 <= length (shortestPath r)).
Proof.
  assert (HR : rectangular gateGrid = true) by (vm_compute; reflexivity).
  assert (HG : inGrid gateGrid (1, 1) = true) by (vm_compute; reflexivity).
  assert (HF : fresh gateGrid = true) by (vm_compute; reflexivity).
  repeat (split; [assumption|]).
  split; [exact gate_shortest|].
  exact (shortest_path_searches gateGrid (1, 1) (1, 4) 4 HR HG HF
           gate_shortest).
Defined.

(** **** C2 *)

(** C2. From a fresh scratch state, whenever one of the six searches
    reports success, its [shortestPath] starts at the start node, ends at
    the target, holds only cells of the grid that are not walls, and moves
    by one orthogonal step between consecutive cells. *)
Theorem success_gives_a_path : forall search,
  In search sixSearches ->
  forall fuel g s e r g',
    rectangular g = true -> inGrid g s = true -> fresh g = true ->
    search fuel g s e = Some (r, g') -> success r = true ->
    is_path g s e (shortestPath r) = true.
Proof.
  intros search Hin fuel g s e r g' HR HG HF H Hs.
  destruct (six_cases search Hin) as [H5| ->].
  - destruct (five_loops search H5) as [L [bound [-> [_ [_ [_ [HL _]]]]]]].
    eapply (search_path L HL); eassumption.
  - destruct (iterativeDeepening_path fuel g s e r g' HR HG H)
      as [[H1 _]|[_ [H2 _]]]; [congruence|assumption].
Qed.

Lemma success_gives_a_path_witness :
  rectangular gateGrid = true /\ inGrid gateGrid (1, 1) = true /\
  fresh gateGrid = true /\
  ran (iterativeDeepening 16 gateGrid (1, 1) (1, 4)) = true /\
  run_success (iterativeDeepening 16 gateGrid (1, 1) (1, 4)) = true /\
  is_path gateGrid (1, 1) (1, 4)
          (run_path (iterativeDeepening 16 gateGrid (1, 1) (1, 4))) = true.
Proof.
  assert (HR : rectangular gateGrid = true) by (vm_compute; reflexivity).
  assert (HG : inGrid gateGrid (1, 1) = true) by (vm_compute; reflexivity).
  assert (HF : fresh gateGrid = true) by (vm_compute; reflexivity).
  assert (Hran : ran (iterativeDeepening 16 gateGrid (1, 1) (1, 4)) = true)
    by (vm_compute; reflexivity).
  assert (Hs : run_success (iterativeDeepening 16 gateGrid (1, 1) (1, 4))
               = true) by (vm_compute; reflexivity).
  repeat (split; [assumption|]).
  unfold run_success, run_path in *.
  destruct (iterativeDeepening 16 gateGrid (1, 1) (1, 4)) as [[r g']|] eqn:E;
    [|discriminate].
  exact (success_gives_a_path iterativeDeepening
           ltac:(unfold sixSearches; simpl; auto 10)
           16 gateGrid (1, 1) (1, 4) r g' HR HG HF E Hs).
Defined.

(** **** C3 *)

(** C3. From a fresh scratch state, when no path of non-wall cells joins
    the start to the target, each of the six searches returns, with
    [success = false] and an empty [shortestPath]. *)
Theorem no_path_gives_failure : forall search,
  In search sixSearches ->
  forall g s e,
    rectangular g = true -> inGrid g s = true -> fresh g = true ->
    (forall l, is_path g s e l = false) ->
    exists r g',
      Returns (fun fuel => search fuel g s e) (r, g') /\
      success r = false /\ shortestPath r = [].
Proof.
  intros search Hin g s e HR HG HF Hno.
  destruct (six_cases search Hin) as [H5| ->].
  - destruct (five_loops search H5) as [L [bound [-> [HM [_ [HS [HL _]]]]]]].
    apply (search_no_path L bound HM HS HL); assumption.
  - destruct (iterativeDeepening_returns g s e HR HG)
      as [r [g' [H [[H1 H2]|[_ H2]]]]].
    + exists r, g'; auto.
    + rewrite Hno in H2; discriminate.
Qed.

Lemma no_path_gives_failure_witness :
  rectangular splitGrid = true /\ inGrid splitGrid (0, 0) = true /\
  fresh splitGrid = true /\
  (forall l, is_path splitGrid (0, 0) (0, 2) l = false) /\
  exists r g',
    Returns (fun fuel => dfs fuel splitGrid (0, 0) (0, 2)) (r, g') /\
    success r = false /\ shortestPath r = [].
Proof.
  assert (HR : rectangular splitGrid = true) by (vm_compute; reflexivity).
  assert (HG : inGrid splitGrid (0, 0) = true) by (vm_compute; reflexivity).
  assert (HF : fresh splitGrid = true) by (vm_compute; reflexivity).
  assert (Hno : forall l, is_path splitGrid (0, 0) (0, 2) l = false).
  { apply (closed_region_no_path splitGrid leftColumn);
      vm_compute; reflexivity. }
  repeat (split; [assumption|]).
  exact (no_path_gives_failure dfs
           ltac:(unfold sixSearches; simpl; auto 10)
           splitGrid (0, 0) (0, 2) HR HG HF Hno).
Defined.

(** **** C7 *)

(** C7. Whatever the scratch state of the grid, the visit order returned
    by [bfs], [dfs], [uniformCostSearch], [astar] and [greedyBFS] holds no
    cell twice.  ([iterativeDeepening] is not in the list: on the gate
    grid its visit order does repeat cells.) *)
Theorem visit_order_has_no_duplicates :
  (forall search,
     In search [bfs; dfs; uniformCostSearch; astar; greedyBFS] ->
     forall fuel g s e r g',
       rectangular g = true -> inGrid g s = true ->
       search fuel g s e = Some (r, g') ->
       NoDup (visitedNodesInOrder r)) /\
  ~ NoDup (run_visited (iterativeDeepening 16 gateGrid (1, 1) (1, 4))).
Proof.
  split.
  - intros search Hin fuel g s e r g' HR HG H.
    destruct (five_loops search Hin) as [L [bound [-> [_ [HS _]]]]].
    apply (search_safe L HS fuel g s e r g' HR HG H).
  - intros H.
    assert (E : run_visited (iterativeDeepening 16 gateGrid (1, 1) (1, 4))
                = (1, 1) :: (1, 1) ::
                  tl (tl (run_visited
                            (iterativeDeepening 16 gateGrid (1, 1) (1, 4)))))
      by (vm_compute; reflexivity).
    rewrite E in H; inversion H as [|x l Hx _]; apply Hx; left; reflexivity.
Qed.

Lemma visit_order_has_no_duplicates_witness :
  rectangular gateGrid = true /\ inGrid gateGrid (1, 1) = true /\
  ran (astar 20 gateGrid (1, 1) (1, 4)) = true /\
  NoDup (run_visited (astar 20 gateGrid (1, 1) (1, 4))).
Proof.
  assert (HR : rectangular gateGrid = true) by (vm_compute; reflexivity).
  assert (HG : inGrid gateGrid (1, 1) = true) by (vm_compute; reflexivity).
  assert (Hran : ran (astar 20 gateGrid (1, 1) (1, 4)) = true)
    by (vm_compute; reflexivity).
  repeat (split; [assumption|]).
  unfold ran, run_visited in *.
  destruct (astar 20 gateGrid (1, 1) (1, 4)) as [[r g']|] eqn:E;
    [|discriminate].
  exact (proj1 visit_order_has_no_duplicates astar
           ltac:(simpl; auto 10) 20 gateGrid (1, 1) (1, 4) r g' HR HG E).
Defined.

(** **** C8 *)

(** C8. On a rectangular grid with the start inside it, whatever the
    scratch state: the main loops of [bfs] and [dfs] stop within
    [R * C + 1] rounds, those of [uniformCostSearch] and [astar] within
    [2 * R * C + 1] and that of [greedyBFS] within [R * C + 1] rounds;
    a call of [depthLimitedSearch] at depth [d] stops within
    [maxDepth - d] nested calls, and [iterativeDeepening], whose outer
    loop runs at most [R * C] rounds, returns.  From a fresh scratch
    state each of the six searches returns its result. *)
Theorem searches_terminate : forall g s e,
  rectangular g = true -> inGrid g s = true ->
  (forall fuel, S (cells g) < fuel ->
     ran (bfs_loop fuel g s e) = true /\ ran (dfs_loop fuel g s e) = true) /\
  (forall fuel, 2 * cells g + 1 < fuel ->
     ran (ucs_loop fuel g s e) = true /\
     ran (astar_loop fuel g s e) = true /\
     ran (greedy_loop fuel g s e) = true) /\
  (forall fuel g1 c maxDepth vis depth, maxDepth - depth < fuel ->
     ran (depthLimitedSearch fuel g1 c e maxDepth vis depth) = true) /\
  (forall fuel, cells g < fuel ->
     ran (iterativeDeepening fuel g s e) = true) /\
  (fresh g = true ->
   forall search, In search sixSearches ->
     exists r g', Returns (fun fuel => search fuel g s e) (r, g')).
Proof.
  intros g s e HR HG.
  assert (Hran : forall (A : Type) (x : option A),
            (exists o, x = Some o) -> ran x = true)
    by (intros A x [o ->]; reflexivity).
  split; [|split; [|split; [|split]]].
  - intros fuel Hlt; split; apply Hran.
    + apply (bfs_loop_stops g s e fuel HR HG Hlt).
    + apply (dfs_loop_stops g s e fuel HR HG Hlt).
  - intros fuel Hlt; repeat split; apply Hran.
    + apply (ucs_loop_stops g s e fuel HR HG Hlt).
    + apply (astar_loop_stops g s e fuel HR HG Hlt).
    + apply (greedy_loop_stops g s e fuel HR HG); lia.
  - intros fuel g1 c maxDepth vis depth Hlt; apply Hran.
    apply depthLimitedSearch_total; assumption.
  - intros fuel Hlt; apply Hran.
    destruct (iterativeDeepening_total g s e fuel HR HG Hlt) as [r [g' H]].
    eauto.
  - intros HF search Hin; apply six_return; assumption.
Qed.

Lemma searches_terminate_witness :
  rectangular gateGrid = true /\ inGrid gateGrid (1, 1) = true /\
  ran (iterativeDeepening 16 gateGrid (1, 1) (1, 4)) = true.
Proof.
  assert (HR : rectangular gateGrid = true) by (vm_compute; reflexivity).
  assert (HG : inGrid gateGrid (1, 1) = true) by (vm_compute; reflexivity).
  repeat (split; [assumption|]).
  destruct (searches_terminate gateGrid (1, 1) (1, 4) HR HG)
    as [_ [_ [_ [H _]]]].
  apply H; vm_compute; lia.
Defined.

(** **** C10 *)

(** C10. Each of the six searches hands the grid back with every cell's
    kind as it was: the searches write scratch fields only.  From a fresh
    scratch state the search does return, so the statement is about an
    actual result. *)
Theorem search_keeps_cell_kinds : forall search,
  In search sixSearches ->
  forall g s e,
    (forall fuel r g', search fuel g s e = Some (r, g') ->
       layout g' = layout g /\
       forall p, type (getNode g' p) = type (getNode g p)) /\
    (rectangular g = true -> inGrid g s = true -> fresh g = true ->
     exists r g', Returns (fun fuel => search fuel g s e) (r, g') /\
                  forall p, type (getNode g' p) = type (getNode g p)).
Proof.
  intros search Hin g s e.
  assert (Hin' : In search [bfs; dfs; astar; greedyBFS; uniformCostSearch;
                            iterativeDeepening]).
  { unfold sixSearches in Hin; simpl in *.
    destruct Hin as [H|[H|[H|[H|[H|[H|[]]]]]]]; auto 10. }
  assert (Hkeep : forall fuel r g', search fuel g s e = Some (r, g') ->
            layout g' = layout g /\
            forall p, type (getNode g' p) = type (getNode g p)).
  { intros fuel r g' H.
    assert (HL := searches_keep_layout search Hin' fuel g s e r g' H).
    split; [assumption|intros p; apply layout_type; assumption]. }
  split; [exact Hkeep|].
  intros HR HG HF.
  destruct (six_return search Hin g s e HR HG HF) as [r [g' [n Hn]]].
  exists r, g'; split; [exists n; exact Hn|].
  apply (Hkeep n r g'); apply Hn; lia.
Qed.

Lemma search_keeps_cell_kinds_witness :
  In uniformCostSearch sixSearches /\
  ran (uniformCostSearch 20 gateGrid (1, 1) (1, 4)) = true /\
  layout (run_grid (uniformCostSearch 20 gateGrid (1, 1) (1, 4)))
  = layout gateGrid.
Proof.
  assert (Hin : In uniformCostSearch sixSearches)
    by (unfold sixSearches; simpl; auto 10).
  assert (Hran : ran (uniformCostSearch 20 gateGrid (1, 1) (1, 4)) = true)
    by (vm_compute; reflexivity).
  repeat (split; [assumption|]).
  unfold ran, run_grid in *.
  destruct (uniformCostSearch 20 gateGrid (1, 1) (1, 4)) as [[r g']|] eqn:E;
    [|discriminate].
  exact (proj1 (proj1 (search_keeps_cell_kinds uniformCostSearch Hin
                         gateGrid (1, 1) (1, 4)) 20 r g' E)).
Defined.

(** **** C9 *)

Lemma fold_left_fixed : forall (A B : Type) (f : A -> B -> A) l a,
  (forall x, In x l -> f a x = a) -> fold_left f l a = a.
Proof.
  intros A B f l; induction l as [|x l IH]; intros a H; simpl; [reflexivity|].
  rewrite (H x (or_introl eq_refl)); apply IH.
  intros y Hy; apply H; right; assumption.
Qed.

Lemma getNode_forallb : forall (P : Node -> bool) g p,
  forallb (forallb P) g = true -> P createNode = true ->
  P (getNode g p) = true.
Proof.
  intros P g [r c] H Hd; unfold getNode; simpl.
  rewrite forallb_forall in H.
  destruct (Nat.lt_ge_cases r (length g)) as [Hr|Hr].
  - assert (Hrow := H _ (nth_In g [] Hr)); rewrite forallb_forall in Hrow.
    destruct (Nat.lt_ge_cases c (length (nth r g []))) as [Hc|Hc].
    + apply Hrow; apply nth_In; assumption.
    + rewrite nth_overflow by assumption; assumption.
  - rewrite (nth_overflow g) by assumption.
    destruct c; assumption.
Qed.

(** With no [Infinity] among the heuristics, [greedyBFS] visits the start
    and gives up. *)
Lemma greedy_dead_end : forall g s e,
  s <> e ->
  is_wall (getNode g s) = false -> isVisited (getNode g s) = false ->
  (forall p, heuristic (getNode g p) <> Infinity) ->
  forall fuel, 2 <= fuel ->
    greedyBFS fuel g s e =
    Some (mkResult [s] [] false,
          setNode (setNode g s (set_heuristic (manhattanDistance s e))) s
                  (set_isVisited true)).
Proof.
  intros g s e Hne Hw Hv Hh fuel Hf.
  destruct fuel as [|[|fuel]]; try lia.
  unfold greedyBFS, greedy_init.
  set (g1 := setNode g s (set_heuristic (manhattanDistance s e))).
  set (g2 := setNode g1 s (set_isVisited true)).
  assert (H1 : greedy_step e (g1, [s], []) = Continue (g2, [], [s])).
  { unfold greedy_step; simpl sort; cbv iota.
    unfold g1 at 1; rewrite (field_setNode _ is_wall) by reflexivity.
    rewrite Hw.
    unfold g1 at 1; rewrite (field_setNode _ isVisited) by reflexivity.
    rewrite Hv.
    rewrite (proj2 (pos_eqb_neq s e) Hne).
    fold g2. rewrite fold_left_fixed; [reflexivity|].
    intros v _; rewrite greedy_neighbor_eq.
    destruct (isVisited (getNode g2 v) || is_wall (getNode g2 v));
      [reflexivity|].
    assert (Hfin : num_is_infinity (heuristic (getNode g2 v)) = false).
    { unfold g2; rewrite (field_setNode _ heuristic) by reflexivity.
      unfold g1.
      destruct (getNode_setNode_cases g s v
                  (set_heuristic (manhattanDistance s e)))
        as [->|[_ [_ ->]]]; [|reflexivity].
      specialize (Hh v); destruct (heuristic (getNode g v));
        [reflexivity|congruence]. }
    rewrite Hfin; reflexivity. }
  unfold finish.
  rewrite (loop_S _ _ (greedy_step e)), H1; reflexivity.
Qed.

(** C9. [greedyBFS] lets a neighbour into its open set only when that
    neighbour's heuristic is [Infinity] when it is examined.  Hence,
    whenever no cell's heuristic is [Infinity] at the call and the start
    is an unvisited non-wall cell other than the target, [greedyBFS]
    visits the start alone and returns [success = false] with an empty
    path; this happens on the grid made by [createGrid] (every heuristic
    [0]) although a path from the start to the target exists. *)
Theorem greedy_needs_infinite_heuristics :
  (forall u e g openSet v,
     snd (greedy_neighbor u e (g, openSet) v) <> openSet ->
     heuristic (getNode g v) = Infinity) /\
  (forall g s e,
     s <> e ->
     is_wall (getNode g s) = false -> isVisited (getNode g s) = false ->
     (forall p, heuristic (getNode g p) <> Infinity) ->
     exists g',
       Returns (fun fuel => greedyBFS fuel g s e)
               (mkResult [s] [] false, g')) /\
  (is_path plainGrid (0, 0) (1, 2) [(0, 0); (0, 1); (0, 2); (1, 2)] = true /\
   (forall p, heuristic (getNode plainGrid p) = Fin 0) /\
   exists g',
     Returns (fun fuel => greedyBFS fuel plainGrid (0, 0) (1, 2))
             (mkResult [(0, 0)] [] false, g')).
Proof.
  assert (Hdead : forall g s e,
     s <> e ->
     is_wall (getNode g s) = false -> isVisited (getNode g s) = false ->
     (forall p, heuristic (getNode g p) <> Infinity) ->
     exists g',
       Returns (fun fuel => greedyBFS fuel g s e)
               (mkResult [s] [] false, g')).
  { intros g s e Hne Hw Hv Hh; eexists; exists 2; intros fuel Hf.
    apply greedy_dead_end; assumption. }
  assert (Hzero : forall p, heuristic (getNode plainGrid p) = Fin 0).
  { intros p.
    assert (H := getNode_forallb
                   (fun n => match heuristic n with
                             | Fin 0 => true
                             | _ => false
                             end) plainGrid p eq_refl eq_refl).
    simpl in H; destruct (heuristic (getNode plainGrid p)) as [[| |]|];
      try discriminate; reflexivity. }
  split; [|split; [exact Hdead|split; [reflexivity|split; [exact Hzero|]]]].
  - intros u e g openSet v H; rewrite greedy_neighbor_eq in H.
    destruct (isVisited (getNode g v) || is_wall (getNode g v));
      [contradiction H; reflexivity|].
    destruct (heuristic (getNode g v)); [|reflexivity].
    contradiction H; reflexivity.
  - apply Hdead; try reflexivity; try discriminate.
    intros p; rewrite Hzero; discriminate.
Qed.

Lemma greedy_needs_infinite_heuristics_witness :
  (0, 0) <> (1, 2) /\
  is_wall (getNode plainGrid (0, 0)) = false /\
  isVisited (getNode plainGrid (0, 0)) = false /\
  (forall p, heuristic (getNode plainGrid p) <> Infinity) /\
  exists g',
    Returns (fun fuel => greedyBFS fuel plainGrid (0, 0) (1, 2))
            (mkResult [(0, 0)] [] false, g').
Proof.
  assert (H1 : (0, 0) <> (1, 2)) by discriminate.
  assert (H2 : is_wall (getNode plainGrid (0, 0)) = false) by reflexivity.
  assert (H3 : isVisited (getNode plainGrid (0, 0)) = false) by reflexivity.
  assert (H4 : forall p, heuristic (getNode plainGrid p) <> Infinity).
  { intros p.
    rewrite (proj1 (proj2 (proj2 (proj2 greedy_needs_infinite_heuristics))) p).
    discriminate. }
  repeat (split; [assumption|]).
  exact (proj1 (proj2 greedy_needs_infinite_heuristics)
           plainGrid (0, 0) (1, 2) H1 H2 H3 H4).
Defined.

(* ================================================================== *)
(** * The claims about the playback scheduler *)
(* ================================================================== *)

(** **** C4 *)

(** C4 does not hold of the component: [pauseVisualization] calls
    [clearAnimations], which forgets [animationData] and the index along
    with the timeouts, and [resumeVisualization] returns at once when
    [animationData] is empty.  So, when the pending timeouts are those of
    the animation, after a pause nothing is pending, a resume changes
    nothing however long the pause has lasted, and no frame ever runs
    again: the grid stays as it was at the pause and the component stays
    paused. *)
Theorem resume_after_pause_is_lost : forall c d fuel n,
  canPause c = true -> isVisualizing c = true -> tracked c = true ->
  phase (pauseVisualization c) = Paused /\
  timers (pauseVisualization c) = [] /\
  animationData (pauseVisualization c) = None /\
  currentAnimationIndex (pauseVisualization c) = 0 /\
  resumeVisualization (wait d (pauseVisualization c))
  = wait d (pauseVisualization c) /\
  fires fuel n (resumeVisualization (wait d (pauseVisualization c)))
  = Some (wait d (pauseVisualization c)) /\
  grid (wait d (pauseVisualization c)) = grid c /\
  phase (wait d (pauseVisualization c)) = Paused.
Proof.
  intros c d fuel n Hcan Hvis Htr.
  assert (Hp : pauseVisualization c = clearAnimations (setIsPaused true c))
    by (unfold pauseVisualization; rewrite Hcan, Hvis; reflexivity).
  assert (Ht : timers (pauseVisualization c) = [])
    by (rewrite Hp; apply tracked_cleared; assumption).
  assert (Hw : wait d (pauseVisualization c)
               = set_now (time_add (now (pauseVisualization c)) d)
                   (pauseVisualization c))
    by (unfold wait; rewrite Ht; reflexivity).
  assert (Hr : resumeVisualization (wait d (pauseVisualization c))
               = wait d (pauseVisualization c)).
  { rewrite Hw, Hp, clearAnimations_eq; reflexivity. }
  split; [rewrite Hp, clearAnimations_eq; unfold phase; fields;
          rewrite Hvis; reflexivity|].
  split; [assumption|].
  split; [rewrite Hp, clearAnimations_eq; reflexivity|].
  split; [rewrite Hp, clearAnimations_eq; reflexivity|].
  split; [assumption|].
  split; [rewrite Hr; apply fires_idle; rewrite Hw; assumption|].
  split; [rewrite Hw, Hp, clearAnimations_eq; reflexivity|].
  rewrite Hw, Hp, clearAnimations_eq; unfold phase; fields.
  rewrite Hvis; reflexivity.
Qed.

(** The example: paused after three visited frames and resumed a second
    later, the animation shows nothing more, while the uninterrupted run
    ends with the path drawn. *)
Lemma resume_after_pause_is_lost_witness :
  canPause demoPlaying = true /\ isVisualizing demoPlaying = true /\
  tracked demoPlaying = true /\
  shown (fires 50 10 demoPlaying)
  = [[Visited; Visited; Visited; Empty];
     [Visited; Start; Path; EndCell];
     [Empty; Visited; Empty; Empty]] /\
  shown (fires 50 10
           (resumeVisualization
              (wait (ms 1000) (pauseVisualization demoPlaying))))
  = [[Frontier; Visited; Frontier; Empty];
     [Frontier; Start; Visited; EndCell];
     [Empty; Frontier; Empty; Empty]] /\
  fires 50 10
    (resumeVisualization (wait (ms 1000) (pauseVisualization demoPlaying)))
  = Some (wait (ms 1000) (pauseVisualization demoPlaying)) /\
  phase (wait (ms 1000) (pauseVisualization demoPlaying)) = Paused.
Proof.
  assert (H1 : canPause demoPlaying = true) by (vm_compute; reflexivity).
  assert (H2 : isVisualizing demoPlaying = true) by (vm_compute; reflexivity).
  assert (H3 : tracked demoPlaying = true) by (vm_compute; reflexivity).
  repeat (split; [assumption|]).
  split; [vm_compute; reflexivity|].
  split; [vm_compute; reflexivity|].
  destruct (resume_after_pause_is_lost demoPlaying (ms 1000) 50 10 H1 H2 H3)
    as [_ [_ [_ [_ [_ [H6 [_ H8]]]]]]].
  split; assumption.
Defined.

(** **** C5 *)

(** C5, as the specification states it, fails in its count: the frame of
    the start node (and that of the end node) marks nothing, so [k] frames
    leave fewer than [k] cells visited.  In the example, stopping after the
    first visited frame leaves no cell visited, and stopping after the
    third leaves two. *)
Lemma stop_after_one_frame_marks_nothing :
  run_visited demoSearch
  = [(1, 1); (0, 1); (1, 2); (2, 1); (1, 0); (0, 2); (0, 0); (1, 3)] /\
  fires 50 1 demo
  = Some (animateAlgorithm (run_grid demoSearch) (run_visited demoSearch)
            (run_path demoSearch) (dequeue (hd (mkTimer 0 (ms 0) Complete)
                                               (timers demo)) demo)) /\
  currentAnimationIndex (got (fires 50 2 demo)) = 0 /\
  pending (fires 50 2 demo) = 12 /\
  visitedCells (grid (stopVisualization (got (fires 50 2 demo)))) = [] /\
  visitedCells (grid (stopVisualization (got (fires 50 4 demo))))
  = [(0, 1); (1, 2)].
Proof. repeat apply conj; vm_compute; reflexivity. Qed.

(** The timeout that [visualizeAlgorithm] sets is not on
    [animationTimeouts]: stopped before the search has run, the component
    still runs it and plays the whole animation. *)
Lemma search_timeout_survives_stop :
  animationTimeouts demo = [] /\
  pending (Some (stopVisualization demo)) = 1 /\
  phase (stopVisualization demo) = Finished /\
  shown (fires 50 14 (stopVisualization demo))
  = [[Visited; Visited; Visited; Empty];
     [Visited; Start; Path; EndCell];
     [Empty; Visited; Empty; Empty]].
Proof. repeat apply conj; vm_compute; reflexivity. Qed.

(** C5, amended.  Take an animation that [animateAlgorithm] has scheduled
    in a component with nothing else pending and no cell displayed as
    visited, for a visit order without duplicates that lies in the grid
    (such are the orders of the four searches the component runs).  When
    [k] visited frames have run and [stopVisualization] is called, the
    cells displayed as visited are the nodes among the first [k] of the
    visit order that are neither the start nor the end node, as many as
    there are; no timeout is pending any more, [animationTimeouts] is
    empty and [animationData] cleared, the component is finished, and
    whatever the browser runs afterwards leaves it as it is. *)
Theorem stop_after_k_frames : forall fuel searched visited path c k,
  timers c = [] ->
  NoDup visited ->
  forallb (inGrid (grid c)) visited = true ->
  rectangular (grid c) = true ->
  visitedCells (grid c) = [] ->
  k <= length visited ->
  exists ck,
    fires fuel k (animateAlgorithm searched visited path c) = Some ck /\
    Permutation (visitedCells (grid (stopVisualization ck)))
                (revealed searched visited k) /\
    length (visitedCells (grid (stopVisualization ck)))
    = length (revealed searched visited k) /\
    timers (stopVisualization ck) = [] /\
    animationTimeouts (stopVisualization ck) = [] /\
    animationData (stopVisualization ck) = None /\
    phase (stopVisualization ck) = Finished /\
    forall n, fires fuel n (stopVisualization ck)
              = Some (stopVisualization ck).
Proof.
  intros fuel searched visited path c k Hq Hnd Hin HR Hclean Hk.
  destruct (playback fuel searched visited path c Hq k Hk)
    as [ck [Hf [Hg Htr]]].
  destruct (stopVisualization_fields ck) as [G1 [G2 [G3 [_ G5]]]].
  assert (Ht := stopVisualization_timers ck Htr).
  assert (HP : Permutation (visitedCells (grid (stopVisualization ck)))
                           (revealed searched visited k)).
  { rewrite G1, Hg.
    apply played_visitedCells; assumption. }
  exists ck; split; [assumption|].
  split; [assumption|].
  split; [apply Permutation_length; assumption|].
  repeat (split; [assumption|]).
  intros n; apply fires_idle; assumption.
Qed.

Lemma stop_after_k_frames_witness :
  timers (mount demoProps) = [] /\
  NoDup (run_visited demoSearch) /\
  forallb (inGrid (grid (mount demoProps))) (run_visited demoSearch) = true /\
  rectangular (grid (mount demoProps)) = true /\
  visitedCells (grid (mount demoProps)) = [] /\
  3 <= length (run_visited demoSearch) /\
  revealed (run_grid demoSearch) (run_visited demoSearch) 3
  = [(0, 1); (1, 2)] /\
  exists ck,
    fires 50 3
      (animateAlgorithm (run_grid demoSearch) (run_visited demoSearch)
         (run_path demoSearch) (mount demoProps)) = Some ck /\
    Permutation (visitedCells (grid (stopVisualization ck)))
                (revealed (run_grid demoSearch) (run_visited demoSearch) 3) /\
    length (visitedCells (grid (stopVisualization ck)))
    = length (revealed (run_grid demoSearch) (run_visited demoSearch) 3) /\
    timers (stopVisualization ck) = [] /\
    animationTimeouts (stopVisualization ck) = [] /\
    animationData (stopVisualization ck) = None /\
    phase (stopVisualization ck) = Finished /\
    forall n, fires 50 n (stopVisualization ck)
              = Some (stopVisualization ck).
Proof.
  assert (H1 : timers (mount demoProps) = []) by reflexivity.
  assert (H2 : NoDup (run_visited demoSearch)).
  { assert (E : run_visited demoSearch
                = [(1, 1); (0, 1); (1, 2); (2, 1); (1, 0); (0, 2); (0, 0);
                   (1, 3)]) by (vm_compute; reflexivity).
    rewrite E; repeat (constructor; [simpl; intuition discriminate|]).
    constructor. }
  assert (H3 : forallb (inGrid (grid (mount demoProps)))
                       (run_visited demoSearch) = true)
    by (vm_compute; reflexivity).
  assert (H4 : rectangular (grid (mount demoProps)) = true)
    by (vm_compute; reflexivity).
  assert (H5 : visitedCells (grid (mount demoProps)) = [])
    by (vm_compute; reflexivity).
  assert (H6 : 3 <= length (run_visited demoSearch))
    by (vm_compute; lia).
  repeat (split; [assumption|]).
  split; [vm_compute; reflexivity|].
  exact (stop_after_k_frames 50 (run_grid demoSearch)
           (run_visited demoSearch) (run_path demoSearch) (mount demoProps)
           3 H1 H2 H3 H4 H5 H6).
Defined.

(** **** C6 *)

(** C6, as the specification states it, fails: [visualizeAlgorithm]
    returns at once when [animationCompleted] is set, and both the end of
    an animation and [stopVisualization] set it.  In the example, neither
    the completed nor the stopped component starts a run. *)
Lemma start_after_a_run_does_nothing :
  phase demoCompleted = Finished /\ phase demoStopped = Finished /\
  visualizeAlgorithm demoCompleted = demoCompleted /\
  visualizeAlgorithm demoStopped = demoStopped /\
  phase (visualizeAlgorithm demoCompleted) <> Running /\
  phase (visualizeAlgorithm demoStopped) <> Running /\
  phase (visualizeAlgorithm (mount demoProps)) = Running.
Proof.
  assert (H1 : phase (visualizeAlgorithm demoCompleted) = Finished)
    by (vm_compute; reflexivity).
  assert (H2 : phase (visualizeAlgorithm demoStopped) = Finished)
    by (vm_compute; reflexivity).
  repeat apply conj; try (vm_compute; reflexivity);
    intros H; rewrite ?H1, ?H2 in H; discriminate.
Qed.

(** C6, amended.  A finished component, completed or stopped, refuses
    [visualizeAlgorithm]: the call changes nothing.  A run starts from the
    idle state only, and the finished state is left for the idle one by
    [handleReset] and [handleClearWalls].  The end of an animation and
    [stopVisualization] both lead to the finished state. *)
Theorem start_needs_an_idle_component : forall c,
  (phase c = Finished ->
     visualizeAlgorithm c = c /\ phase (visualizeAlgorithm c) = Finished) /\
  (phase c = Idle -> isPaused c = false ->
     phase (visualizeAlgorithm c) = Running) /\
  phase (stopVisualization c) = Finished /\
  (forall fuel c', runCallback fuel Complete c = Some c' ->
     phase c' = Finished) /\
  (forall fuel c', runCallback fuel ResumedComplete c = Some c' ->
     phase c' = Finished) /\
  phase (handleReset c) = Idle /\
  phase (handleClearWalls c) = Idle.
Proof.
  intros c; split; [|split; [|split; [|split; [|split; [|split]]]]].
  - intros H.
    assert (E : visualizeAlgorithm c = c).
    { unfold phase in H; unfold visualizeAlgorithm.
      destruct (isVisualizing c); [reflexivity|].
      destruct (animationCompleted c); [reflexivity|discriminate]. }
    rewrite E; auto.
  - intros H Hp; unfold phase in H; unfold visualizeAlgorithm.
    destruct (isVisualizing c) eqn:Ev;
      [destruct (isPaused c); discriminate|].
    destruct (animationCompleted c) eqn:Ec; [discriminate|].
    cbn [orb]; rewrite clearAnimations_eq; unfold phase; fields.
    rewrite Hp; reflexivity.
  - apply stopVisualization_fields.
  - intros fuel c' H; injection H as <-; reflexivity.
  - intros fuel c' H; injection H as <-; reflexivity.
  - unfold handleReset; rewrite clearAnimations_eq; reflexivity.
  - unfold handleClearWalls; rewrite clearAnimations_eq; reflexivity.
Qed.

Lemma start_needs_an_idle_component_witness :
  phase demoStopped = Finished /\
  visualizeAlgorithm demoStopped = demoStopped /\
  phase (visualizeAlgorithm demoStopped) = Finished /\
  phase (handleReset demoStopped) = Idle /\
  isPaused (handleReset demoStopped) = false /\
  phase (visualizeAlgorithm (handleReset demoStopped)) = Running.
Proof.
  assert (H1 : phase demoStopped = Finished) by (vm_compute; reflexivity).
  assert (H2 : isPaused (handleReset demoStopped) = false)
    by (vm_compute; reflexivity).
  destruct (start_needs_an_idle_component demoStopped)
    as [HF [_ [_ [_ [_ [HR _]]]]]].
  destruct (start_needs_an_idle_component (handleReset demoStopped))
    as [_ [HI _]].
  destruct (HF H1) as [E1 E2].
  repeat apply conj; auto.
Defined.

(* ================================================================== *)
(** * Grids without walls *)
(* ================================================================== *)

(** Without walls, a path of [manhattan s e + 1] cells joins any two cells
    of the grid. *)
Lemma open_walk : forall g s,
  (forall p, inGrid g p = true -> is_wall (getNode g p) = false) ->
  inGrid g s = true ->
  forall n e,
    manhattan s e = Z.of_nat n -> inGrid g e = true ->
    exists l, walk g s e l /\ length l = S n.
Proof.
  intros g s Hopen Hs n; induction n as [|n IH]; intros e Hn He.
  - assert (E : s = e) by (apply manhattan_zero; assumption); subst e.
    exists [s]; split; [|reflexivity].
    constructor; unfold open_cell; rewrite Hs, (Hopen s Hs); reflexivity.
  - assert (Hq : exists q, manhattan s q = Z.of_nat n /\
                           inGrid g q = true /\ step4 q e = true).
    { destruct s as [sr sc], e as [er ec].
      unfold manhattan, inGrid, step4 in *; simpl in *.
      apply andb_true_iff in Hs; destruct Hs as [Hs1 Hs2].
      apply andb_true_iff in He; destruct He as [He1 He2].
      apply Nat.ltb_lt in Hs1; apply Nat.ltb_lt in Hs2.
      apply Nat.ltb_lt in He1; apply Nat.ltb_lt in He2.
      destruct (Nat.lt_trichotomy sr er) as [H|[H|H]].
      - exists (er - 1, ec); simpl; split; [lia|split].
        + apply andb_true_iff; split; apply Nat.ltb_lt; lia.
        + apply orb_true_iff; right; apply andb_true_iff; split;
            [apply Nat.eqb_refl|].
          apply orb_true_iff; right; apply Nat.eqb_eq; lia.
      - subst er; destruct (Nat.lt_trichotomy sc ec) as [H|[H|H]].
        + exists (sr, ec - 1); simpl; split; [lia|split].
          * apply andb_true_iff; split; apply Nat.ltb_lt; lia.
          * apply orb_true_iff; left; apply andb_true_iff; split;
              [apply Nat.eqb_refl|].
            apply orb_true_iff; right; apply Nat.eqb_eq; lia.
        + lia.
        + exists (sr, ec + 1); simpl; split; [lia|split].
          * apply andb_true_iff; split; apply Nat.ltb_lt; lia.
          * apply orb_true_iff; left; apply andb_true_iff; split;
              [apply Nat.eqb_refl|].
            apply orb_true_iff; left; apply Nat.eqb_eq; lia.
      - exists (er + 1, ec); simpl; split; [lia|split].
        + apply andb_true_iff; split; apply Nat.ltb_lt; lia.
        + apply orb_true_iff; right; apply andb_true_iff; split;
            [apply Nat.eqb_refl|].
          apply orb_true_iff; left; apply Nat.eqb_eq; lia. }
    destruct Hq as [q [Hq1 [Hq2 Hq3]]].
    destruct (IH q Hq1 Hq2) as [l [Hw Hlen]].
    exists (l ++ [e]); split.
    + apply walk_snoc with q; [assumption|assumption|].
      unfold open_cell; rewrite He, (Hopen e He); reflexivity.
    + rewrite length_app, Hlen; simpl; lia.
Qed.

Lemma open_shortest : forall g s e,
  (forall p, inGrid g p = true -> is_wall (getNode g p) = false) ->
  inGrid g s = true -> inGrid g e = true ->
  shortest_cells g s e (S (Z.to_nat (manhattan s e))).
Proof.
  intros g s e Hopen Hs He.
  assert (Hpos : (0 <= manhattan s e)%Z) by (unfold manhattan; lia).
  split.
  - destruct (open_walk g s Hopen Hs (Z.to_nat (manhattan s e)) e
                ltac:(lia) He) as [l [Hw Hlen]].
    exists l; split; [apply walk_is_path; assumption|assumption].
  - intros l Hl; apply is_path_walk in Hl; apply walk_manhattan in Hl; lia.
Qed.

(* ================================================================== *)
(** * The first run of a mounted component *)
(* ================================================================== *)

Lemma field_getNode_map : forall (A : Type) (field : Node -> A)
    (f : Node -> Node) g q,
  field (f createNode) = field createNode ->
  field (getNode (map (map f) g) q) = field (f (getNode g q)).
Proof.
  intros A field f g [r c] Hf; unfold getNode; simpl.
  destruct (Nat.lt_ge_cases r (length g)) as [Hr|Hr].
  - rewrite (nth_indep _ [] (map f [])) by (rewrite length_map; assumption).
    rewrite map_nth.
    destruct (Nat.lt_ge_cases c (length (nth r g []))) as [Hc|Hc].
    + rewrite (nth_indep _ createNode (f createNode))
        by (rewrite length_map; assumption).
      rewrite map_nth; reflexivity.
    + rewrite !nth_overflow by (rewrite ?length_map; assumption).
      symmetry; assumption.
  - rewrite (nth_overflow (map _ g)) by (rewrite length_map; assumption).
    rewrite (nth_overflow g) by assumption.
    destruct c; symmetry; assumption.
Qed.

Lemma type_resetForRun : forall g q,
  type (getNode (resetForRun g) q)
  = match type (getNode g q) with
    | Visited | Path => Empty
    | t => t
    end.
Proof.
  intros g q; unfold resetForRun.
  rewrite (field_getNode_map _ type) by reflexivity; reflexivity.
Qed.

(** The grid of a mounted component: no wall, no mark, every heuristic
    [0]; with two columns or more the start and the end differ. *)
Lemma resetGrid_facts : forall rows cols,
  1 <= rows -> 2 <= cols ->
  (rows / 2, cols / 4) <> (rows / 2, (cols * 3) / 4) /\
  type (getNode (resetGrid rows cols) (rows / 2, cols / 4)) = Start /\
  (forall q, is_wall (getNode (resetGrid rows cols) q) = false) /\
  (forall q, isVisited (getNode (resetGrid rows cols) q) = false) /\
  (forall q, heuristic (getNode (resetGrid rows cols) q) <> Infinity) /\
  (forall q, notStartOrEnd (type (getNode (resetGrid rows cols) q)) = true ->
             type (getNode (resetGrid rows cols) q) = Empty).
Proof.
  intros rows cols Hr Hc.
  assert (Hc1 : 1 <= cols) by lia.
  destruct (default_positions rows cols Hr Hc1) as [_ [_ [_ [P4 _]]]].
  specialize (P4 Hc).
  assert (Hne : (rows / 2, cols / 4) <> (rows / 2, (cols * 3) / 4)).
  { intros E; assert (E' : cols / 4 = (cols * 3) / 4) by congruence; lia. }
  assert (Hcell := getNode_resetGrid rows cols Hr Hc1).
  split; [assumption|split].
  { rewrite Hcell, (proj2 (pos_eqb_neq _ _) Hne), pos_eqb_refl.
    reflexivity. }
  split; [|split; [|split]]; intros q; rewrite Hcell;
    destruct (pos_eqb q (rows / 2, (cols * 3) / 4));
    try destruct (pos_eqb q (rows / 2, cols / 4));
    try reflexivity; try discriminate; simpl; intros H; discriminate.
Qed.

(** The first timeout after [visualizeAlgorithm] on a mounted component
    runs the search on the grid as it was mounted. *)
Lemma first_timeout : forall p fuel,
  fire fuel (visualizeAlgorithm (mount p))
  = runCallback fuel
      (RunSearch (resetGrid (rows p) (cols p))
         (rows p / 2, cols p / 4) (rows p / 2, (cols p * 3) / 4))
      (set_now (time_add (ms 0) (ms 50))
         (set_timers []
            (visualizeAlgorithm (mount p)))).
Proof.
  intros p fuel.
  assert (Ht : timers (visualizeAlgorithm (mount p))
               = [mkTimer 1 (time_add (ms 0) (ms 50))
                    (RunSearch (resetGrid (rows p) (cols p))
                       (rows p / 2, cols p / 4)
                       (rows p / 2, (cols p * 3) / 4))])
    by reflexivity.
  rewrite (fire_head fuel _ _ _ Ht); [reflexivity|intros t []|intros t []].
Qed.

(** ** [visualizeAlgorithm] on an idle component *)

Lemma visualizeAlgorithm_idle : forall c,
  timers c = [] -> isVisualizing c = false -> animationCompleted c = false ->
  timers (visualizeAlgorithm c)
  = [mkTimer (nextTimer c) (time_add (now c) (ms 50))
       (RunSearch (grid c) (startPos c) (endPos c))] /\
  grid (visualizeAlgorithm c) = resetForRun (grid c) /\
  props (visualizeAlgorithm c) = props c /\
  animationTimeouts (visualizeAlgorithm c) = [].
Proof.
  intros c Ht Hv Ha; unfold visualizeAlgorithm; rewrite Hv, Ha; cbv zeta.
  cbn [orb]; rewrite clearAnimations_eq; unfold setTimeout; fields.
  rewrite Ht; repeat split.
Qed.

Lemma stopVisualization_untracked : forall c,
  animationTimeouts c = [] -> timers (stopVisualization c) = timers c.
Proof.
  intros c H; unfold stopVisualization; fields.
  rewrite clearAnimations_eq; fields.
  apply filter_all; intros t _; rewrite H; reflexivity.
Qed.

(** The search timeout runs the search and schedules the animation. *)
Lemma search_timeout_runs : forall fuel c t r g' searched s e,
  timers c = [t] ->
  callback t = RunSearch searched s e ->
  getAlgorithmFunction (selectedAlgorithm (props c)) fuel searched s e
  = Some (r, g') ->
  exists c1,
    fire fuel c
    = Some (animateAlgorithm g' (visitedNodesInOrder r) (shortestPath r)
              c1) /\
    timers c1 = [] /\ grid c1 = grid c.
Proof.
  intros fuel c t r g' searched s e Ht Hcb Halg.
  rewrite (fire_head fuel c t [] Ht); [|intros u []|intros u []].
  rewrite Hcb; cbn [runCallback].
  set (c1 := set_now _ (set_timers [] c)).
  change (props c1) with (props c); rewrite Halg.
  exists c1; repeat split.
Qed.

(* ================================================================== *)
(** * Further properties: the grid helpers *)
(* ================================================================== *)

(** X1. [resetGrid rows cols], for at least one row and one column, is a
    rectangular grid of [rows] by [cols] cells with a fresh scratch state
    and every heuristic [0]; its default start [(rows / 2, cols / 4)] and
    end [(rows / 2, (cols * 3) / 4)] are cells of it; the end cell has kind
    end, the start cell kind start unless it is the end cell, and every
    other cell is empty.  With two columns or more the two positions
    differ; with one column they coincide, and then the grid has no start
    cell. *)
Theorem resetGrid_cells : forall rows cols,
  1 <= rows -> 1 <= cols ->
  nrows (resetGrid rows cols) = rows /\
  ncols (resetGrid rows cols) = cols /\
  rectangular (resetGrid rows cols) = true /\
  fresh (resetGrid rows cols) = true /\
  inGrid (resetGrid rows cols) (rows / 2, cols / 4) = true /\
  inGrid (resetGrid rows cols) (rows / 2, (cols * 3) / 4) = true /\
  (forall p,
     getNode (resetGrid rows cols) p
     = set_type (if pos_eqb p (rows / 2, (cols * 3) / 4) then EndCell
                 else if pos_eqb p (rows / 2, cols / 4) then Start
                 else Empty) createNode) /\
  (2 <= cols -> (rows / 2, cols / 4) <> (rows / 2, (cols * 3) / 4)) /\
  (cols = 1 -> cellsOf Start (resetGrid rows cols) = []).
Proof.
  intros rows cols Hr Hc.
  destruct (default_positions rows cols Hr Hc) as [P1 [P2 [P3 [P4 P5]]]].
  destruct (shape_dims (resetGrid rows cols) rows cols
              (shape_resetGrid rows cols) Hr) as [D1 [D2 D3]].
  destruct (shape_dims (createGrid rows cols) rows cols
              (shape_createGrid rows cols) Hr) as [_ [_ D4]].
  assert (HS := searchable_resetGrid rows cols).
  unfold searchable in HS; apply andb_true_iff in HS; destruct HS as [HR HF].
  assert (Hcell := getNode_resetGrid rows cols Hr Hc).
  repeat apply conj; try assumption.
  - unfold inGrid; rewrite D1, D2; simpl.
    apply andb_true_iff; split; apply Nat.ltb_lt; assumption.
  - unfold inGrid; rewrite D1, D2; simpl.
    apply andb_true_iff; split; apply Nat.ltb_lt; assumption.
  - intros H2 E; specialize (P4 H2).
    assert (E' : cols / 4 = (cols * 3) / 4) by congruence; lia.
  - intros H1; unfold cellsOf; apply filter_none; intros p _.
    rewrite Hcell, (P5 H1).
    destruct (pos_eqb p (rows / 2, (cols * 3) / 4)); reflexivity.
Qed.

Lemma resetGrid_cells_witness :
  1 <= 3 /\ 1 <= 4 /\
  inGrid (resetGrid 3 4) (1, 1) = true /\
  inGrid (resetGrid 3 4) (1, 3) = true /\
  layout (resetGrid 3 4)
  = [[Empty; Empty; Empty; Empty];
     [Empty; Start; Empty; EndCell];
     [Empty; Empty; Empty; Empty]].
Proof.
  assert (H1 : 1 <= 3) by lia.
  assert (H2 : 1 <= 4) by lia.
  destruct (resetGrid_cells 3 4 H1 H2) as [_ [_ [_ [_ [H3 [H4 _]]]]]].
  repeat apply conj; try assumption; reflexivity.
Defined.

(** X2. [setWall] on a cell of the grid: a start or end cell is never
    overwritten (the grid comes back as it was); any other cell becomes a
    wall or empty as [isWall] says, keeping its scratch fields, while
    every other cell and the shape of the grid stay as they were.  Setting
    the same value again changes nothing, and the last of two calls on a
    cell decides. *)
Theorem setWall_cell : forall g row col isWall,
  inStore g (row, col) ->
  (notStartOrEnd (type (getNode g (row, col))) = false ->
     setWall g row col isWall = g) /\
  (notStartOrEnd (type (getNode g (row, col))) = true ->
     type (getNode (setWall g row col isWall) (row, col))
     = (if isWall then Wall else Empty)) /\
  scratch (getNode (setWall g row col isWall) (row, col))
  = scratch (getNode g (row, col)) /\
  (forall q, q <> (row, col) ->
     getNode (setWall g row col isWall) q = getNode g q) /\
  shape (setWall g row col isWall) = shape g /\
  setWall (setWall g row col isWall) row col isWall
  = setWall g row col isWall /\
  (forall b, setWall (setWall g row col b) row col isWall
             = setWall g row col isWall).
Proof.
  intros g row col isWall HS.
  assert (Hguard : forall t,
            CellType_eqb t Start || CellType_eqb t EndCell
            = negb (notStartOrEnd t)) by (intros []; reflexivity).
  assert (Hlast : forall b, setWall (setWall g row col b) row col isWall
                            = setWall g row col isWall).
  { intros b; unfold setWall; rewrite !Hguard.
    destruct (notStartOrEnd (type (getNode g (row, col)))) eqn:E; simpl.
    - unfold setType; rewrite getNode_setNode_same by assumption; simpl.
      destruct b; simpl; rewrite setNode_setNode; apply setNode_ext;
        intros n; reflexivity.
    - rewrite E; reflexivity. }
  unfold setWall at 1 2 3 4 5; rewrite Hguard.
  destruct (notStartOrEnd (type (getNode g (row, col)))) eqn:E; simpl.
  - split; [discriminate|].
    split; [intros _; apply setType_same; assumption|].
    split; [unfold setType; rewrite getNode_setNode_same by assumption;
            reflexivity|].
    split; [intros q Hq; apply setType_other; assumption|].
    split; [apply shape_setNode|].
    split; [apply (Hlast isWall)|exact Hlast].
  - split; [reflexivity|].
    split; [discriminate|].
    split; [reflexivity|].
    split; [reflexivity|].
    split; [reflexivity|].
    split; [apply (Hlast isWall)|exact Hlast].
Qed.

Lemma setWall_cell_witness :
  inStore (resetGrid 3 4) (0, 2) /\
  setWall (resetGrid 3 4) 1 1 true = resetGrid 3 4 /\
  layout (setWall (resetGrid 3 4) 0 2 true)
  = [[Empty; Empty; Wall; Empty];
     [Empty; Start; Empty; EndCell];
     [Empty; Empty; Empty; Empty]] /\
  setWall (setWall (resetGrid 3 4) 0 2 true) 0 2 false
  = setWall (resetGrid 3 4) 0 2 false.
Proof.
  assert (H : inStore (resetGrid 3 4) (0, 2)) by (split; simpl; lia).
  destruct (setWall_cell (resetGrid 3 4) 0 2 false H)
    as [_ [_ [_ [_ [_ [_ H7]]]]]].
  split; [assumption|].
  split; [reflexivity|].
  split; [reflexivity|apply H7].
Defined.

(** X3. [toggleWall] on a cell of the grid leaves a start or end cell
    alone, turns a wall into an empty cell and any other cell (empty,
    visited, path or frontier) into a wall, and touches no other cell.
    Toggling twice gives the grid back when the cell was empty or a wall;
    a visited, path or frontier cell ends up empty. *)
Theorem toggleWall_cell : forall g row col,
  inStore g (row, col) ->
  type (getNode (toggleWall g row col) (row, col))
  = match type (getNode g (row, col)) with
    | Start => Start
    | EndCell => EndCell
    | Wall => Empty
    | _ => Wall
    end /\
  (forall q, q <> (row, col) ->
     getNode (toggleWall g row col) q = getNode g q) /\
  (type (getNode g (row, col)) = Empty \/
   type (getNode g (row, col)) = Wall \/
   notStartOrEnd (type (getNode g (row, col))) = false ->
   toggleWall (toggleWall g row col) row col = g) /\
  (type (getNode g (row, col)) = Visited \/
   type (getNode g (row, col)) = Path \/
   type (getNode g (row, col)) = Frontier ->
   type (getNode (toggleWall (toggleWall g row col) row col) (row, col))
   = Empty).
Proof.
  intros g row col HS.
  assert (Hset : forall t,
            type (getNode (setType g (row, col) t) (row, col)) = t)
    by (intros t; apply setType_same; assumption).
  assert (Hback : forall t t',
            type (getNode g (row, col)) = t ->
            setType (setType g (row, col) t') (row, col) t = g).
  { intros t t' Ht; unfold setType; rewrite setNode_setNode.
    apply setNode_same; [assumption|].
    destruct (getNode g (row, col)); simpl in *; subst; reflexivity. }
  unfold toggleWall.
  destruct (type (getNode g (row, col))) eqn:E; simpl;
    rewrite ?Hset; simpl; rewrite ?Hset; rewrite ?E; simpl;
    (split; [reflexivity|]);
    (split; [intros q Hq; try reflexivity; apply setType_other; assumption|]);
    (split; [intros [H|[H|H]]; try discriminate; try reflexivity;
             apply Hback; assumption|]);
    intros [H|[H|H]]; try discriminate; try reflexivity;
    apply setType_same, (proj2 (inStore_setNode _ _ _ _)); assumption.
Qed.

Lemma toggleWall_cell_witness :
  inStore (resetGrid 3 4) (0, 2) /\
  layout (toggleWall (resetGrid 3 4) 0 2)
  = [[Empty; Empty; Wall; Empty];
     [Empty; Start; Empty; EndCell];
     [Empty; Empty; Empty; Empty]] /\
  toggleWall (toggleWall (resetGrid 3 4) 0 2) 0 2 = resetGrid 3 4.
Proof.
  assert (H : inStore (resetGrid 3 4) (0, 2)) by (split; simpl; lia).
  destruct (toggleWall_cell (resetGrid 3 4) 0 2 H) as [_ [_ [H3 _]]].
  split; [assumption|].
  split; [reflexivity|apply H3; left; reflexivity].
Defined.

(** X4. [clearWalls] leaves no wall in the grid: every wall becomes an
    empty cell, every other cell keeps its kind, and all cells keep their
    scratch fields; the grid keeps its shape, every cell of it is open
    afterwards, and clearing twice is clearing once. *)
Theorem clearWalls_cells : forall g,
  cellsOf Wall (clearWalls g) = [] /\
  (forall p, type (getNode (clearWalls g) p)
             = match type (getNode g p) with Wall => Empty | t => t end) /\
  (forall p, scratch (getNode (clearWalls g) p) = scratch (getNode g p)) /\
  shape (clearWalls g) = shape g /\
  (forall p, open_cell (clearWalls g) p = inGrid g p) /\
  clearWalls (clearWalls g) = clearWalls g.
Proof.
  intros g.
  assert (Ht : forall p, type (getNode (clearWalls g) p)
             = match type (getNode g p) with Wall => Empty | t => t end).
  { intros p; rewrite getNode_clearWalls.
    destruct (type (getNode g p)) eqn:E; simpl; try assumption; reflexivity. }
  assert (Hs : shape (clearWalls g) = shape g) by apply shape_map.
  split; [|split; [exact Ht|split; [|split; [exact Hs|split]]]].
  - unfold cellsOf; apply filter_none; intros p _; rewrite Ht.
    destruct (type (getNode g p)); reflexivity.
  - intros p; rewrite getNode_clearWalls.
    destruct (CellType_eqb (type (getNode g p)) Wall); reflexivity.
  - intros p; unfold open_cell, is_wall; rewrite Ht.
    assert (E : inGrid (clearWalls g) p = inGrid g p).
    { unfold inGrid, nrows, ncols; rewrite !shape_row, Hs.
      rewrite <- (length_map (@length Node) (clearWalls g)).
      rewrite <- (length_map (@length Node) g).
      fold (shape (clearWalls g)); fold (shape g); rewrite Hs; reflexivity. }
    rewrite E; destruct (type (getNode g p)); simpl;
      rewrite ?andb_true_r; reflexivity.
  - unfold clearWalls; apply map_map_idem; intros n.
    destruct (CellType_eqb (type n) Wall) eqn:E; [reflexivity|].
    rewrite E; reflexivity.
Qed.

(** X5. [clearPath] turns every visited, path and frontier cell into an
    empty one and keeps walls, start, end and empty cells as they are; all
    scratch fields are reset, so the result is a fresh grid of the same
    shape, which meets what the searches ask of their input whenever the
    grid is rectangular.  Clearing twice is clearing once, and clearing
    the path and clearing the walls commute. *)
Theorem clearPath_cells : forall g,
  cellsOf Visited (clearPath g) = [] /\
  cellsOf Path (clearPath g) = [] /\
  cellsOf Frontier (clearPath g) = [] /\
  (forall p, type (getNode (clearPath g) p)
             = match type (getNode g p) with
               | Visited | Path | Frontier => Empty
               | t => t
               end) /\
  (forall p, scratch (getNode (clearPath g) p)
             = (false, Infinity, Fin 0, None)) /\
  shape (clearPath g) = shape g /\
  fresh (clearPath g) = true /\
  (rectangular g = true -> searchable (clearPath g) = true) /\
  clearPath (clearPath g) = clearPath g /\
  clearPath (clearWalls g) = clearWalls (clearPath g).
Proof.
  intros g.
  assert (Ht : forall p, type (getNode (clearPath g) p)
             = match type (getNode g p) with
               | Visited | Path | Frontier => Empty
               | t => t
               end)
    by (intros p; rewrite getNode_clearPath; reflexivity).
  assert (Hnone : forall t, In t [Visited; Path; Frontier] ->
                            cellsOf t (clearPath g) = []).
  { intros t Hin; unfold cellsOf; apply filter_none; intros p _; rewrite Ht.
    simpl in Hin; destruct Hin as [<-|[<-|[<-|[]]]];
      destruct (type (getNode g p)); reflexivity. }
  assert (Hs : shape (clearPath g) = shape g) by apply shape_map.
  split; [apply Hnone; simpl; auto|].
  split; [apply Hnone; simpl; auto|].
  split; [apply Hnone; simpl; auto|].
  split; [exact Ht|].
  split; [intros p; rewrite getNode_clearPath; reflexivity|].
  split; [exact Hs|].
  split; [apply fresh_clearPath|].
  split.
  - intros HR; unfold searchable.
    rewrite (shape_rectangular _ g Hs), HR, fresh_clearPath; reflexivity.
  - split.
    + unfold clearPath; apply map_map_idem; intros n.
      destruct (type n); reflexivity.
    + unfold clearPath, clearWalls; rewrite !map_map.
      apply map_ext; intros row; rewrite !map_map.
      apply map_ext; intros n.
      destruct n as [t v d h q]; destruct t; reflexivity.
Qed.

(** X19. The colours tell the kinds apart: [getCellColor] gives different
    colours to different kinds, and so does [getCellBackground] in either
    mode.  In light mode the background of every kind is its colour; in
    dark mode only the wall differs, and its background is the colour of
    no kind. *)
Theorem cell_colors_tell_kinds_apart :
  (forall t t', getCellColor t = getCellColor t' -> t = t') /\
  (forall isDark t t',
     getCellBackground t isDark = getCellBackground t' isDark -> t = t') /\
  (forall t, getCellBackground t false = getCellColor t) /\
  (forall t, t <> Wall -> getCellBackground t true = getCellColor t) /\
  (forall t, getCellBackground Wall true <> getCellColor t).
Proof.
  split; [intros [] []; simpl; intros H; try reflexivity; discriminate|].
  split; [intros [] [] []; simpl; intros H; try reflexivity; discriminate|].
  split; [intros []; reflexivity|].
  split; [intros [] H; try reflexivity; contradiction H; reflexivity|].
  intros []; simpl; discriminate.
Qed.

Lemma cell_colors_tell_kinds_apart_witness :
  getCellColor Visited <> getCellColor Frontier /\
  Start <> Wall /\ getCellBackground Start true = getCellColor Start.
Proof.
  destruct cell_colors_tell_kinds_apart as [H1 [_ [_ [H4 _]]]].
  assert (H : Start <> Wall) by discriminate.
  split; [intros E; apply H1 in E; discriminate|].
  split; [assumption|apply H4; assumption].
Defined.

Lemma clearPath_cells_witness :
  rectangular gateGrid = true /\
  searchable (clearPath gateGrid) = true /\
  clearPath (clearPath gateGrid) = clearPath gateGrid.
Proof.
  assert (H : rectangular gateGrid = true) by reflexivity.
  destruct (clearPath_cells gateGrid) as [_ [_ [_ [_ [_ [_ [_ [H8 [H9 _]]]]]]]]].
  split; [assumption|split; [apply H8; assumption|assumption]].
Defined.

(* ================================================================== *)
(** * Further properties: the helpers of the searches *)
(* ================================================================== *)

(** X6. For a cell [p] of the grid, [getNeighbors] returns exactly the
    cells of the grid one orthogonal step away from [p], each once, hence
    four at most and never [p] itself; being a neighbour is symmetric; and
    for a cell off the border the four come in the order up, right, down,
    left. *)
Theorem getNeighbors_cells : forall g p,
  inGrid g p = true ->
  (forall q, In q (getNeighbors p g)
             <-> step4 p q = true /\ inGrid g q = true) /\
  NoDup (getNeighbors p g) /\
  length (getNeighbors p g) <= 4 /\
  ~ In p (getNeighbors p g) /\
  (forall q, inGrid g q = true ->
     (In q (getNeighbors p g) <-> In p (getNeighbors q g))) /\
  (0 < fst p -> fst p < nrows g - 1 -> 0 < snd p -> snd p < ncols g - 1 ->
   getNeighbors p g
   = [(fst p - 1, snd p); (fst p, snd p + 1);
      (fst p + 1, snd p); (fst p, snd p - 1)]).
Proof.
  intros g p HG.
  split; [intros q; apply getNeighbors_spec; assumption|].
  split; [apply NoDup_getNeighbors|].
  split; [apply length_getNeighbors|].
  split.
  - intros H; apply getNeighbors_spec in H; [|assumption].
    destruct H as [H _]; apply step4_neq in H; apply H; reflexivity.
  - split.
    + intros q Hq; rewrite !getNeighbors_spec by assumption.
      rewrite (step4_sym q p); tauto.
    + destruct p as [r c]; simpl; intros H1 H2 H3 H4; unfold getNeighbors.
      rewrite (proj2 (Nat.ltb_lt 0 r) H1), (proj2 (Nat.ltb_lt _ _) H2),
        (proj2 (Nat.ltb_lt 0 c) H3), (proj2 (Nat.ltb_lt _ _) H4).
      reflexivity.
Qed.

Lemma getNeighbors_cells_witness :
  inGrid gateGrid (1, 1) = true /\
  getNeighbors (1, 1) gateGrid = [(0, 1); (1, 2); (2, 1); (1, 0)] /\
  getNeighbors (0, 0) gateGrid = [(0, 1); (1, 0)] /\
  NoDup (getNeighbors (1, 1) gateGrid).
Proof.
  assert (H : inGrid gateGrid (1, 1) = true) by reflexivity.
  destruct (getNeighbors_cells gateGrid (1, 1) H) as [_ [H2 _]].
  split; [assumption|].
  split; [reflexivity|].
  split; [reflexivity|assumption].
Defined.

(** X7. [manhattanDistance] is a finite number, never negative; it is
    symmetric, [0] between a node and itself only, and [1] across one
    orthogonal step; one step changes the distance to a target by one at
    most, and no path of the grid from [s] to [e] has fewer cells than
    [manhattanDistance s e + 1]: as a heuristic it never overestimates. *)
Theorem manhattanDistance_bounds :
  (forall a b, exists d, manhattanDistance a b = Fin d /\ (0 <= d)%Z) /\
  (forall a b, manhattanDistance a b = manhattanDistance b a) /\
  (forall a b, manhattanDistance a b = Fin 0 <-> a = b) /\
  (forall a b, step4 a b = true -> manhattanDistance a b = Fin 1) /\
  (forall p q e, step4 p q = true ->
     num_le (manhattanDistance p e)
            (num_add (manhattanDistance q e) (Fin 1))) /\
  (forall g s e l, is_path g s e l = true ->
     num_le (num_add (manhattanDistance s e) (Fin 1))
            (Fin (Z.of_nat (length l)))).
Proof.
  split; [intros a b; eexists; split; [reflexivity|lia]|].
  split; [intros [r c] [r' c']; unfold manhattanDistance; simpl;
          f_equal; lia|].
  split.
  { intros a b; rewrite manhattanDistance_manhattan; split.
    - intros E; injection E as E; symmetry; apply manhattan_zero; assumption.
    - intros ->; f_equal; apply manhattan_zero; reflexivity. }
  split.
  { intros a b H; rewrite manhattanDistance_manhattan; f_equal.
    rewrite step4_sym in H; apply manhattan_step4; assumption. }
  split.
  { intros p q e H; rewrite !manhattanDistance_manhattan; simpl.
    apply num_le_Fin; apply manhattan_step; assumption. }
  intros g s e l H; apply is_path_walk in H; apply walk_manhattan in H.
  rewrite manhattanDistance_manhattan; simpl; apply num_le_Fin.
  replace (manhattan e s) with (manhattan s e); [assumption|].
  destruct s, e; unfold manhattan; simpl; lia.
Qed.

Lemma manhattanDistance_bounds_witness :
  step4 (1, 1) (1, 2) = true /\
  manhattanDistance (1, 1) (1, 2) = Fin 1 /\
  is_path gateGrid (1, 1) (1, 4)
    [(1, 1); (0, 1); (0, 2); (1, 2); (1, 3); (1, 4)] = true /\
  num_le (num_add (manhattanDistance (1, 1) (1, 4)) (Fin 1)) (Fin 6).
Proof.
  assert (H1 : step4 (1, 1) (1, 2) = true) by reflexivity.
  assert (H2 : is_path gateGrid (1, 1) (1, 4)
                 [(1, 1); (0, 1); (0, 2); (1, 2); (1, 3); (1, 4)] = true)
    by reflexivity.
  destruct manhattanDistance_bounds as [_ [_ [_ [H4 [_ H6]]]]].
  split; [assumption|].
  split; [apply H4; assumption|].
  split; [assumption|].
  apply (H6 gateGrid (1, 1) (1, 4) _ H2).
Defined.

(** X8. [reconstructPath] returns the predecessor chain of its argument,
    root first: given the chain [l], it returns [l] after [length l]
    rounds; whatever it returns is that chain, which ends with the
    argument and starts at a node without predecessor.  When following
    [previousNode] from the argument comes back to it, the loop never
    ends. *)
Theorem reconstructPath_follows_the_chain :
  (forall g e l, chain g e l ->
     forall fuel, length l <= fuel -> reconstructPath fuel g e = Some l) /\
  (forall fuel g e l, reconstructPath fuel g e = Some l ->
     chain g e l /\ length l <= fuel /\ last l e = e /\
     exists r t, l = r :: t /\ previousNode (getNode g r) = None) /\
  (forall g e k, 0 < k -> ancestor g k e = Some e ->
     forall fuel, reconstructPath fuel g e = None).
Proof.
  split; [exact chain_reconstructPath|split].
  - intros fuel g e l H; unfold reconstructPath in H.
    apply reconstructPath_loop_chain in H.
    destruct H as [l' [Hc [-> Hlen]]]; rewrite app_nil_r.
    destruct (chain_ends g e l' Hc) as [H1 H2]; auto.
  - intros g e k Hk Hc fuel; unfold reconstructPath.
    apply reconstructPath_loop_endless, (ancestor_cycle g k e Hk Hc).
Qed.

Lemma reconstructPath_follows_the_chain_witness :
  reconstructPath 6 (run_grid (bfs 16 gateGrid (1, 1) (1, 4))) (1, 4)
  = Some [(1, 1); (1, 2); (1, 3); (1, 4)] /\
  (let g := setNode (setNode plainGrid (0, 0)
                       (set_previousNode (Some (0, 1))))
                    (0, 1) (set_previousNode (Some (0, 0))) in
   0 < 2 /\ ancestor g 2 (0, 0) = Some (0, 0) /\
   reconstructPath 100 g (0, 0) = None).
Proof.
  destruct reconstructPath_follows_the_chain as [_ [_ H3]].
  split; [reflexivity|].
  cbv zeta.
  assert (H1 : 0 < 2) by lia.
  split; [assumption|].
  split; [reflexivity|].
  apply (H3 _ (0, 0) 2 H1); reflexivity.
Defined.

(* ================================================================== *)
(** * Further properties: the searches *)
(* ================================================================== *)

(** X9. When the start node is a wall, each of the six searches returns
    at once, whatever the grid and the target: nothing is visited, the
    path is empty and [success] is [false]. *)
Theorem walled_start_visits_nothing : forall search,
  In search sixSearches ->
  forall g s e fuel,
    is_wall (getNode g s) = true -> 2 <= fuel ->
    exists g', search fuel g s e = Some (mkResult [] [] false, g').
Proof.
  intros search Hin g s e fuel Hw Hf.
  assert (Hfive : forall L,
            In L [bfs_loop; dfs_loop; ucs_loop; astar_loop; greedy_loop] ->
            exists g', search_of L fuel g s e
                       = Some (mkResult [] [] false, g')).
  { intros L HL.
    destruct (loops_walled L HL g s e fuel Hw Hf) as [g' [E _]].
    exists g'; unfold search_of; rewrite E; reflexivity. }
  unfold sixSearches in Hin; simpl in Hin.
  destruct Hin as [<-|[<-|[<-|[<-|[<-|[<-|[]]]]]]].
  - apply (Hfive bfs_loop); simpl; auto.
  - apply (Hfive dfs_loop); simpl; auto.
  - apply (Hfive ucs_loop); simpl; auto.
  - apply (Hfive astar_loop); simpl; auto.
  - apply (Hfive greedy_loop); simpl; auto 6.
  - unfold iterativeDeepening.
    apply iterativeDeepening_loop_walled; [assumption|lia].
Qed.

Lemma walled_start_visits_nothing_witness :
  In dfs sixSearches /\
  is_wall (getNode gateGrid (0, 3)) = true /\ 2 <= 5 /\
  exists g', dfs 5 gateGrid (0, 3) (1, 4) = Some (mkResult [] [] false, g').
Proof.
  assert (H1 : In dfs sixSearches) by (simpl; auto).
  assert (H2 : is_wall (getNode gateGrid (0, 3)) = true) by reflexivity.
  assert (H3 : 2 <= 5) by lia.
  split; [assumption|].
  split; [assumption|].
  split; [assumption|].
  exact (walled_start_visits_nothing dfs H1 gateGrid (0, 3) (1, 4) 5 H2 H3).
Defined.

(** X10. When the target is the start node itself, a cell of the grid
    that is not a wall, each of the six searches returns from a fresh
    scratch state with [success = true], having visited that one node, and
    with the path that consists of it. *)
Theorem start_is_target : forall search,
  In search sixSearches ->
  forall g s fuel,
    fresh g = true -> inGrid g s = true ->
    is_wall (getNode g s) = false -> 1 <= fuel ->
    exists g', search fuel g s s = Some (mkResult [s] [s] true, g').
Proof.
  intros search Hin g s fuel HF HG Hw Hf.
  unfold sixSearches in Hin; simpl in Hin.
  destruct Hin as [<-|[<-|[<-|[<-|[<-|[<-|[]]]]]]];
    try (apply five_at_target; simpl; auto 6; fail).
  apply iterativeDeepening_at_target; assumption.
Qed.

Lemma start_is_target_witness :
  In astar sixSearches /\
  fresh gateGrid = true /\ inGrid gateGrid (1, 1) = true /\
  is_wall (getNode gateGrid (1, 1)) = false /\ 1 <= 3 /\
  exists g',
    astar 3 gateGrid (1, 1) (1, 1)
    = Some (mkResult [(1, 1)] [(1, 1)] true, g').
Proof.
  assert (H1 : In astar sixSearches) by (simpl; auto).
  assert (H2 : fresh gateGrid = true) by reflexivity.
  assert (H3 : inGrid gateGrid (1, 1) = true) by reflexivity.
  assert (H4 : is_wall (getNode gateGrid (1, 1)) = false) by reflexivity.
  assert (H5 : 1 <= 3) by lia.
  repeat (split; [assumption|]).
  exact (start_is_target astar H1 gateGrid (1, 1) 3 H2 H3 H4 H5).
Defined.

(** X11. From a fresh scratch state, the visit order that [bfs], [dfs],
    [uniformCostSearch], [astar] and [greedyBFS] return holds only cells
    that a path of the grid joins to the start; on success the target is
    its last node and occurs nowhere before, on failure the target is not
    in it; and every cell of the returned path is one of the visited
    cells. *)
Theorem visit_order_and_path : forall search,
  In search [bfs; dfs; uniformCostSearch; astar; greedyBFS] ->
  forall fuel g s e r g',
    rectangular g = true -> inGrid g s = true -> fresh g = true ->
    search fuel g s e = Some (r, g') ->
    (forall p, In p (visitedNodesInOrder r) ->
       exists l, is_path g s p l = true) /\
    (success r = true ->
       exists t, visitedNodesInOrder r = t ++ [e] /\ ~ In e t) /\
    (success r = false -> ~ In e (visitedNodesInOrder r)) /\
    incl (shortestPath r) (visitedNodesInOrder r).
Proof.
  intros search Hin fuel g s e r g' HR HG HF H.
  assert (Hfive : forall L,
            In L [bfs_loop; dfs_loop; ucs_loop; astar_loop; greedy_loop] ->
            search = search_of L ->
            (forall p, In p (visitedNodesInOrder r) ->
               exists l, is_path g s p l = true) /\
            (success r = true ->
               exists t, visitedNodesInOrder r = t ++ [e] /\ ~ In e t) /\
            (success r = false -> ~ In e (visitedNodesInOrder r)) /\
            incl (shortestPath r) (visitedNodesInOrder r)).
  { intros L HL E; rewrite E in H.
    apply (search_visits L (five_loop_visits L HL) fuel g s e r g');
      assumption. }
  simpl in Hin; destruct Hin as [E|[E|[E|[E|[E|[]]]]]]; symmetry in E.
  - apply (Hfive bfs_loop); simpl; auto.
  - apply (Hfive dfs_loop); simpl; auto.
  - apply (Hfive ucs_loop); simpl; auto.
  - apply (Hfive astar_loop); simpl; auto.
  - apply (Hfive greedy_loop); simpl; auto 6.
Qed.

Lemma visit_order_and_path_witness :
  In dfs [bfs; dfs; uniformCostSearch; astar; greedyBFS] /\
  rectangular gateGrid = true /\ inGrid gateGrid (1, 1) = true /\
  fresh gateGrid = true /\
  run_success (dfs 16 gateGrid (1, 1) (1, 4)) = true /\
  incl (run_path (dfs 16 gateGrid (1, 1) (1, 4)))
       (run_visited (dfs 16 gateGrid (1, 1) (1, 4))).
Proof.
  assert (H1 : In dfs [bfs; dfs; uniformCostSearch; astar; greedyBFS])
    by (simpl; auto).
  assert (H2 : rectangular gateGrid = true) by reflexivity.
  assert (H3 : inGrid gateGrid (1, 1) = true) by reflexivity.
  assert (H4 : fresh gateGrid = true) by reflexivity.
  do 4 (split; [assumption|]).
  split; [reflexivity|].
  destruct (dfs 16 gateGrid (1, 1) (1, 4)) as [[r g']|] eqn:E;
    [|intros x []].
  exact (proj2 (proj2 (proj2
    (visit_order_and_path dfs H1 16 gateGrid (1, 1) (1, 4) r g'
       H2 H3 H4 E)))).
Defined.

(** X12. [dfs] is complete: from a fresh scratch state, whenever a path
    of the grid joins the start to the target, [dfs] returns with
    [success = true] and a path from the start to the target.  So is
    [greedyBFS] when, besides, the heuristic of every cell of the grid is
    [Infinity] at the call, as the reset of [visualizeAlgorithm] leaves
    it. *)
Theorem dfs_and_greedy_find_a_path : forall g s e l,
  rectangular g = true -> inGrid g s = true -> fresh g = true ->
  is_path g s e l = true ->
  (exists r g',
     Returns (fun fuel => dfs fuel g s e) (r, g') /\
     success r = true /\ is_path g s e (shortestPath r) = true) /\
  ((forall p, inGrid g p = true -> heuristic (getNode g p) = Infinity) ->
   exists r g',
     Returns (fun fuel => greedyBFS fuel g s e) (r, g') /\
     success r = true /\ is_path g s e (shortestPath r) = true).
Proof.
  intros g s e l HR HG HF Hl.
  destruct loops_monotone as [_ [M2 [_ [M4 _]]]].
  split.
  - apply (search_complete dfs_loop (fun g => S (cells g)) M2
             dfs_loop_stops dfs_loop_links g s e l); auto.
    intros fuel o H; apply (dfs_loop_complete g s e fuel); assumption.
  - intros Hh.
    apply (search_complete greedy_loop (fun g => cells g + 1) M4
             greedy_loop_stops greedy_loop_links g s e l); auto.
    intros fuel o H; apply (greedy_loop_complete g s e fuel); assumption.
Qed.

Lemma dfs_and_greedy_find_a_path_witness :
  rectangular (resetForRun gateGrid) = true /\
  inGrid (resetForRun gateGrid) (1, 1) = true /\
  fresh (resetForRun gateGrid) = true /\
  is_path (resetForRun gateGrid) (1, 1) (1, 4)
    [(1, 1); (1, 2); (1, 3); (1, 4)] = true /\
  (forall p, inGrid (resetForRun gateGrid) p = true ->
     heuristic (getNode (resetForRun gateGrid) p) = Infinity) /\
  exists r g',
    Returns (fun fuel => greedyBFS fuel (resetForRun gateGrid) (1, 1) (1, 4))
            (r, g') /\
    success r = true /\
    is_path (resetForRun gateGrid) (1, 1) (1, 4) (shortestPath r) = true.
Proof.
  assert (H1 : rectangular (resetForRun gateGrid) = true) by reflexivity.
  assert (H2 : inGrid (resetForRun gateGrid) (1, 1) = true) by reflexivity.
  assert (H3 : fresh (resetForRun gateGrid) = true) by reflexivity.
  assert (H4 : is_path (resetForRun gateGrid) (1, 1) (1, 4)
                 [(1, 1); (1, 2); (1, 3); (1, 4)] = true) by reflexivity.
  assert (H5 : forall p, inGrid (resetForRun gateGrid) p = true ->
                 heuristic (getNode (resetForRun gateGrid) p) = Infinity).
  { intros p Hp; apply in_allCells in Hp.
    assert (Hall : forallb
              (fun q => num_is_infinity
                          (heuristic (getNode (resetForRun gateGrid) q)))
              (allCells (resetForRun gateGrid)) = true) by reflexivity.
    rewrite forallb_forall in Hall; specialize (Hall p Hp).
    destruct (heuristic (getNode (resetForRun gateGrid) p));
      [discriminate|reflexivity]. }
  do 5 (split; [assumption|]).
  exact (proj2 (dfs_and_greedy_find_a_path (resetForRun gateGrid)
                  (1, 1) (1, 4) _ H1 H2 H3 H4) H5).
Defined.

(** X13. On a grid without walls, rectangular and fresh, the path that
    [bfs], [uniformCostSearch] and [astar] return between two cells of the
    grid has one cell more than their Manhattan distance: they succeed,
    and [length shortestPath = |dr| + |dc| + 1]. *)
Theorem open_grid_path_length : forall search,
  In search [bfs; uniformCostSearch; astar] ->
  forall g s e,
    rectangular g = true -> fresh g = true ->
    inGrid g s = true -> inGrid g e = true ->
    (forall p, inGrid g p = true -> is_wall (getNode g p) = false) ->
    exists r g',
      Returns (fun fuel => search fuel g s e) (r, g') /\
      success r = true /\
      manhattanDistance s e = Fin (Z.of_nat (length (shortestPath r)) - 1).
Proof.
  intros search Hin g s e HR HF Hs He Hopen.
  destruct (three_loops search Hin) as [L [bound [-> [HM [HS HO]]]]].
  assert (Hsh := open_shortest g s e Hopen Hs He).
  destruct (search_optimal L bound HM HS HO g s e HR Hs HF _ Hsh)
    as [r [g' [Hret [Hsucc Hlen]]]].
  exists r, g'; split; [assumption|split; [assumption|]].
  rewrite Hlen, manhattanDistance_manhattan; f_equal.
  assert (Hpos : (0 <= manhattan s e)%Z) by (unfold manhattan; lia).
  replace (manhattan e s) with (manhattan s e)
    by (destruct s, e; unfold manhattan; simpl; lia).
  lia.
Qed.

Lemma open_grid_path_length_witness :
  In astar [bfs; uniformCostSearch; astar] /\
  rectangular plainGrid = true /\ fresh plainGrid = true /\
  inGrid plainGrid (0, 0) = true /\ inGrid plainGrid (1, 2) = true /\
  (forall p, inGrid plainGrid p = true ->
     is_wall (getNode plainGrid p) = false) /\
  exists r g',
    Returns (fun fuel => astar fuel plainGrid (0, 0) (1, 2)) (r, g') /\
    success r = true /\
    manhattanDistance (0, 0) (1, 2)
    = Fin (Z.of_nat (length (shortestPath r)) - 1).
Proof.
  assert (H1 : In astar [bfs; uniformCostSearch; astar]) by (simpl; auto).
  assert (H2 : rectangular plainGrid = true) by reflexivity.
  assert (H3 : fresh plainGrid = true) by reflexivity.
  assert (H4 : inGrid plainGrid (0, 0) = true) by reflexivity.
  assert (H5 : inGrid plainGrid (1, 2) = true) by reflexivity.
  assert (H6 : forall p, inGrid plainGrid p = true ->
                 is_wall (getNode plainGrid p) = false).
  { intros p Hp; apply in_allCells in Hp.
    assert (Hall : forallb (fun q => negb (is_wall (getNode plainGrid q)))
                     (allCells plainGrid) = true) by reflexivity.
    rewrite forallb_forall in Hall; apply negb_true_iff, Hall; assumption. }
  do 6 (split; [assumption|]).
  exact (open_grid_path_length astar H1 plainGrid (0, 0) (1, 2)
           H2 H3 H4 H5 H6).
Defined.

(* ================================================================== *)
(** * Further properties: the [Grid] component *)
(* ================================================================== *)

(** X14. Whatever the user does with the buttons and the mouse (on cells
    of the grid) and whichever timeouts the browser runs after the
    component is mounted with at least one row and one column: the grid
    keeps its [rows] by [cols] cells, rectangular and with a fresh scratch
    state; [startPos] and [endPos] are cells of it; a cell of kind start
    is found at [startPos] only and one of kind end at [endPos] only; and
    every search that a pending timeout will run gets a rectangular fresh
    grid with its start and end nodes inside it. *)
Theorem editing_keeps_the_board : forall fuel actions p ed,
  1 <= rows p -> 1 <= cols p ->
  forallb (onCell (rows p) (cols p)) actions = true ->
  acts fuel actions (mountEditor p) = Some ed ->
  nrows (grid (fst ed)) = rows p /\ ncols (grid (fst ed)) = cols p /\
  rectangular (grid (fst ed)) = true /\ fresh (grid (fst ed)) = true /\
  inGrid (grid (fst ed)) (startPos (fst ed)) = true /\
  inGrid (grid (fst ed)) (endPos (fst ed)) = true /\
  placed (fst ed) /\
  (forall t g s e,
     In t (timers (fst ed)) -> callback t = RunSearch g s e ->
     rectangular g = true /\ fresh g = true /\
     inGrid g s = true /\ inGrid g e = true).
Proof.
  intros fuel actions p ed Hr Hc Hl E.
  assert (HB : board p (fst ed)).
  { apply (board_acts p fuel actions (mountEditor p) ed); auto.
    apply board_mount; assumption. }
  destruct HB as [B1 [B2 [B3 [B4 [B5 [B6 B7]]]]]].
  assert (Hin : forall g q, shape g = repeat (cols p) (rows p) ->
                  onBoard p q -> inGrid g q = true).
  { intros g q Hs [Hq1 Hq2].
    destruct (shape_dims g (rows p) (cols p) Hs Hr) as [D1 [D2 _]].
    unfold inGrid; rewrite D1, D2.
    apply andb_true_iff; split; apply Nat.ltb_lt; assumption. }
  destruct (shape_dims (grid (fst ed)) (rows p) (cols p) B2 Hr)
    as [D1 [D2 _]].
  unfold searchable in B3; apply andb_true_iff in B3; destruct B3 as [R F].
  do 7 (split; [auto|]).
  intros t g s e Ht Hcb.
  destruct (B7 t Ht g s e Hcb) as [S1 [S2 [S3 S4]]].
  unfold searchable in S1; apply andb_true_iff in S1; destruct S1 as [R1 F1].
  auto.
Qed.

Lemma editing_keeps_the_board_witness :
  1 <= rows demoProps /\ 1 <= cols demoProps /\
  forallb (onCell (rows demoProps) (cols demoProps)) demoEdit = true /\
  layout (grid (fst (edited (acts 50 demoEdit (mountEditor demoProps)))))
  = [[Frontier; Frontier; Wall; Wall];
     [Frontier; Visited; Frontier; EndCell];
     [Frontier; Start; Frontier; Frontier]] /\
  startPos (fst (edited (acts 50 demoEdit (mountEditor demoProps))))
  = (2, 1) /\
  placed (fst (edited (acts 50 demoEdit (mountEditor demoProps)))).
Proof.
  assert (H1 : 1 <= rows demoProps) by (simpl; lia).
  assert (H2 : 1 <= cols demoProps) by (simpl; lia).
  assert (H3 : forallb (onCell (rows demoProps) (cols demoProps)) demoEdit
               = true) by reflexivity.
  assert (H4 : acts 50 demoEdit (mountEditor demoProps)
               = Some (edited (acts 50 demoEdit (mountEditor demoProps))))
    by (vm_compute; reflexivity).
  split; [assumption|split; [assumption|split; [assumption|]]].
  split; [vm_compute; reflexivity|].
  split; [vm_compute; reflexivity|].
  exact (proj1 (proj2 (proj2 (proj2 (proj2 (proj2 (proj2
    (editing_keeps_the_board 50 demoEdit demoProps _ H1 H2 H3 H4)))))))).
Defined.

(** X15. Dragging the start node with the mouse.  (a) When the start is
    dragged over a cell [w] of the grid that is not the end cell and then
    on to another cell, [w] becomes the start cell and then an empty
    cell, whatever it was before: a wall under the drag is erased.
    (b) When the start cell is pressed, dragged onto the end cell and
    released, the grid has no start cell any more, although [startPos]
    still names the old cell, now empty, from which the next search will
    start. *)
Theorem dragging_the_start :
  (forall c d w q,
     isMovingStart d = true -> inStore (grid c) w ->
     type (getNode (grid c) w) <> EndCell -> w <> q ->
     type (getNode
             (grid (fst (handleMouseEnter (fst w) (snd w) (c, d)))) w)
     = Start /\
     startPos (fst (handleMouseEnter (fst w) (snd w) (c, d))) = w /\
     type (getNode
             (grid (fst (handleMouseEnter (fst q) (snd q)
                           (handleMouseEnter (fst w) (snd w) (c, d))))) w)
     = Empty) /\
  (forall c d,
     placed c -> inStore (grid c) (startPos c) ->
     type (getNode (grid c) (startPos c)) = Start ->
     type (getNode (grid c) (endPos c)) = EndCell ->
     cellsOf Start
       (grid (fst (handleMouseUp
                     (handleMouseEnter (fst (endPos c)) (snd (endPos c))
                        (handleMouseDown (fst (startPos c))
                           (snd (startPos c)) (c, d))))))
     = [] /\
     startPos
       (fst (handleMouseUp
               (handleMouseEnter (fst (endPos c)) (snd (endPos c))
                  (handleMouseDown (fst (startPos c))
                     (snd (startPos c)) (c, d)))))
     = startPos c /\
     type (getNode
             (grid (fst (handleMouseUp
                           (handleMouseEnter (fst (endPos c))
                              (snd (endPos c))
                              (handleMouseDown (fst (startPos c))
                                 (snd (startPos c)) (c, d))))))
             (startPos c))
     = Empty).
Proof.
  split.
  - intros c d [wr wc] [qr qc] Hd HS Hw Hne; cbn [fst snd].
    set (w := (wr, wc)) in *; set (q := (qr, qc)) in *.
    set (newGrid := setType (grid c) (startPos c) Empty).
    assert (HS1 : inStore newGrid w)
      by (apply (proj2 (inStore_setNode _ _ _ _)); assumption).
    assert (E1 : CellType_eqb (type (getNode newGrid w)) EndCell = false).
    { destruct (type_setType (grid c) (startPos c) w Empty) as [E|[_ E]];
        fold newGrid in E; rewrite E; [|reflexivity].
      destruct (type (getNode (grid c) w)); try reflexivity.
      contradiction Hw; reflexivity. }
    assert (Hfirst : handleMouseEnter wr wc (c, d)
                     = (setStartPos w (setGrid (setType newGrid w Start) c),
                        d)).
    { unfold handleMouseEnter; rewrite Hd; fold newGrid; fold w.
      rewrite E1; reflexivity. }
    rewrite Hfirst; cbn [fst]; fields.
    split; [apply setType_same; assumption|split; [reflexivity|]].
    unfold handleMouseEnter; rewrite Hd; fields; fold q.
    set (g2 := setType (setType newGrid w Start) w Empty).
    assert (E2 : type (getNode g2 w) = Empty).
    { apply setType_same.
      apply (proj2 (inStore_setNode _ _ _ _)); assumption. }
    destruct (negb (CellType_eqb (type (getNode g2 q)) EndCell));
      cbn [fst]; fields; [|assumption].
    rewrite setType_other by assumption; assumption.
  - intros c d HP HS Hs He.
    assert (Hdown : handleMouseDown (fst (startPos c)) (snd (startPos c))
                      (c, d)
                    = (c, mkDrag false (isDrawingWall d) true
                            (isMovingEnd d))).
    { unfold handleMouseDown.
      rewrite <- surjective_pairing, Hs; reflexivity. }
    rewrite Hdown.
    set (newGrid := setType (grid c) (startPos c) Empty).
    assert (Hne : endPos c <> startPos c) by (intros E; congruence).
    assert (Henter : handleMouseEnter (fst (endPos c)) (snd (endPos c))
                       (c, mkDrag false (isDrawingWall d) true
                             (isMovingEnd d))
                     = (setGrid newGrid c,
                        mkDrag false (isDrawingWall d) true (isMovingEnd d))).
    { unfold handleMouseEnter; cbn [isMovingStart]; fold newGrid.
      rewrite <- surjective_pairing.
      unfold newGrid; rewrite setType_other by assumption.
      rewrite He; reflexivity. }
    rewrite Henter; cbn [handleMouseUp fst]; fields.
    assert (E0 : type (getNode newGrid (startPos c)) = Empty)
      by (apply setType_same; assumption).
    split; [|split; [reflexivity|assumption]].
    unfold cellsOf; apply filter_none; intros q _.
    destruct (pos_eq_dec q (startPos c)) as [->|Hq];
      [rewrite E0; reflexivity|].
    unfold newGrid; rewrite setType_other by assumption.
    destruct (type (getNode (grid c) q)) eqn:Eq; try reflexivity.
    contradiction Hq; apply HP; assumption.
Qed.

Lemma dragging_the_start_witness :
  placed (mount demoProps) /\
  inStore (grid (mount demoProps)) (startPos (mount demoProps)) /\
  type (getNode (grid (mount demoProps)) (startPos (mount demoProps)))
  = Start /\
  type (getNode (grid (mount demoProps)) (endPos (mount demoProps)))
  = EndCell /\
  layout (grid (fst (handleMouseUp
                       (handleMouseEnter 1 3
                          (handleMouseDown 1 1 (mountEditor demoProps))))))
  = [[Empty; Empty; Empty; Empty];
     [Empty; Empty; Empty; EndCell];
     [Empty; Empty; Empty; Empty]] /\
  cellsOf Start
    (grid (fst (handleMouseUp
                  (handleMouseEnter 1 3
                     (handleMouseDown 1 1 (mountEditor demoProps))))))
  = [].
Proof.
  assert (H1 : placed (mount demoProps)).
  { intros q; apply (placed_resetGrid 3 4 q); lia. }
  assert (H2 : inStore (grid (mount demoProps)) (startPos (mount demoProps)))
    by (split; simpl; lia).
  assert (H3 : type (getNode (grid (mount demoProps))
                       (startPos (mount demoProps))) = Start)
    by reflexivity.
  assert (H4 : type (getNode (grid (mount demoProps))
                       (endPos (mount demoProps))) = EndCell)
    by reflexivity.
  do 4 (split; [assumption|]).
  split; [reflexivity|].
  exact (proj1 (proj2 dragging_the_start (mount demoProps)
                  (mkDrag false true false false) H1 H2 H3 H4)).
Defined.

(** X16. An animation that runs undisturbed ends.  Take an animation that
    [animateAlgorithm] has scheduled in a component with nothing else
    pending and no cell displayed as visited, for a visit order without
    duplicates and a path that lie in the grid.  When the browser has run
    its [length visited + length path + 2] timeouts, the component is
    finished, cannot be paused, has dropped its animation data, and
    nothing is pending or will ever run; no cell is displayed as frontier
    any more; every path node that is neither the start nor the end node
    is displayed as path; and off the path the cells displayed as visited
    are exactly the visited nodes that are neither the start nor the end
    node. *)
Theorem uninterrupted_run_completes :
  forall fuel searched visited path c,
    timers c = [] ->
    NoDup visited ->
    forallb (inGrid (grid c)) visited = true ->
    forallb (inGrid (grid c)) path = true ->
    rectangular (grid c) = true ->
    visitedCells (grid c) = [] ->
    exists cf,
      fires fuel (length visited + length path + 2)
        (animateAlgorithm searched visited path c) = Some cf /\
      phase cf = Finished /\ canPause cf = false /\
      animationData cf = None /\ timers cf = [] /\
      (forall n, fires fuel n cf = Some cf) /\
      cellsOf Frontier (grid cf) = [] /\
      (forall q, In q path ->
         notStartOrEnd (type (getNode searched q)) = true ->
         type (getNode (grid cf) q) = Path) /\
      (forall q, inGrid (grid c) q = true -> ~ In q path ->
         (type (getNode (grid cf) q) = Visited <->
          In q visited /\
          notStartOrEnd (type (getNode searched q)) = true)).
Proof.
  intros fuel searched visited path c Hq Hnd Hv Hp HR Hclean.
  destruct (playback_complete fuel searched visited path c Hq)
    as [cf [Hf [Hg [Ht [F1 [F2 [F3 [F4 F5]]]]]]]].
  set (g1 := clearFrontiers
               (played searched visited (length visited) (grid c))) in *.
  assert (Hs1 : shape g1 = shape (grid c)).
  { unfold g1, clearFrontiers; rewrite shape_map; apply shape_played. }
  exists cf; split; [assumption|].
  split; [unfold phase; rewrite F1, F4; reflexivity|].
  split; [assumption|split; [assumption|split; [assumption|]]].
  split; [intros n; apply fires_idle; assumption|].
  rewrite Hg; split; [|split].
  - unfold cellsOf; apply filter_none; intros q _.
    destruct (drawn_kinds searched path g1 q) as [E|[E _]]; rewrite E;
      [|reflexivity].
    unfold g1; rewrite clearFrontiers_kinds.
    destruct (type (getNode (played searched visited (length visited)
                               (grid c)) q)); reflexivity.
  - intros q Hin Hn; apply drawn_path; [assumption|assumption|].
    apply (shape_inStore (grid c)); [symmetry; assumption|].
    apply inGrid_inStore; [assumption|].
    rewrite forallb_forall in Hp; apply Hp; assumption.
  - intros q Hin Hnp; rewrite (drawn_other searched path g1 q Hnp).
    unfold g1; rewrite clearFrontiers_kinds.
    assert (Hpv := played_visited searched visited (grid c) Hnd Hv HR Hclean
                     (length visited) q Hin).
    assert (Hrev : In q (revealed searched visited (length visited)) <->
                   In q visited /\
                   notStartOrEnd (type (getNode searched q)) = true).
    { unfold revealed; rewrite firstn_all, filter_In; tauto. }
    rewrite <- Hrev, <- Hpv.
    destruct (type (getNode (played searched visited (length visited)
                               (grid c)) q));
      split; intros H; try discriminate; reflexivity.
Qed.

Lemma uninterrupted_run_completes_witness :
  timers (mount demoProps) = [] /\
  NoDup (run_visited demoSearch) /\
  forallb (inGrid (grid (mount demoProps))) (run_visited demoSearch) = true /\
  forallb (inGrid (grid (mount demoProps))) (run_path demoSearch) = true /\
  rectangular (grid (mount demoProps)) = true /\
  visitedCells (grid (mount demoProps)) = [] /\
  exists cf,
    fires 50 (length (run_visited demoSearch)
              + length (run_path demoSearch) + 2)
      (animateAlgorithm (run_grid demoSearch) (run_visited demoSearch)
         (run_path demoSearch) (mount demoProps))
    = Some cf /\
    phase cf = Finished /\ timers cf = [] /\
    cellsOf Frontier (grid cf) = [].
Proof.
  assert (H1 : timers (mount demoProps) = []) by reflexivity.
  assert (H2 : NoDup (run_visited demoSearch)).
  { assert (E : run_visited demoSearch
                = [(1, 1); (0, 1); (1, 2); (2, 1); (1, 0); (0, 2); (0, 0);
                   (1, 3)]) by (vm_compute; reflexivity).
    rewrite E; repeat (constructor; [simpl; intuition discriminate|]).
    constructor. }
  assert (H3 : forallb (inGrid (grid (mount demoProps)))
                       (run_visited demoSearch) = true)
    by (vm_compute; reflexivity).
  assert (H4 : forallb (inGrid (grid (mount demoProps)))
                       (run_path demoSearch) = true)
    by (vm_compute; reflexivity).
  assert (H5 : rectangular (grid (mount demoProps)) = true)
    by (vm_compute; reflexivity).
  assert (H6 : visitedCells (grid (mount demoProps)) = [])
    by (vm_compute; reflexivity).
  do 6 (split; [assumption|]).
  destruct (uninterrupted_run_completes 50 (run_grid demoSearch)
              (run_visited demoSearch) (run_path demoSearch)
              (mount demoProps) H1 H2 H3 H4 H5 H6)
    as [cf [Hf [Hph [_ [_ [Ht [_ [Hfr _]]]]]]]].
  exists cf; auto.
Defined.

(** X17. The first run of a mounted component with the greedy search
    finds nothing.  With at least one row and two columns, a path joins
    the start to the end on the grid as mounted; but
    [visualizeAlgorithm] hands the search the grid of the closure, whose
    heuristics are the [0] of [createNode], not the [Infinity] of its own
    reset: [greedyBFS] visits the start alone, and when the four timeouts
    have run the component is finished with every cell displayed as it
    was at the mount: no visited cell, no path. *)
Theorem greedy_first_run_finds_nothing : forall p fuel,
  getAlgorithmFunction (selectedAlgorithm p) = greedyBFS ->
  1 <= rows p -> 2 <= cols p -> 2 <= fuel ->
  (exists l, is_path (grid (mount p)) (startPos (mount p))
               (endPos (mount p)) l = true) /\
  exists cf,
    fires fuel 4 (visualizeAlgorithm (mount p)) = Some cf /\
    phase cf = Finished /\ timers cf = [] /\
    forall q, type (getNode (grid cf) q) = type (getNode (grid (mount p)) q).
Proof.
  intros p fuel Halg Hr Hc Hf.
  destruct (resetGrid_facts (rows p) (cols p) Hr Hc)
    as [Hne [Hs [Hw [Hv [Hh Hk]]]]].
  assert (Hc1 : 1 <= cols p) by lia.
  destruct (default_positions (rows p) (cols p) Hr Hc1) as [P1 [P2 [P3 _]]].
  destruct (shape_dims (resetGrid (rows p) (cols p)) (rows p) (cols p)
              (shape_resetGrid _ _) Hr) as [D1 [D2 _]].
  split.
  { cbn [mount grid startPos endPos].
    assert (Hin : forall r k, r < rows p -> k < cols p ->
                    inGrid (resetGrid (rows p) (cols p)) (r, k) = true).
    { intros r k H1 H2; unfold inGrid; rewrite D1, D2; simpl.
      apply andb_true_iff; split; apply Nat.ltb_lt; assumption. }
    destruct (open_shortest (resetGrid (rows p) (cols p))
                (rows p / 2, cols p / 4) (rows p / 2, (cols p * 3) / 4)
                (fun q _ => Hw q) (Hin _ _ P1 P2) (Hin _ _ P1 P3))
      as [[l [Hl _]] _].
    exists l; assumption. }
  change (fires fuel 4 (visualizeAlgorithm (mount p)))
    with (match fire fuel (visualizeAlgorithm (mount p)) with
          | Some c' => fires fuel 3 c'
          | None => None
          end).
  rewrite first_timeout; cbn [runCallback].
  set (c1 := set_now _ (set_timers [] (visualizeAlgorithm (mount p)))).
  change (props c1) with p; rewrite Halg.
  rewrite (greedy_dead_end _ _ _ Hne (Hw _) (Hv _) Hh fuel Hf).
  cbn [visitedNodesInOrder shortestPath].
  set (g' := setNode _ _ (set_isVisited true)).
  destruct (playback_complete fuel g' [(rows p / 2, cols p / 4)] [] c1
              eq_refl) as [cf [Hfires [Hg [Ht [F1 [F2 [F3 [F4 F5]]]]]]]].
  exists cf; split; [exact Hfires|].
  split; [unfold phase; rewrite F1, F4; reflexivity|].
  split; [assumption|].
  intros q; rewrite Hg; cbn [drawn fold_left length played nth_error].
  assert (Hstart : notStartOrEnd (type (getNode g' (rows p / 2, cols p / 4)))
                   = false).
  { unfold g'; rewrite !(field_setNode _ type) by reflexivity.
    rewrite Hs; reflexivity. }
  rewrite Hstart, clearFrontiers_kinds.
  change (grid c1) with (resetForRun (resetGrid (rows p) (cols p))).
  rewrite type_resetForRun; cbn [mount grid].
  destruct (type (getNode (resetGrid (rows p) (cols p)) q)) eqn:Eq;
    try reflexivity;
    rewrite (Hk q) in Eq by (rewrite Eq; reflexivity); discriminate.
Qed.

Lemma greedy_first_run_finds_nothing_witness :
  getAlgorithmFunction (selectedAlgorithm greedyProps) = greedyBFS /\
  1 <= rows greedyProps /\ 2 <= cols greedyProps /\ 2 <= 50 /\
  shown (fires 50 4 (visualizeAlgorithm (mount greedyProps)))
  = [[Empty; Empty; Empty; Empty];
     [Empty; Start; Empty; EndCell];
     [Empty; Empty; Empty; Empty]] /\
  exists cf,
    fires 50 4 (visualizeAlgorithm (mount greedyProps)) = Some cf /\
    phase cf = Finished.
Proof.
  assert (H1 : getAlgorithmFunction (selectedAlgorithm greedyProps)
               = greedyBFS) by reflexivity.
  assert (H2 : 1 <= rows greedyProps) by (simpl; lia).
  assert (H3 : 2 <= cols greedyProps) by (simpl; lia).
  assert (H4 : 2 <= 50) by lia.
  do 4 (split; [assumption|]).
  split; [vm_compute; reflexivity|].
  destruct (proj2 (greedy_first_run_finds_nothing greedyProps 50
                     H1 H2 H3 H4)) as [cf [Hf [Hp _]]].
  exists cf; auto.
Defined.

(** X18. Stopping before the search has run does not stop the run.  The
    timeout of 50 ms that [visualizeAlgorithm] sets is on no list, so
    [stopVisualization], called on an idle component right after
    [visualizeAlgorithm], cancels nothing: the component looks finished,
    with [animationTimeouts] empty and one timeout pending; that timeout
    runs the search and schedules the whole animation, and when all these
    timeouts have run the grid displayed is the one an undisturbed run
    displays. *)
Theorem stop_before_the_search_is_too_early : forall fuel c r g',
  timers c = [] -> isVisualizing c = false -> animationCompleted c = false ->
  getAlgorithmFunction (selectedAlgorithm (props c)) fuel
    (grid c) (startPos c) (endPos c) = Some (r, g') ->
  phase (stopVisualization (visualizeAlgorithm c)) = Finished /\
  animationTimeouts (stopVisualization (visualizeAlgorithm c)) = [] /\
  length (timers (stopVisualization (visualizeAlgorithm c))) = 1 /\
  exists cf cf',
    fires fuel
      (S (length (visitedNodesInOrder r) + length (shortestPath r) + 2))
      (stopVisualization (visualizeAlgorithm c)) = Some cf /\
    fires fuel
      (S (length (visitedNodesInOrder r) + length (shortestPath r) + 2))
      (visualizeAlgorithm c) = Some cf' /\
    grid cf = grid cf' /\
    grid cf
    = drawn g' (shortestPath r)
        (clearFrontiers
           (played g' (visitedNodesInOrder r)
              (length (visitedNodesInOrder r)) (resetForRun (grid c)))) /\
    timers cf = [] /\ phase cf = Finished.
Proof.
  intros fuel c r g' Ht Hv Ha Halg.
  destruct (visualizeAlgorithm_idle c Ht Hv Ha) as [V1 [V2 [V3 V4]]].
  destruct (stopVisualization_fields (visualizeAlgorithm c))
    as [S1 [S2 [_ [_ S5]]]].
  assert (S6 := stopVisualization_untracked (visualizeAlgorithm c) V4).
  split; [assumption|split; [assumption|]].
  split; [rewrite S6, V1; reflexivity|].
  assert (Hrun : forall c0,
            timers c0 = timers (visualizeAlgorithm c) ->
            props c0 = props c -> grid c0 = resetForRun (grid c) ->
            exists cf,
              fires fuel
                (S (length (visitedNodesInOrder r)
                    + length (shortestPath r) + 2)) c0 = Some cf /\
              grid cf
              = drawn g' (shortestPath r)
                  (clearFrontiers
                     (played g' (visitedNodesInOrder r)
                        (length (visitedNodesInOrder r))
                        (resetForRun (grid c)))) /\
              timers cf = [] /\ phase cf = Finished).
  { intros c0 H1 H2 H3; rewrite V1 in H1.
    destruct (search_timeout_runs fuel c0 _ r g' (grid c) (startPos c)
                (endPos c) H1 eq_refl) as [c1 [Hfire [Hq Hg]]];
      [rewrite H2; assumption|].
    destruct (playback_complete fuel g' (visitedNodesInOrder r)
                (shortestPath r) c1 Hq)
      as [cf [Hf [Hgf [Htf [F1 [F2 [F3 [F4 F5]]]]]]]].
    exists cf; split; [|split; [rewrite Hgf, Hg, H3; reflexivity|]].
    - cbn [fires]; rewrite Hfire; assumption.
    - split; [assumption|unfold phase; rewrite F1, F4; reflexivity]. }
  destruct (Hrun (stopVisualization (visualizeAlgorithm c)) S6)
    as [cf [A1 [A2 [A3 A4]]]];
    [unfold stopVisualization; fields; rewrite clearAnimations_eq; fields;
     assumption
    |rewrite S1; assumption|].
  destruct (Hrun (visualizeAlgorithm c) eq_refl V3 V2)
    as [cf' [B1 [B2 _]]].
  exists cf, cf'; repeat (split; [assumption|]).
  split; [congruence|auto].
Qed.

Lemma stop_before_the_search_is_too_early_witness :
  timers (mount demoProps) = [] /\
  isVisualizing (mount demoProps) = false /\
  animationCompleted (mount demoProps) = false /\
  demoSearch
  = Some (mkResult (run_visited demoSearch) (run_path demoSearch) true,
          run_grid demoSearch) /\
  shown (fires 50 15 (stopVisualization (visualizeAlgorithm
                                            (mount demoProps))))
  = [[Visited; Visited; Visited; Empty];
     [Visited; Start; Path; EndCell];
     [Empty; Visited; Empty; Empty]] /\
  phase (stopVisualization (visualizeAlgorithm (mount demoProps)))
  = Finished.
Proof.
  assert (H1 : timers (mount demoProps) = []) by reflexivity.
  assert (H2 : isVisualizing (mount demoProps) = false) by reflexivity.
  assert (H3 : animationCompleted (mount demoProps) = false) by reflexivity.
  assert (H4 : demoSearch
               = Some (mkResult (run_visited demoSearch)
                         (run_path demoSearch) true,
                       run_grid demoSearch))
    by (vm_compute; reflexivity).
  do 4 (split; [assumption|]).
  split; [vm_compute; reflexivity|].
  exact (proj1 (stop_before_the_search_is_too_early 50 (mount demoProps)
                  _ _ H1 H2 H3 H4)).
Defined.
